(** * Screenplay parsers of movai-bk: a shallow embedding and its properties

    The development embeds the three PDF screenplay parsers of the
    repository,

    - [Hybrid]   : [HybridScriptParser]        (src/modules/scripts/parsers/page.parser.js),
    - [Document] : [DocumentBasedScriptParser] (src/modules/scripts/parsers/document.parser.js),
    - [Pdf]      : [PDFScriptParser]           (the PDF parser required by script.service.js),

    over a small model of the JavaScript strings and regular expressions
    they are written with, and states the properties of the parsing engine
    against those definitions. *)

From Stdlib Require Import String Ascii.
From Stdlib Require Import List NArith Arith Bool Lia.
Import ListNotations.

Set Implicit Arguments.

(* ===================================================================== *)
(** * JavaScript strings *)
(* ===================================================================== *)

(** A JavaScript string is a sequence of UTF-16 code units.  [length],
    [split], [trim], the regular expressions (none of them has the [u]
    flag) all work on code units, so a string is a [list N]. *)
Module JS.

Definition char := N.
Definition str := list char.

(** An ASCII literal of the source as a JavaScript string. *)
Definition js (s : string) : str :=
  map N_of_ascii (list_ascii_of_string s).

(** An ASCII character of the source as a code unit. *)
Definition ch (a : ascii) : char := N_of_ascii a.
Arguments ch a%_char.

Definition LF : char := 10%N.   (* \n *)
Definition CR : char := 13%N.   (* \r *)
Definition TAB : char := 9%N.   (* \t *)
Definition FF : char := 12%N.   (* \f *)

Local Open Scope N_scope.

Definition in_range (lo hi c : char) : bool := (lo <=? c) && (c <=? hi).

(** WhiteSpace and LineTerminator of ECMAScript: what [\s] matches and what
    [String.prototype.trim] strips. *)
Definition isWhiteSpace (c : char) : bool :=
  in_range 9 13 c || (c =? 32) || (c =? 160) || (c =? 5760)
  || in_range 8192 8202 c || (c =? 8232) || (c =? 8233)
  || (c =? 8239) || (c =? 8287) || (c =? 12288) || (c =? 65279).

(** LineTerminator: what [.] does not match. *)
Definition isLineTerminator (c : char) : bool :=
  (c =? 10) || (c =? 13) || (c =? 8232) || (c =? 8233).

Definition isUpperAZ (c : char) : bool := in_range 65 90 c.
Definition isLowerAZ (c : char) : bool := in_range 97 122 c.
Definition isDigit (c : char) : bool := in_range 48 57 c.
Definition isWordChar (c : char) : bool :=
  isUpperAZ c || isLowerAZ c || isDigit c || (c =? 95).

Local Close Scope N_scope.

Fixpoint str_eqb (a b : str) : bool :=
  match a, b with
  | [], [] => true
  | x :: a', y :: b' => (x =? y)%N && str_eqb a' b'
  | _, _ => false
  end.

(** [a.includes(x)] on an array of strings. *)
Definition arr_includes (a : list str) (x : str) : bool := existsb (str_eqb x) a.

(** JavaScript truthiness of a string: the empty string is falsy. *)
Definition truthy (s : str) : bool :=
  match s with [] => false | _ :: _ => true end.

Fixpoint dropWhile (p : char -> bool) (s : str) : str :=
  match s with
  | [] => []
  | c :: t => if p c then dropWhile p t else s
  end.

Definition trimStart (s : str) : str := dropWhile isWhiteSpace s.
Definition trimEnd (s : str) : str := rev (dropWhile isWhiteSpace (rev s)).
(** [s.trim()] *)
Definition trim (s : str) : str := trimEnd (trimStart s).

(** [s.split(c)] for a one-character separator: always at least one piece. *)
Fixpoint split (sep : char) (s : str) : list str :=
  match s with
  | [] => [[]]
  | c :: t =>
      if (c =? sep)%N then [] :: split sep t
      else match split sep t with
           | [] => [[c]]
           | p :: ps => (c :: p) :: ps
           end
  end.

(** [a.join(sep)] *)
Fixpoint join (sep : str) (a : list str) : str :=
  match a with
  | [] => []
  | [x] => x
  | x :: rest => x ++ sep ++ join sep rest
  end.

Fixpoint startsWith (s p : str) : bool :=
  match p, s with
  | [], _ => true
  | x :: p', y :: s' => (x =? y)%N && startsWith s' p'
  | _ :: _, [] => false
  end.

Definition endsWith (s p : str) : bool := startsWith (rev s) (rev p).

(** [s.includes(p)] *)
Fixpoint includes (s p : str) : bool :=
  startsWith s p || match s with [] => false | _ :: t => includes t p end.

(** [a.slice(b, e)] for [0 <= b <= e]. *)
Definition slice {A} (a : list A) (b e : nat) : list A := firstn (e - b) (skipn b a).

(** [s.substring(0, n)] *)
Definition substring0 (s : str) (n : nat) : str := firstn n s.

(** [s.replace(p, r)] with a string pattern: the first occurrence only. *)
Fixpoint replaceFirst (p r s : str) : str :=
  if startsWith s p then
    match p with
    | [] => r ++ s
    | _ :: _ => r ++ skipn (length p) s
    end
  else match s with
       | [] => []
       | c :: t => c :: replaceFirst p r t
       end.

(** ** Case conversion

    [String.prototype.toUpperCase] and [toLowerCase] read the string as code
    points (a high surrogate followed by a low one is one code point, any
    other code unit is one by itself), convert each by the full case mapping
    of the Unicode Character Database (UnicodeData.txt, the unconditional
    entries of SpecialCasing.txt and, in lower-casing, its [Final_Sigma]
    entry) and write the result back as code units.  The tables belong to
    the runtime, not to the repository: the ones below are those of Unicode
    14.0, to which later versions of the standard add letters. *)
Local Open Scope N_scope.

Definition codePoint := N.

Definition isHighSurrogate (c : char) : bool := in_range 0xD800 0xDBFF c.
Definition isLowSurrogate (c : char) : bool := in_range 0xDC00 0xDFFF c.

(** StringToCodePoints *)
Fixpoint codePoints (s : str) : list codePoint :=
  match s with
  | [] => []
  | c :: t =>
      match t with
      | d :: t' =>
          if isHighSurrogate c && isLowSurrogate d
          then (0x10000 + (c - 0xD800) * 0x400 + (d - 0xDC00)) :: codePoints t'
          else c :: codePoints t
      | [] => [c]
      end
  end.

(** UTF16EncodeCodePoint *)
Definition codeUnits (cp : codePoint) : str :=
  if cp <? 0x10000 then [cp]
  else [0xD800 + (cp - 0x10000) / 0x400; 0xDC00 + (cp - 0x10000) mod 0x400].

(** CodePointsToString *)
Definition ofCodePoints (l : list codePoint) : str := flat_map codeUnits l.

(** A run [(first, last, step, target)] of a case table: the code points
    [first], [first + step], ... up to [last] are mapped to [target],
    [target + step], ...  The runs of a table are in the order of [first]. *)
Definition caseRun : Type := codePoint * codePoint * N * codePoint.

Fixpoint inRuns (t : list caseRun) (cp : codePoint) : option codePoint :=
  match t with
  | [] => None
  | (first, last, step, target) :: rest =>
      if cp <? first then None
      else if (cp <=? last) && ((cp - first) mod step =? 0)
           then Some (target + (cp - first))
           else inRuns rest cp
  end.

(** The code points with a mapping to more than one code point, in order. *)
Fixpoint inSpecial (t : list (codePoint * list codePoint)) (cp : codePoint)
  : option (list codePoint) :=
  match t with
  | [] => None
  | (c, l) :: rest =>
      if cp <? c then None else if cp =? c then Some l else inSpecial rest cp
  end.

(** A set of code points as disjoint ranges [(first, last)], in order. *)
Fixpoint inRanges (t : list (codePoint * codePoint)) (cp : codePoint) : bool :=
  match t with
  | [] => false
  | (first, last) :: rest =>
      if cp <? first then false else (cp <=? last) || inRanges rest cp
  end.

(** Uppercase_Mapping, where it is a single code point other than the code
    point itself. *)
Definition upperRuns : list caseRun :=
  [(0x61, 0x7A, 1, 0x41); (0xB5, 0xB5, 1, 0x39C); (0xE0, 0xF6, 1, 0xC0);
   (0xF8, 0xFE, 1, 0xD8); (0xFF, 0xFF, 1, 0x178); (0x101, 0x12F, 2, 0x100);
   (0x131, 0x131, 1, 0x49); (0x133, 0x137, 2, 0x132); (0x13A, 0x148, 2, 0x139);
   (0x14B, 0x177, 2, 0x14A); (0x17A, 0x17E, 2, 0x179); (0x17F, 0x17F, 1, 0x53);
   (0x180, 0x180, 1, 0x243); (0x183, 0x185, 2, 0x182);
   (0x188, 0x188, 1, 0x187); (0x18C, 0x18C, 1, 0x18B);
   (0x192, 0x192, 1, 0x191); (0x195, 0x195, 1, 0x1F6);
   (0x199, 0x199, 1, 0x198); (0x19A, 0x19A, 1, 0x23D);
   (0x19E, 0x19E, 1, 0x220); (0x1A1, 0x1A5, 2, 0x1A0);
   (0x1A8, 0x1A8, 1, 0x1A7); (0x1AD, 0x1AD, 1, 0x1AC);
   (0x1B0, 0x1B0, 1, 0x1AF); (0x1B4, 0x1B6, 2, 0x1B3);
   (0x1B9, 0x1B9, 1, 0x1B8); (0x1BD, 0x1BD, 1, 0x1BC);
   (0x1BF, 0x1BF, 1, 0x1F7); (0x1C5, 0x1C5, 1, 0x1C4);
   (0x1C6, 0x1C6, 1, 0x1C4); (0x1C8, 0x1C8, 1, 0x1C7);
   (0x1C9, 0x1C9, 1, 0x1C7); (0x1CB, 0x1CB, 1, 0x1CA);
   (0x1CC, 0x1CC, 1, 0x1CA); (0x1CE, 0x1DC, 2, 0x1CD);
   (0x1DD, 0x1DD, 1, 0x18E); (0x1DF, 0x1EF, 2, 0x1DE);
   (0x1F2, 0x1F2, 1, 0x1F1); (0x1F3, 0x1F3, 1, 0x1F1);
   (0x1F5, 0x1F5, 1, 0x1F4); (0x1F9, 0x21F, 2, 0x1F8);
   (0x223, 0x233, 2, 0x222); (0x23C, 0x23C, 1, 0x23B);
   (0x23F, 0x240, 1, 0x2C7E); (0x242, 0x242, 1, 0x241);
   (0x247, 0x24F, 2, 0x246); (0x250, 0x250, 1, 0x2C6F);
   (0x251, 0x251, 1, 0x2C6D); (0x252, 0x252, 1, 0x2C70);
   (0x253, 0x253, 1, 0x181); (0x254, 0x254, 1, 0x186);
   (0x256, 0x257, 1, 0x189); (0x259, 0x259, 1, 0x18F);
   (0x25B, 0x25B, 1, 0x190); (0x25C, 0x25C, 1, 0xA7AB);
   (0x260, 0x260, 1, 0x193); (0x261, 0x261, 1, 0xA7AC);
   (0x263, 0x263, 1, 0x194); (0x265, 0x265, 1, 0xA78D);
   (0x266, 0x266, 1, 0xA7AA); (0x268, 0x268, 1, 0x197);
   (0x269, 0x269, 1, 0x196); (0x26A, 0x26A, 1, 0xA7AE);
   (0x26B, 0x26B, 1, 0x2C62); (0x26C, 0x26C, 1, 0xA7AD);
   (0x26F, 0x26F, 1, 0x19C); (0x271, 0x271, 1, 0x2C6E);
   (0x272, 0x272, 1, 0x19D); (0x275, 0x275, 1, 0x19F);
   (0x27D, 0x27D, 1, 0x2C64); (0x280, 0x280, 1, 0x1A6);
   (0x282, 0x282, 1, 0xA7C5); (0x283, 0x283, 1, 0x1A9);
   (0x287, 0x287, 1, 0xA7B1); (0x288, 0x288, 1, 0x1AE);
   (0x289, 0x289, 1, 0x244); (0x28A, 0x28B, 1, 0x1B1);
   (0x28C, 0x28C, 1, 0x245); (0x292, 0x292, 1, 0x1B7);
   (0x29D, 0x29D, 1, 0xA7B2); (0x29E, 0x29E, 1, 0xA7B0);
   (0x345, 0x345, 1, 0x399); (0x371, 0x373, 2, 0x370);
   (0x377, 0x377, 1, 0x376); (0x37B, 0x37D, 1, 0x3FD);
   (0x3AC, 0x3AC, 1, 0x386); (0x3AD, 0x3AF, 1, 0x388);
   (0x3B1, 0x3C1, 1, 0x391); (0x3C2, 0x3C2, 1, 0x3A3);
   (0x3C3, 0x3CB, 1, 0x3A3); (0x3CC, 0x3CC, 1, 0x38C);
   (0x3CD, 0x3CE, 1, 0x38E); (0x3D0, 0x3D0, 1, 0x392);
   (0x3D1, 0x3D1, 1, 0x398); (0x3D5, 0x3D5, 1, 0x3A6);
   (0x3D6, 0x3D6, 1, 0x3A0); (0x3D7, 0x3D7, 1, 0x3CF);
   (0x3D9, 0x3EF, 2, 0x3D8); (0x3F0, 0x3F0, 1, 0x39A);
   (0x3F1, 0x3F1, 1, 0x3A1); (0x3F2, 0x3F2, 1, 0x3F9);
   (0x3F3, 0x3F3, 1, 0x37F); (0x3F5, 0x3F5, 1, 0x395);
   (0x3F8, 0x3F8, 1, 0x3F7); (0x3FB, 0x3FB, 1, 0x3FA);
   (0x430, 0x44F, 1, 0x410); (0x450, 0x45F, 1, 0x400);
   (0x461, 0x481, 2, 0x460); (0x48B, 0x4BF, 2, 0x48A);
   (0x4C2, 0x4CE, 2, 0x4C1); (0x4CF, 0x4CF, 1, 0x4C0);
   (0x4D1, 0x52F, 2, 0x4D0); (0x561, 0x586, 1, 0x531);
   (0x10D0, 0x10FA, 1, 0x1C90); (0x10FD, 0x10FF, 1, 0x1CBD);
   (0x13F8, 0x13FD, 1, 0x13F0); (0x1C80, 0x1C80, 1, 0x412);
   (0x1C81, 0x1C81, 1, 0x414); (0x1C82, 0x1C82, 1, 0x41E);
   (0x1C83, 0x1C84, 1, 0x421); (0x1C85, 0x1C85, 1, 0x422);
   (0x1C86, 0x1C86, 1, 0x42A); (0x1C87, 0x1C87, 1, 0x462);
   (0x1C88, 0x1C88, 1, 0xA64A); (0x1D79, 0x1D79, 1, 0xA77D);
   (0x1D7D, 0x1D7D, 1, 0x2C63); (0x1D8E, 0x1D8E, 1, 0xA7C6);
   (0x1E01, 0x1E95, 2, 0x1E00); (0x1E9B, 0x1E9B, 1, 0x1E60);
   (0x1EA1, 0x1EFF, 2, 0x1EA0); (0x1F00, 0x1F07, 1, 0x1F08);
   (0x1F10, 0x1F15, 1, 0x1F18); (0x1F20, 0x1F27, 1, 0x1F28);
   (0x1F30, 0x1F37, 1, 0x1F38); (0x1F40, 0x1F45, 1, 0x1F48);
   (0x1F51, 0x1F57, 2, 0x1F59); (0x1F60, 0x1F67, 1, 0x1F68);
   (0x1F70, 0x1F71, 1, 0x1FBA); (0x1F72, 0x1F75, 1, 0x1FC8);
   (0x1F76, 0x1F77, 1, 0x1FDA); (0x1F78, 0x1F79, 1, 0x1FF8);
   (0x1F7A, 0x1F7B, 1, 0x1FEA); (0x1F7C, 0x1F7D, 1, 0x1FFA);
   (0x1FB0, 0x1FB1, 1, 0x1FB8); (0x1FBE, 0x1FBE, 1, 0x399);
   (0x1FD0, 0x1FD1, 1, 0x1FD8); (0x1FE0, 0x1FE1, 1, 0x1FE8);
   (0x1FE5, 0x1FE5, 1, 0x1FEC); (0x214E, 0x214E, 1, 0x2132);
   (0x2170, 0x217F, 1, 0x2160); (0x2184, 0x2184, 1, 0x2183);
   (0x24D0, 0x24E9, 1, 0x24B6); (0x2C30, 0x2C5F, 1, 0x2C00);
   (0x2C61, 0x2C61, 1, 0x2C60); (0x2C65, 0x2C65, 1, 0x23A);
   (0x2C66, 0x2C66, 1, 0x23E); (0x2C68, 0x2C6C, 2, 0x2C67);
   (0x2C73, 0x2C73, 1, 0x2C72); (0x2C76, 0x2C76, 1, 0x2C75);
   (0x2C81, 0x2CE3, 2, 0x2C80); (0x2CEC, 0x2CEE, 2, 0x2CEB);
   (0x2CF3, 0x2CF3, 1, 0x2CF2); (0x2D00, 0x2D25, 1, 0x10A0);
   (0x2D27, 0x2D27, 1, 0x10C7); (0x2D2D, 0x2D2D, 1, 0x10CD);
   (0xA641, 0xA66D, 2, 0xA640); (0xA681, 0xA69B, 2, 0xA680);
   (0xA723, 0xA72F, 2, 0xA722); (0xA733, 0xA76F, 2, 0xA732);
   (0xA77A, 0xA77C, 2, 0xA779); (0xA77F, 0xA787, 2, 0xA77E);
   (0xA78C, 0xA78C, 1, 0xA78B); (0xA791, 0xA793, 2, 0xA790);
   (0xA794, 0xA794, 1, 0xA7C4); (0xA797, 0xA7A9, 2, 0xA796);
   (0xA7B5, 0xA7C3, 2, 0xA7B4); (0xA7C8, 0xA7CA, 2, 0xA7C7);
   (0xA7D1, 0xA7D1, 1, 0xA7D0); (0xA7D7, 0xA7D9, 2, 0xA7D6);
   (0xA7F6, 0xA7F6, 1, 0xA7F5); (0xAB53, 0xAB53, 1, 0xA7B3);
   (0xAB70, 0xABBF, 1, 0x13A0); (0xFF41, 0xFF5A, 1, 0xFF21);
   (0x10428, 0x1044F, 1, 0x10400); (0x104D8, 0x104FB, 1, 0x104B0);
   (0x10597, 0x105BB, 2, 0x10570); (0x10598, 0x105A0, 2, 0x10571);
   (0x105A4, 0x105B0, 2, 0x1057D); (0x105B4, 0x105B8, 2, 0x1058D);
   (0x105BC, 0x105BC, 1, 0x10595); (0x10CC0, 0x10CF2, 1, 0x10C80);
   (0x118C0, 0x118DF, 1, 0x118A0); (0x16E60, 0x16E7F, 1, 0x16E40);
   (0x1E922, 0x1E943, 1, 0x1E900) ].

(** Uppercase_Mapping of more than one code point. *)
Definition upperSpecial : list (codePoint * list codePoint) :=
  [(0xDF, [0x53; 0x53]); (0x149, [0x2BC; 0x4E]); (0x1F0, [0x4A; 0x30C]);
   (0x390, [0x399; 0x308; 0x301]); (0x3B0, [0x3A5; 0x308; 0x301]);
   (0x587, [0x535; 0x552]); (0x1E96, [0x48; 0x331]); (0x1E97, [0x54; 0x308]);
   (0x1E98, [0x57; 0x30A]); (0x1E99, [0x59; 0x30A]); (0x1E9A, [0x41; 0x2BE]);
   (0x1F50, [0x3A5; 0x313]); (0x1F52, [0x3A5; 0x313; 0x300]);
   (0x1F54, [0x3A5; 0x313; 0x301]); (0x1F56, [0x3A5; 0x313; 0x342]);
   (0x1F80, [0x1F08; 0x399]); (0x1F81, [0x1F09; 0x399]);
   (0x1F82, [0x1F0A; 0x399]); (0x1F83, [0x1F0B; 0x399]);
   (0x1F84, [0x1F0C; 0x399]); (0x1F85, [0x1F0D; 0x399]);
   (0x1F86, [0x1F0E; 0x399]); (0x1F87, [0x1F0F; 0x399]);
   (0x1F88, [0x1F08; 0x399]); (0x1F89, [0x1F09; 0x399]);
   (0x1F8A, [0x1F0A; 0x399]); (0x1F8B, [0x1F0B; 0x399]);
   (0x1F8C, [0x1F0C; 0x399]); (0x1F8D, [0x1F0D; 0x399]);
   (0x1F8E, [0x1F0E; 0x399]); (0x1F8F, [0x1F0F; 0x399]);
   (0x1F90, [0x1F28; 0x399]); (0x1F91, [0x1F29; 0x399]);
   (0x1F92, [0x1F2A; 0x399]); (0x1F93, [0x1F2B; 0x399]);
   (0x1F94, [0x1F2C; 0x399]); (0x1F95, [0x1F2D; 0x399]);
   (0x1F96, [0x1F2E; 0x399]); (0x1F97, [0x1F2F; 0x399]);
   (0x1F98, [0x1F28; 0x399]); (0x1F99, [0x1F29; 0x399]);
   (0x1F9A, [0x1F2A; 0x399]); (0x1F9B, [0x1F2B; 0x399]);
   (0x1F9C, [0x1F2C; 0x399]); (0x1F9D, [0x1F2D; 0x399]);
   (0x1F9E, [0x1F2E; 0x399]); (0x1F9F, [0x1F2F; 0x399]);
   (0x1FA0, [0x1F68; 0x399]); (0x1FA1, [0x1F69; 0x399]);
   (0x1FA2, [0x1F6A; 0x399]); (0x1FA3, [0x1F6B; 0x399]);
   (0x1FA4, [0x1F6C; 0x399]); (0x1FA5, [0x1F6D; 0x399]);
   (0x1FA6, [0x1F6E; 0x399]); (0x1FA7, [0x1F6F; 0x399]);
   (0x1FA8, [0x1F68; 0x399]); (0x1FA9, [0x1F69; 0x399]);
   (0x1FAA, [0x1F6A; 0x399]); (0x1FAB, [0x1F6B; 0x399]);
   (0x1FAC, [0x1F6C; 0x399]); (0x1FAD, [0x1F6D; 0x399]);
   (0x1FAE, [0x1F6E; 0x399]); (0x1FAF, [0x1F6F; 0x399]);
   (0x1FB2, [0x1FBA; 0x399]); (0x1FB3, [0x391; 0x399]);
   (0x1FB4, [0x386; 0x399]); (0x1FB6, [0x391; 0x342]);
   (0x1FB7, [0x391; 0x342; 0x399]); (0x1FBC, [0x391; 0x399]);
   (0x1FC2, [0x1FCA; 0x399]); (0x1FC3, [0x397; 0x399]);
   (0x1FC4, [0x389; 0x399]); (0x1FC6, [0x397; 0x342]);
   (0x1FC7, [0x397; 0x342; 0x399]); (0x1FCC, [0x397; 0x399]);
   (0x1FD2, [0x399; 0x308; 0x300]); (0x1FD3, [0x399; 0x308; 0x301]);
   (0x1FD6, [0x399; 0x342]); (0x1FD7, [0x399; 0x308; 0x342]);
   (0x1FE2, [0x3A5; 0x308; 0x300]); (0x1FE3, [0x3A5; 0x308; 0x301]);
   (0x1FE4, [0x3A1; 0x313]); (0x1FE6, [0x3A5; 0x342]);
   (0x1FE7, [0x3A5; 0x308; 0x342]); (0x1FF2, [0x1FFA; 0x399]);
   (0x1FF3, [0x3A9; 0x399]); (0x1FF4, [0x38F; 0x399]);
   (0x1FF6, [0x3A9; 0x342]); (0x1FF7, [0x3A9; 0x342; 0x399]);
   (0x1FFC, [0x3A9; 0x399]); (0xFB00, [0x46; 0x46]); (0xFB01, [0x46; 0x49]);
   (0xFB02, [0x46; 0x4C]); (0xFB03, [0x46; 0x46; 0x49]);
   (0xFB04, [0x46; 0x46; 0x4C]); (0xFB05, [0x53; 0x54]);
   (0xFB06, [0x53; 0x54]); (0xFB13, [0x544; 0x546]); (0xFB14, [0x544; 0x535]);
   (0xFB15, [0x544; 0x53B]); (0xFB16, [0x54E; 0x546]);
   (0xFB17, [0x544; 0x53D]) ].

(** Lowercase_Mapping, where it is a single code point other than the code
    point itself. *)
Definition lowerRuns : list caseRun :=
  [(0x41, 0x5A, 1, 0x61); (0xC0, 0xD6, 1, 0xE0); (0xD8, 0xDE, 1, 0xF8);
   (0x100, 0x12E, 2, 0x101); (0x132, 0x136, 2, 0x133);
   (0x139, 0x147, 2, 0x13A); (0x14A, 0x176, 2, 0x14B); (0x178, 0x178, 1, 0xFF);
   (0x179, 0x17D, 2, 0x17A); (0x181, 0x181, 1, 0x253);
   (0x182, 0x184, 2, 0x183); (0x186, 0x186, 1, 0x254);
   (0x187, 0x187, 1, 0x188); (0x189, 0x18A, 1, 0x256);
   (0x18B, 0x18B, 1, 0x18C); (0x18E, 0x18E, 1, 0x1DD);
   (0x18F, 0x18F, 1, 0x259); (0x190, 0x190, 1, 0x25B);
   (0x191, 0x191, 1, 0x192); (0x193, 0x193, 1, 0x260);
   (0x194, 0x194, 1, 0x263); (0x196, 0x196, 1, 0x269);
   (0x197, 0x197, 1, 0x268); (0x198, 0x198, 1, 0x199);
   (0x19C, 0x19C, 1, 0x26F); (0x19D, 0x19D, 1, 0x272);
   (0x19F, 0x19F, 1, 0x275); (0x1A0, 0x1A4, 2, 0x1A1);
   (0x1A6, 0x1A6, 1, 0x280); (0x1A7, 0x1A7, 1, 0x1A8);
   (0x1A9, 0x1A9, 1, 0x283); (0x1AC, 0x1AC, 1, 0x1AD);
   (0x1AE, 0x1AE, 1, 0x288); (0x1AF, 0x1AF, 1, 0x1B0);
   (0x1B1, 0x1B2, 1, 0x28A); (0x1B3, 0x1B5, 2, 0x1B4);
   (0x1B7, 0x1B7, 1, 0x292); (0x1B8, 0x1B8, 1, 0x1B9);
   (0x1BC, 0x1BC, 1, 0x1BD); (0x1C4, 0x1C4, 1, 0x1C6);
   (0x1C5, 0x1C5, 1, 0x1C6); (0x1C7, 0x1C7, 1, 0x1C9);
   (0x1C8, 0x1C8, 1, 0x1C9); (0x1CA, 0x1CA, 1, 0x1CC);
   (0x1CB, 0x1DB, 2, 0x1CC); (0x1DE, 0x1EE, 2, 0x1DF);
   (0x1F1, 0x1F1, 1, 0x1F3); (0x1F2, 0x1F4, 2, 0x1F3);
   (0x1F6, 0x1F6, 1, 0x195); (0x1F7, 0x1F7, 1, 0x1BF);
   (0x1F8, 0x21E, 2, 0x1F9); (0x220, 0x220, 1, 0x19E);
   (0x222, 0x232, 2, 0x223); (0x23A, 0x23A, 1, 0x2C65);
   (0x23B, 0x23B, 1, 0x23C); (0x23D, 0x23D, 1, 0x19A);
   (0x23E, 0x23E, 1, 0x2C66); (0x241, 0x241, 1, 0x242);
   (0x243, 0x243, 1, 0x180); (0x244, 0x244, 1, 0x289);
   (0x245, 0x245, 1, 0x28C); (0x246, 0x24E, 2, 0x247);
   (0x370, 0x372, 2, 0x371); (0x376, 0x376, 1, 0x377);
   (0x37F, 0x37F, 1, 0x3F3); (0x386, 0x386, 1, 0x3AC);
   (0x388, 0x38A, 1, 0x3AD); (0x38C, 0x38C, 1, 0x3CC);
   (0x38E, 0x38F, 1, 0x3CD); (0x391, 0x3A1, 1, 0x3B1);
   (0x3A3, 0x3AB, 1, 0x3C3); (0x3CF, 0x3CF, 1, 0x3D7);
   (0x3D8, 0x3EE, 2, 0x3D9); (0x3F4, 0x3F4, 1, 0x3B8);
   (0x3F7, 0x3F7, 1, 0x3F8); (0x3F9, 0x3F9, 1, 0x3F2);
   (0x3FA, 0x3FA, 1, 0x3FB); (0x3FD, 0x3FF, 1, 0x37B);
   (0x400, 0x40F, 1, 0x450); (0x410, 0x42F, 1, 0x430);
   (0x460, 0x480, 2, 0x461); (0x48A, 0x4BE, 2, 0x48B);
   (0x4C0, 0x4C0, 1, 0x4CF); (0x4C1, 0x4CD, 2, 0x4C2);
   (0x4D0, 0x52E, 2, 0x4D1); (0x531, 0x556, 1, 0x561);
   (0x10A0, 0x10C5, 1, 0x2D00); (0x10C7, 0x10C7, 1, 0x2D27);
   (0x10CD, 0x10CD, 1, 0x2D2D); (0x13A0, 0x13EF, 1, 0xAB70);
   (0x13F0, 0x13F5, 1, 0x13F8); (0x1C90, 0x1CBA, 1, 0x10D0);
   (0x1CBD, 0x1CBF, 1, 0x10FD); (0x1E00, 0x1E94, 2, 0x1E01);
   (0x1E9E, 0x1E9E, 1, 0xDF); (0x1EA0, 0x1EFE, 2, 0x1EA1);
   (0x1F08, 0x1F0F, 1, 0x1F00); (0x1F18, 0x1F1D, 1, 0x1F10);
   (0x1F28, 0x1F2F, 1, 0x1F20); (0x1F38, 0x1F3F, 1, 0x1F30);
   (0x1F48, 0x1F4D, 1, 0x1F40); (0x1F59, 0x1F5F, 2, 0x1F51);
   (0x1F68, 0x1F6F, 1, 0x1F60); (0x1F88, 0x1F8F, 1, 0x1F80);
   (0x1F98, 0x1F9F, 1, 0x1F90); (0x1FA8, 0x1FAF, 1, 0x1FA0);
   (0x1FB8, 0x1FB9, 1, 0x1FB0); (0x1FBA, 0x1FBB, 1, 0x1F70);
   (0x1FBC, 0x1FBC, 1, 0x1FB3); (0x1FC8, 0x1FCB, 1, 0x1F72);
   (0x1FCC, 0x1FCC, 1, 0x1FC3); (0x1FD8, 0x1FD9, 1, 0x1FD0);
   (0x1FDA, 0x1FDB, 1, 0x1F76); (0x1FE8, 0x1FE9, 1, 0x1FE0);
   (0x1FEA, 0x1FEB, 1, 0x1F7A); (0x1FEC, 0x1FEC, 1, 0x1FE5);
   (0x1FF8, 0x1FF9, 1, 0x1F78); (0x1FFA, 0x1FFB, 1, 0x1F7C);
   (0x1FFC, 0x1FFC, 1, 0x1FF3); (0x2126, 0x2126, 1, 0x3C9);
   (0x212A, 0x212A, 1, 0x6B); (0x212B, 0x212B, 1, 0xE5);
   (0x2132, 0x2132, 1, 0x214E); (0x2160, 0x216F, 1, 0x2170);
   (0x2183, 0x2183, 1, 0x2184); (0x24B6, 0x24CF, 1, 0x24D0);
   (0x2C00, 0x2C2F, 1, 0x2C30); (0x2C60, 0x2C60, 1, 0x2C61);
   (0x2C62, 0x2C62, 1, 0x26B); (0x2C63, 0x2C63, 1, 0x1D7D);
   (0x2C64, 0x2C64, 1, 0x27D); (0x2C67, 0x2C6B, 2, 0x2C68);
   (0x2C6D, 0x2C6D, 1, 0x251); (0x2C6E, 0x2C6E, 1, 0x271);
   (0x2C6F, 0x2C6F, 1, 0x250); (0x2C70, 0x2C70, 1, 0x252);
   (0x2C72, 0x2C72, 1, 0x2C73); (0x2C75, 0x2C75, 1, 0x2C76);
   (0x2C7E, 0x2C7F, 1, 0x23F); (0x2C80, 0x2CE2, 2, 0x2C81);
   (0x2CEB, 0x2CED, 2, 0x2CEC); (0x2CF2, 0x2CF2, 1, 0x2CF3);
   (0xA640, 0xA66C, 2, 0xA641); (0xA680, 0xA69A, 2, 0xA681);
   (0xA722, 0xA72E, 2, 0xA723); (0xA732, 0xA76E, 2, 0xA733);
   (0xA779, 0xA77B, 2, 0xA77A); (0xA77D, 0xA77D, 1, 0x1D79);
   (0xA77E, 0xA786, 2, 0xA77F); (0xA78B, 0xA78B, 1, 0xA78C);
   (0xA78D, 0xA78D, 1, 0x265); (0xA790, 0xA792, 2, 0xA791);
   (0xA796, 0xA7A8, 2, 0xA797); (0xA7AA, 0xA7AA, 1, 0x266);
   (0xA7AB, 0xA7AB, 1, 0x25C); (0xA7AC, 0xA7AC, 1, 0x261);
   (0xA7AD, 0xA7AD, 1, 0x26C); (0xA7AE, 0xA7AE, 1, 0x26A);
   (0xA7B0, 0xA7B0, 1, 0x29E); (0xA7B1, 0xA7B1, 1, 0x287);
   (0xA7B2, 0xA7B2, 1, 0x29D); (0xA7B3, 0xA7B3, 1, 0xAB53);
   (0xA7B4, 0xA7C2, 2, 0xA7B5); (0xA7C4, 0xA7C4, 1, 0xA794);
   (0xA7C5, 0xA7C5, 1, 0x282); (0xA7C6, 0xA7C6, 1, 0x1D8E);
   (0xA7C7, 0xA7C9, 2, 0xA7C8); (0xA7D0, 0xA7D0, 1, 0xA7D1);
   (0xA7D6, 0xA7D8, 2, 0xA7D7); (0xA7F5, 0xA7F5, 1, 0xA7F6);
   (0xFF21, 0xFF3A, 1, 0xFF41); (0x10400, 0x10427, 1, 0x10428);
   (0x104B0, 0x104D3, 1, 0x104D8); (0x10570, 0x10594, 2, 0x10597);
   (0x10571, 0x10579, 2, 0x10598); (0x1057D, 0x10589, 2, 0x105A4);
   (0x1058D, 0x10591, 2, 0x105B4); (0x10595, 0x10595, 1, 0x105BC);
   (0x10C80, 0x10CB2, 1, 0x10CC0); (0x118A0, 0x118BF, 1, 0x118C0);
   (0x16E40, 0x16E5F, 1, 0x16E60); (0x1E900, 0x1E921, 1, 0x1E922) ].

(** The code points with the property Cased. *)
Definition casedRanges : list (codePoint * codePoint) :=
  [(0x41, 0x5A); (0x61, 0x7A); (0xAA, 0xAA); (0xB5, 0xB5); (0xBA, 0xBA);
   (0xC0, 0xD6); (0xD8, 0xF6); (0xF8, 0x1BA); (0x1BC, 0x1BF); (0x1C4, 0x293);
   (0x295, 0x2B8); (0x2C0, 0x2C1); (0x2E0, 0x2E4); (0x345, 0x345);
   (0x370, 0x373); (0x376, 0x377); (0x37A, 0x37D); (0x37F, 0x37F);
   (0x386, 0x386); (0x388, 0x38A); (0x38C, 0x38C); (0x38E, 0x3A1);
   (0x3A3, 0x3F5); (0x3F7, 0x481); (0x48A, 0x52F); (0x531, 0x556);
   (0x560, 0x588); (0x10A0, 0x10C5); (0x10C7, 0x10C7); (0x10CD, 0x10CD);
   (0x10D0, 0x10FA); (0x10FD, 0x10FF); (0x13A0, 0x13F5); (0x13F8, 0x13FD);
   (0x1C80, 0x1C88); (0x1C90, 0x1CBA); (0x1CBD, 0x1CBF); (0x1D00, 0x1DBF);
   (0x1E00, 0x1F15); (0x1F18, 0x1F1D); (0x1F20, 0x1F45); (0x1F48, 0x1F4D);
   (0x1F50, 0x1F57); (0x1F59, 0x1F59); (0x1F5B, 0x1F5B); (0x1F5D, 0x1F5D);
   (0x1F5F, 0x1F7D); (0x1F80, 0x1FB4); (0x1FB6, 0x1FBC); (0x1FBE, 0x1FBE);
   (0x1FC2, 0x1FC4); (0x1FC6, 0x1FCC); (0x1FD0, 0x1FD3); (0x1FD6, 0x1FDB);
   (0x1FE0, 0x1FEC); (0x1FF2, 0x1FF4); (0x1FF6, 0x1FFC); (0x2071, 0x2071);
   (0x207F, 0x207F); (0x2090, 0x209C); (0x2102, 0x2102); (0x2107, 0x2107);
   (0x210A, 0x2113); (0x2115, 0x2115); (0x2119, 0x211D); (0x2124, 0x2124);
   (0x2126, 0x2126); (0x2128, 0x2128); (0x212A, 0x212D); (0x212F, 0x2134);
   (0x2139, 0x2139); (0x213C, 0x213F); (0x2145, 0x2149); (0x214E, 0x214E);
   (0x2160, 0x217F); (0x2183, 0x2184); (0x24B6, 0x24E9); (0x2C00, 0x2CE4);
   (0x2CEB, 0x2CEE); (0x2CF2, 0x2CF3); (0x2D00, 0x2D25); (0x2D27, 0x2D27);
   (0x2D2D, 0x2D2D); (0xA640, 0xA66D); (0xA680, 0xA69D); (0xA722, 0xA787);
   (0xA78B, 0xA78E); (0xA790, 0xA7CA); (0xA7D0, 0xA7D1); (0xA7D3, 0xA7D3);
   (0xA7D5, 0xA7D9); (0xA7F5, 0xA7F6); (0xA7F8, 0xA7FA); (0xAB30, 0xAB5A);
   (0xAB5C, 0xAB68); (0xAB70, 0xABBF); (0xFB00, 0xFB06); (0xFB13, 0xFB17);
   (0xFF21, 0xFF3A); (0xFF41, 0xFF5A); (0x10400, 0x1044F); (0x104B0, 0x104D3);
   (0x104D8, 0x104FB); (0x10570, 0x1057A); (0x1057C, 0x1058A);
   (0x1058C, 0x10592); (0x10594, 0x10595); (0x10597, 0x105A1);
   (0x105A3, 0x105B1); (0x105B3, 0x105B9); (0x105BB, 0x105BC);
   (0x10780, 0x10780); (0x10783, 0x10785); (0x10787, 0x107B0);
   (0x107B2, 0x107BA); (0x10C80, 0x10CB2); (0x10CC0, 0x10CF2);
   (0x118A0, 0x118DF); (0x16E40, 0x16E7F); (0x1D400, 0x1D454);
   (0x1D456, 0x1D49C); (0x1D49E, 0x1D49F); (0x1D4A2, 0x1D4A2);
   (0x1D4A5, 0x1D4A6); (0x1D4A9, 0x1D4AC); (0x1D4AE, 0x1D4B9);
   (0x1D4BB, 0x1D4BB); (0x1D4BD, 0x1D4C3); (0x1D4C5, 0x1D505);
   (0x1D507, 0x1D50A); (0x1D50D, 0x1D514); (0x1D516, 0x1D51C);
   (0x1D51E, 0x1D539); (0x1D53B, 0x1D53E); (0x1D540, 0x1D544);
   (0x1D546, 0x1D546); (0x1D54A, 0x1D550); (0x1D552, 0x1D6A5);
   (0x1D6A8, 0x1D6C0); (0x1D6C2, 0x1D6DA); (0x1D6DC, 0x1D6FA);
   (0x1D6FC, 0x1D714); (0x1D716, 0x1D734); (0x1D736, 0x1D74E);
   (0x1D750, 0x1D76E); (0x1D770, 0x1D788); (0x1D78A, 0x1D7A8);
   (0x1D7AA, 0x1D7C2); (0x1D7C4, 0x1D7CB); (0x1DF00, 0x1DF09);
   (0x1DF0B, 0x1DF1E); (0x1E900, 0x1E943); (0x1F130, 0x1F149);
   (0x1F150, 0x1F169); (0x1F170, 0x1F189) ].

(** The code points with the property Case_Ignorable. *)
Definition caseIgnorableRanges : list (codePoint * codePoint) :=
  [(0x27, 0x27); (0x2E, 0x2E); (0x3A, 0x3A); (0x5E, 0x5E); (0x60, 0x60);
   (0xA8, 0xA8); (0xAD, 0xAD); (0xAF, 0xAF); (0xB4, 0xB4); (0xB7, 0xB8);
   (0x2B0, 0x36F); (0x374, 0x375); (0x37A, 0x37A); (0x384, 0x385);
   (0x387, 0x387); (0x483, 0x489); (0x559, 0x559); (0x55F, 0x55F);
   (0x591, 0x5BD); (0x5BF, 0x5BF); (0x5C1, 0x5C2); (0x5C4, 0x5C5);
   (0x5C7, 0x5C7); (0x5F4, 0x5F4); (0x600, 0x605); (0x610, 0x61A);
   (0x61C, 0x61C); (0x640, 0x640); (0x64B, 0x65F); (0x670, 0x670);
   (0x6D6, 0x6DD); (0x6DF, 0x6E8); (0x6EA, 0x6ED); (0x70F, 0x70F);
   (0x711, 0x711); (0x730, 0x74A); (0x7A6, 0x7B0); (0x7EB, 0x7F5);
   (0x7FA, 0x7FA); (0x7FD, 0x7FD); (0x816, 0x82D); (0x859, 0x85B);
   (0x888, 0x888); (0x890, 0x891); (0x898, 0x89F); (0x8C9, 0x902);
   (0x93A, 0x93A); (0x93C, 0x93C); (0x941, 0x948); (0x94D, 0x94D);
   (0x951, 0x957); (0x962, 0x963); (0x971, 0x971); (0x981, 0x981);
   (0x9BC, 0x9BC); (0x9C1, 0x9C4); (0x9CD, 0x9CD); (0x9E2, 0x9E3);
   (0x9FE, 0x9FE); (0xA01, 0xA02); (0xA3C, 0xA3C); (0xA41, 0xA42);
   (0xA47, 0xA48); (0xA4B, 0xA4D); (0xA51, 0xA51); (0xA70, 0xA71);
   (0xA75, 0xA75); (0xA81, 0xA82); (0xABC, 0xABC); (0xAC1, 0xAC5);
   (0xAC7, 0xAC8); (0xACD, 0xACD); (0xAE2, 0xAE3); (0xAFA, 0xAFF);
   (0xB01, 0xB01); (0xB3C, 0xB3C); (0xB3F, 0xB3F); (0xB41, 0xB44);
   (0xB4D, 0xB4D); (0xB55, 0xB56); (0xB62, 0xB63); (0xB82, 0xB82);
   (0xBC0, 0xBC0); (0xBCD, 0xBCD); (0xC00, 0xC00); (0xC04, 0xC04);
   (0xC3C, 0xC3C); (0xC3E, 0xC40); (0xC46, 0xC48); (0xC4A, 0xC4D);
   (0xC55, 0xC56); (0xC62, 0xC63); (0xC81, 0xC81); (0xCBC, 0xCBC);
   (0xCBF, 0xCBF); (0xCC6, 0xCC6); (0xCCC, 0xCCD); (0xCE2, 0xCE3);
   (0xD00, 0xD01); (0xD3B, 0xD3C); (0xD41, 0xD44); (0xD4D, 0xD4D);
   (0xD62, 0xD63); (0xD81, 0xD81); (0xDCA, 0xDCA); (0xDD2, 0xDD4);
   (0xDD6, 0xDD6); (0xE31, 0xE31); (0xE34, 0xE3A); (0xE46, 0xE4E);
   (0xEB1, 0xEB1); (0xEB4, 0xEBC); (0xEC6, 0xEC6); (0xEC8, 0xECD);
   (0xF18, 0xF19); (0xF35, 0xF35); (0xF37, 0xF37); (0xF39, 0xF39);
   (0xF71, 0xF7E); (0xF80, 0xF84); (0xF86, 0xF87); (0xF8D, 0xF97);
   (0xF99, 0xFBC); (0xFC6, 0xFC6); (0x102D, 0x1030); (0x1032, 0x1037);
   (0x1039, 0x103A); (0x103D, 0x103E); (0x1058, 0x1059); (0x105E, 0x1060);
   (0x1071, 0x1074); (0x1082, 0x1082); (0x1085, 0x1086); (0x108D, 0x108D);
   (0x109D, 0x109D); (0x10FC, 0x10FC); (0x135D, 0x135F); (0x1712, 0x1714);
   (0x1732, 0x1733); (0x1752, 0x1753); (0x1772, 0x1773); (0x17B4, 0x17B5);
   (0x17B7, 0x17BD); (0x17C6, 0x17C6); (0x17C9, 0x17D3); (0x17D7, 0x17D7);
   (0x17DD, 0x17DD); (0x180B, 0x180F); (0x1843, 0x1843); (0x1885, 0x1886);
   (0x18A9, 0x18A9); (0x1920, 0x1922); (0x1927, 0x1928); (0x1932, 0x1932);
   (0x1939, 0x193B); (0x1A17, 0x1A18); (0x1A1B, 0x1A1B); (0x1A56, 0x1A56);
   (0x1A58, 0x1A5E); (0x1A60, 0x1A60); (0x1A62, 0x1A62); (0x1A65, 0x1A6C);
   (0x1A73, 0x1A7C); (0x1A7F, 0x1A7F); (0x1AA7, 0x1AA7); (0x1AB0, 0x1ACE);
   (0x1B00, 0x1B03); (0x1B34, 0x1B34); (0x1B36, 0x1B3A); (0x1B3C, 0x1B3C);
   (0x1B42, 0x1B42); (0x1B6B, 0x1B73); (0x1B80, 0x1B81); (0x1BA2, 0x1BA5);
   (0x1BA8, 0x1BA9); (0x1BAB, 0x1BAD); (0x1BE6, 0x1BE6); (0x1BE8, 0x1BE9);
   (0x1BED, 0x1BED); (0x1BEF, 0x1BF1); (0x1C2C, 0x1C33); (0x1C36, 0x1C37);
   (0x1C78, 0x1C7D); (0x1CD0, 0x1CD2); (0x1CD4, 0x1CE0); (0x1CE2, 0x1CE8);
   (0x1CED, 0x1CED); (0x1CF4, 0x1CF4); (0x1CF8, 0x1CF9); (0x1D2C, 0x1D6A);
   (0x1D78, 0x1D78); (0x1D9B, 0x1DFF); (0x1FBD, 0x1FBD); (0x1FBF, 0x1FC1);
   (0x1FCD, 0x1FCF); (0x1FDD, 0x1FDF); (0x1FED, 0x1FEF); (0x1FFD, 0x1FFE);
   (0x200B, 0x200F); (0x2018, 0x2019); (0x2024, 0x2024); (0x2027, 0x2027);
   (0x202A, 0x202E); (0x2060, 0x2064); (0x2066, 0x206F); (0x2071, 0x2071);
   (0x207F, 0x207F); (0x2090, 0x209C); (0x20D0, 0x20F0); (0x2C7C, 0x2C7D);
   (0x2CEF, 0x2CF1); (0x2D6F, 0x2D6F); (0x2D7F, 0x2D7F); (0x2DE0, 0x2DFF);
   (0x2E2F, 0x2E2F); (0x3005, 0x3005); (0x302A, 0x302D); (0x3031, 0x3035);
   (0x303B, 0x303B); (0x3099, 0x309E); (0x30FC, 0x30FE); (0xA015, 0xA015);
   (0xA4F8, 0xA4FD); (0xA60C, 0xA60C); (0xA66F, 0xA672); (0xA674, 0xA67D);
   (0xA67F, 0xA67F); (0xA69C, 0xA69F); (0xA6F0, 0xA6F1); (0xA700, 0xA721);
   (0xA770, 0xA770); (0xA788, 0xA78A); (0xA7F2, 0xA7F4); (0xA7F8, 0xA7F9);
   (0xA802, 0xA802); (0xA806, 0xA806); (0xA80B, 0xA80B); (0xA825, 0xA826);
   (0xA82C, 0xA82C); (0xA8C4, 0xA8C5); (0xA8E0, 0xA8F1); (0xA8FF, 0xA8FF);
   (0xA926, 0xA92D); (0xA947, 0xA951); (0xA980, 0xA982); (0xA9B3, 0xA9B3);
   (0xA9B6, 0xA9B9); (0xA9BC, 0xA9BD); (0xA9CF, 0xA9CF); (0xA9E5, 0xA9E6);
   (0xAA29, 0xAA2E); (0xAA31, 0xAA32); (0xAA35, 0xAA36); (0xAA43, 0xAA43);
   (0xAA4C, 0xAA4C); (0xAA70, 0xAA70); (0xAA7C, 0xAA7C); (0xAAB0, 0xAAB0);
   (0xAAB2, 0xAAB4); (0xAAB7, 0xAAB8); (0xAABE, 0xAABF); (0xAAC1, 0xAAC1);
   (0xAADD, 0xAADD); (0xAAEC, 0xAAED); (0xAAF3, 0xAAF4); (0xAAF6, 0xAAF6);
   (0xAB5B, 0xAB5F); (0xAB69, 0xAB6B); (0xABE5, 0xABE5); (0xABE8, 0xABE8);
   (0xABED, 0xABED); (0xFB1E, 0xFB1E); (0xFBB2, 0xFBC2); (0xFE00, 0xFE0F);
   (0xFE13, 0xFE13); (0xFE20, 0xFE2F); (0xFE52, 0xFE52); (0xFE55, 0xFE55);
   (0xFEFF, 0xFEFF); (0xFF07, 0xFF07); (0xFF0E, 0xFF0E); (0xFF1A, 0xFF1A);
   (0xFF3E, 0xFF3E); (0xFF40, 0xFF40); (0xFF70, 0xFF70); (0xFF9E, 0xFF9F);
   (0xFFE3, 0xFFE3); (0xFFF9, 0xFFFB); (0x101FD, 0x101FD); (0x102E0, 0x102E0);
   (0x10376, 0x1037A); (0x10780, 0x10785); (0x10787, 0x107B0);
   (0x107B2, 0x107BA); (0x10A01, 0x10A03); (0x10A05, 0x10A06);
   (0x10A0C, 0x10A0F); (0x10A38, 0x10A3A); (0x10A3F, 0x10A3F);
   (0x10AE5, 0x10AE6); (0x10D24, 0x10D27); (0x10EAB, 0x10EAC);
   (0x10F46, 0x10F50); (0x10F82, 0x10F85); (0x11001, 0x11001);
   (0x11038, 0x11046); (0x11070, 0x11070); (0x11073, 0x11074);
   (0x1107F, 0x11081); (0x110B3, 0x110B6); (0x110B9, 0x110BA);
   (0x110BD, 0x110BD); (0x110C2, 0x110C2); (0x110CD, 0x110CD);
   (0x11100, 0x11102); (0x11127, 0x1112B); (0x1112D, 0x11134);
   (0x11173, 0x11173); (0x11180, 0x11181); (0x111B6, 0x111BE);
   (0x111C9, 0x111CC); (0x111CF, 0x111CF); (0x1122F, 0x11231);
   (0x11234, 0x11234); (0x11236, 0x11237); (0x1123E, 0x1123E);
   (0x112DF, 0x112DF); (0x112E3, 0x112EA); (0x11300, 0x11301);
   (0x1133B, 0x1133C); (0x11340, 0x11340); (0x11366, 0x1136C);
   (0x11370, 0x11374); (0x11438, 0x1143F); (0x11442, 0x11444);
   (0x11446, 0x11446); (0x1145E, 0x1145E); (0x114B3, 0x114B8);
   (0x114BA, 0x114BA); (0x114BF, 0x114C0); (0x114C2, 0x114C3);
   (0x115B2, 0x115B5); (0x115BC, 0x115BD); (0x115BF, 0x115C0);
   (0x115DC, 0x115DD); (0x11633, 0x1163A); (0x1163D, 0x1163D);
   (0x1163F, 0x11640); (0x116AB, 0x116AB); (0x116AD, 0x116AD);
   (0x116B0, 0x116B5); (0x116B7, 0x116B7); (0x1171D, 0x1171F);
   (0x11722, 0x11725); (0x11727, 0x1172B); (0x1182F, 0x11837);
   (0x11839, 0x1183A); (0x1193B, 0x1193C); (0x1193E, 0x1193E);
   (0x11943, 0x11943); (0x119D4, 0x119D7); (0x119DA, 0x119DB);
   (0x119E0, 0x119E0); (0x11A01, 0x11A0A); (0x11A33, 0x11A38);
   (0x11A3B, 0x11A3E); (0x11A47, 0x11A47); (0x11A51, 0x11A56);
   (0x11A59, 0x11A5B); (0x11A8A, 0x11A96); (0x11A98, 0x11A99);
   (0x11C30, 0x11C36); (0x11C38, 0x11C3D); (0x11C3F, 0x11C3F);
   (0x11C92, 0x11CA7); (0x11CAA, 0x11CB0); (0x11CB2, 0x11CB3);
   (0x11CB5, 0x11CB6); (0x11D31, 0x11D36); (0x11D3A, 0x11D3A);
   (0x11D3C, 0x11D3D); (0x11D3F, 0x11D45); (0x11D47, 0x11D47);
   (0x11D90, 0x11D91); (0x11D95, 0x11D95); (0x11D97, 0x11D97);
   (0x11EF3, 0x11EF4); (0x13430, 0x13438); (0x16AF0, 0x16AF4);
   (0x16B30, 0x16B36); (0x16B40, 0x16B43); (0x16F4F, 0x16F4F);
   (0x16F8F, 0x16F9F); (0x16FE0, 0x16FE1); (0x16FE3, 0x16FE4);
   (0x1AFF0, 0x1AFF3); (0x1AFF5, 0x1AFFB); (0x1AFFD, 0x1AFFE);
   (0x1BC9D, 0x1BC9E); (0x1BCA0, 0x1BCA3); (0x1CF00, 0x1CF2D);
   (0x1CF30, 0x1CF46); (0x1D167, 0x1D169); (0x1D173, 0x1D182);
   (0x1D185, 0x1D18B); (0x1D1AA, 0x1D1AD); (0x1D242, 0x1D244);
   (0x1DA00, 0x1DA36); (0x1DA3B, 0x1DA6C); (0x1DA75, 0x1DA75);
   (0x1DA84, 0x1DA84); (0x1DA9B, 0x1DA9F); (0x1DAA1, 0x1DAAF);
   (0x1E000, 0x1E006); (0x1E008, 0x1E018); (0x1E01B, 0x1E021);
   (0x1E023, 0x1E024); (0x1E026, 0x1E02A); (0x1E130, 0x1E13D);
   (0x1E2AE, 0x1E2AE); (0x1E2EC, 0x1E2EF); (0x1E8D0, 0x1E8D6);
   (0x1E944, 0x1E94B); (0x1F3FB, 0x1F3FF); (0xE0001, 0xE0001);
   (0xE0020, 0xE007F); (0xE0100, 0xE01EF) ].

Definition upperPoint (cp : codePoint) : list codePoint :=
  match inSpecial upperSpecial cp with
  | Some l => l
  | None => match inRuns upperRuns cp with Some c => [c] | None => [cp] end
  end.

(** Lowercase_Mapping without context: U+0130 is the one code point with
    more than one code point for it. *)
Definition lowerPoint (cp : codePoint) : list codePoint :=
  if cp =? 0x130 then [0x69; 0x307]
  else match inRuns lowerRuns cp with Some c => [c] | None => [cp] end.

Definition isCased (cp : codePoint) : bool := inRanges casedRanges cp.
Definition isCaseIgnorable (cp : codePoint) : bool := inRanges caseIgnorableRanges cp.

(** The context test of [Final_Sigma], forwards over the code points after
    the sigma and backwards over those before it: case-ignorable code
    points are passed over, and the first other one decides. *)
Fixpoint meetsCased (l : list codePoint) : bool :=
  match l with
  | [] => false
  | c :: t => if isCaseIgnorable c then meetsCased t else isCased c
  end.

(** [before] holds the code points already read, the last one first. *)
Fixpoint lowerFrom (before after : list codePoint) : list codePoint :=
  match after with
  | [] => []
  | c :: rest =>
      (if (c =? 0x3A3) && meetsCased before && negb (meetsCased rest)
       then [0x3C2] else lowerPoint c)
      ++ lowerFrom (c :: before) rest
  end.

Definition toUpperCase (s : str) : str :=
  ofCodePoints (flat_map upperPoint (codePoints s)).
Definition toLowerCase (s : str) : str :=
  ofCodePoints (lowerFrom [] (codePoints s)).

Local Close Scope N_scope.

(** [Math.ceil(a / b)] for a positive divisor. *)
Definition ceilDiv (a b : nat) : nat := (a + b - 1) / b.

(** Decimal [String(n)]. *)
Fixpoint digits (fuel n : nat) (acc : str) : str :=
  match fuel with
  | O => acc
  | S f =>
      let d := N.of_nat (48 + n mod 10) in
      if n <? 10 then d :: acc else digits f (n / 10) (d :: acc)
  end.
Definition ofNat (n : nat) : str := digits (S n) n [].

End JS.

(* ===================================================================== *)
(** * JavaScript regular expressions *)
(* ===================================================================== *)

(** The backtracking matcher of ECMAScript for the fragment the parsers use:
    every quantifier of the source is applied to a single character class
    ([\s+], [.+?], [\d{1,3}], [\.?], [[A-Z\s']{3,}], ...), so [Rep] quantifies
    a class.  The matcher is written with continuations, as the
    specification of the language is: the first alternative, the longest
    (greedy) or the shortest (lazy) repetition for which the rest of the
    pattern matches is the one that is taken. *)
Module Regex.
Import JS.

Inductive regex : Type :=
| Eps
| Cls (p : char -> bool)
| Rep (greedy : bool) (p : char -> bool) (lo : nat) (hi : option nat)
| Cat (a b : regex)
| Alt (a b : regex)
| Grp (n : nat) (a : regex)
| Bos                     (* ^ *)
| Eos                     (* $ *)
| WordB.                  (* \b *)

(** Captures: group number, start and end offsets in the subject. *)
Definition caps := list (nat * (nat * nat)).

Section Run.
Variable R : Type.

(** A continuation takes the offset reached, the code unit before it, the
    rest of the subject and the captures so far. *)
Definition cont := nat -> option char -> str -> caps -> option R.

Definition orElse (a b : option R) : option R :=
  match a with Some x => Some x | None => b end.

Definition hiAllows (hi : option nat) : bool :=
  match hi with Some O => false | _ => true end.

Fixpoint rep (greedy : bool) (p : char -> bool) (lo : nat) (hi : option nat)
         (pos : nat) (prev : option char) (s : str) (cs : caps) (k : cont)
  : option R :=
  let stop := match lo with O => k pos prev s cs | S _ => None end in
  let more :=
    match s with
    | c :: t =>
        if p c && hiAllows hi
        then rep greedy p (pred lo) (option_map pred hi) (S pos) (Some c) t cs k
        else None
    | [] => None
    end in
  if greedy then orElse more stop else orElse stop more.

Definition isWordOpt (c : option char) : bool :=
  match c with Some x => isWordChar x | None => false end.

Fixpoint run (r : regex) (pos : nat) (prev : option char) (s : str)
         (cs : caps) (k : cont) : option R :=
  match r with
  | Eps => k pos prev s cs
  | Cls p =>
      match s with
      | c :: t => if p c then k (S pos) (Some c) t cs else None
      | [] => None
      end
  | Rep g p lo hi => rep g p lo hi pos prev s cs k
  | Cat a b => run a pos prev s cs (fun pos' prev' s' cs' => run b pos' prev' s' cs' k)
  | Alt a b => orElse (run a pos prev s cs k) (run b pos prev s cs k)
  | Grp n a => run a pos prev s cs (fun pos' prev' s' cs' => k pos' prev' s' ((n, (pos, pos')) :: cs'))
  | Bos => match pos with O => k pos prev s cs | S _ => None end
  | Eos => match s with [] => k pos prev s cs | _ :: _ => None end
  | WordB => if xorb (isWordOpt prev) (isWordOpt (hd_error s)) then k pos prev s cs else None
  end.

End Run.

(** A match of [r] starting exactly at the current offset: the end offset and
    the captures. *)
Definition matchAt (r : regex) (pos : nat) (prev : option char) (s : str)
  : option (nat * caps) :=
  run r pos prev s [] (fun e _ _ cs => Some (e, cs)).

(** [r.exec(s)] without the [g] flag: the leftmost match. *)
Fixpoint execFrom (r : regex) (pos : nat) (prev : option char) (s : str)
  : option (nat * nat * caps) :=
  match matchAt r pos prev s with
  | Some (e, cs) => Some (pos, e, cs)
  | None =>
      match s with
      | c :: t => execFrom r (S pos) (Some c) t
      | [] => None
      end
  end.

Definition exec (r : regex) (s : str) : option (nat * nat * caps) :=
  execFrom r 0 None s.

(** [r.test(s)] *)
Definition test (r : regex) (s : str) : bool :=
  match exec r s with Some _ => true | None => false end.

Fixpoint capture (n : nat) (cs : caps) : option (nat * nat) :=
  match cs with
  | [] => None
  | (m, be) :: rest => if n =? m then Some be else capture n rest
  end.

(** [s.match(r)[n]] for a group that took part in the match. *)
Definition group (s : str) (cs : caps) (n : nat) : str :=
  match capture n cs with
  | Some (b, e) => slice s b e
  | None => []
  end.

(** [s.replace(r, by)] for a pattern with the [g] flag and a replacement
    without [$]: the subject is scanned from left to right, every match is
    replaced and the scan goes on after it.  [skip] counts the code units of
    the current match that are still to be passed over; after an empty match
    the scan advances by one code unit, which is copied. *)
Fixpoint replaceGo (r : regex) (by_ : str) (skip : nat) (pos : nat)
         (prev : option char) (s : str) : str :=
  match s with
  | [] =>
      match skip with
      | O => match matchAt r pos prev [] with Some _ => by_ | None => [] end
      | S _ => []
      end
  | c :: t =>
      match skip with
      | S n => replaceGo r by_ n (S pos) (Some c) t
      | O =>
          match matchAt r pos prev s with
          | Some (e, _) =>
              match e - pos with
              | O => by_ ++ c :: replaceGo r by_ 0 (S pos) (Some c) t
              | S n => by_ ++ replaceGo r by_ n (S pos) (Some c) t
              end
          | None => c :: replaceGo r by_ 0 (S pos) (Some c) t
          end
      end
  end.

Definition replaceAll (r : regex) (by_ : str) (s : str) : str :=
  replaceGo r by_ 0 0 None s.

(** ** Pattern syntax *)

Definition chr (c : char) : char -> bool := fun x => (x =? c)%N.
Definition oneOf (cs : str) : char -> bool := fun x => existsb (N.eqb x) cs.
Definition orC (p q : char -> bool) : char -> bool := fun x => p x || q x.
Definition notC (p : char -> bool) : char -> bool := fun x => negb (p x).
Definition dot : char -> bool := notC isLineTerminator.

(** Canonicalize of a pattern with the [i] flag and without [u]: the code
    unit is upper-cased.  Every class of the [i] patterns of the parsers is
    made of ASCII characters, white space and dashes, for which folding
    [a-z] onto [A-Z] on both sides is the whole of it. *)
Definition canon (c : char) : char := if isLowerAZ c then (c - 32)%N else c.
Definition ci (p : char -> bool) : char -> bool := fun x => p (canon x).
Definition chrI (c : char) : char -> bool := fun x => (canon x =? canon c)%N.

Fixpoint seq (rs : list regex) : regex :=
  match rs with
  | [] => Eps
  | [r] => r
  | r :: rest => Cat r (seq rest)
  end.

Fixpoint alt (rs : list regex) : regex :=
  match rs with
  | [] => Cls (fun _ => false)
  | [r] => r
  | r :: rest => Alt r (alt rest)
  end.

(** A literal, case-sensitive or (with the [i] flag) not. *)
Definition lit (s : string) : regex := seq (map (fun c => Cls (chr c)) (js s)).
Definition litS (s : str) : regex := seq (map (fun c => Cls (chr c)) s).
Definition litI (s : string) : regex := seq (map (fun c => Cls (chrI c)) (js s)).

Definition star (p : char -> bool) : regex := Rep true p 0 None.       (* p*  *)
Definition plus (p : char -> bool) : regex := Rep true p 1 None.       (* p+  *)
Definition plusLazy (p : char -> bool) : regex := Rep false p 1 None.  (* p+? *)
Definition opt (p : char -> bool) : regex := Rep true p 0 (Some 1).    (* p?  *)

End Regex.

(* ===================================================================== *)
(** * Loops *)
(* ===================================================================== *)

(** The two loop shapes of the scene parsers, with the fuel made explicit so
    that their termination is a theorem and not an artefact of the model. *)
Module Loop.

(** One turn of [while (j < n) { ... }]: [break], or go on with [j + 1]
    (both [j++; continue] and the fall-through [j++]). *)
Inductive turn (A : Type) : Type :=
| Break (a : A)
| Next (a : A).
Arguments Break {A} a.
Arguments Next {A} a.

(** [while (j < n) { body }]: the index at which the loop is left and the
    state there; [None] when the fuel runs out first. *)
Fixpoint while (A : Type) (fuel n : nat) (body : nat -> A -> turn A)
         (j : nat) (a : A) : option (nat * A) :=
  match fuel with
  | O => None
  | S f =>
      if n <=? j then Some (j, a)
      else match body j a with
           | Break a' => Some (j, a')
           | Next a' => while f n body (S j) a'
           end
  end.

(** [for (i = i0; i < n; i++) { body }] where the body may fail (its inner
    loop ran out of fuel) and may assign [i]: it returns the value of [i] at
    the end of the turn. *)
Fixpoint for_ (A : Type) (fuel n : nat) (body : nat -> A -> option (A * nat))
         (i : nat) (a : A) : option A :=
  match fuel with
  | O => None
  | S f =>
      if n <=? i then Some a
      else match body i a with
           | None => None
           | Some (a', i') => for_ f n body (S i') a'
           end
  end.

End Loop.

(* ===================================================================== *)
(** * Pattern pieces shared by the parsers *)
(* ===================================================================== *)

Module Pat.
Import JS Regex.

(** [\s], [\d], [[A-Z]], [[a-z]] *)
Definition ws := isWhiteSpace.
Definition digit := isDigit.
Definition upper := isUpperAZ.
Definition lower := isLowerAZ.

(** [INT\.?|EXT\.?|INT\/EXT\.?|I\/E\.?] under the [i] flag *)
Definition prefix4 : regex :=
  alt [ Cat (litI "INT") (opt (chr (ch ".")));
        Cat (litI "EXT") (opt (chr (ch ".")));
        Cat (litI "INT/EXT") (opt (chr (ch ".")));
        Cat (litI "I/E") (opt (chr (ch "."))) ].

(** [INT\.?|EXT\.?|INT\/EXT\.?] under the [i] flag *)
Definition prefix3 : regex :=
  alt [ Cat (litI "INT") (opt (chr (ch ".")));
        Cat (litI "EXT") (opt (chr (ch ".")));
        Cat (litI "INT/EXT") (opt (chr (ch "."))) ].

(** [DAY|NIGHT|LATER|MORNING|EVENING|DAWN|DUSK|CONTINUOUS|SAME TIME|MOMENTS LATER] *)
Definition times : regex :=
  alt (map litI [ "DAY"; "NIGHT"; "LATER"; "MORNING"; "EVENING"; "DAWN"; "DUSK";
                  "CONTINUOUS"; "SAME TIME"; "MOMENTS LATER" ]%string).

(** [[-–—]]: hyphen, en dash U+2013, em dash U+2014 *)
Definition dash : char -> bool := oneOf [ch "-"; 8211%N; 8212%N].

(** The patterns of [isSceneHeading] and [parseSceneHeading], for a prefix
    group [pre] (the parsers differ in the prefixes they accept):
    [/^(pre)\s+.+\s*[-–—]\s*(times)/i], [/^(pre)\s+.+\.\s*(times)/i],
    [/^(pre)\s+(.+?)\s*[-–—]\s*(times)/i], [/^(pre)\s+(.+?)\.\s*(times)/i] and
    [/^(pre)\s+(.+)/i]. *)
Definition headingDash (pre : regex) : regex :=
  seq [ Bos; Grp 1 pre; plus ws; plus dot; star ws; Cls dash; star ws; Grp 2 times ].
Definition headingDot (pre : regex) : regex :=
  seq [ Bos; Grp 1 pre; plus ws; plus dot; Cls (chr (ch ".")); star ws; Grp 2 times ].
Definition parseDash (pre : regex) : regex :=
  seq [ Bos; Grp 1 pre; plus ws; Grp 2 (plusLazy dot); star ws; Cls dash; star ws;
        Grp 3 times ].
Definition parseDot (pre : regex) : regex :=
  seq [ Bos; Grp 1 pre; plus ws; Grp 2 (plusLazy dot); Cls (chr (ch ".")); star ws;
        Grp 3 times ].
Definition parseRest (pre : regex) : regex :=
  seq [ Bos; Grp 1 pre; plus ws; Grp 2 (plus dot) ].

(** [[A-Z\s'.-]] *)
Definition nameChar : char -> bool :=
  orC upper (orC ws (oneOf [ch "'"; ch "."; ch "-"])).

(** [/\([^)]*\)/] *)
Definition parens : regex :=
  seq [ Cls (chr (ch "(")); star (notC (chr (ch ")"))); Cls (chr (ch ")")) ].

(** [/^\d{1,3}\.?$/] *)
Definition bareNumber : regex :=
  seq [ Bos; Rep true digit 1 (Some 3); opt (chr (ch ".")); Eos ].

(** [-*\s*\d+\s+of\s+\d+\s*-*] between [^] and [$]; [of] is folded or not *)
Definition footerOf (fold : bool) : regex :=
  seq [ Bos; star (chr (ch "-")); star ws; plus digit; plus ws;
        (if fold then litI "of" else lit "of");
        plus ws; plus digit; star ws; star (chr (ch "-")); Eos ].

(** [/^Page\s+\d+$/i] *)
Definition footerPage : regex :=
  seq [ Bos; litI "Page"; plus ws; plus digit; Eos ].

(** The code units of the mis-decoded UTF-8 sequences of [cleanScriptText]. *)
Definition a_circ : char := 226%N.      (* â  U+00E2 *)
Definition euro : char := 8364%N.       (* €  U+20AC *)
Definition tm : char := 8482%N.         (* ™  U+2122 *)
Definition oe : char := 339%N.          (* œ  U+0153 *)
Definition A_tilde : char := 195%N.     (* Ã  U+00C3 *)

(** The replacements of mis-decoded sequences, in the order of the source:
    pattern and replacement.  The source of the three parsers has the same
    twelve lines. *)
Definition mojibake : list (str * str) :=
  [ ([a_circ; euro; tm], js "'");
    ([a_circ; euro; oe], [34%N]);
    ([a_circ; euro], [34%N]);
    ([a_circ; euro; 34%N], [8212%N]);
    ([a_circ; euro; 34%N], [8211%N]);
    ([A_tilde; 32%N], [224%N]);
    ([A_tilde; 168%N], [232%N]);
    ([A_tilde; 169%N], [233%N]);
    ([A_tilde; 172%N], [236%N]);
    ([A_tilde; 178%N], [242%N]);
    ([A_tilde; 185%N], [249%N]);
    ([112%N; 105%N; A_tilde; 185%N], [112%N; 105%N; 249%N]) ].

(** [s.replace(/p1/g, r1).replace(/p2/g, r2)...] for literal patterns *)
Definition replaceEach (steps : list (str * str)) (s : str) : str :=
  fold_left (fun acc pr => replaceAll (litS (fst pr)) (snd pr) acc) steps s.

End Pat.

(* ===================================================================== *)
(** * HybridScriptParser (page.parser.js) *)
(* ===================================================================== *)

Module Hybrid.
Import JS Regex Pat.

(** ** Line predicates *)

(** [isSceneHeading(line)] *)
Definition pattern1 : regex := headingDash prefix4.
Definition pattern2 : regex := headingDot prefix4.
Definition pattern3 : regex :=
  seq [ Bos; Grp 1 prefix4; plus ws;
        Rep true (ci (orC upper (orC ws (chr (ch "'"))))) 3 None ].

Definition isSceneHeading (line : str) : bool :=
  test pattern1 line || test pattern2 line || test pattern3 line.

(** [parseSceneHeading(heading)] *)
Record Heading : Type := mkHeading {
  h_intExt : str;
  h_location : str;
  h_time : str
}.

Definition parse1 : regex := parseDash prefix4.
Definition parse2 : regex := parseDot prefix4.
Definition parse3 : regex := parseRest prefix4.

Definition parseSceneHeading (heading : str) : Heading :=
  let intExt := js "INT" in
  let location := js "Unknown" in
  let time := js "DAY" in
  match exec parse1 heading with
  | Some (_, _, m) =>
      mkHeading (toUpperCase (replaceFirst (js ".") [] (group heading m 1)))
                (trim (group heading m 2))
                (toUpperCase (group heading m 3))
  | None =>
      match exec parse2 heading with
      | Some (_, _, m) =>
          mkHeading (toUpperCase (replaceFirst (js ".") [] (group heading m 1)))
                    (trim (group heading m 2))
                    (toUpperCase (group heading m 3))
      | None =>
          match exec parse3 heading with
          | Some (_, _, m) =>
              mkHeading (toUpperCase (replaceFirst (js ".") [] (group heading m 1)))
                        (trim (group heading m 2))
                        time
          | None => mkHeading intExt location time
          end
      end
  end.

(** [cleanScriptText(text)] *)
Definition cleanScriptText (text : str) : str :=
  let t1 := replaceAll (litS [CR; LF]) [LF] text in
  let t2 := replaceAll (litS [CR]) [LF] t1 in
  let t3 := replaceAll (litS [TAB]) (js "    ") t2 in
  let t4 := replaceAll (Cat (plus ws) (Cls (chr LF))) [LF] t3 in
  trim (replaceEach mojibake t4).

(** [cleanCharacterName(line)] *)
Definition cleanCharacterName (line : str) : str :=
  let l1 := replaceAll parens [] line in
  let l2 := replaceAll (plus ws) (js " ") l1 in
  let l3 := replaceAll (litS [a_circ; euro; tm]) (js "'") l2 in
  trim l3.

(** [isParenthetical(line)] *)
Definition isParenthetical (line : str) : bool :=
  startsWith line (js "(") && endsWith line (js ")").

(** [isPageNumber(line)] *)
Definition isPageNumber (line : str) : bool := test bareNumber (trim line).

(** [isPageFooter(line)] *)
Definition isPageFooter (line : str) : bool :=
  test (footerOf true) line || test footerPage line.

(** [isTransition(line)] *)
Definition transitions : list str :=
  map js [ "FADE OUT"; "FADE IN"; "CUT TO"; "DISSOLVE TO"; "SMASH CUT TO";
           "MATCH CUT TO"; "JUMP CUT TO"; "WIPE TO"; "IRIS OUT"; "IRIS IN";
           "THE END"; "CONTINUED" ]%string.

Definition isTransition (line : str) : bool :=
  existsb (fun t => includes (toUpperCase line) t) transitions.

(** [/^[A-Z][A-Z\s'.-]*$/] and [/^[A-Z]\.[A-Z]\.?/] *)
Definition characterPattern : regex := seq [ Bos; Cls upper; star nameChar; Eos ].
Definition initials : regex :=
  seq [ Bos; Cls upper; Cls (chr (ch ".")); Cls upper; opt (chr (ch ".")) ].

(** [looksLikeCharacterName(line)] *)
Definition looksLikeCharacterName (line : str) : bool :=
  let trimmed := trim line in
  if (length trimmed <? 2) || (50 <? length trimmed) then false else
  let withoutParens := trim (replaceAll parens [] trimmed) in
  if negb (truthy withoutParens) || negb (test (Cls upper) withoutParens) then false else
  if negb (test characterPattern withoutParens) then false else
  if includes withoutParens (js ".") && negb (test initials withoutParens) then false else
  if isSceneHeading trimmed || isTransition trimmed then false else
  true.

(** [isCharacterName(line, allLines, currentIndex)].  The source accepts
    strings and [{text, pageNumber}] objects alike for the line and for the
    elements of [allLines]; the model is given the texts. *)
Definition isCharacterName (line : str) (allLines : list str) (currentIndex : nat) : bool :=
  let trimmed := trim line in
  if negb (truthy trimmed) then false else
  if (length trimmed <? 2) || (50 <? length trimmed) then false else
  if isPageNumber trimmed || isPageFooter trimmed then false else
  if isSceneHeading trimmed || isTransition trimmed then false else
  let withoutParens := trim (replaceAll parens [] trimmed) in
  if negb (truthy withoutParens) || (length withoutParens <? 2) then false else
  if negb (test (Cls upper) withoutParens) then false else
  if negb (test characterPattern withoutParens) then false else
  if includes withoutParens (js ".") && negb (test initials withoutParens) then false else
  let nextLineIndex := currentIndex + 1 in
  match nth_error allLines nextLineIndex with
  | None => false                       (* nextLineIndex >= allLines.length *)
  | Some nextLine =>
      let nextText := trim nextLine in
      if negb (truthy nextText) then false else
      if looksLikeCharacterName nextText then false else
      if isSceneHeading nextText then false else
      true
  end.

(** [isLikelyActionLine(line)] *)
Definition isLikelyActionLine (line : str) : bool :=
  let trimmed := trim line in
  if looksLikeCharacterName trimmed then false else
  let isAllCaps := test (seq [ Bos; plus nameChar; Eos ]) trimmed in
  let startsWithCap := test (seq [ Bos; Cls upper ]) trimmed in
  let hasLowercase := test (Cls lower) trimmed in
  if isAllCaps && (60 <? length trimmed) then true else
  if startsWithCap && hasLowercase && (40 <? length trimmed) then true else
  false.

(** ** Pages *)

Inductive LineType : Type :=
| scene_heading | transition | parenthetical | character | dialogue_or_action.

Record FormattedLine : Type := mkFormattedLine {
  fl_index : nat;
  fl_type : LineType;
  fl_text : str
}.

Record Page : Type := mkPage {
  pageNumber : nat;
  rawText : str;
  formatted : list FormattedLine
}.

(** [detectLineType(line, allLines, currentIndex)] *)
Definition detectLineType (line : str) (allLines : list str) (currentIndex : nat) : LineType :=
  if isSceneHeading line then scene_heading else
  if isTransition line then transition else
  if isParenthetical line then parenthetical else
  if isCharacterName line allLines currentIndex then character else
  dialogue_or_action.

Fixpoint mapi_from (A B : Type) (f : nat -> A -> B) (i : nat) (l : list A) : list B :=
  match l with
  | [] => []
  | x :: t => f i x :: mapi_from f (S i) t
  end.
(** [a.map((x, index) => f(index, x))] *)
Definition mapi (A B : Type) (f : nat -> A -> B) (l : list A) : list B := mapi_from f 0 l.

(** [analyzePageLines(pageText)] *)
Definition analyzePageLines (pageText : str) : list FormattedLine :=
  let lines :=
    filter (fun l => truthy l && negb (isPageNumber l) && negb (isPageFooter l))
           (map trim (split LF pageText)) in
  mapi (fun index line => mkFormattedLine index (detectLineType line lines index) line) lines.

(** The two messages [extractPages] logs: which page breaks it used. *)
Inductive PageBreaks : Type :=
| FormFeedBreaks       (* 'Using form feed page breaks' *)
| EstimatedBreaks.     (* 'Using estimated page breaks' *)

(** [text.split('\f').filter(t => t.trim())] *)
Definition formFeedPages (text : str) : list str :=
  filter (fun t => truthy (trim t)) (split FF text).

(** [formFeedPages.length > 1 && formFeedPages.length <= totalPages * 1.5]:
    the comparison with [totalPages * 1.5] is exact on integers, where it is
    [2 * length <= 3 * totalPages]. *)
Definition useFormFeed (count totalPages : nat) : bool :=
  (1 <? count) && (2 * count <=? 3 * totalPages).

(** The fallback of [extractPages]: [totalPages] pages of
    [Math.ceil(lines.length / totalPages)] lines each. *)
Definition estimatedPages (text : str) (totalPages : nat) : list Page :=
  let lines := split LF text in
  let linesPerPage := ceilDiv (length lines) totalPages in
  map (fun i =>
         let start := i * linesPerPage in
         let end_ := start + linesPerPage in
         let pageLines := slice lines start end_ in
         let content := trim (join [LF] pageLines) in
         mkPage (i + 1) content (analyzePageLines content))
      (List.seq 0 totalPages).

(** [extractPages(text, totalPages)], with the message it logs. *)
Definition extractPages (text : str) (totalPages : nat) : PageBreaks * list Page :=
  let ffPages := formFeedPages text in
  if useFormFeed (length ffPages) totalPages then
    (FormFeedBreaks,
     mapi (fun index content =>
             mkPage (index + 1) (trim content) (analyzePageLines (trim content)))
          ffPages)
  else
    (EstimatedBreaks, estimatedPages text totalPages).

(** ** Scenes *)

Record Dialogue : Type := mkDialogue {
  d_character : str;
  d_text : str
}.

(** [charactersInScene] is a [Set] while the lines are read and an array in
    the result; both keep the names in insertion order. *)
Inductive Names : Type :=
| NameSet (names : list str)
| NameArray (names : list str).

(** [fullText], [summary] and [props] are absent until the scene is sealed. *)
Record Scene : Type := mkScene {
  sceneNumber : nat;
  s_pageNumber : nat;
  heading : str;
  location : str;
  intExt : str;
  timeOfDay : str;
  dialogue : list Dialogue;
  actions : list str;
  actors : list str;
  charactersInScene : Names;
  fullText : option str;
  summary : option str;
  props : option (list str)
}.

(** [set.add(x)] and [if (!a.includes(x)) a.push(x)] *)
Definition pushNew (a : list str) (x : str) : list str :=
  if arr_includes a x then a else a ++ [x].

Definition namesAdd (n : Names) (x : str) : Names :=
  match n with
  | NameSet l => NameSet (pushNew l x)
  | NameArray l => NameArray l
  end.

(** [Array.from(set)] *)
Definition namesToArray (n : Names) : Names :=
  match n with
  | NameSet l => NameArray l
  | NameArray l => NameArray l
  end.

(** [generateSceneSummary(scene)] *)
Definition generateSceneSummary (scene : Scene) : str :=
  let actionText := join (js " ") (slice (actions scene) 0 3) in
  let dialogueText :=
    join (js " ")
         (map (fun d => d_character d ++ js ": " ++ substring0 (d_text d) 50 ++ js "...")
              (slice (dialogue scene) 0 2)) in
  let s := trim (actionText ++ js " " ++ dialogueText) in
  if truthy s then s else js "No summary available".

(** [extractProps(lines)] *)
Definition propKeywords : list string :=
  [ "glasses"; "phone"; "bottle"; "gun"; "knife"; "car"; "train"; "computer";
    "scanner"; "qr"; "kiosk"; "robot"; "tray"; "lift"; "elevator"; "apron";
    "luggage"; "locker"; "juice"; "beer"; "metro"; "sofa"; "camera"; "dress";
    "frame"; "machine"; "caviar"; "vending"; "jet"; "airhostess" ]%string.

(** [prop.charAt(0).toUpperCase() + prop.slice(1)] *)
Definition capitalize (prop : str) : str :=
  match prop with
  | [] => []
  | c :: t => toUpperCase [c] ++ t
  end.

Definition extractProps (lines : list str) : list str :=
  fold_left
    (fun props line =>
       let lowerLine := toLowerCase line in
       fold_left
         (fun props prop =>
            if test (seq [ WordB; litI prop; WordB ]) lowerLine
            then pushNew props (capitalize (js prop))
            else props)
         propKeywords props)
    lines [].

(** The three assignments that seal a scene before [scenes.push]. *)
Definition seal (scene : Scene) (sceneLines : list str) : Scene :=
  let s1 := mkScene (sceneNumber scene) (s_pageNumber scene) (heading scene)
                    (location scene) (intExt scene) (timeOfDay scene)
                    (dialogue scene) (actions scene) (actors scene)
                    (charactersInScene scene)
                    (Some (join [LF] sceneLines)) (summary scene) (props scene) in
  mkScene (sceneNumber s1) (s_pageNumber s1) (heading s1) (location s1) (intExt s1)
          (timeOfDay s1) (dialogue s1) (actions s1) (actors s1) (charactersInScene s1)
          (fullText s1) (Some (generateSceneSummary s1)) (Some (extractProps sceneLines)).

Record LineObj : Type := mkLineObj {
  text : str;
  lo_pageNumber : nat
}.

(** The flattened stream of non-empty trimmed lines with their pages. *)
Definition flatten (pages : list Page) : list LineObj :=
  flat_map
    (fun page =>
       map (fun line => mkLineObj line (pageNumber page))
           (filter truthy (map trim (split LF (rawText page)))))
    pages.

(** The state of the loop of [parseScenes]. *)
Record PState : Type := mkPState {
  scenes : list Scene;
  currentScene : option Scene;
  currentCharacter : option str;
  sceneLines : list str
}.

Definition initial : PState := mkPState [] None None [].

Definition textAt (allLines : list LineObj) (j : nat) : str :=
  match nth_error allLines j with
  | Some l => text l
  | None => []
  end.

(** What makes the dialogue loop [break] before the parenthetical test. *)
Definition stopsDialogue (allLines : list LineObj) (j : nat) (nextLine : str) : bool :=
  isCharacterName nextLine (map text allLines) j
  || isSceneHeading nextLine
  || isTransition nextLine
  || isPageNumber nextLine
  || isPageFooter nextLine.

(** One turn of the [while (j < allLines.length)] loop that collects the
    dialogue; the state is [dialogueLines] and [sceneLines]. *)
Definition collectTurn (allLines : list LineObj) (j : nat) (a : list str * list str)
  : Loop.turn (list str * list str) :=
  let '(dialogueLines, sceneLines) := a in
  let nextLine := trim (textAt allLines j) in
  if negb (truthy nextLine) then Loop.Next a else
  if stopsDialogue allLines j nextLine then Loop.Break a else
  if isParenthetical nextLine then Loop.Next (dialogueLines, sceneLines ++ [nextLine]) else
  if isLikelyActionLine nextLine then Loop.Break a else
  Loop.Next (dialogueLines ++ [nextLine], sceneLines ++ [nextLine]).

Definition collectDialogue (fuel : nat) (allLines : list LineObj) (j : nat)
           (sceneLines : list str) : option (nat * (list str * list str)) :=
  Loop.while fuel (length allLines) (collectTurn allLines) j ([], sceneLines).

Definition openScene (number : nat) (lineObj : LineObj) : Scene :=
  let sceneData := parseSceneHeading (text lineObj) in
  mkScene number (lo_pageNumber lineObj) (text lineObj)
          (h_location sceneData) (h_intExt sceneData) (h_time sceneData)
          [] [] [] (NameSet []) None None None.

Definition withCue (scene : Scene) (characterName : str) : Scene :=
  mkScene (sceneNumber scene) (s_pageNumber scene) (heading scene) (location scene)
          (intExt scene) (timeOfDay scene) (dialogue scene) (actions scene)
          (pushNew (actors scene) characterName)
          (namesAdd (charactersInScene scene) characterName)
          (fullText scene) (summary scene) (props scene).

Definition withDialogue (scene : Scene) (d : Dialogue) : Scene :=
  mkScene (sceneNumber scene) (s_pageNumber scene) (heading scene) (location scene)
          (intExt scene) (timeOfDay scene) (dialogue scene ++ [d]) (actions scene)
          (actors scene) (charactersInScene scene)
          (fullText scene) (summary scene) (props scene).

Definition withAction (scene : Scene) (line : str) : Scene :=
  mkScene (sceneNumber scene) (s_pageNumber scene) (heading scene) (location scene)
          (intExt scene) (timeOfDay scene) (dialogue scene) (actions scene ++ [line])
          (actors scene) (charactersInScene scene)
          (fullText scene) (summary scene) (props scene).

(** [if (currentScene) { ...; scenes.push(currentScene) }] *)
Definition pushSealed (st : PState) : list Scene :=
  match currentScene st with
  | Some scene => scenes st ++ [seal scene (sceneLines st)]
  | None => scenes st
  end.

(** One turn of [for (let i = 0; i < allLines.length; i++)]: the new state
    and the value of [i] when the turn ends. *)
Definition parseTurn (fuel : nat) (allLines : list LineObj) (i : nat) (st : PState)
  : option (PState * nat) :=
  match nth_error allLines i with
  | None => Some (st, i)
  | Some lineObj =>
      let line := text lineObj in
      if isPageNumber line || isPageFooter line then Some (st, i) else
      if isSceneHeading line then
        let scenes' := pushSealed st in
        Some (mkPState scenes' (Some (openScene (length scenes' + 1) lineObj)) None [line], i)
      else
        match currentScene st with
        | None => Some (st, i)
        | Some scene =>
            let sceneLines1 := sceneLines st ++ [line] in
            if isCharacterName line (map text allLines) i then
              let characterName := cleanCharacterName line in
              let scene1 := withCue scene characterName in
              match collectDialogue fuel allLines (i + 1) sceneLines1 with
              | None => None
              | Some (j, (dialogueLines, sceneLines2)) =>
                  let scene2 :=
                    if 0 <? length dialogueLines
                    then withDialogue scene1 (mkDialogue characterName (join (js " ") dialogueLines))
                    else scene1 in
                  Some (mkPState (scenes st) (Some scene2) (Some characterName) sceneLines2,
                        j - 1)
              end
            else
              let scene1 :=
                if negb (isTransition line) && negb (looksLikeCharacterName line)
                then withAction scene line else scene in
              Some (mkPState (scenes st) (Some scene1) (currentCharacter st) sceneLines1, i)
        end
  end.

Definition parseLoop (fuel : nat) (allLines : list LineObj) (i : nat) (st : PState)
  : option PState :=
  Loop.for_ fuel (length allLines) (parseTurn fuel allLines) i st.

(** [scene.charactersInScene = Array.from(scene.charactersInScene)] *)
Definition arrayNames (scene : Scene) : Scene :=
  mkScene (sceneNumber scene) (s_pageNumber scene) (heading scene) (location scene)
          (intExt scene) (timeOfDay scene) (dialogue scene) (actions scene)
          (actors scene) (namesToArray (charactersInScene scene))
          (fullText scene) (summary scene) (props scene).

(** [parseScenes(pages)] with a given amount of fuel for its loops. *)
Definition parseScenesWith (fuel : nat) (pages : list Page) : option (list Scene) :=
  let allLines := flatten pages in
  match parseLoop fuel allLines 0 initial with
  | None => None
  | Some st => Some (map arrayNames (pushSealed st))
  end.

(** [parseScenes(pages)]: one more unit of fuel than there are lines is
    always enough (theorem [parseScenes_total]). *)
Definition parseScenes (pages : list Page) : option (list Scene) :=
  parseScenesWith (S (length (flatten pages))) pages.

(** ** Characters *)

(** An entry of [characterMap]; the map keeps its entries in insertion
    order, which is the order of the returned roster. *)
Record CharAcc : Type := mkCharAcc {
  a_name : str;
  a_lines : nat;
  a_scenes : list nat;
  a_dialogue : list str
}.

Definition mapHas (m : list CharAcc) (name : str) : bool :=
  existsb (fun c => str_eqb (a_name c) name) m.

(** The entry of [name] is updated in place. *)
Definition mapUpdate (m : list CharAcc) (name : str) (f : CharAcc -> CharAcc) : list CharAcc :=
  map (fun c => if str_eqb (a_name c) name then f c else c) m.

Definition addActor (sceneIndex : nat) (m : list CharAcc) (charName : str) : list CharAcc :=
  let m1 := if mapHas m charName then m else m ++ [mkCharAcc charName 0 [] []] in
  mapUpdate m1 charName
    (fun c => if existsb (Nat.eqb sceneIndex) (a_scenes c) then c
              else mkCharAcc (a_name c) (a_lines c) (a_scenes c ++ [sceneIndex]) (a_dialogue c)).

Definition addDialogue (m : list CharAcc) (d : Dialogue) : list CharAcc :=
  if mapHas m (d_character d) then
    mapUpdate m (d_character d)
      (fun c => mkCharAcc (a_name c) (a_lines c + 1) (a_scenes c) (a_dialogue c ++ [d_text d]))
  else m.

Record Character : Type := mkCharacter {
  name : str;
  lines : nat;
  c_scenes : nat;
  sceneIds : list str;
  c_dialogue : list str
}.

Definition foldScenes (scenes : list Scene) : list CharAcc :=
  snd (fold_left
         (fun (acc : nat * list CharAcc) scene =>
            let '(sceneIndex, m) := acc in
            let m1 := fold_left (addActor sceneIndex) (actors scene) m in
            let m2 := fold_left addDialogue (dialogue scene) m1 in
            (S sceneIndex, m2))
         scenes (0, [])).

(** [extractCharacters(scenes)] *)
Definition extractCharacters (scenes : list Scene) : list Character :=
  map (fun c => mkCharacter (a_name c) (a_lines c) (length (a_scenes c))
                            (map ofNat (a_scenes c)) (a_dialogue c))
      (foldScenes scenes).

(** ** Metadata *)

Record Metadata : Type := mkMetadata {
  totalPages : nat;
  m_scenes : nat;
  m_characters : nat;
  locations : nat;
  timePeriods : nat;
  totalDialogue : nat;
  totalActions : nat;
  needsReview : bool
}.

(** [[...new Set(a.filter(Boolean))]] *)
Definition unique (a : list str) : list str :=
  fold_left pushNew (filter truthy a) [].

(** [generateMetadata(pages, scenes, characters)] *)
Definition generateMetadata (pages : list Page) (scenes : list Scene)
           (characters : list Character) : Metadata :=
  let uniqueLocations := unique (map location scenes) in
  let uniqueTimes := unique (map timeOfDay scenes) in
  mkMetadata (length pages) (length scenes) (length characters)
             (length uniqueLocations) (length uniqueTimes)
             (fold_left (fun sum s => sum + length (dialogue s)) scenes 0)
             (fold_left (fun sum s => sum + length (actions s)) scenes 0)
             true.

(** ** The parse *)

Record ParseResult : Type := mkParseResult {
  r_pages : list Page;
  r_scenes : list Scene;
  r_characters : list Character;
  r_metadata : Metadata
}.

(** [parse(filePath)] after the text and the page count have been read from
    the PDF: the result, and the page breaks that were logged. *)
Definition parseText (text : str) (totalPages : nat) : option (PageBreaks * ParseResult) :=
  let cleanedText := cleanScriptText text in
  let '(breaks, pages) := extractPages cleanedText totalPages in
  match parseScenes pages with
  | None => None
  | Some scenes =>
      let characters := extractCharacters scenes in
      let metadata := generateMetadata pages scenes characters in
      Some (breaks, mkParseResult pages scenes characters metadata)
  end.

End Hybrid.

(* ===================================================================== *)
(** * DocumentBasedScriptParser (document.parser.js) *)
(* ===================================================================== *)

Module Document.
Import JS Regex Pat.

(** [cleanScriptText(text)]: tabs and surrounding white space are kept. *)
Definition cleanScriptText (text : str) : str :=
  let t1 := replaceAll (litS [CR; LF]) [LF] text in
  let t2 := replaceAll (litS [CR]) [LF] t1 in
  let t3 := replaceAll (litS [TAB]) [TAB] t2 in
  replaceEach mojibake t3.

Record TextPage : Type := mkTextPage {
  pageNumber : nat;
  rawText : str;
  lineCount : nat
}.

(** [pages.length > 1 && pages.length <= totalPages * 1.5], on integers *)
Definition useFormFeed (count totalPages : nat) : bool :=
  (1 <? count) && (2 * count <=? 3 * totalPages).

(** The fallback of [extractTextPages]. *)
Definition estimatedPages (text : str) (totalPages : nat) : list TextPage :=
  let allLines := split LF text in
  let linesPerPage := ceilDiv (length allLines) totalPages in
  map (fun i =>
         let start := i * linesPerPage in
         let end_ := start + linesPerPage in
         let pageLines := slice allLines start end_ in
         mkTextPage (i + 1) (cleanScriptText (join [LF] pageLines)) (length pageLines))
      (List.seq 0 totalPages).

(** [extractTextPages(text, totalPages)], with the message it logs. *)
Definition extractTextPages (text : str) (totalPages : nat)
  : Hybrid.PageBreaks * list TextPage :=
  let pages := split FF text in
  if useFormFeed (length pages) totalPages then
    (Hybrid.FormFeedBreaks,
     Hybrid.mapi (fun index pageText =>
                    mkTextPage (index + 1) (cleanScriptText pageText)
                               (length (split LF pageText)))
                 (filter (fun p => truthy (trim p)) pages))
  else
    (Hybrid.EstimatedBreaks, estimatedPages text totalPages).

(** [isSceneHeading(line)]: the three patterns of page.parser.js *)
Definition isSceneHeading (line : str) : bool :=
  test (headingDash prefix4) line || test (headingDot prefix4) line
  || test Hybrid.pattern3 line.

(** [parseSceneHeading(heading)]: the dash pattern only *)
Definition parseSceneHeading (heading : str) : Hybrid.Heading :=
  let intExt := js "INT" in
  let location := js "Unknown" in
  let time := js "DAY" in
  match exec (parseDash prefix4) heading with
  | Some (_, _, m) =>
      Hybrid.mkHeading (toUpperCase (replaceFirst (js ".") [] (group heading m 1)))
                       (trim (group heading m 2))
                       (toUpperCase (group heading m 3))
  | None => Hybrid.mkHeading intExt location time
  end.

(** [isTransition(line)] *)
Definition transitions : list str :=
  map js [ "FADE OUT"; "FADE IN"; "CUT TO"; "DISSOLVE TO"; "THE END"; "CONTINUED" ]%string.

Definition isTransition (line : str) : bool :=
  existsb (fun t => includes (toUpperCase line) t) transitions.

(** [isCharacterName(line, allLines, currentIndex)] *)
Definition isCharacterName (line : str) (allLines : list str) (currentIndex : nat) : bool :=
  let trimmed := trim line in
  if (length trimmed <? 2) || (50 <? length trimmed) then false else
  if isSceneHeading trimmed || isTransition trimmed then false else
  let withoutParens := trim (replaceAll parens [] trimmed) in
  if negb (truthy withoutParens) || negb (test (Cls upper) withoutParens) then false else
  if negb (test Hybrid.characterPattern withoutParens) then false else
  let nextLineIndex := currentIndex + 1 in
  match nth_error allLines nextLineIndex with
  | None => false
  | Some l =>
      let nextLine := trim l in
      if negb (truthy nextLine) || isSceneHeading nextLine then false else
      true
  end.

Definition isParenthetical (line : str) : bool :=
  startsWith line (js "(") && endsWith line (js ")").

Definition isPageNumber (line : str) : bool := test bareNumber (trim line).

Definition isPageFooter (line : str) : bool :=
  test (footerOf true) line || test footerPage line.

(** [cleanCharacterName(line)] *)
Definition cleanCharacterName (line : str) : str :=
  trim (replaceAll (plus ws) (js " ") (replaceAll parens [] line)).

(** [extractPropsFromLine(line)] *)
Definition propKeywords : list string :=
  [ "glasses"; "phone"; "bottle"; "gun"; "knife"; "car"; "computer" ]%string.

Definition extractPropsFromLine (line : str) : list str :=
  fold_left
    (fun props prop =>
       if test (seq [ WordB; litI prop; WordB ]) line
       then props ++ [Hybrid.capitalize (js prop)]
       else props)
    propKeywords [].

Record Scene : Type := mkScene {
  sceneNumber : nat;
  s_pageNumber : nat;
  heading : str;
  location : str;
  intExt : str;
  timeOfDay : str;
  dialogue : list Hybrid.Dialogue;
  actions : list str;
  actors : list str;
  props : list str;
  text : option str;
  summary : option str
}.

(** [generateSceneSummary(scene)] *)
Definition generateSceneSummary (scene : Scene) : str :=
  let actionText := join (js " ") (slice (actions scene) 0 3) in
  let dialogueText :=
    join (js " ")
         (map (fun d => Hybrid.d_character d ++ js ": "
                        ++ substring0 (Hybrid.d_text d) 50 ++ js "...")
              (slice (dialogue scene) 0 2)) in
  let s := trim (actionText ++ js " " ++ dialogueText) in
  if truthy s then s else js "No summary available".

Definition seal (scene : Scene) (sceneLines : list str) : Scene :=
  let s1 := mkScene (sceneNumber scene) (s_pageNumber scene) (heading scene)
                    (location scene) (intExt scene) (timeOfDay scene)
                    (dialogue scene) (actions scene) (actors scene) (props scene)
                    (Some (join [LF] sceneLines)) (summary scene) in
  mkScene (sceneNumber s1) (s_pageNumber s1) (heading s1) (location s1) (intExt s1)
          (timeOfDay s1) (dialogue s1) (actions s1) (actors s1) (props s1)
          (text s1) (Some (generateSceneSummary s1)).

(** The variables of [analyzeScenes] that its callbacks assign. *)
Record AState : Type := mkAState {
  scenes : list Scene;
  currentScene : option Scene;
  sceneLines : list str;
  nextNumber : nat               (* [sceneNumber] *)
}.

Definition initial : AState := mkAState [] None [] 1.

Definition pushSealed (st : AState) : list Scene :=
  match currentScene st with
  | Some scene => scenes st ++ [seal scene (sceneLines st)]
  | None => scenes st
  end.

(** One turn of [for (let j = lineIndex + 1; j < lines.length; j++)]; the
    state is [dialogueText]. *)
Definition collectTurn (lines : list str) (j : nat) (dialogueText : str) : Loop.turn str :=
  let nextLine := trim (nth j lines []) in
  if negb (truthy nextLine) then Loop.Next dialogueText else
  if isCharacterName nextLine lines j || isSceneHeading nextLine then Loop.Break dialogueText else
  Loop.Next (dialogueText ++ nextLine ++ js " ").

(** The callback of [lines.forEach((line, lineIndex) => ...)]. *)
Definition lineTurn (fuel : nat) (page : TextPage) (lines : list str)
           (lineIndex : nat) (line : str) (st : AState) : option AState :=
  let trimmed := trim line in
  if negb (truthy trimmed) || isPageNumber trimmed || isPageFooter trimmed then Some st else
  if isSceneHeading trimmed then
    let sceneData := parseSceneHeading trimmed in
    Some (mkAState (pushSealed st)
                   (Some (mkScene (nextNumber st) (pageNumber page) trimmed
                                  (Hybrid.h_location sceneData) (Hybrid.h_intExt sceneData)
                                  (Hybrid.h_time sceneData) [] [] [] [] None None))
                   [trimmed]
                   (nextNumber st + 1))
  else
    match currentScene st with
    | None => Some st
    | Some scene =>
        let sceneLines1 := sceneLines st ++ [line] in
        let cue := isCharacterName trimmed lines lineIndex in
        let afterCue :=
          if cue then
            let characterName := cleanCharacterName trimmed in
            let actors1 := Hybrid.pushNew (actors scene) characterName in
            match Loop.while fuel (length lines) (collectTurn lines) (lineIndex + 1) [] with
            | None => None
            | Some (_, dialogueText) =>
                Some (actors1,
                      if truthy (trim dialogueText)
                      then dialogue scene ++ [Hybrid.mkDialogue characterName (trim dialogueText)]
                      else dialogue scene)
            end
          else Some (actors scene, dialogue scene) in
        match afterCue with
        | None => None
        | Some (actors1, dialogue1) =>
            let actions1 :=
              if negb cue && negb (isTransition trimmed) && negb (isParenthetical trimmed)
              then actions scene ++ [trimmed] else actions scene in
            let props1 := fold_left Hybrid.pushNew (extractPropsFromLine trimmed) (props scene) in
            Some (mkAState (scenes st)
                           (Some (mkScene (sceneNumber scene) (s_pageNumber scene)
                                          (heading scene) (location scene) (intExt scene)
                                          (timeOfDay scene) dialogue1 actions1 actors1 props1
                                          (text scene) (summary scene)))
                           sceneLines1 (nextNumber st))
        end
  end.

(** [a.forEach((x, index) => f(index, x))] over a state, where [f] may fail *)
Fixpoint forEachFrom (A St : Type) (f : nat -> A -> St -> option St) (i : nat)
         (l : list A) (st : St) : option St :=
  match l with
  | [] => Some st
  | x :: t =>
      match f i x st with
      | None => None
      | Some st' => forEachFrom f (S i) t st'
      end
  end.

Definition pageTurn (fuel : nat) (page : TextPage) (st : AState) : option AState :=
  let lines := split LF (rawText page) in
  forEachFrom (lineTurn fuel page lines) 0 lines st.

(** [analyzeScenes(textPages)] with a given amount of fuel for the dialogue
    loop. *)
Definition analyzeScenesWith (fuel : nat) (textPages : list TextPage) : option (list Scene) :=
  match forEachFrom (fun _ page => pageTurn fuel page) 0 textPages initial with
  | None => None
  | Some st => Some (pushSealed st)
  end.

Definition maxLines (textPages : list TextPage) : nat :=
  fold_right (fun page m => Nat.max (length (split LF (rawText page))) m) 0 textPages.

(** [analyzeScenes(textPages)] *)
Definition analyzeScenes (textPages : list TextPage) : option (list Scene) :=
  analyzeScenesWith (S (maxLines textPages)) textPages.

(** [extractCharacters(scenes)]: the method of page.parser.js, line for
    line, over the scenes of this parser. *)
Definition foldScenes (scenes : list Scene) : list Hybrid.CharAcc :=
  snd (fold_left
         (fun (acc : nat * list Hybrid.CharAcc) scene =>
            let '(sceneIndex, m) := acc in
            let m1 := fold_left (Hybrid.addActor sceneIndex) (actors scene) m in
            let m2 := fold_left Hybrid.addDialogue (dialogue scene) m1 in
            (S sceneIndex, m2))
         scenes (0, [])).

Definition extractCharacters (scenes : list Scene) : list Hybrid.Character :=
  map (fun c => Hybrid.mkCharacter (Hybrid.a_name c) (Hybrid.a_lines c)
                                   (length (Hybrid.a_scenes c))
                                   (map ofNat (Hybrid.a_scenes c)) (Hybrid.a_dialogue c))
      (foldScenes scenes).

Record Metadata : Type := mkMetadata {
  totalPages : nat;
  m_scenes : nat;
  m_characters : nat;
  totalDialogue : nat;
  totalActions : nat
}.

(** [generateMetadata(textPages, scenes, characters)] *)
Definition generateMetadata (textPages : list TextPage) (scenes : list Scene)
           (characters : list Hybrid.Character) : Metadata :=
  mkMetadata (length textPages) (length scenes) (length characters)
             (fold_left (fun sum s => sum + length (dialogue s)) scenes 0)
             (fold_left (fun sum s => sum + length (actions s)) scenes 0).

Record ParseResult : Type := mkParseResult {
  r_textPages : list TextPage;
  r_scenes : list Scene;
  r_characters : list Hybrid.Character;
  r_metadata : Metadata
}.

(** [parse(filePath)] after the text and the page count have been read from
    the PDF: the result, and the page breaks that were logged. *)
Definition parseText (text : str) (totalPages : nat)
  : option (Hybrid.PageBreaks * ParseResult) :=
  let '(breaks, textPages) := extractTextPages text totalPages in
  match analyzeScenes textPages with
  | None => None
  | Some scenes =>
      let characters := extractCharacters scenes in
      let metadata := generateMetadata textPages scenes characters in
      Some (breaks, mkParseResult textPages scenes characters metadata)
  end.

End Document.

(* ===================================================================== *)
(** * PDFScriptParser (the PDF parser) *)
(* ===================================================================== *)

Module Pdf.
Import JS Regex Pat.

(** [cleanScriptText(text)]: form feeds become line breaks. *)
Definition cleanScriptText (text : str) : str :=
  let t1 := replaceAll (litS [CR; LF]) [LF] text in
  let t2 := replaceAll (litS [CR]) [LF] t1 in
  let t3 := replaceAll (litS [TAB]) (js "    ") t2 in
  let t4 := replaceAll (litS [FF]) [LF] t3 in
  let t5 := replaceAll (Cat (plus ws) (Cls (chr LF))) [LF] t4 in
  trim (replaceEach mojibake t5).

(** [isSceneHeading(line)]: no [I/E] prefix, no apostrophe in the third
    pattern *)
Definition pattern3 : regex :=
  seq [ Bos; Grp 1 prefix3; plus ws; Rep true (ci (orC upper ws)) 3 None ].

Definition isSceneHeading (line : str) : bool :=
  test (headingDash prefix3) line || test (headingDot prefix3) line || test pattern3 line.

(** [parseSceneHeading(heading)] *)
Definition parseSceneHeading (heading : str) : Hybrid.Heading :=
  let intExt := js "INT" in
  let location := js "Unknown" in
  let time := js "DAY" in
  match exec (parseDash prefix3) heading with
  | Some (_, _, m) =>
      Hybrid.mkHeading (toUpperCase (replaceFirst (js ".") [] (group heading m 1)))
                       (trim (group heading m 2))
                       (toUpperCase (group heading m 3))
  | None =>
      match exec (parseDot prefix3) heading with
      | Some (_, _, m) =>
          Hybrid.mkHeading (toUpperCase (replaceFirst (js ".") [] (group heading m 1)))
                           (trim (group heading m 2))
                           (toUpperCase (group heading m 3))
      | None =>
          match exec (parseRest prefix3) heading with
          | Some (_, _, m) =>
              Hybrid.mkHeading (toUpperCase (replaceFirst (js ".") [] (group heading m 1)))
                               (trim (group heading m 2))
                               time
          | None => Hybrid.mkHeading intExt location time
          end
      end
  end.

(** [cleanCharacterName(line)] *)
Definition cleanCharacterName (line : str) : str :=
  let l1 := replaceAll parens [] line in
  let l2 := replaceAll (plus ws) (js " ") l1 in
  let l3 := replaceAll (litS [a_circ; euro; tm]) (js "'") l2 in
  trim l3.

Definition isParenthetical (line : str) : bool :=
  startsWith line (js "(") && endsWith line (js ")").

(** [isPageNumber(line)]: the line as it is, not trimmed *)
Definition isPageNumber (line : str) : bool := test bareNumber line.

(** [isPageFooter(line)]: the first pattern has no [i] flag *)
Definition isPageFooter (line : str) : bool :=
  test (footerOf false) line || test footerPage line.

(** [isTransition(line)] *)
Definition transitions : list str :=
  map js [ "FADE OUT"; "FADE IN"; "CUT TO"; "DISSOLVE TO"; "SMASH CUT TO";
           "MATCH CUT TO"; "JUMP CUT TO"; "WIPE TO"; "IRIS OUT"; "IRIS IN";
           "THE END" ]%string.

Definition isTransition (line : str) : bool :=
  existsb (fun t => includes (toUpperCase line) t) transitions.

(** [/^[A-Z][A-Z\s'.-]*[A-Z]$|^[A-Z]$/] *)
Definition characterPattern : regex :=
  Alt (seq [ Bos; Cls upper; star nameChar; Cls upper; Eos ])
      (seq [ Bos; Cls upper; Eos ]).

(** [looksLikeCharacterName(line)] *)
Definition looksLikeCharacterName (line : str) : bool :=
  let trimmed := trim line in
  if (length trimmed <? 2) || (50 <? length trimmed) then false else
  let withoutParens := trim (replaceAll parens [] trimmed) in
  if negb (truthy withoutParens) then false else
  if negb (test (Cls upper) withoutParens) then false else
  if negb (test characterPattern withoutParens) then false else
  if includes withoutParens (js ".") && negb (test Hybrid.initials withoutParens) then false else
  if isSceneHeading trimmed || isTransition trimmed then false else
  true.

Definition scriptEnders : list str :=
  map js [ "THE END"; "CONTINUED"; "TO BE CONTINUED"; "FADE OUT"; "FADE IN" ]%string.

(** [isCharacterName(line, allLines, currentIndex)] *)
Definition isCharacterName (line : str) (allLines : list str) (currentIndex : nat) : bool :=
  if isPageFooter line || isPageNumber line then false else
  if isSceneHeading line || isTransition line then false else
  let trimmed := trim line in
  if (length trimmed <? 2) || (50 <? length trimmed) then false else
  let withoutParens := trim (replaceAll parens [] trimmed) in
  if negb (truthy withoutParens) || (length withoutParens <? 2) then false else
  if negb (test (Cls upper) withoutParens) then false else
  if existsb (fun ender => includes (toUpperCase trimmed) ender) scriptEnders then false else
  if negb (test characterPattern withoutParens) then false else
  if includes withoutParens (js ".") && negb (test Hybrid.initials withoutParens) then false else
  let nextLineIndex := currentIndex + 1 in
  match nth_error allLines nextLineIndex with
  | None => false
  | Some l =>
      let nextLine := trim l in
      if negb (truthy nextLine) then false else
      if looksLikeCharacterName nextLine then false else
      if isSceneHeading nextLine then false else
      true
  end.

(** [isLikelyActionLine(line)].  The class body defines the method twice;
    the second definition, which is the one in force, is embedded. *)
Definition isLikelyActionLine (line : str) : bool :=
  let isAllCaps := test (seq [ Bos; plus (orC upper ws); Eos ]) line in
  let startsWithCap := test (seq [ Bos; Cls upper ]) line in
  let hasLowercase := test (Cls lower) line in
  if isAllCaps && (25 <? length line) then true else
  if startsWithCap && hasLowercase && (15 <? length line) then true else
  false.

(** A dialogue block keeps its lines. *)
Record Dialogue : Type := mkDialogue {
  d_character : str;
  d_text : str;
  d_lines : list str
}.

Record Stats : Type := mkStats {
  lineCount : nat;
  dialogues : list str
}.

(** [characterStats] is an object used as a map from names to [Stats]; its
    keys are cleaned cue names, which are listed in insertion order. *)
Record Scene : Type := mkScene {
  page : nat;
  originalHeading : str;
  intExt : str;
  location : str;
  time : str;
  summary : str;
  sceneText : str;
  actors : list str;
  action : list str;
  dialogue : list Dialogue;
  charactersInScene : Hybrid.Names;
  characterStats : list (str * Stats);
  props : list str
}.

(** [generateSceneSummary(scene)] *)
Definition generateSceneSummary (scene : Scene) : str :=
  let actionText := join (js " ") (action scene) in
  let dialogueText :=
    join (js " ") (map (fun d => d_character d ++ js ": " ++ d_text d) (dialogue scene)) in
  let s := trim (actionText ++ js " " ++ dialogueText) in
  if truthy s then s else js "No summary available".

(** [extractProps(lines)] *)
Definition extractProps (lines : list str) : list str :=
  fold_left
    (fun props line =>
       let lowerLine := toLowerCase line in
       fold_left
         (fun props prop =>
            if includes lowerLine (js prop)
            then Hybrid.pushNew props (Hybrid.capitalize (js prop))
            else props)
         Hybrid.propKeywords props)
    lines [].

Definition seal (scene : Scene) (currentSceneLines : list str) : Scene :=
  let s1 := mkScene (page scene) (originalHeading scene) (intExt scene) (location scene)
                    (time scene) (summary scene) (join [LF] currentSceneLines)
                    (actors scene) (action scene) (dialogue scene)
                    (charactersInScene scene) (characterStats scene) (props scene) in
  let s2 := mkScene (page s1) (originalHeading s1) (intExt s1) (location s1)
                    (time s1) (generateSceneSummary s1) (sceneText s1)
                    (actors s1) (action s1) (dialogue s1)
                    (charactersInScene s1) (characterStats s1) (props s1) in
  mkScene (page s2) (originalHeading s2) (intExt s2) (location s2)
          (time s2) (summary s2) (sceneText s2)
          (actors s2) (action s2) (dialogue s2)
          (charactersInScene s2) (characterStats s2) (extractProps currentSceneLines).

Record PState : Type := mkPState {
  scenes : list Scene;
  currentScene : option Scene;
  currentSceneLines : list str
}.

Definition initial : PState := mkPState [] None [].

Definition pushSealed (st : PState) : list Scene :=
  match currentScene st with
  | Some scene => scenes st ++ [seal scene (currentSceneLines st)]
  | None => scenes st
  end.

Definition stopsDialogue (lines : list str) (j : nat) (nextLine : str) : bool :=
  isCharacterName nextLine lines j
  || isSceneHeading nextLine
  || isPageNumber nextLine
  || isPageFooter nextLine
  || isTransition nextLine.

(** One turn of [while (j < lines.length)]; the state is [dialogueLines] and
    [currentSceneLines]. *)
Definition collectTurn (lines : list str) (j : nat) (a : list str * list str)
  : Loop.turn (list str * list str) :=
  let '(dialogueLines, currentSceneLines) := a in
  let nextLine := trim (nth j lines []) in
  if negb (truthy nextLine) then Loop.Next a else
  if stopsDialogue lines j nextLine then Loop.Break a else
  if isParenthetical nextLine then Loop.Next (dialogueLines, currentSceneLines ++ [nextLine]) else
  if isLikelyActionLine nextLine then Loop.Break a else
  Loop.Next (dialogueLines ++ [nextLine], currentSceneLines ++ [nextLine]).

Definition collectDialogue (fuel : nat) (lines : list str) (j : nat)
           (currentSceneLines : list str) : option (nat * (list str * list str)) :=
  Loop.while fuel (length lines) (collectTurn lines) j ([], currentSceneLines).

(** [characterStats[name].lineCount += n; characterStats[name].dialogues.push(d)],
    the entry being created first when it is missing *)
Fixpoint statsAdd (stats : list (str * Stats)) (name : str) (n : nat) (d : str)
  : list (str * Stats) :=
  match stats with
  | [] => [(name, mkStats (0 + n) [d])]
  | (k, v) :: rest =>
      if str_eqb k name
      then (k, mkStats (lineCount v + n) (dialogues v ++ [d])) :: rest
      else (k, v) :: statsAdd rest name n d
  end.

Definition openScene (currentPage : nat) (line : str) : Scene :=
  let sceneData := parseSceneHeading line in
  mkScene currentPage line (Hybrid.h_intExt sceneData) (Hybrid.h_location sceneData)
          (Hybrid.h_time sceneData) [] [] [] [] [] (Hybrid.NameSet []) [] [].

(** One turn of [for (let i = 0; i < lines.length; i++)]. *)
Definition parseTurn (fuel : nat) (lines : list str) (totalPages linesPerPage : nat)
           (i : nat) (st : PState) : option (PState * nat) :=
  let line := trim (nth i lines []) in
  if negb (truthy line) then Some (st, i) else
  let currentPage := Nat.min (ceilDiv (i + 1) linesPerPage) totalPages in
  if isPageNumber line || isPageFooter line then Some (st, i) else
  if isSceneHeading line then
    Some (mkPState (pushSealed st) (Some (openScene currentPage line)) [line], i)
  else
    match currentScene st with
    | None => Some (st, i)
    | Some scene =>
        if isCharacterName line lines i then
          let characterName := cleanCharacterName line in
          let names1 := Hybrid.namesAdd (charactersInScene scene) characterName in
          let actors1 := Hybrid.pushNew (actors scene) characterName in
          let lines1 := currentSceneLines st ++ [line] in
          match collectDialogue fuel lines (i + 1) lines1 with
          | None => None
          | Some (j, (dialogueLines, lines2)) =>
              let fullDialogue := join (js " ") dialogueLines in
              let spoke := 0 <? length dialogueLines in
              let dialogue1 :=
                if spoke
                then dialogue scene ++ [mkDialogue characterName fullDialogue dialogueLines]
                else dialogue scene in
              let stats1 :=
                if spoke
                then statsAdd (characterStats scene) characterName (length dialogueLines)
                              fullDialogue
                else characterStats scene in
              Some (mkPState (scenes st)
                             (Some (mkScene (page scene) (originalHeading scene) (intExt scene)
                                            (location scene) (time scene) (summary scene)
                                            (sceneText scene) actors1 (action scene) dialogue1
                                            names1 stats1 (props scene)))
                             lines2,
                    j - 1)
          end
        else
          let action1 :=
            if negb (isTransition line) && negb (isPageFooter line)
               && negb (isPageNumber line) && negb (looksLikeCharacterName line)
            then action scene ++ [line] else action scene in
          Some (mkPState (scenes st)
                         (Some (mkScene (page scene) (originalHeading scene) (intExt scene)
                                        (location scene) (time scene) (summary scene)
                                        (sceneText scene) (actors scene) action1
                                        (dialogue scene) (charactersInScene scene)
                                        (characterStats scene) (props scene)))
                         (currentSceneLines st ++ [line]),
                i)
    end.

Definition arrayNames (scene : Scene) : Scene :=
  mkScene (page scene) (originalHeading scene) (intExt scene) (location scene)
          (time scene) (summary scene) (sceneText scene) (actors scene) (action scene)
          (dialogue scene) (Hybrid.namesToArray (charactersInScene scene))
          (characterStats scene) (props scene).

(** [parseScenes(lines, totalPages)] with a given amount of fuel. *)
Definition parseScenesWith (fuel : nat) (lines : list str) (totalPages : nat)
  : option (list Scene) :=
  let linesPerPage := ceilDiv (length lines) totalPages in
  match Loop.for_ fuel (length lines) (parseTurn fuel lines totalPages linesPerPage)
                  0 initial with
  | None => None
  | Some st => Some (map arrayNames (pushSealed st))
  end.

(** [parseScenes(lines, totalPages)] *)
Definition parseScenes (lines : list str) (totalPages : nat) : option (list Scene) :=
  parseScenesWith (S (length lines)) lines totalPages.

(** An entry of [characterMap], an object used as a map from names. *)
Record Character : Type := mkCharacter {
  name : str;
  lines : nat;
  c_scenes : nat;
  c_dialogue : list str;
  sceneIds : list str
}.

Definition mapHas (m : list Character) (n : str) : bool :=
  existsb (fun c => str_eqb (name c) n) m.

Definition mapUpdate (m : list Character) (n : str) (f : Character -> Character)
  : list Character :=
  map (fun c => if str_eqb (name c) n then f c else c) m.

Definition ensure (m : list Character) (n : str) : list Character :=
  if mapHas m n then m else m ++ [mkCharacter n 0 0 [] []].

Definition addActor (sceneIndex : nat) (m : list Character) (actorName : str)
  : list Character :=
  mapUpdate (ensure m actorName) actorName
    (fun c => if arr_includes (sceneIds c) (ofNat sceneIndex) then c
              else mkCharacter (name c) (lines c) (c_scenes c + 1) (c_dialogue c)
                               (sceneIds c ++ [ofNat sceneIndex])).

Definition addStats (m : list Character) (entry : str * Stats) : list Character :=
  let '(n, stats) := entry in
  mapUpdate (ensure m n) n
    (fun c => mkCharacter (name c) (lines c + lineCount stats) (c_scenes c)
                          (c_dialogue c ++ dialogues stats) (sceneIds c)).

(** [parseCharacters(scenes)] *)
Definition parseCharacters (scenes : list Scene) : list Character :=
  snd (fold_left
         (fun (acc : nat * list Character) scene =>
            let '(sceneIndex, m) := acc in
            let m1 := fold_left (addActor sceneIndex) (actors scene) m in
            let m2 := fold_left addStats (characterStats scene) m1 in
            (S sceneIndex, m2))
         scenes (0, [])).

Record Metadata : Type := mkMetadata {
  m_scenes : nat;
  m_characters : nat;
  m_pages : nat;
  locations : nat;
  timePeriods : nat;
  totalDialogue : nat;
  totalActions : nat;
  textLength : nat
}.

(** [generateMetadata(scenes, characters, totalPages)] *)
Definition generateMetadata (scenes : list Scene) (characters : list Character)
           (totalPages : nat) : Metadata :=
  mkMetadata (length scenes) (length characters) totalPages
             (length (Hybrid.unique (map location scenes)))
             (length (Hybrid.unique (map time scenes)))
             (fold_left (fun sum s => sum + length (dialogue s)) scenes 0)
             (fold_left (fun sum s => sum + length (action s)) scenes 0)
             (fold_left (fun sum s => sum + length (sceneText s)) scenes 0).

(** [parseScript(scriptText, totalPages)] *)
Definition parseScript (scriptText : str) (totalPages : nat)
  : option (list Scene * list Character * Metadata) :=
  let cleanedText := cleanScriptText scriptText in
  let lines := filter (fun line => truthy (trim line)) (split LF cleanedText) in
  match parseScenes lines totalPages with
  | None => None
  | Some scenes =>
      let characters := parseCharacters scenes in
      Some (scenes, characters, generateMetadata scenes characters totalPages)
  end.

(** [a || b] on strings: the empty string is falsy. *)
Definition orDefault (a b : str) : str := if truthy a then a else b.

(** A scene of the result of [parse]; the scene of [basicParse] has no
    [summary] and no [actions]. *)
Record ResultScene : Type := mkResultScene {
  rs_sceneNumber : nat;
  rs_page : nat;
  rs_heading : str;
  rs_location : str;
  rs_intExt : str;
  rs_timeOfDay : str;
  rs_summary : option str;
  rs_text : str;
  rs_actors : list str;
  rs_props : list str;
  rs_actions : option (list str)
}.

(** [{ pages, totalLines, ...parsed.metadata }]: the [pages] of the parsed
    metadata, spread last, is the one that stays. *)
Record ResultMetadata : Type := mkResultMetadata {
  rm_pages : nat;
  rm_totalLines : nat;
  rm_parsed : option Metadata
}.

Record ParseResult : Type := mkParseResult {
  pr_metadata : ResultMetadata;
  pr_scenes : list ResultScene;
  pr_characters : list Character
}.

(** [basicParse(filePath)] *)
Definition basicParse : ParseResult :=
  mkParseResult
    (mkResultMetadata 1 0 None)
    [ mkResultScene 1 1 (js "INT. SCENE - DAY") (js "Unknown Location") (js "INT") (js "DAY")
                    None (js "PDF parsing failed - check backend logs") [] [] None ]
    [].

(** [parse(filePath)] after the text and the page count have been read from
    the PDF. *)
Definition parse (text : str) (total : nat) : option ParseResult :=
  if truthy text && (100 <? length text) then
    match parseScript text total with
    | None => None
    | Some (scenes, characters, metadata) =>
        Some (mkParseResult
                (mkResultMetadata (m_pages metadata) (textLength metadata) (Some metadata))
                (Hybrid.mapi
                   (fun index scene =>
                      mkResultScene (index + 1) (page scene) (originalHeading scene)
                                    (orDefault (location scene) (js "Unknown"))
                                    (orDefault (intExt scene) (js "INT"))
                                    (orDefault (time scene) (js "DAY"))
                                    (Some (orDefault (summary scene) []))
                                    (orDefault (sceneText scene) [])
                                    (actors scene) (props scene) (Some (action scene)))
                   scenes)
                characters)
    end
  else Some basicParse.

End Pdf.

(* ===================================================================== *)
(** * script.service.js: re-analysis and statistics *)
(* ===================================================================== *)

(** The service reads rows from the database and writes rows to it.  The
    model is what lies between: [reanalyzeScript] from the pages read (the
    script being found) to the rows handed to [createMany] and the value
    returned, [getScriptStats] and [calculateBudget] from the rows read. *)
Module Service.
Import JS.

(** [a || b] on numbers and on strings: 0 and the empty string are falsy. *)
Definition orNat (a b : nat) : nat := if Nat.eqb a 0 then b else a.
Definition orStr (a b : str) : str := if truthy a then a else b.
(** [a || b] for a string that may be undefined or null. *)
Definition orUndef (a : option str) (b : str) : str :=
  match a with Some x => orStr x b | None => b end.

Record SceneRow : Type := mkSceneRow {
  r_sceneNumber : nat;
  r_page : nat;
  r_heading : str;
  r_location : str;
  r_intExt : str;
  r_timeOfDay : str;
  r_summary : str;
  r_sceneText : str;
  r_actors : list str;
  r_props : list str;
  r_order : nat
}.

Record CharacterRow : Type := mkCharacterRow {
  c_name : str;
  c_lines : nat;
  c_scenes : nat;
  c_dialogue : list str;
  c_sceneIds : list str
}.

(** The callback of [scenes.map((scene, index) => ...)]; [scriptId] is the
    same in every row. *)
Definition sceneRow (index : nat) (scene : Document.Scene) : SceneRow :=
  mkSceneRow (orNat (Document.sceneNumber scene) (index + 1))
             (orNat (Document.s_pageNumber scene) 1)
             (orStr (Document.heading scene) (js "Scene " ++ ofNat (index + 1)))
             (orStr (Document.location scene) (js "Unknown"))
             (orStr (Document.intExt scene) (js "INT"))
             (orStr (Document.timeOfDay scene) (js "DAY"))
             (orUndef (Document.summary scene) [])
             (orUndef (Document.text scene) [])
             (Document.actors scene)
             (Document.props scene)
             index.

(** The callback of [characters.map((char) => ...)] *)
Definition characterRow (char : Hybrid.Character) : CharacterRow :=
  mkCharacterRow (Hybrid.name char) (orNat (Hybrid.lines char) 0)
                 (orNat (Hybrid.c_scenes char) 0) (Hybrid.c_dialogue char)
                 (Hybrid.sceneIds char).

Inductive Outcome : Type :=
| BadRequestError (message : str)
| Reanalyzed (sceneRows : list SceneRow) (characterRows : list CharacterRow)
             (metadata : Document.Metadata) (scenes characters : nat).

(** [reanalyzeScript(scriptId, userId)], from the pages found. *)
Definition reanalyzeScript (pages : list Document.TextPage) : option Outcome :=
  if Nat.eqb (length pages) 0 then Some (BadRequestError (js "No pages to analyze")) else
  let pagesForParsing :=
    map (fun p => Document.mkTextPage (Document.pageNumber p) (Document.rawText p)
                                      (Document.lineCount p))
        pages in
  match Document.analyzeScenes pagesForParsing with
  | None => None
  | Some scenes =>
      let characters := Document.extractCharacters scenes in
      let metadata := Document.generateMetadata pagesForParsing scenes characters in
      Some (Reanalyzed
              (if 0 <? length scenes then Hybrid.mapi sceneRow scenes else [])
              (if 0 <? length characters then map characterRow characters else [])
              metadata (length scenes) (length characters))
  end.

(** A row of the table of scenes, as [getScriptStats] reads it: the
    columns [intExt], [timeOfDay] and [location] may be null. *)
Record StoredScene : Type := mkStoredScene {
  st_intExt : option str;
  st_timeOfDay : option str;
  st_location : option str;
  st_props : list str
}.

Record StoredCharacter : Type := mkStoredCharacter {
  st_name : str;
  st_lines : nat
}.

(** [x === s] and [x?.includes(s)] for a column that may be null. *)
Definition strictEq (x : option str) (s : str) : bool :=
  match x with Some v => str_eqb v s | None => false end.
Definition optIncludes (x : option str) (s : str) : bool :=
  match x with Some v => includes v s | None => false end.

(** [calculateBudget(scenes, characters)]; the budget is an integer, which
    [Math.round] returns as it is. *)
Definition calculateBudget (scenes : list StoredScene) (characters : list StoredCharacter)
  : N :=
  let budget := 0%N in
  let budget := (budget + 50000)%N in
  let budget := (budget + N.of_nat (length scenes) * 5000)%N in
  let budget := (budget + N.of_nat (length characters) * 10000)%N in
  let extScenes := length (filter (fun s => strictEq (st_intExt s) (js "EXT")) scenes) in
  let budget := (budget + N.of_nat extScenes * 3000)%N in
  let nightScenes :=
    length (filter (fun s => optIncludes (st_timeOfDay s) (js "NIGHT")) scenes) in
  let budget := (budget + N.of_nat nightScenes * 2000)%N in
  budget.

Record ScriptStats : Type := mkScriptStats {
  totalScenes : nat;
  intScenes : nat;
  extScenes : nat;
  dayScenes : nat;
  nightScenes : nat;
  totalCharacters : nat;
  totalDialogue : nat;
  estimatedBudget : N;
  estimatedDays : nat;
  locations : list str;
  props : list str
}.

(** [a.filter(Boolean)] on strings that may be null. *)
Definition filterBoolean (a : list (option str)) : list str :=
  flat_map (fun x => match x with Some v => if truthy v then [v] else [] | None => [] end) a.

(** [getScriptStats(scriptId, userId)], from the rows found. *)
Definition getScriptStats (scenes : list StoredScene) (characters : list StoredCharacter)
  : ScriptStats :=
  let totalScenes := length scenes in
  mkScriptStats
    totalScenes
    (length (filter (fun s => strictEq (st_intExt s) (js "INT")) scenes))
    (length (filter (fun s => strictEq (st_intExt s) (js "EXT")) scenes))
    (length (filter (fun s => optIncludes (st_timeOfDay s) (js "DAY")) scenes))
    (length (filter (fun s => optIncludes (st_timeOfDay s) (js "NIGHT")) scenes))
    (length characters)
    (fold_left (fun sum c => sum + st_lines c) characters 0)
    (calculateBudget scenes characters)
    (ceilDiv totalScenes 3)
    (fold_left Hybrid.pushNew (filterBoolean (map st_location scenes)) [])
    (fold_left Hybrid.pushNew (flat_map st_props scenes) []).

End Service.

(* ===================================================================== *)
(** * The parser of the controller: page segmentation *)
(* ===================================================================== *)

(** [AdvancedScriptParser], the class that follows the controller in
    script.controller.js: its three-tier [extractTextPages]. *)
Module Advanced.
Import JS Regex Pat.

Record TextPage : Type := mkTextPage {
  pageNumber : nat;
  rawText : str;
  lineCount : nat;
  originalLength : nat
}.

(** The three messages [extractTextPages] logs: which method it used. *)
Inductive PageBreaks : Type :=
| FormFeedBreaks        (* 'Using PDF form feed page breaks' *)
| PageNumberBreaks      (* 'Using page number detection' *)
| LineBreaks.           (* 'Using smart line-based page breaks' *)

(** [cleanScriptText(text)]: the replacements of page.parser.js, in the
    same order. *)
Definition cleanScriptText (text : str) : str := Hybrid.cleanScriptText text.

(** [/^\d{1,3}\s*$/] *)
Definition pageNumberLine : regex :=
  seq [ Bos; Rep true digit 1 (Some 3); star ws; Eos ].

(** [parseInt(line)] for a line of decimal digits. *)
Definition parseInt (line : str) : nat :=
  fold_left (fun n c => 10 * n + (N.to_nat c - 48)) line 0.

(** The first loop of [detectPagesByPageNumbers]: [{lineIndex, pageNumber}]
    for every line that is a page number between 1 and [totalPages]. *)
Definition pageBreaksOf (lines : list str) (totalPages : nat) : list (nat * nat) :=
  flat_map
    (fun il : nat * str =>
       let line := trim (snd il) in
       if test pageNumberLine line then
         let pageNum := parseInt line in
         if (1 <=? pageNum) && (pageNum <=? totalPages) then [(fst il, pageNum)] else []
       else [])
    (Hybrid.mapi (fun i l => (i, l)) lines).

(** [detectPagesByPageNumbers(text, totalPages)] *)
Definition detectPagesByPageNumbers (text : str) (totalPages : nat) : list TextPage :=
  let lines := split LF text in
  let pageBreaks := pageBreaksOf lines totalPages in
  if 2 * length pageBreaks <? totalPages then [] else
  Hybrid.mapi
    (fun i (b : nat * nat) =>
       let startLine := fst b + 1 in
       let endLine :=
         match nth_error pageBreaks (i + 1) with
         | Some next => fst next
         | None => length lines
         end in
       let pageLines := slice lines startLine endLine in
       let pageText := join [LF] pageLines in
       mkTextPage (snd b) (cleanScriptText pageText) (length pageLines) (length pageText))
    pageBreaks.

(** [while (a.length > 0 && !a[0].trim()) a.shift()] *)
Fixpoint dropBlank (a : list str) : list str :=
  match a with
  | [] => []
  | l :: t => if truthy (trim l) then a else dropBlank t
  end.

(** [distributeLinesByContent(text, totalPages)]: the loop carries
    [currentLine] along with the pages. *)
Definition distributeLinesByContent (text : str) (totalPages : nat) : list TextPage :=
  let allLines := rev (dropBlank (rev (dropBlank (split LF text)))) in
  let baseLinesPerPage := ceilDiv (length allLines) totalPages in
  snd (fold_left
         (fun (acc : nat * list TextPage) i =>
            let '(currentLine, textPages) := acc in
            let isLastPage := i =? totalPages - 1 in
            let linesForThisPage :=
              if isLastPage then length allLines - currentLine
              else Nat.min baseLinesPerPage (length allLines - currentLine) in
            let endLine := currentLine + linesForThisPage in
            let pageLines := slice allLines currentLine endLine in
            let pageText := join [LF] pageLines in
            (endLine,
             textPages ++ [mkTextPage (i + 1) (cleanScriptText pageText)
                                      (length pageLines) (length pageText)]))
         (List.seq 0 totalPages) (0, [])).

(** [formFeedPages.length >= totalPages && formFeedPages.length <= totalPages * 1.5],
    on integers *)
Definition useFormFeed (count totalPages : nat) : bool :=
  (totalPages <=? count) && (2 * count <=? 3 * totalPages).

(** [extractTextPages(text, totalPages)], with the message it logs. *)
Definition extractTextPages (text : str) (totalPages : nat) : PageBreaks * list TextPage :=
  let formFeedPages := filter (fun p => truthy (trim p)) (split FF text) in
  if useFormFeed (length formFeedPages) totalPages then
    (FormFeedBreaks,
     Hybrid.mapi (fun index pageText =>
                    let cleaned := cleanScriptText pageText in
                    mkTextPage (index + 1) cleaned (length (split LF cleaned))
                               (length pageText))
                 formFeedPages)
  else
    let pageNumberPages := detectPagesByPageNumbers text totalPages in
    if 0 <? length pageNumberPages then (PageNumberBreaks, pageNumberPages)
    else (LineBreaks, distributeLinesByContent text totalPages).

End Advanced.

(* ===================================================================== *)
(** * Case conversion outside ASCII *)
(* ===================================================================== *)

Module CaseFacts.
Import JS.
Local Open Scope N_scope.

(** Letters from outside ASCII whose other case is an ASCII letter: the
    dotless i and the long s in upper case, the Kelvin sign in lower case. *)
Example toUpperCase_dotless_i : toUpperCase [0x131] = js "I".
Proof. vm_compute. reflexivity. Qed.

Example toUpperCase_long_s : toUpperCase [0x17F] = js "S".
Proof. vm_compute. reflexivity. Qed.

Example toLowerCase_kelvin : toLowerCase [0x212A] = js "k".
Proof. vm_compute. reflexivity. Qed.

(** A mapping to more than one code unit, and one from a code point that
    upper case takes out of Latin-1. *)
Example toUpperCase_sharp_s : toUpperCase (js "stra" ++ [0xDF] ++ js "e") = js "STRASSE".
Proof. vm_compute. reflexivity. Qed.

Example toUpperCase_micro : toUpperCase [0xB5] = [0x39C].
Proof. vm_compute. reflexivity. Qed.

(** A capital sigma is lower-cased to the final sigma after a cased letter
    and before none, and to the plain one elsewhere. *)
Example toLowerCase_sigma :
  toLowerCase [0x391; 0x3A3] = [0x3B1; 0x3C2]
  /\ toLowerCase [0x391; 0x3A3; 0x391] = [0x3B1; 0x3C3; 0x3B1]
  /\ toLowerCase [0x391; 0x3A3; 0x2E; 0x391] = [0x3B1; 0x3C3; 0x2E; 0x3B1]
  /\ toLowerCase [0x3A3] = [0x3C3].
Proof. vm_compute. repeat split. Qed.

(** A surrogate pair is one code point; a surrogate by itself is kept. *)
Example toUpperCase_surrogates :
  toUpperCase [0xD801; 0xDC28] = [0xD801; 0xDC00]
  /\ toUpperCase [0xDC28; 0xD801] = [0xDC28; 0xD801].
Proof. vm_compute. repeat split. Qed.

(** What the parsers make of it: [fade], dotless i, [n] is a transition for
    the three of them, so that it ends the dialogue of a cue and is no
    action; a line with [kiosk] spelt with the Kelvin sign shows the prop. *)
Example transition_dotless_i :
  Hybrid.isTransition (js "fade " ++ [0x131] ++ js "n") = true
  /\ Document.isTransition (js "fade " ++ [0x131] ++ js "n") = true
  /\ Pdf.isTransition (js "fade " ++ [0x131] ++ js "n") = true.
Proof. vm_compute. repeat split. Qed.

Example transition_ends_dialogue :
  exists scene,
    Hybrid.parseScenes
      [Hybrid.mkPage 1 (join [LF] [ js "INT. CAR"; js "JOHN";
                                    js "fade " ++ [0x131] ++ js "n"; js "Hello." ]) []]
    = Some [scene]
    /\ Hybrid.dialogue scene = []
    /\ Hybrid.actions scene = [js "Hello."].
Proof. eexists. split; [vm_compute; reflexivity|]. split; reflexivity. Qed.

Example props_kelvin :
  Hybrid.extractProps [[0x212A] ++ js "iosk at the door"] = [js "Kiosk"]
  /\ Pdf.extractProps [[0x212A] ++ js "iosk at the door"] = [js "Kiosk"].
Proof. vm_compute. repeat split. Qed.

End CaseFacts.

(* ===================================================================== *)
(** * Properties of the loops *)
(* ===================================================================== *)

Module LoopFacts.
Import Loop.

Section While.
Variable A : Type.
Variable n : nat.
Variable body : nat -> A -> turn A.

(** With more fuel than indices left, the loop ends; it ends at or after
    the index it started from, and before [n] only by a [break]. *)
Lemma while_enough (fuel j : nat) (a : A) :
  n - j < fuel ->
  exists j' a', while fuel n body j a = Some (j', a')
    /\ j <= j' /\ j' <= Nat.max j n
    /\ (j' < n -> exists a0, body j' a0 = Break a').
Proof.
  revert j a. induction fuel as [|fuel IH]; intros j a Hf; [lia|].
  simpl. destruct (n <=? j) eqn:Hn.
  - apply Nat.leb_le in Hn. exists j, a. repeat split; try lia.
  - apply Nat.leb_gt in Hn. destruct (body j a) as [a'|a'] eqn:Hb.
    + exists j, a'. repeat split; try lia. intros _. now exists a.
    + destruct (IH (S j) a') as (j' & a'' & Hw & Hle & Hmax & Hbr); [lia|].
      exists j', a''. repeat split; auto; lia.
Qed.

(** A property of the state that every turn keeps is kept by the loop. *)
Lemma while_preserves (P : A -> Prop) (fuel j j' : nat) (a a' : A) :
  (forall i x, i < n -> P x ->
     match body i x with Break y => P y | Next y => P y end) ->
  P a -> while fuel n body j a = Some (j', a') -> P a'.
Proof.
  intros Hstep. revert j a. induction fuel as [|fuel IH]; intros j a Ha Hw; [discriminate|].
  simpl in Hw. destruct (n <=? j) eqn:Hn.
  - now inversion Hw; subst.
  - apply Nat.leb_gt in Hn. pose proof (Hstep j a Hn Ha) as Hy.
    destruct (body j a) as [y|y].
    + now inversion Hw; subst.
    + now apply (IH (S j) y).
Qed.

End While.

Section For.
Variable A : Type.
Variable n : nat.
Variable body : nat -> A -> option (A * nat).

(** If every turn succeeds and does not move the index backwards, the loop
    ends with more fuel than indices left. *)
Lemma for_enough (fuel i : nat) (a : A) :
  (forall j x, j < n -> exists y j', body j x = Some (y, j') /\ j <= j') ->
  n - i < fuel ->
  exists a', for_ fuel n body i a = Some a'.
Proof.
  intros Hb. revert i a. induction fuel as [|fuel IH]; intros i a Hf; [lia|].
  simpl. destruct (n <=? i) eqn:Hn.
  - now exists a.
  - apply Nat.leb_gt in Hn. destruct (Hb i a Hn) as (y & j' & -> & Hle).
    apply IH. lia.
Qed.

Lemma for_preserves (P : A -> Prop) (fuel i : nat) (a a' : A) :
  (forall j x y j', j < n -> P x -> body j x = Some (y, j') -> P y) ->
  P a -> for_ fuel n body i a = Some a' -> P a'.
Proof.
  intros Hstep. revert i a. induction fuel as [|fuel IH]; intros i a Ha Hw; [discriminate|].
  simpl in Hw. destruct (n <=? i) eqn:Hn.
  - now inversion Hw; subst.
  - apply Nat.leb_gt in Hn. destruct (body i a) as [[y j']|] eqn:Hb; [|discriminate].
    eapply IH; [|exact Hw]. eapply Hstep; eauto.
Qed.

End For.

End LoopFacts.

(* ===================================================================== *)
(** * The scene loop of the hybrid parser *)
(* ===================================================================== *)

Module HybridLoop.
Import JS Hybrid.

(** The dialogue loop ends whenever it has more fuel than lines left. *)
Lemma collectDialogue_enough (fuel : nat) (allLines : list LineObj) (j : nat)
      (sceneLines : list str) :
  length allLines - j < fuel ->
  exists j' dl sl,
    collectDialogue fuel allLines j sceneLines = Some (j', (dl, sl))
    /\ j <= j' /\ j' <= Nat.max j (length allLines)
    /\ (j' < length allLines ->
        exists a0, collectTurn allLines j' a0 = Loop.Break (dl, sl)).
Proof.
  intros Hf. unfold collectDialogue.
  destruct (@LoopFacts.while_enough _ _ (collectTurn allLines) fuel j ([], sceneLines) Hf)
    as (j' & [dl sl] & Hw & H1 & H2 & H3).
  exists j', dl, sl. auto.
Qed.

(** A [break] of the dialogue loop is at a non-blank line that is a
    structural marker or an action-shaped line. *)
Lemma collectTurn_break (allLines : list LineObj) (j : nat) (a b : list str * list str) :
  collectTurn allLines j a = Loop.Break b ->
  let nextLine := trim (textAt allLines j) in
  b = a /\ truthy nextLine = true
  /\ (stopsDialogue allLines j nextLine = true
      \/ (isParenthetical nextLine = false /\ isLikelyActionLine nextLine = true)).
Proof.
  unfold collectTurn. destruct a as [dl sl]. cbv zeta.
  destruct (truthy (trim (textAt allLines j))); simpl; [|discriminate].
  destruct (stopsDialogue allLines j _).
  - intros H; inversion H; auto.
  - destruct (isParenthetical _); [discriminate|].
    destruct (isLikelyActionLine _); [|discriminate].
    intros H; inversion H; auto.
Qed.

(** Every turn of the scene loop succeeds with enough fuel and leaves the
    index where it was or further. *)
Lemma parseTurn_forward (fuel : nat) (allLines : list LineObj) (i : nat) (st : PState) :
  length allLines < fuel ->
  exists st' i', parseTurn fuel allLines i st = Some (st', i') /\ i <= i'.
Proof.
  intros Hf. unfold parseTurn.
  destruct (nth_error allLines i) as [lineObj|]; [|eauto].
  destruct (isPageNumber _ || isPageFooter _); [eauto|].
  destruct (isSceneHeading _); [eauto|].
  destruct (currentScene st) as [scene|]; [|eauto].
  destruct (isCharacterName _ _ _); [|eauto].
  destruct (@collectDialogue_enough fuel allLines (i + 1) (sceneLines st ++ [text lineObj]))
    as (j' & dl & sl & -> & Hle & _); [lia|].
  eexists _, _. split; [reflexivity|lia].
Qed.

Lemma parseLoop_enough (fuel : nat) (allLines : list LineObj) (i : nat) (st : PState) :
  length allLines < fuel ->
  exists st', parseLoop fuel allLines i st = Some st'.
Proof.
  intros Hf. unfold parseLoop. apply LoopFacts.for_enough; [|lia].
  intros j x _. now apply parseTurn_forward.
Qed.

(** [parseScenes] returns for every list of pages. *)
Lemma parseScenes_total (pages : list Page) :
  exists scenes, parseScenes pages = Some scenes.
Proof.
  unfold parseScenes, parseScenesWith.
  destruct (@parseLoop_enough (S (length (flatten pages))) (flatten pages) 0 initial)
    as (st & ->); [lia|].
  eauto.
Qed.

End HybridLoop.

(* ===================================================================== *)
(** * The scene loop of the PDF parser *)
(* ===================================================================== *)

Module PdfLoop.
Import JS Pdf.

Lemma pdf_collectDialogue_enough (fuel : nat) (lines : list str) (j : nat)
      (sceneLines : list str) :
  length lines - j < fuel ->
  exists j' dl sl,
    collectDialogue fuel lines j sceneLines = Some (j', (dl, sl))
    /\ j <= j' /\ j' <= Nat.max j (length lines)
    /\ (j' < length lines ->
        exists a0, collectTurn lines j' a0 = Loop.Break (dl, sl)).
Proof.
  intros Hf. unfold collectDialogue.
  destruct (@LoopFacts.while_enough _ _ (collectTurn lines) fuel j ([], sceneLines) Hf)
    as (j' & [dl sl] & Hw & H1 & H2 & H3).
  exists j', dl, sl. auto.
Qed.

Lemma pdf_collectTurn_break (lines : list str) (j : nat) (a b : list str * list str) :
  collectTurn lines j a = Loop.Break b ->
  let nextLine := trim (nth j lines []) in
  b = a /\ truthy nextLine = true
  /\ (stopsDialogue lines j nextLine = true
      \/ (isParenthetical nextLine = false /\ isLikelyActionLine nextLine = true)).
Proof.
  unfold collectTurn. destruct a as [dl sl]. cbv zeta.
  destruct (truthy (trim (nth j lines []))); simpl; [|discriminate].
  destruct (stopsDialogue lines j _).
  - intros H; inversion H; auto.
  - destruct (isParenthetical _); [discriminate|].
    destruct (isLikelyActionLine _); [|discriminate].
    intros H; inversion H; auto.
Qed.

Lemma pdf_parseTurn_forward (fuel : nat) (lines : list str) (totalPages lpp i : nat)
      (st : PState) :
  length lines < fuel ->
  exists st' i', parseTurn fuel lines totalPages lpp i st = Some (st', i') /\ i <= i'.
Proof.
  intros Hf. unfold parseTurn.
  destruct (negb (truthy _)); [eauto|].
  destruct (isPageNumber _ || isPageFooter _); [eauto|].
  destruct (isSceneHeading _); [eauto|].
  destruct (currentScene st) as [scene|]; [|eauto].
  destruct (isCharacterName _ _ _); [|eauto].
  destruct (@pdf_collectDialogue_enough fuel lines (i + 1)
              (currentSceneLines st ++ [trim (nth i lines [])]))
    as (j' & dl & sl & -> & Hle & _); [lia|].
  eexists _, _. split; [reflexivity|lia].
Qed.

Lemma pdf_parseScenes_total (lines : list str) (totalPages : nat) :
  exists scenes, parseScenes lines totalPages = Some scenes.
Proof.
  unfold parseScenes, parseScenesWith.
  destruct (@LoopFacts.for_enough _ (length lines)
              (parseTurn (S (length lines)) lines totalPages
                         (ceilDiv (length lines) totalPages))
              (S (length lines)) 0 initial) as (st & ->); [|lia|eauto].
  intros j x _. apply pdf_parseTurn_forward. lia.
Qed.

End PdfLoop.

(* ===================================================================== *)
(** * Page segmentation *)
(* ===================================================================== *)

Module PageFacts.
Import JS Hybrid.

Lemma nth_error_mapi_from (A B : Type) (f : nat -> A -> B) (l : list A) (k i : nat) :
  nth_error (mapi_from f k l) i = option_map (f (k + i)) (nth_error l i).
Proof.
  revert k i. induction l as [|x l IH]; intros k [|i]; simpl; auto.
  - now rewrite Nat.add_0_r.
  - rewrite IH. now rewrite Nat.add_succ_r.
Qed.

Lemma nth_error_mapi (A B : Type) (f : nat -> A -> B) (l : list A) (i : nat) :
  nth_error (mapi f l) i = option_map (f i) (nth_error l i).
Proof. unfold mapi. now rewrite nth_error_mapi_from. Qed.

Lemma length_mapi_from (A B : Type) (f : nat -> A -> B) (l : list A) (k : nat) :
  length (mapi_from f k l) = length l.
Proof. revert k. induction l; intros; simpl; auto. Qed.

Lemma length_mapi (A B : Type) (f : nat -> A -> B) (l : list A) :
  length (mapi f l) = length l.
Proof. apply length_mapi_from. Qed.

Lemma useFormFeed_spec (count totalPages : nat) :
  useFormFeed count totalPages = true <-> 1 < count /\ 2 * count <= 3 * totalPages.
Proof.
  unfold useFormFeed. rewrite andb_true_iff, Nat.ltb_lt, Nat.leb_le. tauto.
Qed.

Lemma length_estimatedPages (text : str) (totalPages : nat) :
  length (estimatedPages text totalPages) = totalPages.
Proof. unfold estimatedPages. now rewrite length_map, length_seq. Qed.

Lemma doc_useFormFeed_spec (count totalPages : nat) :
  Document.useFormFeed count totalPages = true
  <-> 1 < count /\ 2 * count <= 3 * totalPages.
Proof.
  unfold Document.useFormFeed. rewrite andb_true_iff, Nat.ltb_lt, Nat.leb_le. tauto.
Qed.

End PageFacts.

(** What the guard in force accepts.  [extractPages] commits to the
    form-feed split if and only if the number [c] of non-blank form-feed
    chunks satisfies [1 < c <= 1.5 * N]; then page [i + 1] is the trimmed
    [i]-th non-blank chunk.  Otherwise the result is the line estimate, [N]
    pages cut from [text.split('\n')].  The document parser's
    [extractTextPages] applies the same test to the number of all chunks,
    blank ones included. *)
Lemma formfeed_split_acceptance (text : JS.str) (totalPages : nat) :
  (fst (Hybrid.extractPages text totalPages) = Hybrid.FormFeedBreaks
   <-> 1 < length (Hybrid.formFeedPages text)
       /\ 2 * length (Hybrid.formFeedPages text) <= 3 * totalPages)
  /\ (fst (Hybrid.extractPages text totalPages) = Hybrid.FormFeedBreaks ->
      length (snd (Hybrid.extractPages text totalPages)) = length (Hybrid.formFeedPages text)
      /\ forall i, nth_error (snd (Hybrid.extractPages text totalPages)) i
                   = option_map (fun chunk =>
                                   Hybrid.mkPage (i + 1) (JS.trim chunk)
                                                 (Hybrid.analyzePageLines (JS.trim chunk)))
                                (nth_error (Hybrid.formFeedPages text) i))
  /\ (fst (Hybrid.extractPages text totalPages) <> Hybrid.FormFeedBreaks ->
      Hybrid.extractPages text totalPages
      = (Hybrid.EstimatedBreaks, Hybrid.estimatedPages text totalPages)
      /\ length (snd (Hybrid.extractPages text totalPages)) = totalPages)
  /\ (fst (Document.extractTextPages text totalPages) = Hybrid.FormFeedBreaks
      <-> 1 < length (JS.split JS.FF text)
          /\ 2 * length (JS.split JS.FF text) <= 3 * totalPages)
  /\ (fst (Document.extractTextPages text totalPages) <> Hybrid.FormFeedBreaks ->
      Document.extractTextPages text totalPages
      = (Hybrid.EstimatedBreaks, Document.estimatedPages text totalPages)).
Proof.
  unfold Hybrid.extractPages, Document.extractTextPages.
  pose proof (PageFacts.useFormFeed_spec (length (Hybrid.formFeedPages text)) totalPages) as Hh.
  pose proof (PageFacts.doc_useFormFeed_spec (length (JS.split JS.FF text)) totalPages) as Hd.
  split; [|split; [|split; [|split]]].
  - destruct (Hybrid.useFormFeed _ _); simpl.
    + split; [intros _; now apply Hh|reflexivity].
    + split; [discriminate|intros H; apply Hh in H; discriminate H].
  - destruct (Hybrid.useFormFeed _ _); simpl; [|discriminate].
    intros _. split; [apply PageFacts.length_mapi|].
    intros i. apply PageFacts.nth_error_mapi.
  - destruct (Hybrid.useFormFeed _ _); simpl; [congruence|].
    intros _. split; [reflexivity|apply PageFacts.length_estimatedPages].
  - destruct (Document.useFormFeed _ _); simpl.
    + split; [intros _; now apply Hd|reflexivity].
    + split; [discriminate|intros H; apply Hd in H; discriminate H].
  - destruct (Document.useFormFeed _ _); simpl; [congruence|reflexivity].
Qed.

(** The same function in the parser of the controller has the lower bound
    of the interval: it commits to the form-feed split if and only if the
    number of non-blank chunks lies in [[N, 1.5 * N]], and its result comes
    from the page numbers or from the distribution of the lines otherwise. *)
Lemma advanced_formfeed_interval (text : JS.str) (totalPages : nat) :
  (fst (Advanced.extractTextPages text totalPages) = Advanced.FormFeedBreaks
   <-> totalPages <= length (Hybrid.formFeedPages text)
       /\ 2 * length (Hybrid.formFeedPages text) <= 3 * totalPages)
  /\ (fst (Advanced.extractTextPages text totalPages) <> Advanced.FormFeedBreaks ->
      snd (Advanced.extractTextPages text totalPages)
      = Advanced.detectPagesByPageNumbers text totalPages
      \/ snd (Advanced.extractTextPages text totalPages)
         = Advanced.distributeLinesByContent text totalPages).
Proof.
  unfold Advanced.extractTextPages, Hybrid.formFeedPages. cbv zeta.
  set (c := length (filter (fun t => JS.truthy (JS.trim t)) (JS.split JS.FF text))).
  assert (Hg : Advanced.useFormFeed c totalPages = true
               <-> totalPages <= c /\ 2 * c <= 3 * totalPages).
  { unfold Advanced.useFormFeed. rewrite andb_true_iff, !Nat.leb_le. tauto. }
  destruct (Advanced.useFormFeed c totalPages).
  - split; [|intros H; now elim H]. split; [intros _; now apply Hg|reflexivity].
  - split.
    + split; [|intros H; apply Hg in H; discriminate H].
      destruct (0 <? length _); intros H; discriminate H.
    + intros _. destruct (0 <? length _); [now left|now right].
Qed.

(** C1.  The page segmenters of the hybrid and of the document parser miss
    the lower bound of the interval: their guard is [length > 1] where the
    claim, and the same function of the controller's parser, have
    [length >= totalPages].  For the text [a\fb] and a declared count of 4
    pages there are 2 form-feed chunks, outside [[4, 6]], and both commit to
    the form-feed split all the same: the result is the two pages [a] and
    [b], where the line estimate gives 4.  For the text [a] and a declared
    count of 1 page there is 1 chunk, inside [[1, 1.5]], and both fall back
    to the line estimate. *)
Theorem formfeed_lower_bound_missed :
  (length (Hybrid.formFeedPages (JS.js "a" ++ [JS.FF] ++ JS.js "b")) = 2
   /\ Hybrid.extractPages (JS.js "a" ++ [JS.FF] ++ JS.js "b") 4
      = (Hybrid.FormFeedBreaks,
         [ Hybrid.mkPage 1 (JS.js "a") (Hybrid.analyzePageLines (JS.js "a"));
           Hybrid.mkPage 2 (JS.js "b") (Hybrid.analyzePageLines (JS.js "b")) ])
   /\ length (Hybrid.estimatedPages (JS.js "a" ++ [JS.FF] ++ JS.js "b") 4) = 4
   /\ Document.extractTextPages (JS.js "a" ++ [JS.FF] ++ JS.js "b") 4
      = (Hybrid.FormFeedBreaks,
         [ Document.mkTextPage 1 (JS.js "a") 1; Document.mkTextPage 2 (JS.js "b") 1 ]))
  /\ (length (Hybrid.formFeedPages (JS.js "a")) = 1
      /\ Hybrid.extractPages (JS.js "a") 1
         = (Hybrid.EstimatedBreaks, Hybrid.estimatedPages (JS.js "a") 1)
      /\ Document.extractTextPages (JS.js "a") 1
         = (Hybrid.EstimatedBreaks, Document.estimatedPages (JS.js "a") 1)).
Proof.
  split; [split; [|split; [|split]]|split; [|split]]; vm_compute; reflexivity.
Qed.

(** On the first of these inputs the parser of the controller rejects the
    form-feed split and distributes the lines over the 4 declared pages. *)
Example advanced_rejects_split :
  Advanced.extractTextPages (JS.js "a" ++ [JS.FF] ++ JS.js "b") 4
  = (Advanced.LineBreaks,
     [ Advanced.mkTextPage 1 (JS.js "a" ++ [JS.FF] ++ JS.js "b") 1 3;
       Advanced.mkTextPage 2 [] 0 0; Advanced.mkTextPage 3 [] 0 0;
       Advanced.mkTextPage 4 [] 0 0 ]).
Proof. vm_compute. reflexivity. Qed.

(* ===================================================================== *)
(** * Metadata *)
(* ===================================================================== *)

(** C10.  The metadata of the hybrid parser has [needsReview = true] for
    every input: [generateMetadata] sets it whatever its arguments are, so the
    parse of every text and page count carries it, with the form-feed page
    breaks (first example) as with the estimated ones (second example). *)
Theorem needsReview_always_true :
  (forall pages scenes characters,
      Hybrid.needsReview (Hybrid.generateMetadata pages scenes characters) = true)
  /\ (forall text totalPages,
         exists breaks r,
           Hybrid.parseText text totalPages = Some (breaks, r)
           /\ Hybrid.needsReview (Hybrid.r_metadata r) = true)
  /\ (exists r,
         Hybrid.parseText (JS.js "INT. CAR" ++ [JS.FF] ++ JS.js "b") 2
         = Some (Hybrid.FormFeedBreaks, r)
         /\ Hybrid.needsReview (Hybrid.r_metadata r) = true)
  /\ (exists r,
         Hybrid.parseText (JS.js "INT. CAR") 1 = Some (Hybrid.EstimatedBreaks, r)
         /\ Hybrid.needsReview (Hybrid.r_metadata r) = true).
Proof.
  split; [reflexivity|]. split; [|split].
  - intros text totalPages. unfold Hybrid.parseText.
    destruct (Hybrid.extractPages _ totalPages) as [breaks pages].
    destruct (HybridLoop.parseScenes_total pages) as (scenes & ->).
    eexists _, _. split; reflexivity.
  - eexists. split; [vm_compute; reflexivity|reflexivity].
  - eexists. split; [vm_compute; reflexivity|reflexivity].
Qed.

(* ===================================================================== *)
(** * Scene numbering and sealing *)
(* ===================================================================== *)

Module SceneFacts.
Import JS.

(** Scene [i] of a list carries the number [i + 1]. *)
Definition numbered (A : Type) (number : A -> nat) (l : list A) : Prop :=
  forall i s, nth_error l i = Some s -> number s = i + 1.

Lemma numbered_nil (A : Type) (number : A -> nat) : numbered number [].
Proof. intros [|i] s H; discriminate H. Qed.

Lemma numbered_snoc (A : Type) (number : A -> nat) (l : list A) (x : A) :
  numbered number l -> number x = length l + 1 -> numbered number (l ++ [x]).
Proof.
  intros Hl Hx i s Hi.
  destruct (Nat.lt_ge_cases i (length l)) as [Hlt|Hge].
  - rewrite nth_error_app1 in Hi by assumption. now apply Hl.
  - rewrite nth_error_app2 in Hi by assumption.
    destruct (i - length l) as [|k] eqn:Hk; simpl in Hi.
    + inversion Hi; subst. rewrite Hx. lia.
    + destruct k; discriminate Hi.
Qed.

Lemma numbered_snoc_inv (A : Type) (number : A -> nat) (l : list A) (x : A) :
  numbered number (l ++ [x]) -> numbered number l /\ number x = length l + 1.
Proof.
  intros H. split.
  - intros i s Hi. apply H. rewrite nth_error_app1; [assumption|].
    apply nth_error_Some. congruence.
  - apply H. rewrite nth_error_app2 by lia. now rewrite Nat.sub_diag.
Qed.

Lemma numbered_map (A : Type) (number : A -> nat) (f : A -> A) (l : list A) :
  (forall s, number (f s) = number s) -> numbered number l -> numbered number (map f l).
Proof.
  intros Hf Hl i s Hi. rewrite nth_error_map in Hi.
  destruct (nth_error l i) as [s0|] eqn:E; [|discriminate Hi].
  inversion Hi; subst. rewrite Hf. now apply Hl.
Qed.

(** ** The hybrid parser *)

(** The scenes pushed so far and the open one, sealed as it would be now,
    are numbered from 1. *)
Definition hybridInv (st : Hybrid.PState) : Prop :=
  numbered Hybrid.sceneNumber (Hybrid.pushSealed st).

Lemma hybrid_pushSealed_same (sc : list Hybrid.Scene) (s1 s2 : Hybrid.Scene)
      (c1 c2 : option str) (l1 l2 : list str) :
  Hybrid.sceneNumber s2 = Hybrid.sceneNumber s1 ->
  hybridInv (Hybrid.mkPState sc (Some s1) c1 l1) ->
  hybridInv (Hybrid.mkPState sc (Some s2) c2 l2).
Proof.
  unfold hybridInv, Hybrid.pushSealed. simpl. intros Hn H.
  apply numbered_snoc_inv in H. destruct H as [Hs Hx].
  apply numbered_snoc; [assumption|]. simpl in *. congruence.
Qed.

Lemma hybrid_turn_numbered (fuel : nat) (allLines : list Hybrid.LineObj) (i i' : nat)
      (st st' : Hybrid.PState) :
  hybridInv st -> Hybrid.parseTurn fuel allLines i st = Some (st', i') -> hybridInv st'.
Proof.
  intros Hinv. unfold Hybrid.parseTurn.
  destruct (nth_error allLines i) as [lineObj|]; [|now intros H; inversion H; subst].
  destruct (Hybrid.isPageNumber _ || Hybrid.isPageFooter _);
    [now intros H; inversion H; subst|].
  destruct (Hybrid.isSceneHeading _).
  { intros H; inversion H; subst; clear H. unfold hybridInv.
    cbn [Hybrid.pushSealed Hybrid.currentScene Hybrid.scenes Hybrid.sceneLines].
    apply numbered_snoc; [exact Hinv|reflexivity]. }
  destruct st as [sc cur cc sl]. simpl.
  destruct cur as [scene|]; [|now intros H; inversion H; subst].
  destruct (Hybrid.isCharacterName _ _ _).
  - destruct (Hybrid.collectDialogue _ _ _ _) as [[j [dl sl2]]|]; [|discriminate].
    intros H; inversion H; subst; clear H.
    eapply hybrid_pushSealed_same; [|exact Hinv].
    destruct (0 <? length dl); reflexivity.
  - intros H; inversion H; subst; clear H.
    eapply hybrid_pushSealed_same; [|exact Hinv].
    destruct (negb _ && negb _); reflexivity.
Qed.

(** A turn of the scene loop never touches the scenes already pushed: it
    leaves them as they are and pushes at most one more. *)
Lemma hybrid_turn_appends (fuel : nat) (allLines : list Hybrid.LineObj) (i i' : nat)
      (st st' : Hybrid.PState) :
  Hybrid.parseTurn fuel allLines i st = Some (st', i') ->
  Hybrid.scenes st' = Hybrid.scenes st
  \/ exists scene, Hybrid.currentScene st = Some scene
                   /\ Hybrid.scenes st'
                      = Hybrid.scenes st ++ [Hybrid.seal scene (Hybrid.sceneLines st)].
Proof.
  unfold Hybrid.parseTurn.
  destruct (nth_error allLines i) as [lineObj|]; [|now intros H; inversion H; subst; left].
  destruct (Hybrid.isPageNumber _ || Hybrid.isPageFooter _);
    [now intros H; inversion H; subst; left|].
  destruct (Hybrid.isSceneHeading _).
  { intros H; inversion H; subst; clear H. simpl. unfold Hybrid.pushSealed.
    destruct (Hybrid.currentScene st) as [scene|]; [right; eauto|now left]. }
  destruct (Hybrid.currentScene st) as [scene|]; [|now intros H; inversion H; subst; left].
  destruct (Hybrid.isCharacterName _ _ _).
  - destruct (Hybrid.collectDialogue _ _ _ _) as [[j [dl sl2]]|]; [|discriminate].
    intros H; inversion H; subst; now left.
  - intros H; inversion H; subst; now left.
Qed.

Lemma hybrid_loop_numbered (fuel : nat) (allLines : list Hybrid.LineObj) (st : Hybrid.PState) :
  Hybrid.parseLoop fuel allLines 0 Hybrid.initial = Some st -> hybridInv st.
Proof.
  unfold Hybrid.parseLoop. intros H.
  eapply LoopFacts.for_preserves with (P := hybridInv); [| |exact H].
  - intros j x y j' _ Hx Hb. eapply hybrid_turn_numbered; eauto.
  - apply numbered_nil.
Qed.

(** ** The document parser *)

Definition docInv (st : Document.AState) : Prop :=
  numbered Document.sceneNumber (Document.pushSealed st)
  /\ Document.nextNumber st = length (Document.pushSealed st) + 1.

Lemma doc_lineTurn_numbered (fuel : nat) (page : Document.TextPage) (lines : list str)
      (k : nat) (line : str) (st st' : Document.AState) :
  docInv st -> Document.lineTurn fuel page lines k line st = Some st' -> docInv st'.
Proof.
  intros [Hnum Hnext]. unfold Document.lineTurn.
  destruct (negb _ || _ || _); [now intros H; inversion H; subst|].
  destruct (Document.isSceneHeading _).
  { intros H; inversion H; subst; clear H. unfold docInv.
    cbn [Document.pushSealed Document.currentScene Document.scenes Document.sceneLines
         Document.nextNumber].
    split.
    - apply numbered_snoc; [exact Hnum|simpl; lia].
    - rewrite length_app. simpl. lia. }
  destruct st as [sc cur sl nn]. simpl in *.
  destruct cur as [scene|]; [|now intros H; inversion H; subst].
  match goal with |- match ?e with _ => _ end = _ -> _ => destruct e as [[a1 d1]|] end;
    [|discriminate].
  intros H; inversion H; subst; clear H.
  unfold docInv, Document.pushSealed in *. simpl in *.
  apply numbered_snoc_inv in Hnum. destruct Hnum as [Hs Hx]. split.
  - apply numbered_snoc; [assumption|exact Hx].
  - rewrite length_app in *. simpl in *. lia.
Qed.

Lemma doc_lineTurn_appends (fuel : nat) (page : Document.TextPage) (lines : list str)
      (k : nat) (line : str) (st st' : Document.AState) :
  Document.lineTurn fuel page lines k line st = Some st' ->
  Document.scenes st' = Document.scenes st
  \/ exists scene, Document.currentScene st = Some scene
                   /\ Document.scenes st'
                      = Document.scenes st ++ [Document.seal scene (Document.sceneLines st)].
Proof.
  unfold Document.lineTurn.
  destruct (negb _ || _ || _); [now intros H; inversion H; subst; left|].
  destruct (Document.isSceneHeading _).
  { intros H; inversion H; subst; clear H. simpl. unfold Document.pushSealed.
    destruct (Document.currentScene st) as [scene|]; [right; eauto|now left]. }
  destruct (Document.currentScene st) as [scene|]; [|now intros H; inversion H; subst; left].
  match goal with |- match ?e with _ => _ end = _ -> _ => destruct e as [[a1 d1]|] end;
    [|discriminate].
  intros H; inversion H; subst; now left.
Qed.

Lemma forEachFrom_preserves (A St : Type) (P : St -> Prop)
      (f : nat -> A -> St -> option St) (l : list A) (i : nat) (st st' : St) :
  (forall k x s s', In x l -> P s -> f k x s = Some s' -> P s') ->
  P st -> Document.forEachFrom f i l st = Some st' -> P st'.
Proof.
  revert i st. induction l as [|x l IH]; intros i st Hf Hst H; simpl in H.
  - now inversion H; subst.
  - destruct (f i x st) as [s1|] eqn:E; [|discriminate H].
    eapply IH; [| |exact H].
    + intros k y s s' Hy. apply Hf. now right.
    + eapply Hf; eauto. now left.
Qed.

Lemma forEachFrom_total (A St : Type) (f : nat -> A -> St -> option St)
      (l : list A) (i : nat) (st : St) :
  (forall k x s, In x l -> exists s', f k x s = Some s') ->
  exists st', Document.forEachFrom f i l st = Some st'.
Proof.
  revert i st. induction l as [|x l IH]; intros i st Hf; simpl; [eauto|].
  destruct (Hf i x st) as (s1 & ->); [now left|].
  apply IH. intros k y s Hy. apply Hf. now right.
Qed.

Lemma doc_lineTurn_total (fuel : nat) (page : Document.TextPage) (lines : list str)
      (k : nat) (line : str) (st : Document.AState) :
  length lines < fuel ->
  exists st', Document.lineTurn fuel page lines k line st = Some st'.
Proof.
  intros Hf. unfold Document.lineTurn.
  destruct (negb _ || _ || _); [eauto|].
  destruct (Document.isSceneHeading _); [eauto|].
  destruct (Document.currentScene st) as [scene|]; [|eauto].
  destruct (Document.isCharacterName _ _ _); [|eauto].
  destruct (@LoopFacts.while_enough _ (length lines) (Document.collectTurn lines)
              fuel (k + 1) []) as (j & d & -> & _); [lia|].
  eauto.
Qed.

Lemma maxLines_ge (textPages : list Document.TextPage) (page : Document.TextPage) :
  In page textPages ->
  length (split LF (Document.rawText page)) <= Document.maxLines textPages.
Proof.
  induction textPages as [|p ps IH]; simpl; [tauto|].
  intros [->|H]; [lia|]. specialize (IH H). lia.
Qed.

Lemma doc_analyze_total (textPages : list Document.TextPage) :
  exists st,
    Document.forEachFrom
      (fun _ page => Document.pageTurn (S (Document.maxLines textPages)) page)
      0 textPages Document.initial = Some st
    /\ docInv st.
Proof.
  destruct (@forEachFrom_total _ _
              (fun (_ : nat) page => Document.pageTurn (S (Document.maxLines textPages)) page)
              textPages 0 Document.initial) as (st & Hst).
  { intros k page s Hin. unfold Document.pageTurn.
    apply forEachFrom_total. intros k' line s' _.
    apply doc_lineTurn_total. pose proof (maxLines_ge _ _ Hin). lia. }
  exists st. split; [assumption|].
  eapply forEachFrom_preserves with (P := docInv); [| |exact Hst].
  - intros k page s s' _ Hs. unfold Document.pageTurn. intros Hp.
    eapply forEachFrom_preserves with (P := docInv); [| |exact Hp]; [|assumption].
    intros k' line t t' _ Ht. apply doc_lineTurn_numbered. assumption.
  - split; [apply numbered_nil|reflexivity].
Qed.

End SceneFacts.

(** C3, as the claim states it, fails on its last part.  For the page
    [INT. CAR / JOHN / Hello.] the scene that the end of the stream seals and
    pushes has a [Set] in [charactersInScene]; the [forEach] that closes
    [parseScenes] then assigns that field of the pushed scene, and the scene
    that is returned has an array there. *)
Lemma sealed_scene_counterexample :
  exists st sealed returned,
    Hybrid.parseLoop 4
      (Hybrid.flatten [Hybrid.mkPage 1 (JS.js "INT. CAR" ++ [JS.LF] ++ JS.js "JOHN"
                                          ++ [JS.LF] ++ JS.js "Hello.") []])
      0 Hybrid.initial = Some st
    /\ Hybrid.pushSealed st = [sealed]
    /\ Hybrid.parseScenes
         [Hybrid.mkPage 1 (JS.js "INT. CAR" ++ [JS.LF] ++ JS.js "JOHN"
                             ++ [JS.LF] ++ JS.js "Hello.") []]
       = Some [returned]
    /\ Hybrid.sceneNumber returned = 1
    /\ Hybrid.charactersInScene sealed = Hybrid.NameSet [JS.js "JOHN"]
    /\ Hybrid.charactersInScene returned = Hybrid.NameArray [JS.js "JOHN"]
    /\ sealed <> returned.
Proof.
  eexists _, _, _.
  split; [vm_compute; reflexivity|].
  split; [vm_compute; reflexivity|].
  split; [vm_compute; reflexivity|].
  split; [reflexivity|].
  split; [reflexivity|].
  split; [reflexivity|].
  intros H. apply (f_equal Hybrid.charactersInScene) in H. discriminate H.
Qed.

(** C3, amended.  For every input the returned scenes satisfy
    [scenes[i].sceneNumber == i + 1]: the numbers are given in the order in
    which the headings are met, from 1 and without gaps.  A turn of the scene
    loop leaves the scenes already pushed as they are and pushes at most the
    current scene, sealed.  After the loop, the hybrid parser assigns one
    field of every pushed scene, [charactersInScene], which becomes an array
    of the same names in the same order; every other field is returned as
    it was sealed.  The document parser returns the pushed scenes as they
    are. *)
Theorem scene_numbers_and_sealing :
  (forall pages,
      exists st scenes,
        Hybrid.parseLoop (S (length (Hybrid.flatten pages))) (Hybrid.flatten pages)
                         0 Hybrid.initial = Some st
        /\ Hybrid.parseScenes pages = Some scenes
        /\ scenes = map Hybrid.arrayNames (Hybrid.pushSealed st)
        /\ forall i s, nth_error scenes i = Some s -> Hybrid.sceneNumber s = i + 1)
  /\ (forall fuel allLines i i' st st',
         Hybrid.parseTurn fuel allLines i st = Some (st', i') ->
         Hybrid.scenes st' = Hybrid.scenes st
         \/ exists scene,
             Hybrid.currentScene st = Some scene
             /\ Hybrid.scenes st'
                = Hybrid.scenes st ++ [Hybrid.seal scene (Hybrid.sceneLines st)])
  /\ (forall s,
         Hybrid.arrayNames s
         = Hybrid.mkScene (Hybrid.sceneNumber s) (Hybrid.s_pageNumber s) (Hybrid.heading s)
                          (Hybrid.location s) (Hybrid.intExt s) (Hybrid.timeOfDay s)
                          (Hybrid.dialogue s) (Hybrid.actions s) (Hybrid.actors s)
                          (Hybrid.namesToArray (Hybrid.charactersInScene s))
                          (Hybrid.fullText s) (Hybrid.summary s) (Hybrid.props s)
         /\ forall names,
             Hybrid.charactersInScene s = Hybrid.NameSet names ->
             Hybrid.charactersInScene (Hybrid.arrayNames s) = Hybrid.NameArray names)
  /\ (forall textPages,
         exists st scenes,
           Document.forEachFrom
             (fun _ page => Document.pageTurn (S (Document.maxLines textPages)) page)
             0 textPages Document.initial = Some st
           /\ Document.analyzeScenes textPages = Some scenes
           /\ scenes = Document.pushSealed st
           /\ forall i s, nth_error scenes i = Some s -> Document.sceneNumber s = i + 1)
  /\ (forall fuel page lines k line st st',
         Document.lineTurn fuel page lines k line st = Some st' ->
         Document.scenes st' = Document.scenes st
         \/ exists scene,
             Document.currentScene st = Some scene
             /\ Document.scenes st'
                = Document.scenes st ++ [Document.seal scene (Document.sceneLines st)]).
Proof.
  split; [|split; [|split; [|split]]].
  - intros pages.
    destruct (@HybridLoop.parseLoop_enough (S (length (Hybrid.flatten pages)))
                (Hybrid.flatten pages) 0 Hybrid.initial) as (st & Hst); [lia|].
    exists st, (map Hybrid.arrayNames (Hybrid.pushSealed st)).
    split; [exact Hst|]. split.
    + unfold Hybrid.parseScenes, Hybrid.parseScenesWith. now rewrite Hst.
    + split; [reflexivity|].
      apply SceneFacts.numbered_map; [reflexivity|].
      eapply SceneFacts.hybrid_loop_numbered. exact Hst.
  - intros. eapply SceneFacts.hybrid_turn_appends. eassumption.
  - intros s. split; [reflexivity|].
    intros names H. unfold Hybrid.arrayNames. simpl. now rewrite H.
  - intros textPages.
    destruct (SceneFacts.doc_analyze_total textPages) as (st & Hst & [Hnum _]).
    exists st, (Document.pushSealed st).
    split; [exact Hst|]. split.
    + unfold Document.analyzeScenes, Document.analyzeScenesWith. now rewrite Hst.
    + split; [reflexivity|exact Hnum].
  - intros. eapply SceneFacts.doc_lineTurn_appends. eassumption.
Qed.

(** Two headings and nothing else: the second seals the scene of the first. *)
Definition twoHeadings : list Hybrid.LineObj :=
  Hybrid.flatten [Hybrid.mkPage 1 (JS.js "INT. CAR" ++ [JS.LF] ++ JS.js "EXT. BAR") []].

Lemma scene_numbers_witness :
  exists st1 st2,
    Hybrid.parseTurn 3 twoHeadings 0 Hybrid.initial = Some (st1, 0)
    /\ Hybrid.parseTurn 3 twoHeadings 1 st1 = Some (st2, 1)
    /\ (Hybrid.scenes st2 = Hybrid.scenes st1
        \/ exists scene,
            Hybrid.currentScene st1 = Some scene
            /\ Hybrid.scenes st2
               = Hybrid.scenes st1 ++ [Hybrid.seal scene (Hybrid.sceneLines st1)]).
Proof.
  set (allLines := twoHeadings).
  destruct (Hybrid.parseTurn 3 allLines 0 Hybrid.initial) as [[st1 i1]|] eqn:E1;
    [|vm_compute in E1; discriminate E1].
  assert (Hi1 : i1 = 0) by (vm_compute in E1; now inversion E1). subst i1.
  destruct (Hybrid.parseTurn 3 allLines 1 st1) as [[st2 i2]|] eqn:E2;
    [|vm_compute in E1; inversion E1; subst st1; vm_compute in E2; discriminate E2].
  assert (Hi2 : i2 = 1)
    by (vm_compute in E1; inversion E1; subst st1; vm_compute in E2; now inversion E2).
  subst i2. exists st1, st2. split; [reflexivity|]. split; [exact E2|].
  exact (proj1 (proj2 scene_numbers_and_sealing) 3 allLines 1 1 st1 st2 E2).
Defined.

(* ===================================================================== *)
(** * Strings: split, join and trim *)
(* ===================================================================== *)

Module StrFacts.
Import JS.

Lemma in_dropWhile (p : char -> bool) (s : str) (c : char) :
  In c (dropWhile p s) -> In c s.
Proof.
  induction s as [|x s IH]; simpl; [tauto|].
  destruct (p x); simpl; tauto.
Qed.

(** The code units of [s.trim()] are code units of [s]. *)
Lemma in_trim (s : str) (c : char) : In c (trim s) -> In c s.
Proof.
  unfold trim, trimEnd, trimStart. intros H.
  apply in_rev in H. apply in_dropWhile in H. apply in_rev in H.
  now apply in_dropWhile in H.
Qed.

Lemma split_not_nil (sep : char) (s : str) : split sep s <> [].
Proof.
  destruct s as [|c t]; simpl; [discriminate|].
  destruct (c =? sep)%N; [discriminate|].
  destruct (split sep t); discriminate.
Qed.

(** No piece of [s.split(sep)] holds the separator. *)
Lemma split_pieces (sep : char) (s : str) (piece : str) :
  In piece (split sep s) -> ~ In sep piece.
Proof.
  revert piece. induction s as [|c t IH]; simpl; intros piece H.
  - destruct H as [<-|[]]. tauto.
  - destruct (c =? sep)%N eqn:E.
    + destruct H as [<-|H]; [tauto|now apply IH].
    + apply N.eqb_neq in E. destruct (split sep t) as [|p ps] eqn:Es.
      * destruct H as [<-|[]]. simpl. intros [->|[]]. congruence.
      * destruct H as [<-|H].
        -- simpl. intros [->|Hin]; [congruence|]. revert Hin. apply IH. now left.
        -- apply IH. now right.
Qed.

Lemma split_no_sep (sep : char) (x : str) : ~ In sep x -> split sep x = [x].
Proof.
  induction x as [|c t IH]; simpl; intros H; [reflexivity|].
  destruct (c =? sep)%N eqn:E.
  - apply N.eqb_eq in E. subst. tauto.
  - rewrite IH by tauto. reflexivity.
Qed.

Lemma split_app_sep (sep : char) (x rest : str) :
  ~ In sep x -> split sep (x ++ sep :: rest) = x :: split sep rest.
Proof.
  induction x as [|c t IH]; simpl; intros H.
  - now rewrite N.eqb_refl.
  - destruct (c =? sep)%N eqn:E.
    + apply N.eqb_eq in E. subst. tauto.
    + rewrite IH by tauto. reflexivity.
Qed.

(** Splitting a joined array of separator-free strings gives the array
    back. *)
Lemma split_join (sep : char) (a : list str) :
  a <> [] -> (forall x, In x a -> ~ In sep x) -> split sep (join [sep] a) = a.
Proof.
  induction a as [|x a IH]; [congruence|]. intros _ H.
  destruct a as [|y a].
  - simpl. apply split_no_sep. apply H. now left.
  - change (join [sep] (x :: y :: a)) with (x ++ sep :: join [sep] (y :: a)).
    rewrite split_app_sep by (apply H; now left).
    rewrite IH; [reflexivity|discriminate|]. intros z Hz. apply H. now right.
Qed.

End StrFacts.

(* ===================================================================== *)
(** * Page numbers and page footers *)
(* ===================================================================== *)

Module MarkerFacts.
Import JS Hybrid.

(** A line that is neither a page number nor a page footer. *)
Definition kept (l : str) : Prop := isPageNumber l = false /\ isPageFooter l = false.

(** A line of the stream, trimmed. *)
Definition ofStream (allLines : list LineObj) (l : str) : Prop :=
  exists lo, In lo allLines /\ l = trim (text lo).

Definition lineOK (l : str) : Prop := kept l /\ ~ In LF l.

Definition dialogueOK (allLines : list LineObj) (d : Dialogue) : Prop :=
  exists ls, ls <> [] /\ d_text d = join (js " ") ls
             /\ forall l, In l ls -> kept l /\ ofStream allLines l /\ l <> [].

Definition partsOK (allLines : list LineObj) (scene : Scene) : Prop :=
  (forall a, In a (actions scene) -> kept a)
  /\ (forall d, In d (dialogue scene) -> dialogueOK allLines d).

Definition sealedOK (allLines : list LineObj) (scene : Scene) : Prop :=
  partsOK allLines scene
  /\ exists ft, fullText scene = Some ft /\ forall l, In l (split LF ft) -> kept l.

Definition stateOK (allLines : list LineObj) (st : PState) : Prop :=
  (forall s, In s (scenes st) -> sealedOK allLines s)
  /\ (forall l, In l (sceneLines st) -> lineOK l)
  /\ (forall s, currentScene st = Some s -> partsOK allLines s /\ sceneLines st <> []).

Definition streamOK (allLines : list LineObj) : Prop :=
  forall lo, In lo allLines -> ~ In LF (text lo).

Lemma flatten_streamOK (pages : list Page) : streamOK (flatten pages).
Proof.
  intros lo H. unfold flatten in H. apply in_flat_map in H.
  destruct H as (page & _ & H). apply in_map_iff in H.
  destruct H as (l & <- & H). simpl. apply filter_In in H. destruct H as [H _].
  apply in_map_iff in H. destruct H as (piece & <- & H).
  intros Hin. apply StrFacts.in_trim in Hin. revert Hin.
  now apply StrFacts.split_pieces with (s := rawText page).
Qed.

Lemma seal_OK (allLines : list LineObj) (scene : Scene) (sl : list str) :
  partsOK allLines scene -> sl <> [] -> (forall l, In l sl -> lineOK l) ->
  sealedOK allLines (seal scene sl).
Proof.
  intros Hp Hne Hsl. split; [exact Hp|].
  exists (join [LF] sl). split; [reflexivity|].
  rewrite StrFacts.split_join; [|assumption|intros x Hx; now apply Hsl].
  intros l Hl. now apply Hsl.
Qed.

Lemma pushSealed_OK (allLines : list LineObj) (st : PState) :
  stateOK allLines st -> forall s, In s (pushSealed st) -> sealedOK allLines s.
Proof.
  intros (Hs & Hl & Hc) s. unfold pushSealed.
  destruct (currentScene st) as [scene|]; [|apply Hs].
  intros H. apply in_app_iff in H. destruct H as [H|[<-|[]]]; [now apply Hs|].
  destruct (Hc scene eq_refl). now apply seal_OK.
Qed.

Lemma textAt_ofStream (allLines : list LineObj) (j : nat) :
  j < length allLines -> ofStream allLines (trim (textAt allLines j)).
Proof.
  intros H. unfold textAt. destruct (nth_error allLines j) as [lo|] eqn:E.
  - exists lo. split; [eapply nth_error_In; eauto|reflexivity].
  - apply nth_error_None in E. lia.
Qed.

Lemma textAt_noLF (allLines : list LineObj) (j : nat) :
  streamOK allLines -> ~ In LF (trim (textAt allLines j)).
Proof.
  intros Hs Hin. apply StrFacts.in_trim in Hin. unfold textAt in Hin.
  destruct (nth_error allLines j) as [lo|] eqn:E; [|destruct Hin].
  apply nth_error_In in E. now apply (Hs lo).
Qed.

(** What the dialogue loop keeps: lines that are kept, in both buffers. *)
Definition buffersOK (allLines : list LineObj) (a : list str * list str) : Prop :=
  (forall l, In l (fst a) -> kept l /\ ofStream allLines l /\ l <> [])
  /\ (forall l, In l (snd a) -> lineOK l)
  /\ snd a <> [].

Lemma stopsDialogue_false (allLines : list LineObj) (j : nat) (l : str) :
  stopsDialogue allLines j l = false -> kept l.
Proof.
  unfold stopsDialogue. intros H.
  repeat (apply orb_false_iff in H; destruct H as [H ?]). now split.
Qed.

Lemma collectTurn_OK (allLines : list LineObj) (j : nat) (a : list str * list str) :
  streamOK allLines -> j < length allLines -> buffersOK allLines a ->
  match collectTurn allLines j a with
  | Loop.Break b => buffersOK allLines b
  | Loop.Next b => buffersOK allLines b
  end.
Proof.
  intros Hs Hj Ha. unfold collectTurn. destruct a as [dl sl].
  destruct (truthy _) eqn:Htr; simpl; [|exact Ha].
  assert (Hnb : trim (textAt allLines j) <> []) by (intros E; rewrite E in Htr; discriminate Htr).
  destruct (stopsDialogue allLines j _) eqn:Hstop; [exact Ha|].
  apply stopsDialogue_false in Hstop.
  assert (Hline : lineOK (trim (textAt allLines j)))
    by (split; [assumption|now apply textAt_noLF]).
  destruct Ha as (Hd & Hl & Hne). simpl in Hd, Hl, Hne.
  assert (Hsnoc : forall x, sl ++ [x] <> []) by (intros x; destruct sl; discriminate).
  destruct (isParenthetical _).
  - split; [|split]; simpl; [exact Hd| |apply Hsnoc]. intros l Hin. apply in_app_iff in Hin.
    destruct Hin as [Hin|[<-|[]]]; auto.
  - destruct (isLikelyActionLine _); [exact (conj Hd (conj Hl Hne))|].
    split; [|split]; simpl; [| |apply Hsnoc]; intros l Hin; apply in_app_iff in Hin;
      destruct Hin as [Hin|[<-|[]]]; auto.
    split; [assumption|]. split; [now apply textAt_ofStream|exact Hnb].
Qed.

Lemma collectDialogue_OK (fuel : nat) (allLines : list LineObj) (j j' : nat)
      (sl dl sl' : list str) :
  streamOK allLines -> (forall l, In l sl -> lineOK l) -> sl <> [] ->
  collectDialogue fuel allLines j sl = Some (j', (dl, sl')) ->
  buffersOK allLines (dl, sl').
Proof.
  intros Hs Hsl Hne H. unfold collectDialogue in H.
  eapply LoopFacts.while_preserves with (P := buffersOK allLines); [| |exact H].
  - intros i x Hi Hx. now apply collectTurn_OK.
  - split; [|split]; simpl; [tauto|assumption|assumption].
Qed.

Lemma partsOK_same (allLines : list LineObj) (s1 s2 : Scene) :
  actions s2 = actions s1 -> dialogue s2 = dialogue s1 ->
  partsOK allLines s1 -> partsOK allLines s2.
Proof. unfold partsOK. intros -> ->. tauto. Qed.

Lemma parseTurn_OK (fuel : nat) (allLines : list LineObj) (i i' : nat) (st st' : PState) :
  streamOK allLines -> stateOK allLines st ->
  parseTurn fuel allLines i st = Some (st', i') -> stateOK allLines st'.
Proof.
  intros Hstream Hst. unfold parseTurn.
  destruct (nth_error allLines i) as [lineObj|] eqn:Hi; [|now intros H; inversion H; subst].
  destruct (isPageNumber _ || isPageFooter _) eqn:Hdrop; [now intros H; inversion H; subst|].
  apply orb_false_iff in Hdrop.
  assert (Hline : lineOK (text lineObj)).
  { split; [exact Hdrop|]. apply Hstream. eapply nth_error_In; eauto. }
  destruct (isSceneHeading _).
  { intros H; inversion H; subst; clear H. split; [|split]; simpl.
    - now apply pushSealed_OK.
    - intros l [<-|[]]. exact Hline.
    - intros s Hs. inversion Hs; subst. split; [|discriminate].
      split; simpl; tauto. }
  destruct st as [sc cur cc sl]. destruct Hst as (Hsc & Hsl & Hcur). simpl in *.
  destruct cur as [scene|];
    [|intros H; inversion H; subst; exact (conj Hsc (conj Hsl Hcur))].
  destruct (Hcur scene eq_refl) as [Hparts Hne].
  assert (Hne1 : sl ++ [text lineObj] <> []) by (destruct sl; discriminate).
  assert (Hsl1 : forall l, In l (sl ++ [text lineObj]) -> lineOK l).
  { intros l Hin. apply in_app_iff in Hin. destruct Hin as [Hin|[<-|[]]]; auto. }
  destruct (isCharacterName _ _ _).
  - destruct (collectDialogue _ _ _ _) as [[j [dl sl2]]|] eqn:Hc; [|discriminate].
    intros H; inversion H; subst; clear H.
    apply collectDialogue_OK in Hc; [|assumption|assumption|assumption].
    destruct Hc as (Hdl & Hsl2 & Hne2). simpl in Hdl, Hsl2, Hne2.
    split; [|split]; simpl; [assumption|assumption|].
    intros s Hs. inversion Hs; subst; clear Hs. split.
    + destruct (0 <? length dl) eqn:Hlen.
      * destruct Hparts as [Ha Hd]. split; simpl; [exact Ha|].
        intros d Hin. apply in_app_iff in Hin. destruct Hin as [Hin|[<-|[]]]; [auto|].
        exists dl. split; [|split; [reflexivity|assumption]].
        apply Nat.ltb_lt in Hlen. destruct dl; [simpl in Hlen; lia|discriminate].
      * eapply partsOK_same; [| |exact Hparts]; reflexivity.
    + exact Hne2.
  - intros H; inversion H; subst; clear H.
    split; [|split]; simpl; [assumption|assumption|].
    intros s Hs. inversion Hs; subst; clear Hs. split.
    + destruct (negb _ && negb _); [|assumption].
      destruct Hparts as [Ha Hd]. split; simpl; [|exact Hd].
      intros a Hin. apply in_app_iff in Hin. destruct Hin as [Hin|[<-|[]]]; [auto|].
      exact Hdrop.
    + exact Hne1.
Qed.

Lemma parseLoop_OK (pages : list Page) :
  exists st,
    parseLoop (S (length (flatten pages))) (flatten pages) 0 initial = Some st
    /\ stateOK (flatten pages) st.
Proof.
  destruct (@HybridLoop.parseLoop_enough (S (length (flatten pages)))
              (flatten pages) 0 initial) as (st & Hst); [lia|].
  exists st. split; [exact Hst|]. unfold parseLoop in Hst.
  eapply LoopFacts.for_preserves with (P := stateOK (flatten pages)); [| |exact Hst].
  - intros j x y j' _ Hx Hb. eapply parseTurn_OK; eauto. apply flatten_streamOK.
  - split; [|split]; simpl; [tauto|tauto|discriminate].
Qed.

Lemma join_not_nil (sep : str) (ls : list str) :
  ls <> [] -> (forall l, In l ls -> l <> []) -> join sep ls <> [].
Proof.
  destruct ls as [|x ls]; [congruence|]. intros _ H.
  assert (Hx : x <> []) by (apply H; now left).
  destruct x as [|c x]; [congruence|]. destruct ls; simpl; discriminate.
Qed.

(** No dialogue entry of the hybrid parser has an empty text. *)
Lemma hybrid_dialogue_not_empty (pages : list Page) :
  exists scenes,
    parseScenes pages = Some scenes
    /\ forall scene d, In scene scenes -> In d (dialogue scene) -> d_text d <> [].
Proof.
  destruct (parseLoop_OK pages) as (st & Hst & Hok).
  exists (map arrayNames (pushSealed st)). split.
  - unfold parseScenes, parseScenesWith. now rewrite Hst.
  - intros scene d Hin Hd. apply in_map_iff in Hin. destruct Hin as (s0 & <- & Hin).
    apply (pushSealed_OK Hok) in Hin. destruct Hin as ([_ Hdl] & _).
    destruct (Hdl d Hd) as (ls & Hne & -> & Hls).
    apply join_not_nil; [exact Hne|]. intros l Hl. now apply Hls.
Qed.

(** A line is a character cue of the hybrid parser only if the next line of
    the stream exists, is not blank, is not character-shaped and is not a
    scene heading. *)
Lemma hybrid_cue_rule (line : str) (allLines : list str) (i : nat) :
  isCharacterName line allLines i = true ->
  exists next,
    nth_error allLines (i + 1) = Some next
    /\ truthy (trim next) = true
    /\ looksLikeCharacterName (trim next) = false
    /\ isSceneHeading (trim next) = false.
Proof.
  unfold isCharacterName.
  repeat match goal with
         | |- (if ?c then false else _) = true -> _ => destruct c; [discriminate|]
         end.
  destruct (nth_error allLines (i + 1)) as [next|]; [|discriminate].
  destruct (truthy (trim next)) eqn:E1; simpl; [|discriminate].
  destruct (looksLikeCharacterName (trim next)) eqn:E2; [discriminate|].
  destruct (isSceneHeading (trim next)) eqn:E3; [discriminate|].
  intros _. now exists next.
Qed.

End MarkerFacts.

(** C8.  In the hybrid parser a line of the stream that matches the
    page-number pattern or a page-footer pattern ends its turn of the scene
    loop at once, before any classification, and leaves the state as it was.
    No such line is kept: for every input and every returned scene, no line
    of [fullText] matches either pattern, no element of [actions] does, and
    the [text] of every dialogue entry is the space-joined sequence of lines
    of the stream none of which does. *)
Theorem page_markers_dropped (pages : list Hybrid.Page) :
  (forall fuel i st lo,
      nth_error (Hybrid.flatten pages) i = Some lo ->
      Hybrid.isPageNumber (Hybrid.text lo) || Hybrid.isPageFooter (Hybrid.text lo) = true ->
      Hybrid.parseTurn fuel (Hybrid.flatten pages) i st = Some (st, i))
  /\ exists scenes,
      Hybrid.parseScenes pages = Some scenes
      /\ forall scene, In scene scenes ->
           (exists fullText,
               Hybrid.fullText scene = Some fullText
               /\ forall l, In l (JS.split JS.LF fullText) ->
                    Hybrid.isPageNumber l = false /\ Hybrid.isPageFooter l = false)
           /\ (forall a, In a (Hybrid.actions scene) ->
                 Hybrid.isPageNumber a = false /\ Hybrid.isPageFooter a = false)
           /\ (forall d, In d (Hybrid.dialogue scene) ->
                 exists ls,
                   ls <> []
                   /\ Hybrid.d_text d = JS.join (JS.js " ") ls
                   /\ forall l, In l ls ->
                        (Hybrid.isPageNumber l = false /\ Hybrid.isPageFooter l = false)
                        /\ (exists lo, In lo (Hybrid.flatten pages)
                                       /\ l = JS.trim (Hybrid.text lo))
                        /\ l <> []).
Proof.
  split.
  - intros fuel i st lo Hi Hdrop. unfold Hybrid.parseTurn. now rewrite Hi, Hdrop.
  - destruct (MarkerFacts.parseLoop_OK pages) as (st & Hst & Hok).
    exists (map Hybrid.arrayNames (Hybrid.pushSealed st)). split.
    + unfold Hybrid.parseScenes, Hybrid.parseScenesWith. now rewrite Hst.
    + intros scene Hin. apply in_map_iff in Hin. destruct Hin as (s & <- & Hin).
      apply (MarkerFacts.pushSealed_OK Hok) in Hin.
      destruct Hin as ([Ha Hd] & ft & Hft & Hlines). simpl.
      split; [exists ft; split; assumption|]. split; [exact Ha|exact Hd].
Qed.

(** The stream of the second scenario of the specification: a footer and
    a lone page number between the lines of a scene. *)
Definition marker_pages : list Hybrid.Page :=
  [Hybrid.mkPage 1 (JS.join [JS.LF]
                      (map JS.js [ "INT. CAR - DAY"; "He takes the phone.";
                                   "- 3 of 10 -"; "4"; "JOHN"; "Hello." ]%string)) []].

(** In that stream the heading opens a scene and the line after it is
    recorded as an action; in the state reached, with the scene open, the
    turns of the footer and of the page number both end at once and leave
    the state as it is, so that the scene has the action and nothing else
    when the cue is read. *)
Lemma page_markers_witness :
  exists st1 st2,
    Hybrid.parseTurn 7 (Hybrid.flatten marker_pages) 0 Hybrid.initial = Some (st1, 0)
    /\ Hybrid.parseTurn 7 (Hybrid.flatten marker_pages) 1 st1 = Some (st2, 1)
    /\ option_map Hybrid.actions (Hybrid.currentScene st1) = Some []
    /\ option_map Hybrid.actions (Hybrid.currentScene st2)
       = Some [JS.js "He takes the phone."]
    /\ Hybrid.sceneLines st2 = [JS.js "INT. CAR - DAY"; JS.js "He takes the phone."]
    /\ Hybrid.parseTurn 7 (Hybrid.flatten marker_pages) 2 st2 = Some (st2, 2)
    /\ Hybrid.parseTurn 7 (Hybrid.flatten marker_pages) 3 st2 = Some (st2, 3).
Proof.
  eexists. eexists.
  split; [vm_compute; reflexivity|]. split; [vm_compute; reflexivity|].
  split; [reflexivity|]. split; [reflexivity|]. split; [reflexivity|].
  split.
  - apply (proj1 (page_markers_dropped marker_pages) 7 2 _
                 (Hybrid.mkLineObj (JS.js "- 3 of 10 -") 1)).
    + vm_compute. reflexivity.
    + vm_compute. reflexivity.
  - apply (proj1 (page_markers_dropped marker_pages) 7 3 _
                 (Hybrid.mkLineObj (JS.js "4") 1)).
    + vm_compute. reflexivity.
    + vm_compute. reflexivity.
Defined.

(** The second scenario of the specification: a footer [- 3 of 10 -] and a
    lone [4] between the lines of a scene leave no trace in it. *)
Example page_markers_scenario :
  exists scene,
    Hybrid.parseScenes
      [Hybrid.mkPage 1 (JS.join [JS.LF]
                          (map JS.js [ "INT. CAR - DAY"; "He takes the phone.";
                                       "- 3 of 10 -"; "4"; "JOHN"; "Hello." ]%string)) []]
    = Some [scene]
    /\ Hybrid.fullText scene
       = Some (JS.join [JS.LF]
                 (map JS.js [ "INT. CAR - DAY"; "He takes the phone."; "JOHN"; "Hello." ]%string))
    /\ Hybrid.actions scene = [JS.js "He takes the phone."]
    /\ Hybrid.dialogue scene = [Hybrid.mkDialogue (JS.js "JOHN") (JS.js "Hello.")].
Proof.
  eexists. split; [vm_compute; reflexivity|]. repeat split.
Qed.

(* ===================================================================== *)
(** * Global replacement as a scan *)
(* ===================================================================== *)

Module ReplaceFacts.
Import JS Regex.

Lemma orElse_none (R : Type) (a : option R) : orElse a None = a.
Proof. now destruct a. Qed.

(** ** What the patterns of the [replace] calls match at the head of a string *)

(** A literal: its length, if the string starts with it. *)
Definition litLen (pat s : str) : option nat :=
  if startsWith s pat then Some (length pat) else None.

(** [\([^)]*\)]: up to the first closing parenthesis. *)
Fixpoint closeLen (t : str) : option nat :=
  match t with
  | [] => None
  | d :: t' => if (d =? ch ")")%N then Some 1 else option_map S (closeLen t')
  end.

Definition parensLen (s : str) : option nat :=
  match s with
  | c :: t => if (c =? ch "(")%N then option_map S (closeLen t) else None
  | [] => None
  end.

(** [\s+]: the white space the string starts with. *)
Fixpoint wsRun (s : str) : nat :=
  match s with
  | c :: t => if isWhiteSpace c then S (wsRun t) else 0
  | [] => 0
  end.

Definition wsLen (s : str) : option nat :=
  match wsRun s with O => None | S n => Some (S n) end.

(** [\s+\n]: the white space the string starts with, up to its last line
    feed, which must not be its first code unit.  [wsnlTail] is the match
    of [\s*\n]. *)
Fixpoint wsnlTail (t : str) : option nat :=
  match t with
  | [] => None
  | d :: t' =>
      if isWhiteSpace d
      then match wsnlTail t' with
           | Some k => Some (S k)
           | None => if (d =? LF)%N then Some 1 else None
           end
      else None
  end.

Definition wsnlLen (s : str) : option nat :=
  match s with
  | c :: t => if isWhiteSpace c then option_map S (wsnlTail t) else None
  | [] => None
  end.

(** ** The matcher on these patterns *)

Section Runs.
Variable R : Type.
Variable k : cont R.

Lemma run_seq_cons (r : regex) (rs : list regex) pos prev s cs :
  run (seq (r :: rs)) pos prev s cs k
  = run r pos prev s cs (fun pos' prev' s' cs' => run (seq rs) pos' prev' s' cs' k).
Proof. destruct rs; reflexivity. Qed.

End Runs.

Fixpoint prevAfter (prev : option char) (pat : str) : option char :=
  match pat with
  | [] => prev
  | c :: pat' => prevAfter (Some c) pat'
  end.

Lemma run_litS (R : Type) (k : cont R) (pat : str) pos prev s cs :
  run (litS pat) pos prev s cs k
  = if startsWith s pat
    then k (pos + length pat) (prevAfter prev pat) (skipn (length pat) s) cs
    else None.
Proof.
  unfold litS. revert pos prev s. induction pat as [|c pat IH]; intros pos prev s.
  - destruct s; simpl; now rewrite Nat.add_0_r.
  - rewrite map_cons, run_seq_cons. destruct s as [|x s]; simpl; [reflexivity|].
    unfold chr. rewrite N.eqb_sym. destruct (c =? x)%N eqn:E; simpl; [|reflexivity].
    rewrite IH. apply N.eqb_eq in E. subst x.
    now rewrite Nat.add_succ_r.
Qed.

Lemma matchAt_litS (pat : str) pos prev s :
  option_map fst (matchAt (litS pat) pos prev s) = option_map (Nat.add pos) (litLen pat s).
Proof.
  unfold matchAt, litLen. rewrite run_litS. now destruct (startsWith s pat).
Qed.

Section Rep.
Variable R : Type.
Variable k : cont R.
Variable p : char -> bool.

Lemma rep_star_nil pos prev cs :
  rep true p 0 None pos prev [] cs k = k pos prev [] cs.
Proof. reflexivity. Qed.

Lemma rep_star_cons pos prev d t cs :
  rep true p 0 None pos prev (d :: t) cs k
  = orElse (if p d then rep true p 0 None (S pos) (Some d) t cs k else None)
           (k pos prev (d :: t) cs).
Proof. simpl. now rewrite andb_true_r. Qed.

Lemma rep_plus_nil pos prev cs :
  rep true p 1 None pos prev [] cs k = None.
Proof. reflexivity. Qed.

Lemma rep_plus_cons pos prev d t cs :
  rep true p 1 None pos prev (d :: t) cs k
  = if p d then rep true p 0 None (S pos) (Some d) t cs k else None.
Proof. simpl. rewrite andb_true_r. now destruct (p d); [rewrite orElse_none|]. Qed.

End Rep.

Lemma run_cls (R : Type) (k : cont R) (p : char -> bool) pos prev s cs :
  run (Cls p) pos prev s cs k
  = match s with
    | c :: t => if p c then k (S pos) (Some c) t cs else None
    | [] => None
    end.
Proof. reflexivity. Qed.

Lemma rep_close pos prev t cs :
  rep true (notC (chr (ch ")"))) 0 None pos prev t cs
      (fun pos' prev' s' cs' =>
         run (Cls (chr (ch ")"))) pos' prev' s' cs'
             (fun e _ _ c => Some (e, c)))
  = option_map (fun n => (pos + n, cs)) (closeLen t).
Proof.
  revert pos prev. induction t as [|d t IH]; intros pos prev; [reflexivity|].
  rewrite rep_star_cons, run_cls, IH.
  cbn [closeLen]. unfold notC, chr. destruct (d =? ch ")")%N; cbn [negb orElse option_map].
  - now rewrite Nat.add_1_r.
  - rewrite orElse_none. destruct (closeLen t); cbn [option_map]; [|reflexivity].
    now rewrite Nat.add_succ_r.
Qed.

Lemma matchAt_parens pos prev s :
  option_map fst (matchAt Pat.parens pos prev s) = option_map (Nat.add pos) (parensLen s).
Proof.
  unfold matchAt, Pat.parens, parensLen.
  rewrite run_seq_cons, run_cls. destruct s as [|c t]; [reflexivity|].
  unfold chr at 1. destruct (c =? ch "(")%N; [|reflexivity].
  rewrite run_seq_cons. unfold star. cbn [run seq].
  rewrite rep_close. destruct (closeLen t); cbn [option_map fst]; [|reflexivity].
  now rewrite Nat.add_succ_r.
Qed.

Lemma rep_ws_all pos prev t :
  rep true Pat.ws 0 None pos prev t [] (fun e _ _ c => Some (e, c))
  = Some (pos + wsRun t, []).
Proof.
  revert pos prev. induction t as [|d t IH]; intros pos prev.
  - rewrite rep_star_nil. cbn [wsRun]. now rewrite Nat.add_0_r.
  - rewrite rep_star_cons, IH. cbn [wsRun]. unfold Pat.ws.
    destruct (isWhiteSpace d); cbn [orElse].
    + now rewrite Nat.add_succ_r.
    + now rewrite Nat.add_0_r.
Qed.

Lemma matchAt_ws pos prev s :
  option_map fst (matchAt (plus Pat.ws) pos prev s) = option_map (Nat.add pos) (wsLen s).
Proof.
  unfold matchAt, plus, wsLen. cbn [run]. destruct s as [|c t]; [reflexivity|].
  rewrite rep_plus_cons, rep_ws_all. cbn [wsRun]. unfold Pat.ws.
  destruct (isWhiteSpace c); cbn [option_map fst]; [|reflexivity].
  now rewrite Nat.add_succ_r.
Qed.

Lemma rep_wsnl pos prev t :
  rep true Pat.ws 0 None pos prev t []
      (fun pos' prev' s' cs' =>
         run (Cls (chr LF)) pos' prev' s' cs' (fun e _ _ c => Some (e, c)))
  = option_map (fun n => (pos + n, [])) (wsnlTail t).
Proof.
  revert pos prev. induction t as [|d t IH]; intros pos prev; [reflexivity|].
  rewrite rep_star_cons, run_cls, IH. cbn [wsnlTail]. unfold Pat.ws, chr.
  destruct (isWhiteSpace d) eqn:W.
  - destruct (wsnlTail t); cbn [option_map orElse].
    + now rewrite Nat.add_succ_r.
    + destruct (d =? LF)%N; cbn [option_map]; [|reflexivity]. now rewrite Nat.add_1_r.
  - cbn [orElse]. destruct (d =? LF)%N eqn:E; [|reflexivity].
    apply N.eqb_eq in E. subst d. discriminate W.
Qed.

Lemma matchAt_wsnl pos prev s :
  option_map fst (matchAt (Cat (plus Pat.ws) (Cls (chr LF))) pos prev s)
  = option_map (Nat.add pos) (wsnlLen s).
Proof.
  unfold matchAt, plus, wsnlLen. cbn [run]. destruct s as [|c t]; [reflexivity|].
  rewrite rep_plus_cons.
  unfold Pat.ws at 1. destruct (isWhiteSpace c); [|reflexivity].
  rewrite rep_wsnl. destruct (wsnlTail t); cbn [option_map fst]; [|reflexivity].
  now rewrite Nat.add_succ_r.
Qed.

(** ** The scan *)

(** [hasPair P Q s]: somewhere in [s] a code unit of [P] is followed by one
    of [Q]. *)
Fixpoint hasPair (P Q : char -> bool) (s : str) : bool :=
  match s with
  | [] => false
  | a :: t => match t with b :: _ => P a && Q b | [] => false end || hasPair P Q t
  end.

Definition headIs (Q : char -> bool) (s : str) : bool :=
  match s with b :: _ => Q b | [] => false end.

Lemma hasPair_cons (P Q : char -> bool) (a : char) (t : str) :
  hasPair P Q (a :: t) = (P a && headIs Q t) || hasPair P Q t.
Proof. destruct t; simpl; [now rewrite andb_false_r|reflexivity]. Qed.

Lemma hasPair_skipn (P Q : char -> bool) (n : nat) (s : str) :
  hasPair P Q s = false -> hasPair P Q (skipn n s) = false.
Proof.
  revert s. induction n as [|n IH]; intros s H; [exact H|].
  destruct s as [|a t]; [reflexivity|]. simpl skipn. apply IH.
  rewrite hasPair_cons in H. now apply orb_false_iff in H.
Qed.

Lemma hasPair_app (P Q : char -> bool) (x y : str) :
  (forall c, In c x -> P c = false) -> hasPair P Q y = false ->
  hasPair P Q (x ++ y) = false.
Proof.
  intros Hx Hy. induction x as [|a x IH]; [exact Hy|].
  change ((a :: x) ++ y) with (a :: (x ++ y)). rewrite hasPair_cons.
  rewrite (Hx a) by now left. simpl. apply IH. intros c Hc. apply Hx. now right.
Qed.

Lemma headIs_app (Q : char -> bool) (x y : str) :
  x <> [] -> (forall c, In c x -> Q c = false) -> headIs Q (x ++ y) = false.
Proof. destruct x as [|a x]; [congruence|]. intros _ H. simpl. apply H. now left. Qed.

Section Scan.
Variable r : regex.
Variable m : str -> option nat.
Variable by_ : str.
Hypothesis m_sound :
  forall pos prev s, option_map fst (matchAt r pos prev s) = option_map (Nat.add pos) (m s).
Hypothesis m_bound : forall s n, m s = Some n -> 1 <= n <= length s.

(** The left-to-right scan of [s.replace(r, by)]: where the pattern does not
    match, a code unit is copied; where it matches [n] code units, they are
    replaced and the scan goes on after them. *)
Inductive Scan : str -> str -> Prop :=
| scan_end : Scan [] []
| scan_copy c t out : m (c :: t) = None -> Scan t out -> Scan (c :: t) (c :: out)
| scan_match s n out : m s = Some n -> Scan (skipn n s) out -> Scan s (by_ ++ out).

Lemma replaceGo_skip (n : nat) (s : str) pos prev :
  n <= length s ->
  exists pos' prev', replaceGo r by_ n pos prev s = replaceGo r by_ 0 pos' prev' (skipn n s).
Proof.
  revert s pos prev. induction n as [|n IH]; intros s pos prev Hn; [now exists pos, prev|].
  destruct s as [|c t]; [simpl in Hn; lia|]. simpl. apply IH. simpl in Hn. lia.
Qed.

Lemma replaceGo_scan (s : str) : forall pos prev, Scan s (replaceGo r by_ 0 pos prev s).
Proof.
  remember (length s) as len eqn:Hlen. revert s Hlen.
  induction len as [len IH] using lt_wf_ind. intros s Hlen pos prev.
  pose proof (m_sound pos prev s) as Hm.
  destruct s as [|c t].
  - simpl. destruct (m []) as [n|] eqn:E.
    + apply m_bound in E. simpl in E. lia.
    + destruct (matchAt r pos prev []); [discriminate Hm|constructor].
  - simpl. destruct (m (c :: t)) as [n|] eqn:E.
    + destruct (matchAt r pos prev (c :: t)) as [[e cs]|]; [|discriminate Hm].
      simpl in Hm. inversion Hm; subst e. pose proof (m_bound E) as Hb. simpl in Hb.
      replace (pos + n - pos) with n by lia.
      destruct n as [|n]; [lia|].
      destruct (@replaceGo_skip n t (S pos) (Some c)) as (pos' & prev' & ->); [lia|].
      apply scan_match with (n := S n); [exact E|]. simpl skipn.
      apply (IH (length (skipn n t))); [|reflexivity].
      rewrite length_skipn. subst len. simpl. lia.
    + destruct (matchAt r pos prev (c :: t)); [discriminate Hm|].
      apply scan_copy; [exact E|]. apply (IH (length t)); [subst len; simpl; lia|reflexivity].
Qed.

Lemma replaceAll_scan (s : str) : Scan s (replaceAll r by_ s).
Proof. apply replaceGo_scan. Qed.

Lemma scan_fun (s o1 o2 : str) : Scan s o1 -> Scan s o2 -> o1 = o2.
Proof.
  intros H1. revert o2. induction H1 as [|c t out Hn H1 IH|s n out Hn H1 IH]; intros o2 H2.
  - inversion H2; subst; [reflexivity|].
    match goal with H : m [] = Some _ |- _ => apply m_bound in H; simpl in H; lia end.
  - inversion H2; subst; [f_equal; now apply IH|congruence].
  - inversion H2; subst.
    + apply m_bound in Hn. simpl in Hn. lia.
    + congruence.
    + match goal with H : m s = Some _ |- _ => rewrite Hn in H; inversion H; subst end.
      f_equal. now apply IH.
Qed.

Lemma replaceAll_eq (s out : str) : Scan s out -> replaceAll r by_ s = out.
Proof. intros H. eapply scan_fun; [apply replaceAll_scan|exact H]. Qed.

(** Where the pattern matches nowhere, nothing is replaced. *)
Lemma scan_same (s : str) : (forall n, m (skipn n s) = None) -> Scan s s.
Proof.
  induction s as [|c t IH]; intros H; [constructor|].
  apply scan_copy; [exact (H 0)|]. apply IH. intros n. exact (H (S n)).
Qed.

(** The code units of the result are code units of the subject or of the
    replacement. *)
Lemma scan_forall (P : char -> Prop) (s out : str) :
  Scan s out -> Forall P s -> Forall P by_ -> Forall P out.
Proof.
  intros H Hs Hb. induction H as [|c t out Hn H IH|s n out Hn H IH].
  - constructor.
  - inversion Hs; subst. constructor; auto.
  - apply Forall_app. split; [exact Hb|]. apply IH.
    rewrite <- (firstn_skipn n s) in Hs. apply Forall_app in Hs. tauto.
Qed.

(** A pattern that always matches at a code unit of [P] leaves none. *)
Lemma scan_kills_char (P : char -> bool) (s out : str) :
  (forall c t, m (c :: t) = None -> P c = false) ->
  (forall c, In c by_ -> P c = false) ->
  Scan s out -> forall c, In c out -> P c = false.
Proof.
  intros Hm Hb H. induction H as [|c t out Hn H IH|s n out Hn H IH]; intros x Hx.
  - destruct Hx.
  - destruct Hx as [<-|Hx]; [eapply Hm; eauto|now apply IH].
  - apply in_app_iff in Hx. destruct Hx as [Hx|Hx]; [now apply Hb|now apply IH].
Qed.

(** The head of the result: a copied head, or the replacement. *)
Lemma scan_head (Q : char -> bool) (s out : str) :
  by_ <> [] -> (forall c, In c by_ -> Q c = false) ->
  Scan s out -> headIs Q out = true -> headIs Q s = true /\ m s = None.
Proof.
  intros Hne Hb H. destruct H as [|c t out Hn H|s n out Hn H]; simpl; intros Hq.
  - discriminate.
  - now split.
  - rewrite headIs_app in Hq by assumption. discriminate.
Qed.

(** A replacement that is not empty and has no code unit of [P] or [Q]
    brings no pair of [P] and [Q] together. *)
Lemma scan_keeps_noPair (P Q : char -> bool) (s out : str) :
  by_ <> [] -> (forall c, In c by_ -> P c = false) -> (forall c, In c by_ -> Q c = false) ->
  Scan s out -> hasPair P Q s = false -> hasPair P Q out = false.
Proof.
  intros Hne HP HQ H. induction H as [|c t out Hn H IH|s n out Hn H IH]; intros Hs.
  - reflexivity.
  - rewrite hasPair_cons in Hs |- *. apply orb_false_iff in Hs. destruct Hs as [Hh Ht].
    rewrite (IH Ht), orb_false_r.
    destruct (P c) eqn:Pc; [|reflexivity]. simpl in *.
    destruct (headIs Q out) eqn:Hq; [|reflexivity].
    apply (@scan_head Q _ _ Hne HQ H) in Hq. destruct Hq as [Hq _]. congruence.
  - apply hasPair_app; [exact HP|]. apply IH. now apply hasPair_skipn.
Qed.

(** A pattern that matches wherever a code unit of [P] is followed by one
    of [Q], replaced by code units of neither, leaves no such pair. *)
Lemma scan_kills_pair (P Q : char -> bool) (s out : str) :
  by_ <> [] -> (forall c, In c by_ -> P c = false) -> (forall c, In c by_ -> Q c = false) ->
  (forall a t, m (a :: t) = None -> P a && headIs Q t = false) ->
  Scan s out -> hasPair P Q out = false.
Proof.
  intros Hne HP HQ Hm H. induction H as [|c t out Hn H IH|s n out Hn H IH].
  - reflexivity.
  - rewrite hasPair_cons, IH, orb_false_r.
    destruct (P c) eqn:Pc; [|reflexivity]. simpl.
    destruct (headIs Q out) eqn:Hq; [|reflexivity].
    apply (@scan_head Q _ _ Hne HQ H) in Hq. destruct Hq as [Hq _].
    specialize (Hm c t Hn). rewrite Pc, Hq in Hm. discriminate Hm.
  - apply hasPair_app; [exact HP|exact IH].
Qed.

End Scan.

End ReplaceFacts.

(* ===================================================================== *)
(** * Text normalization *)
(* ===================================================================== *)

Unset Implicit Arguments.

Module NormalizeFacts.
Import JS Regex ReplaceFacts.

(** ** The literal steps *)

Lemma startsWith_length (s pat : str) : startsWith s pat = true -> length pat <= length s.
Proof.
  revert s. induction pat as [|c pat IH]; intros s H; simpl; [lia|].
  destruct s as [|x s]; [discriminate H|]. simpl in H.
  apply andb_true_iff in H. destruct H as [_ H]. apply IH in H. simpl. lia.
Qed.

Lemma startsWith_app (s pat : str) :
  startsWith s pat = true -> s = pat ++ skipn (length pat) s.
Proof.
  revert s. induction pat as [|c pat IH]; intros s H; [reflexivity|].
  destruct s as [|x s]; [discriminate H|]. simpl in H.
  apply andb_true_iff in H. destruct H as [E H]. apply N.eqb_eq in E. subst x.
  simpl. f_equal. now apply IH.
Qed.

Lemma litLen_bound (pat : str) :
  pat <> [] -> forall s n, litLen pat s = Some n -> 1 <= n <= length s.
Proof.
  intros Hne s n. unfold litLen. destruct (startsWith s pat) eqn:E; [|discriminate].
  intros H; inversion H; subst. split; [destruct pat; [congruence|simpl; lia]|].
  now apply startsWith_length.
Qed.

Lemma lit_scan (pat by_ s : str) :
  pat <> [] -> Scan (litLen pat) by_ s (replaceAll (litS pat) by_ s).
Proof.
  intros Hne. apply replaceAll_scan.
  - intros. apply matchAt_litS.
  - now apply litLen_bound.
Qed.

Definition noneOf (P : char -> bool) (s : str) : bool := forallb (fun c => negb (P c)) s.

Lemma noneOf_spec (P : char -> bool) (s : str) :
  noneOf P s = true <-> forall c, In c s -> P c = false.
Proof.
  unfold noneOf. rewrite forallb_forall. split; intros H c Hc; specialize (H c Hc).
  - now apply negb_true_iff.
  - now apply negb_true_iff.
Qed.

Lemma noneOf_Forall (P : char -> bool) (s : str) :
  noneOf P s = true <-> Forall (fun c => P c = false) s.
Proof. rewrite noneOf_spec, Forall_forall. tauto. Qed.

(** A literal step keeps a string free of the code units of [P] when its
    replacement is. *)
Lemma lit_keeps_noneOf (P : char -> bool) (pat by_ s : str) :
  pat <> [] -> noneOf P by_ = true -> noneOf P s = true ->
  noneOf P (replaceAll (litS pat) by_ s) = true.
Proof.
  intros Hne Hb Hs. apply noneOf_Forall.
  eapply scan_forall; [now apply lit_scan| |]; now apply noneOf_Forall.
Qed.

Lemma lit_keeps_noPair (P Q : char -> bool) (pat by_ s : str) :
  pat <> [] -> by_ <> [] -> noneOf P by_ = true -> noneOf Q by_ = true ->
  hasPair P Q s = false -> hasPair P Q (replaceAll (litS pat) by_ s) = false.
Proof.
  intros Hne Hbne HP HQ Hs.
  eapply scan_keeps_noPair; [exact Hbne| | |now apply lit_scan|exact Hs];
    now apply noneOf_spec.
Qed.

(** Replacing every [x] leaves no [x]. *)
Lemma lit_kills_char (x : char) (by_ s : str) :
  noneOf (N.eqb x) by_ = true ->
  noneOf (N.eqb x) (replaceAll (litS [x]) by_ s) = true.
Proof.
  intros Hb. apply noneOf_spec.
  eapply scan_kills_char; [| |apply lit_scan; discriminate].
  - intros c t. unfold litLen.
    destruct t; simpl; destruct (x =? c)%N; simpl; intros H;
      solve [reflexivity | discriminate H].
  - now apply noneOf_spec.
Qed.

(** Replacing every [x y] leaves no [x] followed by [y]. *)
Lemma lit_kills_pair (x y : char) (by_ s : str) :
  by_ <> [] -> noneOf (N.eqb x) by_ = true -> noneOf (N.eqb y) by_ = true ->
  hasPair (N.eqb x) (N.eqb y) (replaceAll (litS [x; y]) by_ s) = false.
Proof.
  intros Hne HP HQ.
  eapply scan_kills_pair; [exact Hne| | | |apply lit_scan; discriminate];
    try (now apply noneOf_spec).
  intros a t. unfold litLen. destruct t as [|b t]; simpl.
  - intros _. apply andb_false_r.
  - destruct (x =? a)%N; [|reflexivity]. destruct (y =? b)%N; [|reflexivity].
    destruct t; simpl; discriminate.
Qed.

(** ** Where a literal cannot match *)

Lemma in_skipn (A : Type) (x : A) (n : nat) (l : list A) : In x (skipn n l) -> In x l.
Proof.
  intros H. rewrite <- (firstn_skipn n l). apply in_or_app. now right.
Qed.

Lemma hasPair_prefix (P Q : char -> bool) (x y : str) :
  hasPair P Q x = true -> hasPair P Q (x ++ y) = true.
Proof.
  induction x as [|a x IH]; [discriminate|].
  change ((a :: x) ++ y) with (a :: (x ++ y)). rewrite !hasPair_cons.
  intros H. apply orb_true_iff in H. apply orb_true_iff. destruct H as [H|H].
  - left. apply andb_true_iff in H. destruct H as [Ha Hq]. rewrite Ha. simpl.
    destruct x; [discriminate Hq|exact Hq].
  - right. now apply IH.
Qed.

Lemma lit_same_noPair (P Q : char -> bool) (pat by_ s : str) :
  pat <> [] -> hasPair P Q pat = true -> hasPair P Q s = false ->
  replaceAll (litS pat) by_ s = s.
Proof.
  intros Hne Hpat Hs. apply replaceAll_eq with (m := litLen pat).
  - intros. apply matchAt_litS.
  - now apply litLen_bound.
  - apply scan_same. intros n. unfold litLen.
    destruct (startsWith (skipn n s) pat) eqn:E; [|reflexivity].
    apply startsWith_app in E.
    pose proof (hasPair_skipn P Q n s Hs) as Hn. rewrite E in Hn.
    rewrite (hasPair_prefix P Q pat _ Hpat) in Hn. discriminate Hn.
Qed.

Lemma lit_same_noneOf (P : char -> bool) (pat by_ s : str) :
  pat <> [] -> noneOf P pat = false -> noneOf P s = true ->
  replaceAll (litS pat) by_ s = s.
Proof.
  intros Hne Hpat Hs. apply replaceAll_eq with (m := litLen pat).
  - intros. apply matchAt_litS.
  - now apply litLen_bound.
  - apply scan_same. intros n. unfold litLen.
    destruct (startsWith (skipn n s) pat) eqn:E; [|reflexivity].
    apply startsWith_app in E. exfalso.
    assert (Hall : noneOf P pat = true); [|congruence].
    apply noneOf_spec. intros c Hc. apply (proj1 (noneOf_spec P s) Hs).
    apply in_skipn with (n := n). rewrite E. apply in_or_app. now left.
Qed.

(** Replacing a literal by itself changes nothing. *)
Lemma lit_by_itself (pat s : str) : pat <> [] -> replaceAll (litS pat) pat s = s.
Proof.
  intros Hne. apply replaceAll_eq with (m := litLen pat).
  - intros. apply matchAt_litS.
  - now apply litLen_bound.
  - remember (length s) as len eqn:Hl. revert s Hl.
    induction len as [len IH] using lt_wf_ind. intros s Hl.
    destruct (litLen pat s) as [n|] eqn:E.
    + pose proof (litLen_bound pat Hne s n E) as Hb. unfold litLen in E.
      destruct (startsWith s pat) eqn:Hs; [|discriminate E]. inversion E; subst n.
      rewrite (startsWith_app s pat Hs) at 2.
      apply scan_match with (n := length pat); [unfold litLen; now rewrite Hs|].
      apply (IH (length (skipn (length pat) s))); [|reflexivity].
      rewrite length_skipn. lia.
    + destruct s as [|c t]; [constructor|].
      apply scan_copy; [exact E|]. apply (IH (length t)); [subst; simpl; lia|reflexivity].
Qed.

(** ** The white-space step [/\s+\n/g] *)

Definition isLF (c : char) : bool := (c =? LF)%N.

(** The white space a string starts with holds a line feed. *)
Fixpoint runHasLF (t : str) : bool :=
  match t with
  | [] => false
  | d :: t' => isWhiteSpace d && (isLF d || runHasLF t')
  end.

Lemma wsnlTail_none (t : str) : wsnlTail t = None <-> runHasLF t = false.
Proof.
  induction t as [|d t IH]; simpl; [tauto|].
  unfold isLF. destruct (isWhiteSpace d); simpl; [|tauto].
  destruct (wsnlTail t) as [k|].
  - split; [discriminate|]. intros H. apply orb_false_iff in H.
    destruct H as [_ H]. apply IH in H. discriminate H.
  - destruct (d =? LF)%N; simpl; [split; discriminate|]. tauto.
Qed.

Lemma wsnlTail_some (t : str) (k : nat) :
  wsnlTail t = Some k -> 1 <= k <= length t /\ runHasLF (skipn k t) = false.
Proof.
  revert k. induction t as [|d t IH]; intros k; simpl; [discriminate|].
  destruct (isWhiteSpace d); [|discriminate].
  destruct (wsnlTail t) as [k'|] eqn:E.
  - intros H; inversion H; subst. destruct (IH k' eq_refl) as [Hb Hr].
    split; [lia|exact Hr].
  - destruct (d =? LF)%N; [|discriminate]. intros H; inversion H; subst.
    split; [lia|]. simpl. now apply wsnlTail_none.
Qed.

Lemma wsnlLen_bound (s : str) (n : nat) : wsnlLen s = Some n -> 1 <= n <= length s.
Proof.
  destruct s as [|c t]; simpl; [discriminate|].
  destruct (isWhiteSpace c); [|discriminate].
  destruct (wsnlTail t) as [k|] eqn:E; [|discriminate].
  intros H; inversion H; subst. apply wsnlTail_some in E. simpl. lia.
Qed.

Definition wsnl : regex := Cat (plus Pat.ws) (Cls (chr LF)).

Lemma wsnl_scan (s : str) : Scan wsnlLen [LF] s (replaceAll wsnl [LF] s).
Proof.
  apply replaceAll_scan.
  - intros. apply matchAt_wsnl.
  - apply wsnlLen_bound.
Qed.

Lemma wsnlLen_after (s : str) (n : nat) :
  wsnlLen s = Some n ->
  headIs isLF (skipn n s) = false /\ wsnlLen (skipn n s) = None.
Proof.
  destruct s as [|c t]; simpl; [discriminate|].
  destruct (isWhiteSpace c); [|discriminate].
  destruct (wsnlTail t) as [k|] eqn:E; [|discriminate].
  intros H; inversion H; subst. simpl skipn.
  apply wsnlTail_some in E. destruct E as [_ E].
  destruct (skipn k t) as [|e r]; [now split|]. simpl in E |- *.
  destruct (isWhiteSpace e) eqn:W; simpl in E.
  - apply orb_false_iff in E. destruct E as [E1 E2]. split; [exact E1|].
    apply wsnlTail_none in E2. now rewrite E2.
  - split; [|reflexivity]. unfold isLF. destruct (e =? LF)%N eqn:El; [|reflexivity].
    apply N.eqb_eq in El. subst e. discriminate W.
Qed.

Lemma wsnlLen_before (c : char) (t : str) :
  isWhiteSpace c = true -> wsnlLen (c :: t) = None ->
  headIs isLF t = false /\ wsnlLen t = None.
Proof.
  simpl. intros -> H. destruct (wsnlTail t) as [k|] eqn:E; [discriminate H|].
  destruct t as [|d t']; [now split|]. simpl in E |- *.
  destruct (isWhiteSpace d) eqn:W.
  - destruct (wsnlTail t'); [discriminate E|]. unfold isLF.
    destruct (d =? LF)%N; [discriminate E|]. now split.
  - split; [|reflexivity]. unfold isLF. destruct (d =? LF)%N eqn:El; [|reflexivity].
    apply N.eqb_eq in El. subst d. discriminate W.
Qed.

(** After the step, no white space is followed by a line feed. *)
Lemma wsnl_kills (s out : str) :
  Scan wsnlLen [LF] s out ->
  hasPair isWhiteSpace isLF out = false
  /\ (headIs isLF out = true ->
      (headIs isLF s = true /\ wsnlLen s = None) \/ wsnlLen s <> None).
Proof.
  intros H. induction H as [|c t out Hn H [IH1 IH2]|s n out Hn H [IH1 IH2]].
  - split; [reflexivity|discriminate].
  - split.
    + rewrite hasPair_cons, IH1, orb_false_r.
      destruct (isWhiteSpace c) eqn:W; [|reflexivity]. simpl.
      destruct (headIs isLF out) eqn:Hq; [|reflexivity].
      destruct (wsnlLen_before c t W Hn) as [Hh Hm].
      destruct (IH2 eq_refl) as [[Hh' _]|Hm']; congruence.
    + simpl. intros Hc. left. now split.
  - split.
    + change ([LF] ++ out) with (LF :: out). rewrite hasPair_cons, IH1, orb_false_r.
      destruct (headIs isLF out) eqn:Hq; [|apply andb_false_r].
      destruct (wsnlLen_after s n Hn) as [Hh Hm].
      destruct (IH2 eq_refl) as [[Hh' _]|Hm']; congruence.
    + intros _. right. congruence.
Qed.

Lemma wsnlLen_pair (s : str) (n : nat) :
  wsnlLen s = Some n -> hasPair isWhiteSpace isLF s = true.
Proof.
  destruct s as [|c t]; simpl wsnlLen; [discriminate|].
  destruct (isWhiteSpace c) eqn:W; [|discriminate].
  destruct (wsnlTail t) as [k|] eqn:E; [|discriminate]. intros _.
  revert c W k E. induction t as [|d t IH]; intros c W k E; [discriminate E|].
  rewrite hasPair_cons. simpl in E. destruct (isWhiteSpace d) eqn:Wd; [|discriminate E].
  destruct (wsnlTail t) as [k'|] eqn:E'.
  - rewrite (IH d Wd k' eq_refl). apply orb_true_r.
  - unfold headIs, isLF. destruct (d =? LF)%N; [|discriminate E]. now rewrite W.
Qed.

Lemma wsnl_same (s : str) :
  hasPair isWhiteSpace isLF s = false -> replaceAll wsnl [LF] s = s.
Proof.
  intros Hs. apply replaceAll_eq with (m := wsnlLen).
  - intros. apply matchAt_wsnl.
  - apply wsnlLen_bound.
  - apply scan_same. intros n. destruct (wsnlLen (skipn n s)) as [k|] eqn:E; [|reflexivity].
    apply wsnlLen_pair in E. rewrite (hasPair_skipn _ _ n s Hs) in E. discriminate E.
Qed.

Lemma wsnl_keeps_noneOf (P : char -> bool) (s : str) :
  P LF = false -> noneOf P s = true -> noneOf P (replaceAll wsnl [LF] s) = true.
Proof.
  intros Hb Hs. apply noneOf_Forall.
  eapply scan_forall; [apply wsnl_scan|now apply noneOf_Forall|].
  constructor; [exact Hb|constructor].
Qed.

(** ** [trim] *)

Lemma dropWhile_split (p : char -> bool) (s : str) :
  exists w, s = w ++ dropWhile p s /\ forallb p w = true.
Proof.
  induction s as [|c t (w & Hw & Hp)]; [now exists []|]. simpl.
  destruct (p c) eqn:E.
  - exists (c :: w). simpl. rewrite E, Hp. split; [now f_equal|reflexivity].
  - now exists [].
Qed.

Lemma dropWhile_head (p : char -> bool) (s : str) : headIs p (dropWhile p s) = false.
Proof.
  induction s as [|c t IH]; [reflexivity|]. simpl.
  destruct (p c) eqn:E; [exact IH|exact E].
Qed.

Lemma dropWhile_fix (p : char -> bool) (s : str) : headIs p s = false -> dropWhile p s = s.
Proof. destruct s as [|c t]; [reflexivity|]. simpl. now intros ->. Qed.

Lemma dropWhile_all (p : char -> bool) (w s : str) :
  forallb p w = true -> dropWhile p (w ++ s) = dropWhile p s.
Proof.
  induction w as [|c w IH]; [reflexivity|]. simpl. intros H.
  apply andb_true_iff in H. destruct H as [-> H]. now apply IH.
Qed.

(** [s.trim()] is [s] without a white prefix and a white suffix. *)
Lemma trim_split (s : str) :
  exists a b, s = a ++ trim s ++ b
              /\ forallb isWhiteSpace a = true /\ forallb isWhiteSpace b = true.
Proof.
  unfold trim, trimEnd, trimStart.
  destruct (dropWhile_split isWhiteSpace s) as (a & Ha & Wa).
  destruct (dropWhile_split isWhiteSpace (rev (dropWhile isWhiteSpace s))) as (b & Hb & Wb).
  exists a, (rev b). split; [|split].
  - rewrite Ha at 1. f_equal. rewrite <- rev_app_distr, <- Hb. now rewrite rev_involutive.
  - exact Wa.
  - rewrite forallb_forall in *. intros x Hx. apply Wb. now apply in_rev in Hx.
Qed.

Lemma trim_idem (s : str) : trim (trim s) = trim s.
Proof.
  unfold trim at 1. unfold trimEnd, trimStart.
  assert (Hstart : dropWhile isWhiteSpace (trim s) = trim s).
  { apply dropWhile_fix. unfold trim, trimEnd, trimStart.
    pose proof (dropWhile_head isWhiteSpace s) as Hh.
    destruct (dropWhile_split isWhiteSpace (rev (dropWhile isWhiteSpace s))) as (b & Hb & _).
    remember (dropWhile isWhiteSpace s) as y.
    remember (dropWhile isWhiteSpace (rev y)) as z.
    assert (Hy : y = rev z ++ rev b).
    { rewrite <- rev_app_distr, <- Hb. now rewrite rev_involutive. }
    destruct (rev z) as [|c z']; [reflexivity|]. rewrite Hy in Hh. exact Hh. }
  rewrite Hstart. unfold trim, trimEnd, trimStart. rewrite rev_involutive.
  rewrite dropWhile_fix; [reflexivity|apply dropWhile_head].
Qed.

Lemma trim_noneOf (P : char -> bool) (s : str) :
  noneOf P s = true -> noneOf P (trim s) = true.
Proof.
  intros H. apply noneOf_spec. intros c Hc.
  apply (proj1 (noneOf_spec P s) H). now apply StrFacts.in_trim.
Qed.

Lemma hasPair_app_inv (P Q : char -> bool) (x y : str) :
  hasPair P Q (x ++ y) = false -> hasPair P Q x = false /\ hasPair P Q y = false.
Proof.
  intros H. split.
  - destruct (hasPair P Q x) eqn:E; [|reflexivity].
    now rewrite (hasPair_prefix P Q x y E) in H.
  - pose proof (hasPair_skipn P Q (length x) _ H) as Hs.
    now rewrite skipn_app, skipn_all, Nat.sub_diag in Hs.
Qed.

Lemma trim_noPair (P Q : char -> bool) (s : str) :
  hasPair P Q s = false -> hasPair P Q (trim s) = false.
Proof.
  destruct (trim_split s) as (a & b & Hs & _). intros H. rewrite Hs in H.
  apply hasPair_app_inv in H. destruct H as [_ H].
  now apply hasPair_app_inv in H.
Qed.

(** White space at the end does not change the result of [trim]. *)
Lemma trim_app_ws (y w : str) : forallb isWhiteSpace w = true -> trim (y ++ w) = trim y.
Proof.
  intros Hw. unfold trim, trimEnd, trimStart.
  destruct (dropWhile_split isWhiteSpace y) as (a & Ha & Wa).
  assert (E : dropWhile isWhiteSpace (y ++ w)
              = match dropWhile isWhiteSpace y with
                | [] => []
                | _ :: _ => dropWhile isWhiteSpace y ++ w
                end).
  { rewrite Ha at 1. rewrite <- app_assoc, dropWhile_all by exact Wa.
    pose proof (dropWhile_head isWhiteSpace y) as Hh.
    destruct (dropWhile isWhiteSpace y) as [|c t].
    - simpl. rewrite <- (app_nil_r w), dropWhile_all by exact Hw. reflexivity.
    - apply dropWhile_fix. exact Hh. }
  rewrite E. destruct (dropWhile isWhiteSpace y) as [|c t]; [reflexivity|].
  f_equal. rewrite rev_app_distr. apply dropWhile_all.
  rewrite forallb_forall in *. intros x Hx. apply Hw. now apply in_rev.
Qed.

(** ** The replacements of mis-decoded sequences *)

Definition nonEmpty (s : str) : bool := match s with [] => false | _ :: _ => true end.

Lemma nonEmpty_spec (s : str) : nonEmpty s = true -> s <> [].
Proof. destruct s; [discriminate|discriminate]. Qed.

Lemma replaceEach_app (a b : list (str * str)) (s : str) :
  Pat.replaceEach (a ++ b) s = Pat.replaceEach b (Pat.replaceEach a s).
Proof. unfold Pat.replaceEach. apply fold_left_app. Qed.

Lemma replaceEach_cons (st : str * str) (rest : list (str * str)) (s : str) :
  Pat.replaceEach (st :: rest) s
  = Pat.replaceEach rest (replaceAll (litS (fst st)) (snd st) s).
Proof. reflexivity. Qed.

Definition keepsChar (P : char -> bool) (st : str * str) : bool :=
  nonEmpty (fst st) && noneOf P (snd st).

Definition keepsPair (P Q : char -> bool) (st : str * str) : bool :=
  nonEmpty (fst st) && nonEmpty (snd st) && noneOf P (snd st) && noneOf Q (snd st).

Lemma replaceEach_keeps_noneOf (P : char -> bool) (steps : list (str * str)) (s : str) :
  forallb (keepsChar P) steps = true -> noneOf P s = true ->
  noneOf P (Pat.replaceEach steps s) = true.
Proof.
  revert s. induction steps as [|st steps IH]; intros s Hk Hs; [exact Hs|].
  simpl in Hk. apply andb_true_iff in Hk. destruct Hk as [Hst Hk].
  apply andb_true_iff in Hst. destruct Hst as [H1 H2].
  rewrite replaceEach_cons. apply IH; [exact Hk|].
  apply lit_keeps_noneOf; [now apply nonEmpty_spec|exact H2|exact Hs].
Qed.

Lemma replaceEach_keeps_noPair (P Q : char -> bool) (steps : list (str * str)) (s : str) :
  forallb (keepsPair P Q) steps = true -> hasPair P Q s = false ->
  hasPair P Q (Pat.replaceEach steps s) = false.
Proof.
  revert s. induction steps as [|st steps IH]; intros s Hk Hs; [exact Hs|].
  simpl in Hk. apply andb_true_iff in Hk. destruct Hk as [Hst Hk].
  unfold keepsPair in Hst. repeat (apply andb_true_iff in Hst; destruct Hst as [Hst ?]).
  rewrite replaceEach_cons. apply IH; [exact Hk|].
  apply lit_keeps_noPair; try assumption; now apply nonEmpty_spec.
Qed.

(** The step that replaces [x y], and the steps after it, leave no [x]
    followed by [y]. *)
Lemma replaceEach_kills (x y : char) (i : nat) (by_ : str)
      (steps : list (str * str)) (s : str) :
  nth_error steps i = Some ([x; y], by_) ->
  keepsPair (N.eqb x) (N.eqb y) ([x; y], by_) = true ->
  forallb (keepsPair (N.eqb x) (N.eqb y)) (skipn (S i) steps) = true ->
  hasPair (N.eqb x) (N.eqb y) (Pat.replaceEach steps s) = false.
Proof.
  intros Hi Hst Hpost.
  assert (Hsplit : steps = firstn i steps ++ ([x; y], by_) :: skipn (S i) steps).
  { rewrite <- (firstn_skipn i steps) at 1. f_equal.
    clear - Hi. revert steps Hi. induction i as [|i IH]; intros [|st steps] Hi;
      try discriminate Hi.
    - simpl in Hi. inversion Hi; subst. reflexivity.
    - simpl in Hi. now apply IH. }
  rewrite Hsplit, replaceEach_app, replaceEach_cons.
  apply replaceEach_keeps_noPair; [exact Hpost|].
  unfold keepsPair in Hst. repeat (apply andb_true_iff in Hst; destruct Hst as [Hst ?]).
  simpl fst. simpl snd. apply lit_kills_pair; try assumption. now apply nonEmpty_spec.
Qed.

(** The pairs of code units that the replacements remove. *)
Definition badPairs : list (char * char) :=
  [ (Pat.a_circ, Pat.euro); (Pat.A_tilde, 32%N); (Pat.A_tilde, 168%N);
    (Pat.A_tilde, 169%N); (Pat.A_tilde, 172%N); (Pat.A_tilde, 178%N);
    (Pat.A_tilde, 185%N) ].

Definition pairIn (s : str) (xy : char * char) : bool :=
  hasPair (N.eqb (fst xy)) (N.eqb (snd xy)) s.

Definition noMojibake (s : str) : bool := forallb (fun xy => negb (pairIn s xy)) badPairs.

Lemma mojibake_kills (s : str) : noMojibake (Pat.replaceEach Pat.mojibake s) = true.
Proof.
  unfold noMojibake, badPairs, pairIn. cbn [forallb fst snd].
  rewrite (replaceEach_kills Pat.a_circ Pat.euro 2 [34%N]) by reflexivity.
  rewrite (replaceEach_kills Pat.A_tilde 32%N 5 [224%N]) by reflexivity.
  rewrite (replaceEach_kills Pat.A_tilde 168%N 6 [232%N]) by reflexivity.
  rewrite (replaceEach_kills Pat.A_tilde 169%N 7 [233%N]) by reflexivity.
  rewrite (replaceEach_kills Pat.A_tilde 172%N 8 [236%N]) by reflexivity.
  rewrite (replaceEach_kills Pat.A_tilde 178%N 9 [242%N]) by reflexivity.
  rewrite (replaceEach_kills Pat.A_tilde 185%N 10 [249%N]) by reflexivity.
  reflexivity.
Qed.

Lemma noMojibake_trim (s : str) : noMojibake s = true -> noMojibake (trim s) = true.
Proof.
  unfold noMojibake. rewrite !forallb_forall. intros H xy Hin.
  specialize (H xy Hin). apply negb_true_iff in H. apply negb_true_iff.
  now apply trim_noPair.
Qed.

(** Every pattern of the list holds one of the pairs. *)
Definition holdsBadPair (st : str * str) : bool :=
  nonEmpty (fst st) && existsb (pairIn (fst st)) badPairs.

Lemma replaceEach_same (steps : list (str * str)) (s : str) :
  forallb holdsBadPair steps = true -> noMojibake s = true ->
  Pat.replaceEach steps s = s.
Proof.
  intros Hsteps Hs. induction steps as [|st steps IH]; [reflexivity|].
  simpl in Hsteps. apply andb_true_iff in Hsteps. destruct Hsteps as [Hst Hsteps].
  rewrite replaceEach_cons.
  assert (E : replaceAll (litS (fst st)) (snd st) s = s); [|rewrite E; now apply IH].
  apply andb_true_iff in Hst. destruct Hst as [Hne Hex].
  apply existsb_exists in Hex. destruct Hex as (xy & Hin & Hpat).
  apply lit_same_noPair with (P := N.eqb (fst xy)) (Q := N.eqb (snd xy)).
  - now apply nonEmpty_spec.
  - exact Hpat.
  - unfold noMojibake in Hs. rewrite forallb_forall in Hs.
    specialize (Hs xy Hin). now apply negb_true_iff in Hs.
Qed.

(** ** The normal forms *)

(** What [cleanScriptText] of page.parser.js leaves: no carriage return, no
    tab, no white space before a line feed, none of the mis-decoded pairs,
    no white space at either end. *)
Definition clean (s : str) : Prop :=
  noneOf (N.eqb CR) s = true
  /\ noneOf (N.eqb TAB) s = true
  /\ hasPair isWhiteSpace isLF s = false
  /\ noMojibake s = true
  /\ trim s = s.

Lemma hybrid_clean (text : str) : clean (Hybrid.cleanScriptText text).
Proof.
  unfold Hybrid.cleanScriptText. cbv zeta.
  set (t1 := replaceAll (litS [CR; LF]) [LF] text).
  set (t2 := replaceAll (litS [CR]) [LF] t1).
  set (t3 := replaceAll (litS [TAB]) (js "    ") t2).
  set (t4 := replaceAll (Cat (plus Pat.ws) (Cls (chr LF))) [LF] t3).
  assert (H2 : noneOf (N.eqb CR) t2 = true) by (now apply lit_kills_char).
  assert (H3 : noneOf (N.eqb CR) t3 = true)
    by (apply lit_keeps_noneOf; [discriminate|reflexivity|exact H2]).
  assert (H3' : noneOf (N.eqb TAB) t3 = true) by (now apply lit_kills_char).
  assert (H4 : noneOf (N.eqb CR) t4 = true) by (now apply wsnl_keeps_noneOf).
  assert (H4' : noneOf (N.eqb TAB) t4 = true) by (now apply wsnl_keeps_noneOf).
  assert (H4'' : hasPair isWhiteSpace isLF t4 = false)
    by (apply (wsnl_kills t3 t4); apply wsnl_scan).
  repeat split.
  - apply trim_noneOf. apply replaceEach_keeps_noneOf; [reflexivity|exact H4].
  - apply trim_noneOf. apply replaceEach_keeps_noneOf; [reflexivity|exact H4'].
  - apply trim_noPair. apply replaceEach_keeps_noPair; [reflexivity|exact H4''].
  - apply noMojibake_trim. apply mojibake_kills.
  - apply trim_idem.
Qed.

Lemma hybrid_clean_fixed (s : str) : clean s -> Hybrid.cleanScriptText s = s.
Proof.
  intros (H1 & H2 & H3 & H4 & H5). unfold Hybrid.cleanScriptText. cbv zeta.
  rewrite (lit_same_noneOf (N.eqb CR) [CR; LF] [LF] s) by (discriminate || assumption || reflexivity).
  rewrite (lit_same_noneOf (N.eqb CR) [CR] [LF] s) by (discriminate || assumption || reflexivity).
  rewrite (lit_same_noneOf (N.eqb TAB) [TAB] (js "    ") s)
    by (discriminate || assumption || reflexivity).
  change (Cat (plus Pat.ws) (Cls (chr LF))) with wsnl. rewrite (wsnl_same s H3).
  rewrite (replaceEach_same Pat.mojibake s) by (reflexivity || assumption).
  exact H5.
Qed.

(** What [cleanScriptText] of document.parser.js leaves. *)
Definition docClean (s : str) : Prop :=
  noneOf (N.eqb CR) s = true /\ noMojibake s = true.

Lemma doc_clean (text : str) : docClean (Document.cleanScriptText text).
Proof.
  unfold Document.cleanScriptText. cbv zeta. split; [|apply mojibake_kills].
  apply replaceEach_keeps_noneOf; [reflexivity|].
  rewrite lit_by_itself by discriminate. now apply lit_kills_char.
Qed.

Lemma doc_clean_fixed (s : str) : docClean s -> Document.cleanScriptText s = s.
Proof.
  intros [H1 H2]. unfold Document.cleanScriptText. cbv zeta.
  rewrite (lit_same_noneOf (N.eqb CR) [CR; LF] [LF] s) by (discriminate || assumption || reflexivity).
  rewrite (lit_same_noneOf (N.eqb CR) [CR] [LF] s) by (discriminate || assumption || reflexivity).
  rewrite lit_by_itself by discriminate.
  now apply replaceEach_same.
Qed.

End NormalizeFacts.

(** C7.  Text normalization is idempotent.  [cleanScriptText] is a total
    function of the text (a chain of global replacements and, in the page
    parser, a final [trim]); applied to its own result it changes nothing,
    in the page parser and in the document parser, which keeps tabs and
    surrounding white space. *)
Theorem cleanScriptText_idempotent (x : JS.str) :
  Hybrid.cleanScriptText (Hybrid.cleanScriptText x) = Hybrid.cleanScriptText x
  /\ Document.cleanScriptText (Document.cleanScriptText x) = Document.cleanScriptText x.
Proof.
  split.
  - apply NormalizeFacts.hybrid_clean_fixed, NormalizeFacts.hybrid_clean.
  - apply NormalizeFacts.doc_clean_fixed, NormalizeFacts.doc_clean.
Qed.

(* ===================================================================== *)
(** * The character roster *)
(* ===================================================================== *)

Module RosterFacts.
Import JS Hybrid.

Lemma str_eqb_eq (a b : str) : str_eqb a b = true <-> a = b.
Proof.
  revert b. induction a as [|x a IH]; intros [|y b]; simpl; split; try discriminate; auto.
  - intros H. apply andb_true_iff in H. destruct H as [E H].
    apply N.eqb_eq in E. apply IH in H. now subst.
  - intros H. inversion H; subst. rewrite N.eqb_refl. now apply IH.
Qed.

Lemma str_eqb_refl (a : str) : str_eqb a a = true.
Proof. now apply str_eqb_eq. Qed.

Lemma str_eqb_neq (a b : str) : str_eqb a b = false <-> a <> b.
Proof.
  split.
  - intros H E. apply str_eqb_eq in E. congruence.
  - intros H. destruct (str_eqb a b) eqn:E; [|reflexivity]. apply str_eqb_eq in E. tauto.
Qed.

Lemma arr_includes_spec (a : list str) (x : str) : arr_includes a x = true <-> In x a.
Proof.
  unfold arr_includes. rewrite existsb_exists. split.
  - intros (y & Hy & E). apply str_eqb_eq in E. now subst.
  - intros H. exists x. split; [exact H|apply str_eqb_refl].
Qed.

Lemma pushNew_in (a : list str) (x : str) : In x (pushNew a x).
Proof.
  unfold pushNew. destruct (arr_includes a x) eqn:E.
  - now apply arr_includes_spec.
  - apply in_or_app. right. now left.
Qed.

Lemma pushNew_keeps (a : list str) (x y : str) : In y a -> In y (pushNew a x).
Proof.
  unfold pushNew. destruct (arr_includes a x); [tauto|]. intros H. apply in_or_app. now left.
Qed.

(** ** The map from names *)

Definition names (m : list CharAcc) : list str := map a_name m.

(** The sum of [lines] over the entries whose name satisfies [p]. *)
Fixpoint linesFor (p : str -> bool) (m : list CharAcc) : nat :=
  match m with
  | [] => 0
  | c :: rest => (if p (a_name c) then a_lines c else 0) + linesFor p rest
  end.

(** The number of dialogue blocks whose character satisfies [p]. *)
Definition blocksFor (p : str -> bool) (ds : list Dialogue) : nat :=
  length (filter (fun d => p (d_character d)) ds).

Lemma mapHas_spec (m : list CharAcc) (n : str) : mapHas m n = true <-> In n (names m).
Proof.
  unfold mapHas, names. rewrite existsb_exists, in_map_iff. split.
  - intros (c & Hc & E). apply str_eqb_eq in E. eauto.
  - intros (c & E & Hc). exists c. split; [exact Hc|]. now apply str_eqb_eq.
Qed.

Lemma names_mapUpdate (m : list CharAcc) (n : str) (f : CharAcc -> CharAcc) :
  (forall c, a_name (f c) = a_name c) -> names (mapUpdate m n f) = names m.
Proof.
  intros Hf. unfold names, mapUpdate. rewrite map_map. apply map_ext.
  intros c. destruct (str_eqb (a_name c) n); [apply Hf|reflexivity].
Qed.

Lemma linesFor_app (p : str -> bool) (m1 m2 : list CharAcc) :
  linesFor p (m1 ++ m2) = linesFor p m1 + linesFor p m2.
Proof. induction m1 as [|c m1 IH]; simpl; [reflexivity|]. rewrite IH. lia. Qed.

Lemma linesFor_mapUpdate_same (p : str -> bool) (m : list CharAcc) (n : str)
      (f : CharAcc -> CharAcc) :
  (forall c, a_name (f c) = a_name c) -> (forall c, a_lines (f c) = a_lines c) ->
  linesFor p (mapUpdate m n f) = linesFor p m.
Proof.
  intros Hn Hl. induction m as [|c m IH]; simpl; [reflexivity|]. rewrite IH.
  destruct (str_eqb (a_name c) n); [|reflexivity]. now rewrite Hn, Hl.
Qed.

Lemma mapUpdate_absent (m : list CharAcc) (n : str) (f : CharAcc -> CharAcc) :
  ~ In n (names m) -> mapUpdate m n f = m.
Proof.
  induction m as [|c m IH]; simpl; intros H; [reflexivity|].
  destruct (str_eqb (a_name c) n) eqn:E.
  - apply str_eqb_eq in E. tauto.
  - f_equal. apply IH. tauto.
Qed.

Lemma linesFor_mapUpdate_incr (p : str -> bool) (m : list CharAcc) (n : str)
      (f : CharAcc -> CharAcc) :
  NoDup (names m) -> In n (names m) ->
  (forall c, a_name (f c) = a_name c) -> (forall c, a_lines (f c) = a_lines c + 1) ->
  linesFor p (mapUpdate m n f) = linesFor p m + (if p n then 1 else 0).
Proof.
  intros Hnd Hin Hn Hl. induction m as [|c m IH]; [destruct Hin|].
  simpl in Hnd. inversion Hnd as [|? ? Hc Hm]; subst. simpl.
  destruct (str_eqb (a_name c) n) eqn:E.
  - apply str_eqb_eq in E. subst n. rewrite Hn, Hl.
    change (map (fun c0 => if str_eqb (a_name c0) (a_name c) then f c0 else c0) m)
      with (mapUpdate m (a_name c) f).
    rewrite mapUpdate_absent by exact Hc. destruct (p (a_name c)); lia.
  - apply str_eqb_neq in E. destruct Hin as [Hin|Hin]; [congruence|].
    change (map (fun c0 => if str_eqb (a_name c0) n then f c0 else c0) m)
      with (mapUpdate m n f).
    rewrite IH by assumption. lia.
Qed.

(** ** The two folds of [extractCharacters] *)

Lemma addActor_names (i : nat) (m : list CharAcc) (n : str) :
  names (addActor i m n) = if mapHas m n then names m else names m ++ [n].
Proof.
  unfold addActor. rewrite names_mapUpdate.
  - destruct (mapHas m n); [reflexivity|]. unfold names. now rewrite map_app.
  - intros c. now destruct (existsb _ _).
Qed.

Lemma addActor_lines (p : str -> bool) (i : nat) (m : list CharAcc) (n : str) :
  linesFor p (addActor i m n) = linesFor p m.
Proof.
  unfold addActor. rewrite linesFor_mapUpdate_same.
  - destruct (mapHas m n); [reflexivity|]. rewrite linesFor_app. simpl.
    destruct (p n); lia.
  - intros c. now destruct (existsb _ _).
  - intros c. now destruct (existsb _ _).
Qed.

Lemma addActor_nodup (i : nat) (m : list CharAcc) (n : str) :
  NoDup (names m) -> NoDup (names (addActor i m n)).
Proof.
  intros H. rewrite addActor_names. destruct (mapHas m n) eqn:E; [exact H|].
  apply NoDup_app; [exact H|constructor; [tauto|constructor]|].
  intros x Hx [<-|[]]. apply mapHas_spec in Hx. congruence.
Qed.

Lemma addActor_in (i : nat) (m : list CharAcc) (n : str) : In n (names (addActor i m n)).
Proof.
  rewrite addActor_names. destruct (mapHas m n) eqn:E.
  - now apply mapHas_spec.
  - apply in_or_app. right. now left.
Qed.

Lemma addActor_keeps (i : nat) (m : list CharAcc) (n x : str) :
  In x (names m) -> In x (names (addActor i m n)).
Proof.
  rewrite addActor_names. destruct (mapHas m n); [tauto|].
  intros H. apply in_or_app. now left.
Qed.

Lemma actors_fold (p : str -> bool) (i : nat) (l : list str) (m : list CharAcc) :
  NoDup (names m) ->
  NoDup (names (fold_left (addActor i) l m))
  /\ linesFor p (fold_left (addActor i) l m) = linesFor p m
  /\ (forall x, In x l \/ In x (names m) -> In x (names (fold_left (addActor i) l m))).
Proof.
  revert m. induction l as [|n l IH]; intros m Hnd; simpl.
  - repeat split; auto. intros x [[]|H]; exact H.
  - destruct (IH (addActor i m n) (addActor_nodup i m n Hnd)) as (H1 & H2 & H3).
    split; [exact H1|]. split; [now rewrite H2, addActor_lines|].
    intros x [[<-|Hx]|Hx]; apply H3.
    + right. apply addActor_in.
    + now left.
    + right. now apply addActor_keeps.
Qed.

Lemma addDialogue_names (m : list CharAcc) (d : Dialogue) :
  names (addDialogue m d) = names m.
Proof.
  unfold addDialogue. destruct (mapHas m (d_character d)); [|reflexivity].
  now apply names_mapUpdate.
Qed.

Lemma addDialogue_lines (p : str -> bool) (m : list CharAcc) (d : Dialogue) :
  NoDup (names m) -> In (d_character d) (names m) ->
  linesFor p (addDialogue m d) = linesFor p m + (if p (d_character d) then 1 else 0).
Proof.
  intros Hnd Hin. unfold addDialogue.
  rewrite (proj2 (mapHas_spec m (d_character d)) Hin).
  now apply linesFor_mapUpdate_incr.
Qed.

Lemma dialogue_fold (p : str -> bool) (ds : list Dialogue) (m : list CharAcc) :
  NoDup (names m) -> (forall d, In d ds -> In (d_character d) (names m)) ->
  names (fold_left addDialogue ds m) = names m
  /\ linesFor p (fold_left addDialogue ds m) = linesFor p m + blocksFor p ds.
Proof.
  revert m. induction ds as [|d ds IH]; intros m Hnd Hin; simpl.
  - unfold blocksFor. simpl. split; [reflexivity|lia].
  - destruct (IH (addDialogue m d)) as [H1 H2].
    + now rewrite addDialogue_names.
    + intros d' Hd'. rewrite addDialogue_names. apply Hin. now right.
    + split; [now rewrite H1, addDialogue_names|].
      rewrite H2, addDialogue_lines; [|exact Hnd|apply Hin; now left].
      unfold blocksFor. simpl. destruct (p (d_character d)); simpl; lia.
Qed.

(** Every speaker of a scene is one of its actors. *)
Definition speakersAct (scene : Scene) : Prop :=
  forall d, In d (dialogue scene) -> In (d_character d) (actors scene).

(** The number of dialogue blocks of [scenes] whose character satisfies [p]. *)
Fixpoint blocksOf (p : str -> bool) (scenes : list Scene) : nat :=
  match scenes with
  | [] => 0
  | scene :: rest => blocksFor p (dialogue scene) + blocksOf p rest
  end.

Lemma scenes_fold (p : str -> bool) (scenes : list Scene) (i : nat) (m : list CharAcc) :
  NoDup (names m) -> (forall s, In s scenes -> speakersAct s) ->
  let m' := snd (fold_left
                   (fun (acc : nat * list CharAcc) scene =>
                      let '(sceneIndex, m) := acc in
                      let m1 := fold_left (addActor sceneIndex) (actors scene) m in
                      let m2 := fold_left addDialogue (dialogue scene) m1 in
                      (S sceneIndex, m2))
                   scenes (i, m)) in
  NoDup (names m') /\ linesFor p m' = linesFor p m + blocksOf p scenes.
Proof.
  revert i m. induction scenes as [|scene scenes IH]; intros i m Hnd Hact; simpl.
  - split; [exact Hnd|lia].
  - destruct (actors_fold p i (actors scene) m Hnd) as (A1 & A2 & A3).
    destruct (dialogue_fold p (dialogue scene) _ A1) as [D1 D2].
    { intros d Hd. apply A3. left. apply (Hact scene); [now left|exact Hd]. }
    destruct (IH (S i) (fold_left addDialogue (dialogue scene)
                                  (fold_left (addActor i) (actors scene) m)))
      as [I1 I2].
    + now rewrite D1.
    + intros s Hs. apply Hact. now right.
    + split; [exact I1|]. simpl in I2. rewrite I2, D2, A2. lia.
Qed.

Lemma foldScenes_spec (p : str -> bool) (scenes : list Scene) :
  (forall s, In s scenes -> speakersAct s) ->
  NoDup (names (foldScenes scenes))
  /\ linesFor p (foldScenes scenes) = blocksOf p scenes.
Proof.
  intros H. unfold foldScenes.
  destruct (scenes_fold p scenes 0 [] (NoDup_nil _) H) as [H1 H2].
  split; [exact H1|exact H2].
Qed.

(** The sum of [lines] over the returned roster, for the names of [p]. *)
Definition rosterLines (p : str -> bool) (roster : list Character) : nat :=
  fold_right (fun c n => (if p (name c) then lines c else 0) + n) 0 roster.

Lemma rosterLines_extract (p : str -> bool) (scenes : list Scene) :
  rosterLines p (extractCharacters scenes) = linesFor p (foldScenes scenes).
Proof.
  unfold extractCharacters. induction (foldScenes scenes) as [|c m IH]; simpl; [reflexivity|].
  now rewrite IH.
Qed.

Lemma roster_names (scenes : list Scene) :
  map name (extractCharacters scenes) = names (foldScenes scenes).
Proof. unfold extractCharacters, names. rewrite map_map. reflexivity. Qed.

(** ** The scenes of [parseScenes] *)

Definition stateActs (st : PState) : Prop :=
  (forall s, In s (scenes st) -> speakersAct s)
  /\ (forall s, currentScene st = Some s -> speakersAct s).

Lemma parseTurn_acts (fuel : nat) (allLines : list LineObj) (i i' : nat) (st st' : PState) :
  stateActs st -> parseTurn fuel allLines i st = Some (st', i') -> stateActs st'.
Proof.
  intros [Hs Hc]. unfold parseTurn.
  destruct (nth_error allLines i) as [lineObj|]; [|intros H; inversion H; subst; now split].
  destruct (isPageNumber _ || isPageFooter _); [intros H; inversion H; subst; now split|].
  destruct (isSceneHeading _).
  { intros H; inversion H; subst; clear H. split; simpl.
    - intros s Hin. unfold pushSealed in Hin. destruct (currentScene st) as [scene|]; [|auto].
      apply in_app_iff in Hin. destruct Hin as [Hin|[<-|[]]]; [auto|].
      exact (Hc scene eq_refl).
    - intros s E. inversion E; subst. intros d []. }
  destruct (currentScene st) as [scene|] eqn:Ecur;
    [|intros H; inversion H; subst; split; [exact Hs|now rewrite Ecur]].
  pose proof (Hc scene eq_refl) as Hact.
  destruct (isCharacterName _ _ _).
  - destruct (collectDialogue _ _ _ _) as [[j [dl sl2]]|]; [|discriminate].
    intros H; inversion H; subst; clear H. split; simpl; [exact Hs|].
    intros s E. inversion E; subst; clear E.
    destruct (0 <? length dl); intros d Hd; simpl in *.
    + apply in_app_iff in Hd. destruct Hd as [Hd|[<-|[]]].
      * apply pushNew_keeps. now apply Hact.
      * apply pushNew_in.
    + apply pushNew_keeps. now apply Hact.
  - intros H; inversion H; subst; clear H. split; simpl; [exact Hs|].
    intros s E. inversion E; subst; clear E.
    destruct (negb _ && negb _); exact Hact.
Qed.

Lemma parseScenes_acts (pages : list Page) (scenes : list Scene) :
  parseScenes pages = Some scenes -> forall s, In s scenes -> speakersAct s.
Proof.
  unfold parseScenes, parseScenesWith.
  destruct (parseLoop _ _ _ _) as [st|] eqn:E; [|discriminate].
  intros H; inversion H; subst; clear H.
  assert (Hst : stateActs st).
  { unfold parseLoop in E.
    eapply LoopFacts.for_preserves with (P := stateActs); [| |exact E].
    - intros j x y j' _ Hx Hb. eapply parseTurn_acts; eauto.
    - split; [intros s []|discriminate]. }
  destruct Hst as [Hs Hc]. intros s Hin. apply in_map_iff in Hin.
  destruct Hin as (s0 & <- & Hin). unfold pushSealed in Hin.
  assert (H0 : speakersAct s0).
  { destruct (currentScene st) as [scene|]; [|auto].
    apply in_app_iff in Hin. destruct Hin as [Hin|[<-|[]]]; [auto|].
    exact (Hc scene eq_refl). }
  exact H0.
Qed.

End RosterFacts.

(* ===================================================================== *)
(** * Where the parsers differ *)
(* ===================================================================== *)

Module Conservation.
Import JS Hybrid.

Lemma blocksOf_all (scenes : list Scene) :
  RosterFacts.blocksOf (fun _ => true) scenes
  = list_sum (map (fun s => length (dialogue s)) scenes).
Proof.
  induction scenes as [|s scenes IH]; simpl; [reflexivity|].
  unfold RosterFacts.blocksFor.
  rewrite (forallb_filter_id (fun _ : Dialogue => true)); [|apply forallb_forall; reflexivity].
  now f_equal.
Qed.

Lemma sum_dialogue (scenes : list Scene) (n : nat) :
  fold_left (fun sum s => sum + length (dialogue s)) scenes n
  = n + RosterFacts.blocksOf (fun _ => true) scenes.
Proof.
  revert n. induction scenes as [|s scenes IH]; intros n; simpl; [lia|].
  rewrite IH. unfold RosterFacts.blocksFor.
  rewrite (forallb_filter_id (fun _ : Dialogue => true)); [lia|].
  apply forallb_forall. reflexivity.
Qed.

(** In the hybrid parser one dialogue block adds one to [lines] of one
    character: for every input the [lines] of the roster sum up to the number
    of dialogue entries of the scenes, which is [totalDialogue]. *)
Lemma hybrid_dialogue_conserved (text : str) (totalPages : nat) :
  exists breaks r,
    parseText text totalPages = Some (breaks, r)
    /\ RosterFacts.rosterLines (fun _ => true) (r_characters r)
       = totalDialogue (r_metadata r)
    /\ totalDialogue (r_metadata r) = list_sum (map (fun s => length (dialogue s)) (r_scenes r)).
Proof.
  unfold parseText. destruct (extractPages _ totalPages) as [breaks pages].
  destruct (HybridLoop.parseScenes_total pages) as (scenes & Hs). rewrite Hs.
  eexists _, _. split; [reflexivity|]. simpl.
  rewrite RosterFacts.rosterLines_extract.
  destruct (RosterFacts.foldScenes_spec (fun _ => true) scenes
              (RosterFacts.parseScenes_acts pages scenes Hs)) as [_ ->].
  rewrite sum_dialogue. split; [reflexivity|]. simpl. apply blocksOf_all.
Qed.

End Conservation.

(** C2.  The PDF parser breaks the conservation of dialogue blocks.  For
    the script [INT. CAR - DAY / JOHN / Hello / there. / MARY / Hi.] its
    scenes hold two dialogue entries ([totalDialogue] is 2) while
    [parseCharacters] adds to [lines] the number of text lines of each block:
    JOHN's single block of two lines counts 2, and the [lines] of the roster
    sum up to 3.  The hybrid parser, on the same script, gives one line per
    block: 1 and 1. *)
Theorem pdf_lines_count_text_lines :
  (exists scenes characters metadata,
      Pdf.parseScript
        (JS.join [JS.LF] (map JS.js [ "INT. CAR - DAY"; "JOHN"; "Hello"; "there.";
                                      "MARY"; "Hi." ]%string)) 1
      = Some (scenes, characters, metadata)
      /\ Pdf.totalDialogue metadata = 2
      /\ map (fun c => (Pdf.name c, Pdf.lines c)) characters
         = [ (JS.js "JOHN", 2); (JS.js "MARY", 1) ])
  /\ (exists breaks r,
         Hybrid.parseText
           (JS.join [JS.LF] (map JS.js [ "INT. CAR - DAY"; "JOHN"; "Hello"; "there.";
                                         "MARY"; "Hi." ]%string)) 1
         = Some (breaks, r)
         /\ Hybrid.totalDialogue (Hybrid.r_metadata r) = 2
         /\ map (fun c => (Hybrid.name c, Hybrid.lines c)) (Hybrid.r_characters r)
            = [ (JS.js "JOHN", 1); (JS.js "MARY", 1) ]).
Proof.
  split.
  - eexists _, _, _. split; [vm_compute; reflexivity|]. split; reflexivity.
  - eexists _, _. split; [vm_compute; reflexivity|]. split; reflexivity.
Qed.

(* ===================================================================== *)
(** * Headings without a time of day *)
(* ===================================================================== *)

Module HeadingFacts.
Import JS Regex Hybrid.

Lemma orElse_some (R : Type) (a b : option R) (r : R) :
  a = Some r -> orElse a b = Some r.
Proof. now intros ->. Qed.

Section Greedy.
Variable R : Type.
Variable p : char -> bool.
Variable k : cont R.

Lemma rep_hi0 lo pos prev s cs :
  rep true p lo (Some 0) pos prev s cs k
  = match lo with O => k pos prev s cs | S _ => None end.
Proof.
  destruct s as [|d t]; simpl; [reflexivity|]. now rewrite andb_false_r.
Qed.

(** [p?] before a code unit *)
Lemma rep_opt_cons pos prev d t cs :
  rep true p 0 (Some 1) pos prev (d :: t) cs k
  = orElse (if p d then k (S pos) (Some d) t cs else None) (k pos prev (d :: t) cs).
Proof.
  cbn [rep]. rewrite andb_true_r. destruct (p d); [|reflexivity].
  cbn [pred option_map]. now rewrite rep_hi0.
Qed.

(** [p+] before a code unit *)
Lemma rep_one_cons pos prev d t cs :
  rep true p 1 None pos prev (d :: t) cs k
  = if p d then rep true p 0 None (S pos) (Some d) t cs k else None.
Proof.
  cbn [rep]. rewrite andb_true_r. destruct (p d); [|reflexivity].
  cbn [pred option_map]. now rewrite ReplaceFacts.orElse_none.
Qed.

(** The code unit before the offset, after the code units of [w]. *)
Definition lastOf (prev : option char) (w : str) : option char :=
  fold_left (fun _ c => Some c) w prev.

(** A greedy repetition takes all it can when the rest of the pattern
    matches after that. *)
Lemma rep_greedy_take (w rest : str) lo pos prev cs (r : R) :
  forallb p w = true ->
  match rest with [] => True | c :: _ => p c = false end ->
  lo <= length w ->
  k (pos + length w) (lastOf prev w) rest cs = Some r ->
  rep true p lo None pos prev (w ++ rest) cs k = Some r.
Proof.
  revert lo pos prev. induction w as [|c w IH]; intros lo pos prev Hw Hrest Hlo Hk.
  - simpl in Hlo, Hk. rewrite Nat.add_0_r in Hk.
    assert (lo = 0) by lia. subst lo. cbn [app].
    destruct rest as [|c t]; cbn [rep]; [exact Hk|].
    rewrite Hrest. exact Hk.
  - simpl in Hw. apply andb_true_iff in Hw. destruct Hw as [Hc Hw].
    cbn [app rep]. rewrite Hc. cbn [andb hiAllows option_map].
    apply orElse_some. apply IH; [exact Hw|exact Hrest|simpl in Hlo; lia|].
    simpl in Hk. now rewrite Nat.add_succ_r in Hk.
Qed.

Lemma rep_greedy_all (w : str) lo pos prev cs (r : R) :
  forallb p w = true -> lo <= length w ->
  k (pos + length w) (lastOf prev w) [] cs = Some r ->
  rep true p lo None pos prev w cs k = Some r.
Proof.
  intros Hw Hlo Hk. rewrite <- (app_nil_r w).
  now apply rep_greedy_take.
Qed.

End Greedy.

(** The prefixes of a scene heading, as they are written in capitals. *)
Definition prefixTokens : list str :=
  map js [ "INT."; "INT"; "EXT."; "EXT"; "INT/EXT."; "INT/EXT"; "I/E."; "I/E" ]%string.

Lemma ws_not_period (c : char) : isWhiteSpace c = true -> chr 46%N c = false.
Proof.
  intros H. unfold chr. destruct (c =? 46)%N eqn:E; [|reflexivity].
  apply N.eqb_eq in E. subst c. discriminate H.
Qed.

Lemma ws_slash : isWhiteSpace 47%N = false.
Proof. reflexivity. Qed.

(** The match of [/^(INT\.?|EXT\.?|INT\/EXT\.?|I\/E\.?)\s+(.+)/i] on a
    prefix, white space and a text without line terminators: group 1 is the
    prefix and group 2 the text. *)
Lemma parse3_match (p : str) (c : char) (w loc : str) :
  In p prefixTokens ->
  isWhiteSpace c = true -> forallb isWhiteSpace w = true ->
  loc <> [] -> forallb dot loc = true ->
  match loc with [] => True | x :: _ => isWhiteSpace x = false end ->
  exec parse3 (p ++ c :: w ++ loc)
  = Some (0, length p + S (length w) + length loc,
          [ (2, (length p + S (length w), length p + S (length w) + length loc));
            (1, (0, length p)) ]).
Proof.
  intros Hp Hc Hw Hne Hloc Hhd.
  pose proof (ws_not_period c Hc) as Hd.
  assert (Hlen : 1 <= length loc) by (destruct loc; [congruence|simpl; lia]).
  unfold exec.
  assert (E : matchAt parse3 0 None (p ++ c :: w ++ loc)
              = Some (length p + S (length w) + length loc,
                      [ (2, (length p + S (length w),
                             length p + S (length w) + length loc));
                        (1, (0, length p)) ])).
  { unfold prefixTokens in Hp. simpl in Hp.
    destruct Hp as [<-|[<-|[<-|[<-|[<-|[<-|[<-|[<-|[]]]]]]]]];
      unfold matchAt; cbn -[rep isWhiteSpace];
      repeat (first [rewrite rep_opt_cons | rewrite rep_one_cons];
              unfold Pat.ws; rewrite ?Hc, ?Hd, ?ws_slash; cbn -[rep isWhiteSpace]);
      repeat apply orElse_some;
      (apply rep_greedy_take; [exact Hw|exact Hhd|lia|]);
      (apply rep_greedy_all; [exact Hloc|exact Hlen|]);
      repeat f_equal; lia. }
  destruct (p ++ c :: w ++ loc) as [|x t]; cbn [execFrom]; now rewrite E.
Qed.

Lemma slice_prefix (p rest : str) : slice (p ++ rest) 0 (length p) = p.
Proof.
  unfold slice. rewrite Nat.sub_0_r. cbn [skipn].
  rewrite firstn_app, Nat.sub_diag, firstn_all. cbn [firstn]. apply app_nil_r.
Qed.

Lemma slice_suffix (a loc : str) :
  slice (a ++ loc) (length a) (length a + length loc) = loc.
Proof.
  unfold slice. rewrite skipn_app, skipn_all, Nat.sub_diag. cbn [skipn app].
  replace (length a + length loc - length a) with (length loc) by lia.
  apply firstn_all.
Qed.

(** The last-resort rule of the hybrid parser: a heading made of a prefix,
    white space and a text without line terminators, which neither of the
    two patterns with a time of day matches, has that text, trimmed, for its
    location and [DAY] for its time of day. *)
Lemma hybrid_last_resort (p w loc : str) :
  In p prefixTokens ->
  w <> [] -> forallb isWhiteSpace w = true ->
  loc <> [] -> forallb dot loc = true ->
  match loc with [] => True | x :: _ => isWhiteSpace x = false end ->
  exec parse1 (p ++ w ++ loc) = None ->
  exec parse2 (p ++ w ++ loc) = None ->
  parseSceneHeading (p ++ w ++ loc)
  = mkHeading (toUpperCase (replaceFirst (js ".") [] p)) (trim loc) (js "DAY").
Proof.
  intros Hp Hne Hw Hl Hloc Hhd E1 E2.
  destruct w as [|c w]; [congruence|]. simpl in Hw.
  apply andb_true_iff in Hw. destruct Hw as [Hc Hw].
  unfold parseSceneHeading. rewrite E1, E2. cbn [app].
  rewrite (parse3_match p c w loc Hp Hc Hw Hl Hloc Hhd).
  unfold group. cbn [capture Nat.eqb].
  rewrite slice_prefix.
  replace (p ++ c :: w ++ loc) with ((p ++ c :: w) ++ loc)
    by (now rewrite <- app_assoc).
  replace (length p + S (length w)) with (length (p ++ c :: w))
    by (rewrite length_app; reflexivity).
  now rewrite slice_suffix.
Qed.

(** [INT. CAR] is such a heading. *)
Example hybrid_last_resort_car :
  parseSceneHeading (js "INT." ++ js " " ++ js "CAR")
  = mkHeading (js "INT") (js "CAR") (js "DAY").
Proof.
  apply (hybrid_last_resort (js "INT.") (js " ") (js "CAR"));
    try (vm_compute; reflexivity); try discriminate.
  vm_compute. tauto.
Qed.

End HeadingFacts.

(** C4.  The document parser breaks the last-resort rule.  Its
    [isSceneHeading] accepts the heading [INT. CAR] by the third pattern, but
    its [parseSceneHeading] knows the dash pattern only and returns the
    defaults: the location is [Unknown], not [CAR].  The hybrid parser and
    the PDF parser, on the same heading, return the location [CAR] and the
    time of day [DAY]. *)
Theorem document_heading_without_time :
  Document.isSceneHeading (JS.js "INT. CAR") = true
  /\ Regex.test (Pat.headingDash Pat.prefix4) (JS.js "INT. CAR") = false
  /\ Regex.test (Pat.headingDot Pat.prefix4) (JS.js "INT. CAR") = false
  /\ Document.parseSceneHeading (JS.js "INT. CAR")
     = Hybrid.mkHeading (JS.js "INT") (JS.js "Unknown") (JS.js "DAY")
  /\ Hybrid.parseSceneHeading (JS.js "INT. CAR")
     = Hybrid.mkHeading (JS.js "INT") (JS.js "CAR") (JS.js "DAY")
  /\ Pdf.parseSceneHeading (JS.js "INT. CAR")
     = Hybrid.mkHeading (JS.js "INT") (JS.js "CAR") (JS.js "DAY").
Proof. repeat split; vm_compute; reflexivity. Qed.

(** C6.  The document parser breaks the rule on consecutive name-shaped
    lines.  In the lines [INT. ROOM - DAY / JOHN / MARY / Hello.] the line
    after [JOHN] is character-shaped, and the document parser's
    [isCharacterName] still takes [JOHN] for a character cue: it only asks
    the next line to be non-blank and not a scene heading.  [analyzeScenes]
    records JOHN as an actor with nothing to say.  The hybrid parser and the
    PDF parser reject [JOHN] there. *)
Theorem document_cue_before_cue :
  Hybrid.looksLikeCharacterName (JS.js "MARY") = true
  /\ Document.isCharacterName (JS.js "JOHN")
       (map JS.js [ "INT. ROOM - DAY"; "JOHN"; "MARY"; "Hello." ]%string) 1 = true
  /\ Hybrid.isCharacterName (JS.js "JOHN")
       (map JS.js [ "INT. ROOM - DAY"; "JOHN"; "MARY"; "Hello." ]%string) 1 = false
  /\ Pdf.isCharacterName (JS.js "JOHN")
       (map JS.js [ "INT. ROOM - DAY"; "JOHN"; "MARY"; "Hello." ]%string) 1 = false
  /\ exists scene,
      Document.analyzeScenes
        [Document.mkTextPage 1
           (JS.join [JS.LF] (map JS.js [ "INT. ROOM - DAY"; "JOHN"; "MARY"; "Hello." ]%string))
           4]
      = Some [scene]
      /\ Document.actors scene = [JS.js "JOHN"; JS.js "MARY"]
      /\ Document.dialogue scene = [Hybrid.mkDialogue (JS.js "MARY") (JS.js "Hello.")].
Proof.
  repeat split; try (vm_compute; reflexivity).
  eexists. split; [vm_compute; reflexivity|]. split; reflexivity.
Qed.

(* ===================================================================== *)
(** * Canonical character names *)
(* ===================================================================== *)

Module NameFacts.
Import JS Regex ReplaceFacts NormalizeFacts.

(** ** Parentheticals *)

Lemma closeLen_bound (t : str) (k : nat) : closeLen t = Some k -> 1 <= k <= length t.
Proof.
  revert k. induction t as [|d t IH]; intros k; cbn [closeLen length]; [discriminate|].
  destruct (d =? ch ")")%N.
  - intros H; inversion H; subst. lia.
  - destruct (closeLen t) as [k'|]; [|discriminate]. cbn [option_map].
    intros H; inversion H; subst. specialize (IH k' eq_refl). lia.
Qed.

Lemma parensLen_bound (s : str) (n : nat) : parensLen s = Some n -> 1 <= n <= length s.
Proof.
  destruct s as [|c t]; cbn [parensLen length]; [discriminate|].
  destruct (c =? ch "(")%N; [|discriminate].
  destruct (closeLen t) as [k|] eqn:E; [|discriminate]. cbn [option_map].
  intros H; inversion H; subst. apply closeLen_bound in E. lia.
Qed.

Lemma parens_scan (s : str) : Scan parensLen [] s (replaceAll Pat.parens [] s).
Proof.
  apply replaceAll_scan.
  - intros. apply matchAt_parens.
  - apply parensLen_bound.
Qed.

Lemma closeLen_app (t tail : str) (k : nat) :
  closeLen t = Some k -> closeLen (t ++ tail) = Some k.
Proof.
  revert k. induction t as [|d t IH]; intros k; cbn [closeLen app]; [discriminate|].
  destruct (d =? ch ")")%N; [tauto|].
  destruct (closeLen t) as [k'|]; [|discriminate]. intros H. now rewrite (IH k' eq_refl).
Qed.

Lemma parensLen_app (s tail : str) (n : nat) :
  parensLen s = Some n -> parensLen (s ++ tail) = Some n.
Proof.
  destruct s as [|c t]; cbn [parensLen app]; [discriminate|].
  destruct (c =? ch "(")%N; [|discriminate].
  destruct (closeLen t) as [k|] eqn:E; [|discriminate].
  intros H. now rewrite (closeLen_app t tail k E).
Qed.

(** After a string whose parentheses are all closed, the scan goes on as if
    it started there. *)
Lemma parens_scan_app (cue out tail outT : str) :
  Scan parensLen [] cue out -> ~ In (ch "(") out -> Scan parensLen [] tail outT ->
  Scan parensLen [] (cue ++ tail) (out ++ outT).
Proof.
  intros H. induction H as [|c t out Hn H IH|s n out Hn H IH]; intros Hout Ht.
  - exact Ht.
  - cbn [app]. apply scan_copy.
    + cbn [parensLen app]. destruct (c =? ch "(")%N eqn:E; [|reflexivity].
      apply N.eqb_eq in E. subst c. exfalso. apply Hout. now left.
    + apply IH; [|exact Ht]. intros Hin. apply Hout. now right.
  - cbn [app] in *. pose proof (parensLen_bound s n Hn) as Hb.
    refine (@scan_match parensLen [] _ n (out ++ outT) _ _).
    + now apply parensLen_app.
    + rewrite skipn_app. replace (n - length s) with 0 by lia. simpl.
      now apply IH.
Qed.

Lemma closeLen_annotation (ann : str) :
  ~ In (ch ")") ann -> closeLen (ann ++ [ch ")"]) = Some (S (length ann)).
Proof.
  induction ann as [|d ann IH]; intros H; [reflexivity|]. cbn [closeLen app length].
  destruct (d =? ch ")")%N eqn:E.
  - apply N.eqb_eq in E. subst d. exfalso. apply H. now left.
  - rewrite IH; [reflexivity|]. intros Hin. apply H. now right.
Qed.

(** White space and a parenthetical annotation: the annotation goes, the
    white space stays. *)
Lemma parens_scan_annotation (sep ann : str) :
  forallb isWhiteSpace sep = true -> ~ In (ch ")") ann ->
  Scan parensLen [] (sep ++ [ch "("] ++ ann ++ [ch ")"]) sep.
Proof.
  intros Hsep Hann. induction sep as [|w sep IH].
  - cbn [app]. refine (@scan_match parensLen [] _ (S (S (length ann))) [] _ _).
    + cbn [parensLen]. rewrite N.eqb_refl. now rewrite closeLen_annotation.
    + rewrite skipn_all2; [constructor|]. cbn [length]. rewrite length_app. simpl. lia.
  - simpl in Hsep. apply andb_true_iff in Hsep. destruct Hsep as [Hw Hsep].
    cbn [app]. apply scan_copy; [|now apply IH].
    cbn [parensLen app]. destruct (w =? ch "(")%N eqn:E; [|reflexivity].
    apply N.eqb_eq in E. subst w. discriminate Hw.
Qed.

(** ** Runs of white space *)

Lemma wsLen_bound (s : str) (n : nat) : wsLen s = Some n -> 1 <= n <= length s.
Proof.
  unfold wsLen. assert (H : wsRun s <= length s).
  { induction s as [|c t IH]; simpl; [lia|]. destruct (isWhiteSpace c); simpl; lia. }
  destruct (wsRun s) as [|k]; [discriminate|]. intros E; inversion E; subst. lia.
Qed.

Lemma ws_scan (s : str) : Scan wsLen (js " ") s (replaceAll (plus Pat.ws) (js " ") s).
Proof.
  apply replaceAll_scan.
  - intros. apply matchAt_ws.
  - apply wsLen_bound.
Qed.

Lemma wsRun_all (w : str) : forallb isWhiteSpace w = true -> wsRun w = length w.
Proof.
  induction w as [|c w IH]; simpl; [reflexivity|]. intros H.
  apply andb_true_iff in H. destruct H as [-> H]. now rewrite IH.
Qed.

Lemma wsRun_app (s w : str) :
  forallb isWhiteSpace w = true ->
  wsRun (s ++ w) = if wsRun s =? length s then length s + length w else wsRun s.
Proof.
  intros Hw. induction s as [|c t IH]; simpl; [now apply wsRun_all|].
  destruct (isWhiteSpace c); [|reflexivity]. rewrite IH.
  change (S (wsRun t) =? S (length t)) with (wsRun t =? length t).
  now destruct (wsRun t =? length t).
Qed.

Lemma scan_nil_inv (m : str -> option nat) (by_ out : str) :
  (forall s n, m s = Some n -> 1 <= n <= length s) -> Scan m by_ [] out -> out = [].
Proof.
  intros Hb H. inversion H; subst; [reflexivity|].
  match goal with E : m [] = Some _ |- _ => apply Hb in E; simpl in E; lia end.
Qed.

(** White space appended to the subject adds at most white space to the
    result of [replace(/\s+/g, ' ')]. *)
Lemma ws_scan_app (x out w : str) :
  Scan wsLen (js " ") x out -> forallb isWhiteSpace w = true ->
  exists w', forallb isWhiteSpace w' = true /\ Scan wsLen (js " ") (x ++ w) (out ++ w').
Proof.
  intros H Hw. induction H as [|c t out Hn H IH|s n out Hn H IH].
  - destruct w as [|c w].
    + exists []. split; [reflexivity|constructor].
    + exists (js " "). split; [reflexivity|].
      refine (@scan_match wsLen (js " ") _ (length (c :: w)) [] _ _).
      * cbn [app]. unfold wsLen. rewrite (wsRun_all _ Hw). reflexivity.
      * cbn [app]. rewrite skipn_all. constructor.
  - destruct IH as (w' & Hw' & IH). exists w'. split; [exact Hw'|].
    simpl. apply scan_copy; [|exact IH].
    unfold wsLen in *. simpl in *. destruct (isWhiteSpace c); [discriminate Hn|reflexivity].
  - pose proof (wsLen_bound s n Hn) as Hb.
    assert (Hrun : wsRun s = n).
    { unfold wsLen in Hn. destruct (wsRun s); [discriminate|now inversion Hn]. }
    destruct (Nat.eq_dec n (length s)) as [Hall|Hlt].
    + exists []. split; [reflexivity|]. rewrite app_nil_r.
      assert (Eo : out = []).
      { rewrite Hall, skipn_all in H. eapply scan_nil_inv; [apply wsLen_bound|exact H]. }
      subst out.
      refine (@scan_match wsLen (js " ") _ (length s + length w) [] _ _).
      * unfold wsLen. rewrite (wsRun_app s w Hw), Hrun, Hall, Nat.eqb_refl.
        destruct (length s + length w) eqn:E; [lia|reflexivity].
      * rewrite skipn_all2; [constructor|]. rewrite length_app. lia.
    + destruct IH as (w' & Hw' & IH). exists w'. split; [exact Hw'|].
      rewrite <- app_assoc.
      refine (@scan_match wsLen (js " ") _ n (out ++ w') _ _).
      * unfold wsLen. rewrite (wsRun_app s w Hw), Hrun.
        destruct (n =? length s) eqn:E; [apply Nat.eqb_eq in E; lia|].
        destruct n; [lia|reflexivity].
      * rewrite skipn_app. replace (n - length s) with 0 by lia. exact IH.
Qed.

(** ** The literal step *)

Lemma startsWith_app_tail (s w pat : str) :
  startsWith (s ++ w) pat = true ->
  startsWith s pat = true \/ exists c, In c w /\ In c pat.
Proof.
  revert s. induction pat as [|p pat IH]; intros s H.
  - left. now destruct s.
  - destruct s as [|x s].
    + right. simpl in H. destruct w as [|c w]; [discriminate H|].
      apply andb_true_iff in H. destruct H as [E _]. apply N.eqb_eq in E. subst p.
      exists c. split; now left.
    + simpl in H |- *. apply andb_true_iff in H. destruct H as [E H].
      destruct (IH s H) as [Hs|(c & Hc & Hp)].
      * left. now rewrite E, Hs.
      * right. exists c. split; [exact Hc|now right].
Qed.

Lemma startsWith_app_keep (s w pat : str) :
  startsWith s pat = true -> startsWith (s ++ w) pat = true.
Proof.
  revert s. induction pat as [|p pat IH]; intros s H; [now destruct (s ++ w)|].
  destruct s as [|x s]; [discriminate H|]. simpl in H |- *.
  apply andb_true_iff in H. destruct H as [-> H]. now apply IH.
Qed.

(** Code units that are not in the pattern, appended to the subject, are
    appended to the result. *)
Lemma lit_scan_app (pat by_ x out w : str) :
  pat <> [] -> (forall c, In c w -> ~ In c pat) ->
  Scan (litLen pat) by_ x out -> Scan (litLen pat) by_ (x ++ w) (out ++ w).
Proof.
  intros Hne Hw H. induction H as [|c t out Hn H IH|s n out Hn H IH].
  - simpl. apply scan_same. intros n. unfold litLen.
    destruct (startsWith (skipn n w) pat) eqn:E; [|reflexivity].
    destruct (startsWith_app_tail [] (skipn n w) pat E) as [Hs|(c & Hc & Hp)].
    + destruct pat; [congruence|discriminate Hs].
    + exfalso. apply (Hw c); [now apply in_skipn with (n := n)|exact Hp].
  - simpl. apply scan_copy; [|exact IH]. unfold litLen in *.
    destruct (startsWith (c :: t ++ w) pat) eqn:E; [|reflexivity].
    destruct (startsWith_app_tail (c :: t) w pat E) as [Hs|(x & Hx & Hp)].
    + rewrite Hs in Hn. discriminate Hn.
    + exfalso. now apply (Hw x).
  - pose proof (litLen_bound pat Hne s n Hn) as Hb. rewrite <- app_assoc.
    refine (@scan_match (litLen pat) by_ _ n (out ++ w) _ _).
    + unfold litLen in *. destruct (startsWith s pat) eqn:E; [|discriminate Hn].
      now rewrite (startsWith_app_keep s w pat E).
    + rewrite skipn_app. replace (n - length s) with 0 by lia. exact IH.
Qed.

(** ** The canonical name *)

Definition apostrophe : str := [Pat.a_circ; Pat.euro; Pat.tm].

(** A trailing parenthetical annotation does not change the canonical
    name of a cue whose own parentheses are closed. *)
Lemma cleanCharacterName_annotation (cue sep ann : str) :
  ~ In (ch "(") (replaceAll Pat.parens [] cue) ->
  forallb isWhiteSpace sep = true -> ~ In (ch ")") ann ->
  Hybrid.cleanCharacterName (cue ++ sep ++ js "(" ++ ann ++ js ")")
  = Hybrid.cleanCharacterName cue.
Proof.
  intros Hcue Hsep Hann. unfold Hybrid.cleanCharacterName. cbv zeta.
  assert (E1 : replaceAll Pat.parens [] (cue ++ sep ++ js "(" ++ ann ++ js ")")
               = replaceAll Pat.parens [] cue ++ sep).
  { apply replaceAll_eq with (m := parensLen).
    - intros. apply matchAt_parens.
    - apply parensLen_bound.
    - apply parens_scan_app; [apply parens_scan|exact Hcue|].
      now apply parens_scan_annotation. }
  rewrite E1.
  destruct (ws_scan_app _ _ sep (ws_scan (replaceAll Pat.parens [] cue)) Hsep)
    as (w' & Hw' & Hscan).
  assert (E2 : replaceAll (plus Pat.ws) (js " ") (replaceAll Pat.parens [] cue ++ sep)
               = replaceAll (plus Pat.ws) (js " ") (replaceAll Pat.parens [] cue) ++ w').
  { apply replaceAll_eq with (m := wsLen); [|apply wsLen_bound|exact Hscan].
    intros. apply matchAt_ws. }
  rewrite E2.
  set (l2 := replaceAll (plus Pat.ws) (js " ") (replaceAll Pat.parens [] cue)).
  assert (E3 : replaceAll (litS apostrophe) (js "'") (l2 ++ w')
               = replaceAll (litS apostrophe) (js "'") l2 ++ w').
  { apply replaceAll_eq with (m := litLen apostrophe).
    - intros. apply matchAt_litS.
    - apply litLen_bound. discriminate.
    - apply lit_scan_app; [discriminate| |apply lit_scan; discriminate].
      intros c Hc Hin. rewrite forallb_forall in Hw'. specialize (Hw' c Hc).
      destruct Hin as [<-|[<-|[<-|[]]]]; discriminate Hw'. }
  unfold apostrophe in E3. rewrite E3. now apply trim_app_ws.
Qed.

(** ** Lines that look like a character name *)

Lemma rep_all_eos (p : char -> bool) pos prev t cs :
  rep true p 0 None pos prev t cs
      (fun pos' _ s' cs' => match s' with [] => Some (pos', cs') | _ :: _ => None end)
  = if forallb p t then Some (pos + length t, cs) else None.
Proof.
  revert pos prev. induction t as [|d t IH]; intros pos prev.
  - rewrite rep_star_nil. simpl. now rewrite Nat.add_0_r.
  - rewrite rep_star_cons, IH. simpl. destruct (p d); simpl; [|reflexivity].
    rewrite orElse_none. now rewrite Nat.add_succ_r.
Qed.

Lemma execFrom_bos (r : regex) pos prev s :
  execFrom (Cat Bos r) (S pos) prev s = None.
Proof.
  revert pos prev. induction s as [|c t IH]; intros pos prev; [reflexivity|].
  simpl. apply IH.
Qed.

Lemma characterPattern_shape (s : str) :
  test Hybrid.characterPattern s = true ->
  forall c, In c s -> Pat.upper c || Pat.nameChar c = true.
Proof.
  unfold test, exec, Hybrid.characterPattern.
  change (seq [Bos; Cls Pat.upper; star Pat.nameChar; Eos])
    with (Cat Bos (Cat (Cls Pat.upper) (Cat (star Pat.nameChar) Eos))).
  destruct s as [|x t]; [discriminate|].
  cbn [execFrom]. rewrite execFrom_bos. unfold matchAt. cbn [run]. unfold star.
  change (@run (nat * caps) (Rep true Pat.nameChar 0 None) 1 (Some x) t [])
    with (@rep (nat * caps) true Pat.nameChar 0 None 1 (Some x) t []).
  rewrite rep_all_eos. destruct (Pat.upper x) eqn:Ux; [|discriminate].
  destruct (forallb Pat.nameChar t) eqn:Ht; [|discriminate]. intros _ c [<-|Hc].
  - now rewrite Ux.
  - rewrite forallb_forall in Ht. rewrite (Ht c Hc). apply orb_true_r.
Qed.

Lemma in_dropWhile_keep (p : char -> bool) (s : str) (c : char) :
  In c s -> p c = false -> In c (dropWhile p s).
Proof.
  induction s as [|x s IH]; [tauto|]. simpl. intros [<-|H] Hc.
  - rewrite Hc. now left.
  - destruct (p x); [now apply IH|now right].
Qed.

Lemma in_trim_keep (s : str) (c : char) :
  In c s -> isWhiteSpace c = false -> In c (trim s).
Proof.
  intros H Hc. unfold trim, trimEnd, trimStart.
  apply -> in_rev. apply in_dropWhile_keep; [|exact Hc]. apply -> in_rev.
  now apply in_dropWhile_keep.
Qed.

(** Every opening parenthesis of a line that looks like a character name
    is closed. *)
Lemma cue_parens_closed (line : str) :
  Hybrid.looksLikeCharacterName line = true ->
  ~ In (ch "(") (replaceAll Pat.parens [] (trim line)).
Proof.
  unfold Hybrid.looksLikeCharacterName. cbv zeta.
  destruct (_ || _); [discriminate|].
  destruct (negb (truthy _) || _); [discriminate|].
  destruct (negb (test Hybrid.characterPattern _)) eqn:E; [discriminate|].
  intros _ Hin. apply negb_false_iff in E.
  apply in_trim_keep in Hin; [|reflexivity].
  pose proof (characterPattern_shape _ E _ Hin) as H. discriminate H.
Qed.

End NameFacts.

(* ===================================================================== *)
(** * Termination: the dialogue lookahead *)
(* ===================================================================== *)

Module Lookahead.
Import JS Regex.

(** ** A loop whose [break] depends on the index alone *)

Section Scan.
Variable A : Type.
Variable n : nat.
Variable body : nat -> A -> Loop.turn A.
Variable stops : nat -> bool.
Variable step : nat -> A -> A.
Hypothesis body_spec :
  forall j a, body j a = if stops j then Loop.Break a else Loop.Next (step j a).

(** With more fuel than indices left the loop ends at the first index from
    [j] on at which it stops, or at the end when there is none, and the
    state has been stepped through every index before it. *)
Lemma while_scan (fuel j : nat) (a : A) :
  n - j < fuel ->
  exists j',
    Loop.while fuel n body j a
    = Some (j', fold_left (fun x k => step k x) (List.seq j (j' - j)) a)
    /\ j <= j' /\ j' <= Nat.max j n
    /\ (j' < n -> stops j' = true)
    /\ (forall k, j <= k -> k < j' -> stops k = false).
Proof.
  revert j a. induction fuel as [|fuel IH]; intros j a Hf; [lia|].
  cbn [Loop.while]. destruct (n <=? j) eqn:Hn.
  - apply Nat.leb_le in Hn. exists j. rewrite Nat.sub_diag. cbn [List.seq fold_left].
    repeat split; try lia.
  - apply Nat.leb_gt in Hn. rewrite body_spec. destruct (stops j) eqn:Hs.
    + exists j. rewrite Nat.sub_diag. cbn [List.seq fold_left].
      repeat split; try lia. intros _. exact Hs.
    + destruct (IH (S j) (step j a)) as (j' & Hw & Hle & Hmax & Hstop & Hbefore); [lia|].
      exists j'. rewrite Hw. replace (j' - j) with (S (j' - S j)) by lia.
      cbn [List.seq fold_left]. repeat split; try lia; [exact Hstop|].
      intros k Hk1 Hk2. destruct (Nat.eq_dec k j) as [->|Hne]; [exact Hs|].
      apply Hbefore; lia.
Qed.

End Scan.

(** ** What a turn of the lookahead does with a line *)

(** The step over a line that does not end the loop: a blank line is
    passed over, a parenthetical goes to the lines of the scene, any other
    line to the dialogue as well. *)
Definition keep (paren : str -> bool) (nextLine : str) (a : list str * list str)
  : list str * list str :=
  if negb (truthy nextLine) then a
  else if paren nextLine then (fst a, snd a ++ [nextLine])
       else (fst a ++ [nextLine], snd a ++ [nextLine]).

Lemma fold_keep (paren : str -> bool) (ls : list str) (a : list str * list str) :
  fold_left (fun x l => keep paren l x) ls a
  = (fst a ++ filter (fun l => negb (paren l)) (filter truthy ls),
     snd a ++ filter truthy ls).
Proof.
  revert a. induction ls as [|l ls IH]; intros [dl sl].
  - cbn. now rewrite !app_nil_r.
  - cbn [fold_left filter]. rewrite IH. unfold keep.
    destruct (truthy l); cbn [negb fst snd].
    + cbn [filter]. destruct (paren l); cbn [negb fst snd].
      * now rewrite <- app_assoc.
      * now rewrite <- !app_assoc.
    + reflexivity.
Qed.

Lemma fold_left_mapped (A B C : Type) (f : C -> B -> C) (h : A -> B) (l : list A) (c : C) :
  fold_left (fun x a => f x (h a)) l c = fold_left f (map h l) c.
Proof. revert c. induction l as [|a l IH]; intros c; [reflexivity|]. cbn. apply IH. Qed.

Lemma fold_seq_map (A B : Type) (f : B -> A -> B) (g : nat -> B -> B) (d : A)
      (l : list A) (j m : nat) (b : B) :
  (forall k x, g k x = f x (nth k l d)) ->
  j + m <= length l ->
  fold_left (fun x k => g k x) (List.seq j m) b = fold_left f (firstn m (skipn j l)) b.
Proof.
  intros Hg. revert j b. induction m as [|m IH]; intros j b H; [reflexivity|].
  cbn [List.seq fold_left].
  assert (Hj : j < length l) by lia.
  destruct (skipn j l) as [|x t] eqn:E.
  - apply (f_equal (@length A)) in E. rewrite length_skipn in E. simpl in E. lia.
  - assert (Hx : nth j l d = x).
    { rewrite <- (firstn_skipn j l) at 1. rewrite app_nth2; rewrite length_firstn; [|lia].
      replace (j - Nat.min j (length l)) with 0 by lia. now rewrite E. }
    assert (Ht : skipn (S j) l = t).
    { change (S j) with (1 + j). rewrite <- skipn_skipn, E. reflexivity. }
    cbn [firstn fold_left]. rewrite Hg, Hx, IH by lia. now rewrite Ht.
Qed.

(** A line that starts with an opening parenthesis is not action-shaped:
    it does not start with a capital letter, and not all of it is capital
    letters, white space, apostrophes, dots and dashes. *)
Lemma anchored_head (p : char -> bool) (r : regex) (c : char) (t : str) :
  p c = false -> test (Cat Bos (Cat (Cls p) r)) (c :: t) = false.
Proof.
  intros Hp. unfold test, exec. cbn [execFrom]. rewrite NameFacts.execFrom_bos.
  unfold matchAt. cbn [run]. now rewrite Hp.
Qed.

Lemma anchored_plus (p : char -> bool) (r : regex) (c : char) (t : str) :
  p c = false -> test (Cat Bos (Cat (plus p) r)) (c :: t) = false.
Proof.
  intros Hp. unfold test, exec. cbn [execFrom]. rewrite NameFacts.execFrom_bos.
  unfold matchAt, plus. cbn [run rep]. now rewrite Hp.
Qed.

Lemma paren_head (l : str) :
  Hybrid.isParenthetical l = true -> exists t, l = ch "(" :: t.
Proof.
  unfold Hybrid.isParenthetical. intros H. apply andb_true_iff in H. destruct H as [H _].
  destruct l as [|c t]; [discriminate|]. change (js "(") with [ch "("] in H.
  cbn [startsWith] in H. apply andb_true_iff in H. destruct H as [H _].
  apply N.eqb_eq in H. subst c. now exists t.
Qed.

Lemma anchored_cls (p : char -> bool) (c : char) (t : str) :
  p c = false -> test (Cat Bos (Cls p)) (c :: t) = false.
Proof.
  intros Hp. unfold test, exec. cbn [execFrom]. rewrite NameFacts.execFrom_bos.
  unfold matchAt. cbn [run]. now rewrite Hp.
Qed.

Lemma blank_line (l : str) : truthy l = false -> l = [].
Proof. destruct l; [reflexivity|discriminate]. Qed.

(** ** The hybrid parser *)

(** Line [j] is a structural marker (a character cue, a scene heading, a
    transition, a page number or a page footer) or an action-shaped line. *)
Definition endsDialogue (allLines : list Hybrid.LineObj) (j : nat) : bool :=
  Hybrid.stopsDialogue allLines j (trim (Hybrid.textAt allLines j))
  || Hybrid.isLikelyActionLine (trim (Hybrid.textAt allLines j)).

(** The lines from [start] up to [j], trimmed, without the blank ones. *)
Definition between (allLines : list Hybrid.LineObj) (start j : nat) : list str :=
  filter truthy (map (fun lo => trim (Hybrid.text lo)) (slice allLines start j)).

Lemma hybrid_blank (allLines : list Hybrid.LineObj) (j : nat) :
  Hybrid.stopsDialogue allLines j [] = false /\ Hybrid.isLikelyActionLine [] = false.
Proof. split; vm_compute; reflexivity. Qed.

Lemma hybrid_paren_not_action (l : str) :
  trim l = l -> Hybrid.isParenthetical l = true -> Hybrid.isLikelyActionLine l = false.
Proof.
  intros Ht Hp. destruct (paren_head l Hp) as (t & ->).
  unfold Hybrid.isLikelyActionLine. cbv zeta. rewrite Ht.
  destruct (Hybrid.looksLikeCharacterName _); [reflexivity|].
  change (seq [Bos; plus Pat.nameChar; Eos]) with (Cat Bos (Cat (plus Pat.nameChar) Eos)).
  change (seq [Bos; Cls Pat.upper]) with (Cat Bos (Cls Pat.upper)).
  rewrite anchored_plus, anchored_cls by reflexivity. reflexivity.
Qed.

Lemma hybrid_collectTurn_spec (allLines : list Hybrid.LineObj) (j : nat)
      (a : list str * list str) :
  Hybrid.collectTurn allLines j a
  = if endsDialogue allLines j then Loop.Break a
    else Loop.Next (keep Hybrid.isParenthetical (trim (Hybrid.textAt allLines j)) a).
Proof.
  unfold Hybrid.collectTurn, endsDialogue, keep. destruct a as [dl sl]. cbv zeta.
  destruct (truthy (trim (Hybrid.textAt allLines j))) eqn:Ht; cbn [negb fst snd].
  - destruct (Hybrid.stopsDialogue allLines j _); cbn [orb]; [reflexivity|].
    destruct (Hybrid.isParenthetical _) eqn:Hp.
    + rewrite hybrid_paren_not_action; [reflexivity|apply NormalizeFacts.trim_idem|exact Hp].
    + destruct (Hybrid.isLikelyActionLine _); reflexivity.
  - rewrite (blank_line _ Ht).
    destruct (hybrid_blank allLines j) as [-> ->]. reflexivity.
Qed.

Lemma textAt_nth (allLines : list Hybrid.LineObj) (k : nat) :
  Hybrid.textAt allLines k = Hybrid.text (nth k allLines (Hybrid.mkLineObj [] 0)).
Proof.
  unfold Hybrid.textAt. revert k. induction allLines as [|x l IH]; intros [|k]; cbn; auto.
Qed.

(** The lookahead of the hybrid parser, run from [start]: where it ends and
    what it has collected. *)
Lemma hybrid_lookahead (allLines : list Hybrid.LineObj) (start surplus : nat)
      (sceneLines : list str) :
  exists j,
    Hybrid.collectDialogue (S (length allLines - start) + surplus) allLines start sceneLines
    = Some (j, (filter (fun l => negb (Hybrid.isParenthetical l)) (between allLines start j),
                sceneLines ++ between allLines start j))
    /\ start <= j /\ j <= Nat.max start (length allLines)
    /\ (j < length allLines ->
        truthy (trim (Hybrid.textAt allLines j)) = true /\ endsDialogue allLines j = true)
    /\ (forall k, start <= k -> k < j -> endsDialogue allLines k = false).
Proof.
  unfold Hybrid.collectDialogue.
  destruct (while_scan (list str * list str) (length allLines) (Hybrid.collectTurn allLines)
              (endsDialogue allLines)
              (fun k => keep Hybrid.isParenthetical (trim (Hybrid.textAt allLines k)))
              (hybrid_collectTurn_spec allLines)
              (S (length allLines - start) + surplus) start ([], sceneLines))
    as (j & Hw & H1 & H2 & H3 & H4); [lia|].
  exists j. rewrite Hw. split; [|split; [exact H1|split; [exact H2|split; [|exact H4]]]].
  2:{ intros Hj. specialize (H3 Hj). split; [|exact H3].
      destruct (truthy (trim (Hybrid.textAt allLines j))) eqn:Ht; [reflexivity|].
      unfold endsDialogue in H3. rewrite (blank_line _ Ht) in H3.
      destruct (hybrid_blank allLines j) as [E1 E2]. rewrite E1, E2 in H3. discriminate H3. }
  f_equal. f_equal. unfold between, slice.
  destruct (Nat.eq_dec j start) as [->|Hne].
  - rewrite Nat.sub_diag. cbn. now rewrite app_nil_r.
  - rewrite (fold_seq_map Hybrid.LineObj (list str * list str)
               (fun x lo => keep Hybrid.isParenthetical (trim (Hybrid.text lo)) x)
               (fun k => keep Hybrid.isParenthetical (trim (Hybrid.textAt allLines k)))
               (Hybrid.mkLineObj [] 0) allLines start (j - start) ([], sceneLines));
      [|intros k x; now rewrite textAt_nth|lia].
    rewrite (fold_left_mapped Hybrid.LineObj str (list str * list str)
               (fun x l => keep Hybrid.isParenthetical l x)
               (fun lo => trim (Hybrid.text lo))).
    rewrite fold_keep. reflexivity.
Qed.

(** ** The PDF parser *)

Definition pdfEndsDialogue (lines : list str) (j : nat) : bool :=
  Pdf.stopsDialogue lines j (trim (nth j lines []))
  || Pdf.isLikelyActionLine (trim (nth j lines [])).

Definition pdfBetween (lines : list str) (start j : nat) : list str :=
  filter truthy (map trim (slice lines start j)).

Lemma pdf_blank (lines : list str) (j : nat) :
  Pdf.stopsDialogue lines j [] = false /\ Pdf.isLikelyActionLine [] = false.
Proof. split; vm_compute; reflexivity. Qed.

Lemma pdf_paren_not_action (l : str) :
  Pdf.isParenthetical l = true -> Pdf.isLikelyActionLine l = false.
Proof.
  intros Hp. destruct (paren_head l Hp) as (t & ->).
  unfold Pdf.isLikelyActionLine. cbv zeta.
  change (seq [Bos; plus (orC Pat.upper Pat.ws); Eos])
    with (Cat Bos (Cat (plus (orC Pat.upper Pat.ws)) Eos)).
  change (seq [Bos; Cls Pat.upper]) with (Cat Bos (Cls Pat.upper)).
  rewrite anchored_plus, anchored_cls by reflexivity. reflexivity.
Qed.

Lemma pdf_collectTurn_spec (lines : list str) (j : nat) (a : list str * list str) :
  Pdf.collectTurn lines j a
  = if pdfEndsDialogue lines j then Loop.Break a
    else Loop.Next (keep Pdf.isParenthetical (trim (nth j lines [])) a).
Proof.
  unfold Pdf.collectTurn, pdfEndsDialogue, keep. destruct a as [dl sl]. cbv zeta.
  destruct (truthy (trim (nth j lines []))) eqn:Ht; cbn [negb fst snd].
  - destruct (Pdf.stopsDialogue lines j _); cbn [orb]; [reflexivity|].
    destruct (Pdf.isParenthetical _) eqn:Hp.
    + rewrite pdf_paren_not_action; [reflexivity|exact Hp].
    + destruct (Pdf.isLikelyActionLine _); reflexivity.
  - rewrite (blank_line _ Ht).
    destruct (pdf_blank lines j) as [-> ->]. reflexivity.
Qed.

Lemma pdf_lookahead (lines : list str) (start surplus : nat) (sceneLines : list str) :
  exists j,
    Pdf.collectDialogue (S (length lines - start) + surplus) lines start sceneLines
    = Some (j, (filter (fun l => negb (Pdf.isParenthetical l)) (pdfBetween lines start j),
                sceneLines ++ pdfBetween lines start j))
    /\ start <= j /\ j <= Nat.max start (length lines)
    /\ (j < length lines ->
        truthy (trim (nth j lines [])) = true /\ pdfEndsDialogue lines j = true)
    /\ (forall k, start <= k -> k < j -> pdfEndsDialogue lines k = false).
Proof.
  unfold Pdf.collectDialogue.
  destruct (while_scan (list str * list str) (length lines) (Pdf.collectTurn lines)
              (pdfEndsDialogue lines)
              (fun k => keep Pdf.isParenthetical (trim (nth k lines [])))
              (pdf_collectTurn_spec lines)
              (S (length lines - start) + surplus) start ([], sceneLines))
    as (j & Hw & H1 & H2 & H3 & H4); [lia|].
  exists j. rewrite Hw. split; [|split; [exact H1|split; [exact H2|split; [|exact H4]]]].
  2:{ intros Hj. specialize (H3 Hj). split; [|exact H3].
      destruct (truthy (trim (nth j lines []))) eqn:Ht; [reflexivity|].
      unfold pdfEndsDialogue in H3. rewrite (blank_line _ Ht) in H3.
      destruct (pdf_blank lines j) as [E1 E2]. rewrite E1, E2 in H3. discriminate H3. }
  f_equal. f_equal. unfold pdfBetween, slice.
  destruct (Nat.eq_dec j start) as [->|Hne].
  - rewrite Nat.sub_diag. cbn. now rewrite app_nil_r.
  - rewrite (fold_seq_map str (list str * list str)
               (fun x l => keep Pdf.isParenthetical (trim l) x)
               (fun k => keep Pdf.isParenthetical (trim (nth k lines [])))
               [] lines start (j - start) ([], sceneLines));
      [|reflexivity|lia].
    rewrite (fold_left_mapped str str (list str * list str)
               (fun x l => keep Pdf.isParenthetical l x) trim).
    rewrite fold_keep. reflexivity.
Qed.

End Lookahead.

(** C9.  The loop that collects the dialogue after a character cue ends for
    every finite line stream, in the hybrid parser and in the PDF parser
    alike: given one unit of fuel per remaining line (and any surplus), it
    returns.  The index [j] it returns is the next structural marker or
    action-shaped line: [j] is not before the start, at [j] the stream ends
    or the line is not blank and is a character cue, a scene heading, a
    transition, a page number, a page footer or action-shaped, and no line
    from the start up to [j] is one of these.  What it has collected are the lines in between,
    trimmed and without the blank ones: all of them for the lines of the
    scene, those that are no parentheticals for the dialogue.  Every turn of
    the scene loop leaves the line index where it was or further before the
    increment, so the parse is one forward pass, and [parseScenes] returns
    for every input. *)
Theorem dialogue_lookahead_terminates :
  (forall (allLines : list Hybrid.LineObj) (start surplus : nat) (sceneLines : list JS.str),
      exists j,
        Hybrid.collectDialogue (S (length allLines - start) + surplus) allLines start sceneLines
          = Some (j, (filter (fun l => negb (Hybrid.isParenthetical l))
                             (Lookahead.between allLines start j),
                      sceneLines ++ Lookahead.between allLines start j))
        /\ start <= j /\ j <= Nat.max start (length allLines)
        /\ (j < length allLines ->
            JS.truthy (JS.trim (Hybrid.textAt allLines j)) = true
            /\ Hybrid.stopsDialogue allLines j (JS.trim (Hybrid.textAt allLines j))
               || Hybrid.isLikelyActionLine (JS.trim (Hybrid.textAt allLines j)) = true)
        /\ (forall k, start <= k -> k < j ->
              Hybrid.stopsDialogue allLines k (JS.trim (Hybrid.textAt allLines k))
              || Hybrid.isLikelyActionLine (JS.trim (Hybrid.textAt allLines k)) = false))
  /\ (forall (allLines : list Hybrid.LineObj) (surplus i : nat) (st : Hybrid.PState),
         exists st' i',
           Hybrid.parseTurn (S (length allLines) + surplus) allLines i st = Some (st', i')
           /\ i <= i')
  /\ (forall pages, exists scenes, Hybrid.parseScenes pages = Some scenes)
  /\ (forall (lines : list JS.str) (start surplus : nat) (sceneLines : list JS.str),
         exists j,
           Pdf.collectDialogue (S (length lines - start) + surplus) lines start sceneLines
             = Some (j, (filter (fun l => negb (Pdf.isParenthetical l))
                                (Lookahead.pdfBetween lines start j),
                         sceneLines ++ Lookahead.pdfBetween lines start j))
           /\ start <= j /\ j <= Nat.max start (length lines)
           /\ (j < length lines ->
               JS.truthy (JS.trim (nth j lines [])) = true
               /\ Pdf.stopsDialogue lines j (JS.trim (nth j lines []))
                  || Pdf.isLikelyActionLine (JS.trim (nth j lines [])) = true)
           /\ (forall k, start <= k -> k < j ->
                 Pdf.stopsDialogue lines k (JS.trim (nth k lines []))
                 || Pdf.isLikelyActionLine (JS.trim (nth k lines [])) = false))
  /\ (forall (lines : list JS.str) (totalPages lpp surplus i : nat) (st : Pdf.PState),
         exists st' i',
           Pdf.parseTurn (S (length lines) + surplus) lines totalPages lpp i st = Some (st', i')
           /\ i <= i')
  /\ (forall lines totalPages, exists scenes, Pdf.parseScenes lines totalPages = Some scenes).
Proof.
  split; [|split; [|split; [|split; [|split]]]].
  - exact Lookahead.hybrid_lookahead.
  - intros. apply HybridLoop.parseTurn_forward. lia.
  - apply HybridLoop.parseScenes_total.
  - exact Lookahead.pdf_lookahead.
  - intros. apply PdfLoop.pdf_parseTurn_forward. lia.
  - apply PdfLoop.pdf_parseScenes_total.
Qed.

(** A cue with a parenthetical and two lines of dialogue before a
    transition, a second cue after it: the lookahead started after the
    first cue ends at the transition, with the two lines for the dialogue
    and the parenthetical among the lines of the scene; started after the
    second cue it runs to the end of the stream. *)
Example lookahead_scenario :
  Hybrid.collectDialogue 9
    (map (fun l => Hybrid.mkLineObj (JS.js l) 1)
         [ "INT. CAR - DAY"; "JOHN"; "(quietly)"; "Hello"; "there."; "CUT TO:";
           "MARY"; "Hi." ]%string)
    2 []
  = Some (5, ([JS.js "Hello"; JS.js "there."],
              [JS.js "(quietly)"; JS.js "Hello"; JS.js "there."]))
  /\ Hybrid.collectDialogue 9
       (map (fun l => Hybrid.mkLineObj (JS.js l) 1)
            [ "INT. CAR - DAY"; "JOHN"; "(quietly)"; "Hello"; "there."; "CUT TO:";
              "MARY"; "Hi." ]%string)
       7 []
     = Some (8, ([JS.js "Hi."], [JS.js "Hi."])).
Proof. split; vm_compute; reflexivity. Qed.

(* ===================================================================== *)
(** * One roster entry for each name *)
(* ===================================================================== *)

Module CastFacts.
Import JS Hybrid RosterFacts.

Lemma scenes_fold_names (scenes : list Scene) (i : nat) (m : list CharAcc) :
  NoDup (names m) -> (forall s, In s scenes -> speakersAct s) ->
  let m' := snd (fold_left
                   (fun (acc : nat * list CharAcc) scene =>
                      let '(sceneIndex, m) := acc in
                      let m1 := fold_left (addActor sceneIndex) (actors scene) m in
                      let m2 := fold_left addDialogue (dialogue scene) m1 in
                      (S sceneIndex, m2))
                   scenes (i, m)) in
  (forall x, In x (names m) -> In x (names m'))
  /\ (forall s x, In s scenes -> In x (actors s) -> In x (names m')).
Proof.
  revert i m. induction scenes as [|scene scenes IH]; intros i m Hnd Hact; simpl.
  - split; [auto|intros s x []].
  - destruct (actors_fold (fun _ => true) i (actors scene) m Hnd) as (A1 & _ & A3).
    destruct (dialogue_fold (fun _ => true) (dialogue scene) _ A1) as [D1 _].
    { intros d Hd. apply A3. left. apply (Hact scene); [now left|exact Hd]. }
    destruct (IH (S i) (fold_left addDialogue (dialogue scene)
                                  (fold_left (addActor i) (actors scene) m)))
      as [I1 I2].
    + now rewrite D1.
    + intros s Hs. apply Hact. now right.
    + simpl in I1, I2. split.
      * intros x Hx. apply I1. rewrite D1. apply A3. now right.
      * intros s x [<-|Hs] Hx; [|now apply (I2 s)].
        apply I1. rewrite D1. apply A3. now left.
Qed.

(** Every actor of every scene has an entry in the roster. *)
Lemma roster_has_actor (scenes : list Scene) (scene : Scene) (n : str) :
  (forall s, In s scenes -> speakersAct s) ->
  In scene scenes -> In n (actors scene) ->
  exists c, In c (extractCharacters scenes) /\ name c = n.
Proof.
  intros Hact Hs Hn.
  destruct (scenes_fold_names scenes 0 [] (NoDup_nil _) Hact) as [_ H].
  specialize (H scene n Hs Hn). change (In n (names (foldScenes scenes))) in H.
  rewrite <- roster_names in H. apply in_map_iff in H.
  destruct H as (c & E & Hc). eauto.
Qed.

(** In a roster without two entries of one name, the sum of [lines] over
    the entries of a name is the [lines] of its entry. *)
Lemma rosterLines_unique (roster : list Character) (c : Character) :
  NoDup (map name roster) -> In c roster ->
  rosterLines (str_eqb (name c)) roster = lines c.
Proof.
  induction roster as [|x rest IH]; intros Hnd Hin; [destruct Hin|].
  simpl in Hnd. inversion Hnd as [|? ? Hx Hrest]; subst.
  change (rosterLines (str_eqb (name c)) (x :: rest))
    with ((if str_eqb (name c) (name x) then lines x else 0)
          + rosterLines (str_eqb (name c)) rest).
  destruct Hin as [->|Hin].
  - rewrite str_eqb_refl.
    assert (E : rosterLines (str_eqb (name c)) rest = 0).
    { clear IH Hnd Hrest. induction rest as [|y rest IH]; [reflexivity|].
      change (rosterLines (str_eqb (name c)) (y :: rest))
        with ((if str_eqb (name c) (name y) then lines y else 0)
              + rosterLines (str_eqb (name c)) rest).
      destruct (str_eqb (name c) (name y)) eqn:E.
      - apply str_eqb_eq in E. exfalso. apply Hx. left. now symmetry.
      - apply IH. intros H. apply Hx. now right. }
    rewrite E. lia.
  - destruct (str_eqb (name c) (name x)) eqn:E.
    + apply str_eqb_eq in E. exfalso. apply Hx. rewrite <- E. now apply in_map.
    + now apply IH.
Qed.

(** The turn of the scene loop on a character cue: the canonical name of
    the cue is what goes into [actors] and what the dialogue entry, if
    there is one, is attributed to. *)
Lemma cue_turn (fuel : nat) (allLines : list LineObj) (i i' : nat) (st st' : PState)
      (lo : LineObj) (scene : Scene) :
  nth_error allLines i = Some lo ->
  isPageNumber (text lo) || isPageFooter (text lo) = false ->
  isSceneHeading (text lo) = false ->
  currentScene st = Some scene ->
  isCharacterName (text lo) (map text allLines) i = true ->
  parseTurn fuel allLines i st = Some (st', i') ->
  exists scene',
    currentScene st' = Some scene'
    /\ actors scene' = pushNew (actors scene) (cleanCharacterName (text lo))
    /\ (dialogue scene' = dialogue scene
        \/ exists t,
            dialogue scene'
            = dialogue scene ++ [mkDialogue (cleanCharacterName (text lo)) t]).
Proof.
  intros Hi Hp Hh Hs Hc. unfold parseTurn. rewrite Hi. cbv zeta. rewrite Hp, Hh, Hs, Hc.
  destruct (collectDialogue _ _ _ _) as [[j [dl sl]]|]; [|discriminate].
  intros H. inversion H; subst; clear H. eexists. split; [reflexivity|].
  destruct (0 <? length dl); simpl; split; try reflexivity; [right; eauto|now left].
Qed.

(** ["JJ' DAD"], twice, the second time off screen. *)
Definition twoCues : str :=
  js "INT. CAR - DAY" ++ [LF] ++ js "JJ' DAD" ++ [LF] ++ js "Hello." ++ [LF]
  ++ js "JJ' DAD (O.S.)" ++ [LF] ++ js "Bye.".

End CastFacts.

(** C5.  Two character cues that differ only in a trailing parenthetical
    annotation have the same canonical name, and the roster has exactly one
    character for each name, whose [lines] is the number of dialogue blocks
    of that name.  In full: (1) for a cue whose own parentheses are all
    closed, white space [sep] and an annotation [ann] without a closing
    parenthesis, [cleanCharacterName] of [cue sep (ann)] is
    [cleanCharacterName] of [cue]; (2) every line that looks like a
    character name has, trimmed, all its parentheses closed, so (1) applies
    to it; (3) the turn of the scene loop on a character cue records the
    canonical name of the cue in [actors], once, and attributes the dialogue
    entry to it; (4) for every list of pages [parseScenes] returns scenes,
    and in the roster that [extractCharacters] builds from them no two
    characters have the same name, every actor of every scene has a
    character, and the [lines] of each character is the number of dialogue
    blocks of all scenes that carry its name; (5) the script with the cues
    [JJ' DAD] and [JJ' DAD (O.S.)] yields the one character [JJ' DAD] with
    two lines. *)
Theorem cue_variants_one_character :
  (forall cue sep ann : JS.str,
      ~ In (JS.ch "(") (Regex.replaceAll Pat.parens [] cue) ->
      forallb JS.isWhiteSpace sep = true ->
      ~ In (JS.ch ")") ann ->
      Hybrid.cleanCharacterName (cue ++ sep ++ JS.js "(" ++ ann ++ JS.js ")")
      = Hybrid.cleanCharacterName cue)
  /\ (forall line : JS.str,
         Hybrid.looksLikeCharacterName line = true ->
         ~ In (JS.ch "(") (Regex.replaceAll Pat.parens [] (JS.trim line)))
  /\ (forall fuel allLines i i' st st' lo scene,
         nth_error allLines i = Some lo ->
         Hybrid.isPageNumber (Hybrid.text lo) || Hybrid.isPageFooter (Hybrid.text lo) = false ->
         Hybrid.isSceneHeading (Hybrid.text lo) = false ->
         Hybrid.currentScene st = Some scene ->
         Hybrid.isCharacterName (Hybrid.text lo) (map Hybrid.text allLines) i = true ->
         Hybrid.parseTurn fuel allLines i st = Some (st', i') ->
         exists scene',
           Hybrid.currentScene st' = Some scene'
           /\ Hybrid.actors scene'
              = Hybrid.pushNew (Hybrid.actors scene)
                               (Hybrid.cleanCharacterName (Hybrid.text lo))
           /\ (Hybrid.dialogue scene' = Hybrid.dialogue scene
               \/ exists t,
                   Hybrid.dialogue scene'
                   = Hybrid.dialogue scene
                     ++ [Hybrid.mkDialogue (Hybrid.cleanCharacterName (Hybrid.text lo)) t]))
  /\ (forall pages : list Hybrid.Page,
         exists scenes,
           Hybrid.parseScenes pages = Some scenes
           /\ NoDup (map Hybrid.name (Hybrid.extractCharacters scenes))
           /\ (forall scene n, In scene scenes -> In n (Hybrid.actors scene) ->
                 exists c, In c (Hybrid.extractCharacters scenes) /\ Hybrid.name c = n)
           /\ (forall c, In c (Hybrid.extractCharacters scenes) ->
                 Hybrid.lines c
                 = RosterFacts.blocksOf (JS.str_eqb (Hybrid.name c)) scenes))
  /\ option_map (fun r => map (fun c => (Hybrid.name c, Hybrid.lines c))
                              (Hybrid.r_characters (snd r)))
                (Hybrid.parseText CastFacts.twoCues 1)
     = Some [(JS.js "JJ' DAD", 2)].
Proof.
  split; [exact NameFacts.cleanCharacterName_annotation|].
  split; [exact NameFacts.cue_parens_closed|].
  split; [exact CastFacts.cue_turn|].
  split; [|vm_compute; reflexivity].
  intros pages. destruct (HybridLoop.parseScenes_total pages) as [scenes E].
  exists scenes. split; [exact E|].
  pose proof (RosterFacts.parseScenes_acts pages scenes E) as Hact.
  assert (Hnd : NoDup (map Hybrid.name (Hybrid.extractCharacters scenes))).
  { rewrite RosterFacts.roster_names.
    exact (proj1 (RosterFacts.foldScenes_spec (fun _ => true) scenes Hact)). }
  split; [exact Hnd|]. split.
  - intros scene n Hs Hn. now apply (CastFacts.roster_has_actor scenes scene n).
  - intros c Hc.
    rewrite <- (CastFacts.rosterLines_unique _ c Hnd Hc).
    rewrite RosterFacts.rosterLines_extract.
    exact (proj2 (RosterFacts.foldScenes_spec (JS.str_eqb (Hybrid.name c)) scenes Hact)).
Qed.

Lemma cue_variants_witness :
  Hybrid.cleanCharacterName (JS.js "JJ' DAD" ++ JS.js " " ++ JS.js "(" ++ JS.js "O.S." ++ JS.js ")")
  = Hybrid.cleanCharacterName (JS.js "JJ' DAD").
Proof.
  apply (proj1 cue_variants_one_character).
  - vm_compute. intros H. repeat destruct H as [H|H]; try discriminate H; exact H.
  - reflexivity.
  - vm_compute. intros H. repeat destruct H as [H|H]; try discriminate H; exact H.
Defined.

(* ===================================================================== *)
(** * Loops and the index they are at *)
(* ===================================================================== *)

Module LoopIndex.

Section While.
Variable A : Type.
Variable n : nat.
Variable body : nat -> A -> Loop.turn A.

Lemma while_ge (fuel j j' : nat) (a a' : A) :
  Loop.while fuel n body j a = Some (j', a') -> j <= j'.
Proof.
  revert j a. induction fuel as [|f IH]; intros j a Hw; [discriminate|].
  simpl in Hw. destruct (n <=? j).
  - inversion Hw; subst. lia.
  - destruct (body j a) as [y|y].
    + inversion Hw; subst. lia.
    + apply IH in Hw. lia.
Qed.

(** Every index the loop went past was left by a [continue]. *)
Lemma while_passed (Q : nat -> Prop) (fuel j j' : nat) (a a' : A) :
  (forall k x y, k < n -> body k x = Loop.Next y -> Q k) ->
  Loop.while fuel n body j a = Some (j', a') ->
  forall k, j <= k < j' -> Q k.
Proof.
  intros HQ. revert j a. induction fuel as [|f IH]; intros j a Hw k Hk; [discriminate|].
  simpl in Hw. destruct (n <=? j) eqn:E.
  - inversion Hw; subst. lia.
  - apply Nat.leb_gt in E. destruct (body j a) as [y|y] eqn:Hb.
    + inversion Hw; subst. lia.
    + destruct (Nat.eq_dec k j) as [->|Hne]; [eapply HQ; eauto|].
      apply (IH (S j) y Hw). lia.
Qed.

End While.

Section For.
Variable A : Type.
Variable n : nat.
Variable body : nat -> A -> option (A * nat).

(** An invariant that depends on the index holds, when the loop is left,
    at an index past the end. *)
Lemma for_invariant (P : nat -> A -> Prop) (fuel i : nat) (a a' : A) :
  (forall j x y j', j < n -> P j x -> body j x = Some (y, j') -> P (S j') y) ->
  P i a -> Loop.for_ fuel n body i a = Some a' -> exists i', n <= i' /\ P i' a'.
Proof.
  intros Hstep. revert i a. induction fuel as [|f IH]; intros i a Hp Hw; [discriminate|].
  simpl in Hw. destruct (n <=? i) eqn:E.
  - apply Nat.leb_le in E. inversion Hw; subst. eauto.
  - apply Nat.leb_gt in E. destruct (body i a) as [[y j']|] eqn:Hb; [|discriminate].
    apply (IH (S j') y); [|exact Hw]. now apply (Hstep i a).
Qed.

End For.

Lemma firstn_succ (A : Type) (l : list A) (j : nat) :
  firstn (S j) l
  = firstn j l ++ match nth_error l j with Some x => [x] | None => [] end.
Proof.
  revert j. induction l as [|x l IH]; intros j.
  - now destruct j.
  - destruct j as [|j]; [reflexivity|].
    change (firstn (S (S j)) (x :: l)) with (x :: firstn (S j) l).
    rewrite IH. reflexivity.
Qed.

(** Elements that the filter drops can be left out of the prefix. *)
Lemma filter_firstn_skip (A : Type) (f : A -> bool) (l : list A) (i j : nat) :
  i <= j ->
  (forall k x, i <= k < j -> nth_error l k = Some x -> f x = false) ->
  filter f (firstn j l) = filter f (firstn i l).
Proof.
  intros Hij. induction Hij as [|j Hij IH]; intros H; [reflexivity|].
  rewrite firstn_succ, filter_app, IH.
  - destruct (nth_error l j) as [x|] eqn:E; [|apply app_nil_r].
    simpl. rewrite (H j x); [apply app_nil_r|lia|exact E].
  - intros k x Hk. apply H. lia.
Qed.

End LoopIndex.

(* ===================================================================== *)
(** * The scenes of the hybrid parser *)
(* ===================================================================== *)

Module HybridScenes.
Import JS Hybrid.

(** A line of the stream that opens a scene: it is no page marker and it is
    a scene heading. *)
Definition opens (lo : LineObj) : bool :=
  negb (isPageNumber (text lo) || isPageFooter (text lo)) && isSceneHeading (text lo).

Definition headOf (s : Scene) : str * nat := (heading s, s_pageNumber s).
Definition lineOf (lo : LineObj) : str * nat := (text lo, lo_pageNumber lo).

(** The headings of the scenes pushed and of the open scene, in order. *)
Definition headsOf (st : PState) : list (str * nat) :=
  map headOf (scenes st)
  ++ match currentScene st with Some s => [headOf s] | None => [] end.

Definition trimmedStream (allLines : list LineObj) : Prop :=
  forall lo, In lo allLines -> trim (text lo) = text lo.

Lemma flatten_trimmed (pages : list Page) : trimmedStream (flatten pages).
Proof.
  intros lo H. unfold flatten in H. apply in_flat_map in H.
  destruct H as (page & _ & H). apply in_map_iff in H.
  destruct H as (l & <- & H). simpl. apply filter_In in H. destruct H as [H _].
  apply in_map_iff in H. destruct H as (piece & <- & _).
  apply NormalizeFacts.trim_idem.
Qed.

Lemma headsOf_pushSealed (st : PState) : map headOf (pushSealed st) = headsOf st.
Proof.
  unfold pushSealed, headsOf. destruct (currentScene st) as [s|].
  - rewrite map_app. reflexivity.
  - now rewrite app_nil_r.
Qed.

(** The dialogue loop goes past no scene heading. *)
Lemma collect_passed (allLines : list LineObj) :
  trimmedStream allLines ->
  forall k x y, k < length allLines -> collectTurn allLines k x = Loop.Next y ->
  forall lo, nth_error allLines k = Some lo -> isSceneHeading (text lo) = false.
Proof.
  intros Htrim k [dl sl] y _ Hturn lo Hk. unfold collectTurn, textAt in Hturn.
  rewrite Hk in Hturn. rewrite (Htrim lo (nth_error_In _ _ Hk)) in Hturn.
  destruct (text lo) as [|c t] eqn:Et; [reflexivity|]. cbn [truthy negb] in Hturn.
  destruct (stopsDialogue allLines k (c :: t)) eqn:Es; [discriminate Hturn|].
  unfold stopsDialogue in Es.
  repeat (apply orb_false_iff in Es; destruct Es as [Es ?]). assumption.
Qed.

Lemma turn_heads (fuel : nat) (allLines : list LineObj) (i i' : nat) (st st' : PState) :
  trimmedStream allLines ->
  headsOf st = map lineOf (filter opens (firstn i allLines)) ->
  parseTurn fuel allLines i st = Some (st', i') ->
  headsOf st' = map lineOf (filter opens (firstn (S i') allLines)).
Proof.
  intros Htrim Hinv. unfold parseTurn.
  destruct (nth_error allLines i) as [lo|] eqn:Hi.
  2:{ intros H; inversion H; subst. rewrite LoopIndex.firstn_succ, Hi, app_nil_r.
      exact Hinv. }
  assert (Hsame : opens lo = false ->
                  map lineOf (filter opens (firstn (S i) allLines))
                  = map lineOf (filter opens (firstn i allLines))).
  { intros Ho. rewrite LoopIndex.firstn_succ, Hi, filter_app. simpl. rewrite Ho.
    now rewrite app_nil_r. }
  destruct (isPageNumber (text lo) || isPageFooter (text lo)) eqn:Hm.
  { intros H; inversion H; subst.
    rewrite Hsame; [exact Hinv|unfold opens; now rewrite Hm]. }
  destruct (isSceneHeading (text lo)) eqn:Hh.
  { intros H; inversion H; subst; clear H.
    rewrite LoopIndex.firstn_succ, Hi, filter_app, map_app. simpl.
    unfold opens at 2. rewrite Hm, Hh. simpl.
    rewrite <- Hinv. unfold headsOf at 1. simpl. now rewrite headsOf_pushSealed. }
  destruct (currentScene st) as [scene|] eqn:Hcur.
  2:{ intros H; inversion H; subst.
      rewrite Hsame; [exact Hinv|unfold opens; rewrite Hh; apply andb_false_r]. }
  destruct (isCharacterName _ _ _).
  - destruct (collectDialogue _ _ _ _) as [[j [dl sl2]]|] eqn:Hc; [|discriminate].
    intros H; inversion H; subst; clear H.
    unfold collectDialogue in Hc.
    pose proof (LoopIndex.while_ge _ _ _ _ _ _ _ _ Hc) as Hge.
    replace (S (j - 1)) with j by lia.
    rewrite (LoopIndex.filter_firstn_skip _ opens allLines i j); [|lia|].
    + rewrite <- Hinv. unfold headsOf. simpl. rewrite Hcur.
      destruct (0 <? length dl); reflexivity.
    + intros k x Hk Hx. unfold opens.
      destruct (Nat.eq_dec k i) as [->|Hne].
      * rewrite Hi in Hx. inversion Hx; subst. rewrite Hh. apply andb_false_r.
      * assert (Hkn : k < length allLines) by (apply nth_error_Some; congruence).
        rewrite (LoopIndex.while_passed _ _ _
                   (fun k => forall lo, nth_error allLines k = Some lo ->
                                        isSceneHeading (text lo) = false)
                   _ _ _ _ _ (collect_passed allLines Htrim) Hc k);
          [apply andb_false_r|lia|exact Hx].
  - intros H; inversion H; subst; clear H.
    rewrite Hsame; [|unfold opens; rewrite Hh; apply andb_false_r].
    rewrite <- Hinv. unfold headsOf. simpl. rewrite Hcur.
    destruct (negb _ && negb _); reflexivity.
Qed.

Lemma loop_heads (fuel : nat) (allLines : list LineObj) (st : PState) :
  trimmedStream allLines ->
  parseLoop fuel allLines 0 initial = Some st ->
  headsOf st = map lineOf (filter opens allLines).
Proof.
  intros Htrim H. unfold parseLoop in H.
  destruct (LoopIndex.for_invariant _ (length allLines) (parseTurn fuel allLines)
              (fun i st => headsOf st = map lineOf (filter opens (firstn i allLines)))
              fuel 0 initial st) as (i' & Hi' & Hp); [| |exact H|].
  - intros j x y j' _ Hx Hb. eapply turn_heads; eauto.
  - reflexivity.
  - now rewrite firstn_all2 in Hp.
Qed.

(** ** The shape of a scene *)

Definition fieldsOK (scene : Scene) : Prop :=
  isSceneHeading (heading scene) = true
  /\ parseSceneHeading (heading scene)
     = mkHeading (intExt scene) (location scene) (timeOfDay scene).

Definition castOK (scene : Scene) : Prop :=
  charactersInScene scene = NameSet (actors scene) /\ NoDup (actors scene).

Definition curShape (scene : Scene) (sl : list str) : Prop :=
  (exists rest, sl = heading scene :: rest) /\ fieldsOK scene /\ castOK scene.

Definition sealedShape (scene : Scene) : Prop :=
  fieldsOK scene
  /\ (exists rest, fullText scene = Some (join [LF] (heading scene :: rest))
                   /\ props scene = Some (extractProps (heading scene :: rest)))
  /\ (exists s, summary scene = Some s /\ s <> [])
  /\ castOK scene.

Definition stateShape (st : PState) : Prop :=
  (forall s, In s (scenes st) -> sealedShape s)
  /\ (forall s, currentScene st = Some s -> curShape s (sceneLines st)).

Lemma summary_not_nil (scene : Scene) : generateSceneSummary scene <> [].
Proof.
  unfold generateSceneSummary. cbv zeta.
  destruct (trim _) as [|c t]; simpl; discriminate.
Qed.

Lemma pushNew_nodup (a : list str) (x : str) : NoDup a -> NoDup (pushNew a x).
Proof.
  intros H. unfold pushNew. destruct (arr_includes a x) eqn:E; [exact H|].
  apply NoDup_app; [exact H|repeat constructor; intros []|].
  intros y Hy [<-|[]].
  apply RosterFacts.arr_includes_spec in Hy. congruence.
Qed.

Lemma seal_shape (scene : Scene) (sl : list str) :
  curShape scene sl -> sealedShape (seal scene sl).
Proof.
  intros ((rest & ->) & Hf & Hc). unfold sealedShape, fieldsOK, castOK, seal in *.
  cbv zeta.
  cbn [heading intExt location timeOfDay fullText props summary charactersInScene actors].
  split; [exact Hf|]. split; [exists rest; split; reflexivity|].
  split; [|exact Hc]. eexists. split; [reflexivity|apply summary_not_nil].
Qed.

Lemma pushSealed_shape (st : PState) :
  stateShape st -> forall s, In s (pushSealed st) -> sealedShape s.
Proof.
  intros [Hs Hc] s. unfold pushSealed.
  destruct (currentScene st) as [scene|]; [|apply Hs].
  intros H. apply in_app_iff in H. destruct H as [H|[<-|[]]]; [now apply Hs|].
  apply seal_shape. now apply Hc.
Qed.

Lemma collect_keeps_head (fuel : nat) (allLines : list LineObj) (j j' : nat)
      (h : str) (rest dl sl : list str) :
  collectDialogue fuel allLines j (h :: rest) = Some (j', (dl, sl)) ->
  exists rest', sl = h :: rest'.
Proof.
  unfold collectDialogue. intros H.
  assert (G : (fun a : list str * list str => exists rest', snd a = h :: rest') (dl, sl)).
  { eapply LoopFacts.while_preserves
      with (P := fun a : list str * list str => exists rest', snd a = h :: rest');
      [| |exact H].
    - intros i [d s] _ (r & Hr). cbn [snd] in Hr. subst s. unfold collectTurn.
      destruct (negb _); [now exists r|].
      destruct (stopsDialogue _ _ _); [now exists r|].
      destruct (isParenthetical _); [cbn [snd app]; eauto|].
      destruct (isLikelyActionLine _); [now exists r|cbn [snd app]; eauto].
    - now exists rest. }
  exact G.
Qed.

Lemma parseTurn_shape (fuel : nat) (allLines : list LineObj) (i i' : nat) (st st' : PState) :
  stateShape st -> parseTurn fuel allLines i st = Some (st', i') -> stateShape st'.
Proof.
  intros Hst. pose proof Hst as [Hs Hc]. unfold parseTurn.
  destruct (nth_error allLines i) as [lo|]; [|now intros H; inversion H; subst].
  destruct (isPageNumber _ || isPageFooter _); [now intros H; inversion H; subst|].
  destruct (isSceneHeading (text lo)) eqn:Hh.
  { intros H; inversion H; subst; clear H. split; simpl.
    - now apply pushSealed_shape.
    - intros s E. inversion E; subst; clear E. unfold curShape, fieldsOK, castOK, openScene.
      simpl. split; [now exists []|]. split; [|split; [reflexivity|constructor]].
      split; [exact Hh|]. now destruct (parseSceneHeading (text lo)). }
  destruct (currentScene st) as [scene|] eqn:Hcur;
    [|intros H; inversion H; subst; split; [exact Hs|now rewrite Hcur]].
  destruct (Hc scene eq_refl) as ((rest & Hsl) & Hf & Hcast & Hnd).
  destruct (isCharacterName _ _ _).
  - destruct (collectDialogue _ _ _ _) as [[j [dl sl2]]|] eqn:Hcd; [|discriminate].
    intros H; inversion H; subst; clear H. split; simpl; [exact Hs|].
    intros s E. inversion E; subst; clear E.
    rewrite Hsl in Hcd. cbn [app] in Hcd.
    apply collect_keeps_head in Hcd.
    assert (Hcue : curShape (withCue scene (cleanCharacterName (text lo))) sl2).
    { split; [exact Hcd|]. split; [exact Hf|]. unfold castOK, withCue. simpl.
      rewrite Hcast. split; [reflexivity|now apply pushNew_nodup]. }
    destruct (0 <? length dl); exact Hcue.
  - intros H; inversion H; subst; clear H. split; simpl; [exact Hs|].
    intros s E. inversion E; subst; clear E.
    assert (Hsame : curShape scene (sceneLines st ++ [text lo])).
    { split; [rewrite Hsl; simpl; eauto|]. split; [exact Hf|now split]. }
    destruct (negb _ && negb _); exact Hsame.
Qed.

Lemma parseScenes_shape (pages : list Page) (scenes : list Scene) :
  parseScenes pages = Some scenes ->
  forall s, In s scenes ->
    fieldsOK s
    /\ (exists rest, fullText s = Some (join [LF] (heading s :: rest))
                     /\ props s = Some (extractProps (heading s :: rest)))
    /\ (exists t, summary s = Some t /\ t <> [])
    /\ charactersInScene s = NameArray (actors s) /\ NoDup (actors s).
Proof.
  unfold parseScenes, parseScenesWith.
  destruct (parseLoop _ _ _ _) as [st|] eqn:E; [|discriminate].
  intros H; inversion H; subst; clear H.
  assert (Hst : stateShape st).
  { unfold parseLoop in E.
    eapply LoopFacts.for_preserves with (P := stateShape); [| |exact E].
    - intros j x y j' _ Hx Hb. eapply parseTurn_shape; eauto.
    - split; [intros s []|discriminate]. }
  intros s Hin. apply in_map_iff in Hin. destruct Hin as (s0 & <- & Hin).
  destruct (pushSealed_shape st Hst s0 Hin) as (Hf & Hft & Hsum & Hcast & Hnd).
  unfold fieldsOK in *.
  cbn [arrayNames heading intExt location timeOfDay fullText props summary
       charactersInScene actors].
  rewrite Hcast. cbn [namesToArray]. repeat split; try tauto.
Qed.

End HybridScenes.

(** X1.  The scenes that the hybrid parser returns are the scene headings
    of the line stream, one for one and in order: the pairs of heading and
    page number of the returned scenes are the pairs of text and page number
    of the lines of the stream that are scene headings and no page markers.
    A heading is never taken for dialogue, and nothing but a heading opens a
    scene. *)
Theorem hybrid_scenes_are_headings (pages : list Hybrid.Page) :
  exists scenes,
    Hybrid.parseScenes pages = Some scenes
    /\ map (fun s => (Hybrid.heading s, Hybrid.s_pageNumber s)) scenes
       = map (fun lo => (Hybrid.text lo, Hybrid.lo_pageNumber lo))
             (filter HybridScenes.opens (Hybrid.flatten pages))
    /\ length scenes = length (filter HybridScenes.opens (Hybrid.flatten pages)).
Proof.
  unfold Hybrid.parseScenes, Hybrid.parseScenesWith.
  destruct (@HybridLoop.parseLoop_enough (S (length (Hybrid.flatten pages)))
              (Hybrid.flatten pages) 0 Hybrid.initial) as (st & Hst); [lia|].
  rewrite Hst. eexists. split; [reflexivity|].
  pose proof (HybridScenes.loop_heads _ _ _ (HybridScenes.flatten_trimmed pages) Hst) as H.
  rewrite <- HybridScenes.headsOf_pushSealed in H.
  assert (E : map (fun s => (Hybrid.heading s, Hybrid.s_pageNumber s))
                  (map Hybrid.arrayNames (Hybrid.pushSealed st))
              = map (fun lo => (Hybrid.text lo, Hybrid.lo_pageNumber lo))
                    (filter HybridScenes.opens (Hybrid.flatten pages))).
  { rewrite map_map. exact H. }
  split; [exact E|].
  apply (f_equal (@length _)) in E. rewrite !length_map in E.
  rewrite length_map. exact E.
Qed.

(** X2.  Every scene that the hybrid parser returns is complete and agrees
    with its heading: the heading is a scene heading, [location], [intExt]
    and [timeOfDay] are what [parseSceneHeading] reads from it, [fullText]
    is the heading followed by further lines, joined by line feeds,
    [props] is [extractProps] of those same lines, and [summary] is set and
    is not empty. *)
Theorem hybrid_scene_fields (pages : list Hybrid.Page) :
  exists scenes,
    Hybrid.parseScenes pages = Some scenes
    /\ forall s, In s scenes ->
         Hybrid.isSceneHeading (Hybrid.heading s) = true
         /\ Hybrid.parseSceneHeading (Hybrid.heading s)
            = Hybrid.mkHeading (Hybrid.intExt s) (Hybrid.location s) (Hybrid.timeOfDay s)
         /\ (exists rest,
                Hybrid.fullText s = Some (JS.join [JS.LF] (Hybrid.heading s :: rest))
                /\ Hybrid.props s = Some (Hybrid.extractProps (Hybrid.heading s :: rest)))
         /\ (exists t, Hybrid.summary s = Some t /\ t <> []).
Proof.
  destruct (HybridLoop.parseScenes_total pages) as [scenes E].
  exists scenes. split; [exact E|]. intros s Hs.
  destruct (HybridScenes.parseScenes_shape pages scenes E s Hs)
    as ([Hh Hp] & Hft & Hsum & _).
  auto.
Qed.

(** X3.  In every scene that the hybrid parser returns, [charactersInScene]
    is the array [actors], no name occurs twice in it, and the character of
    every dialogue entry is one of the actors of the scene. *)
Theorem hybrid_scene_cast (pages : list Hybrid.Page) :
  exists scenes,
    Hybrid.parseScenes pages = Some scenes
    /\ forall s, In s scenes ->
         Hybrid.charactersInScene s = Hybrid.NameArray (Hybrid.actors s)
         /\ NoDup (Hybrid.actors s)
         /\ forall d, In d (Hybrid.dialogue s) ->
                      In (Hybrid.d_character d) (Hybrid.actors s).
Proof.
  destruct (HybridLoop.parseScenes_total pages) as [scenes E].
  exists scenes. split; [exact E|]. intros s Hs.
  destruct (HybridScenes.parseScenes_shape pages scenes E s Hs)
    as (_ & _ & _ & Hc & Hnd).
  split; [exact Hc|]. split; [exact Hnd|].
  exact (RosterFacts.parseScenes_acts pages scenes E s Hs).
Qed.

(* ===================================================================== *)
(** * The lines of the pages *)
(* ===================================================================== *)

Module PageLines.
Import JS Hybrid.

(** The non-blank lines of a text, trimmed. *)
Definition nonBlank (s : str) : list str := filter truthy (map trim (split LF s)).

Lemma trim_ws_cons (c : char) (p : str) : isWhiteSpace c = true -> trim (c :: p) = trim p.
Proof. intros H. unfold trim, trimStart. simpl. now rewrite H. Qed.

Lemma trim_nil : trim [] = [].
Proof. reflexivity. Qed.

Lemma nonBlank_ws_cons (c : char) (t : str) :
  isWhiteSpace c = true -> nonBlank (c :: t) = nonBlank t.
Proof.
  intros H. unfold nonBlank. simpl. destruct (c =? LF)%N; [reflexivity|].
  destruct (split LF t) as [|p ps] eqn:E; [now apply StrFacts.split_not_nil in E|].
  simpl. now rewrite (trim_ws_cons c p H).
Qed.

Lemma nonBlank_trimStart (s : str) : nonBlank (dropWhile isWhiteSpace s) = nonBlank s.
Proof.
  induction s as [|c t IH]; [reflexivity|]. simpl.
  destruct (isWhiteSpace c) eqn:E; [|reflexivity].
  now rewrite IH, (nonBlank_ws_cons c t E).
Qed.

Lemma split_snoc_sep (sep : char) (s : str) :
  split sep (s ++ [sep]) = split sep s ++ [[]].
Proof.
  induction s as [|x t IH]; simpl; [now rewrite N.eqb_refl|].
  destruct (x =? sep)%N; [now rewrite IH|].
  rewrite IH. destruct (split sep t) as [|p ps] eqn:E; [|reflexivity].
  now apply StrFacts.split_not_nil in E.
Qed.

Lemma split_snoc_other (sep c : char) (s : str) :
  c <> sep ->
  exists init last,
    split sep s = init ++ [last] /\ split sep (s ++ [c]) = init ++ [last ++ [c]].
Proof.
  intros Hc. induction s as [|x t IH].
  - exists [], []. simpl. apply N.eqb_neq in Hc. now rewrite Hc.
  - destruct IH as (init & last & E1 & E2). simpl. rewrite E1, E2.
    destruct (x =? sep)%N.
    + now exists ([] :: init), last.
    + destruct init as [|p init]; simpl.
      * now exists [], (x :: last).
      * now exists ((x :: p) :: init), last.
Qed.

Lemma nonBlank_snoc_ws (c : char) (s : str) :
  isWhiteSpace c = true -> nonBlank (s ++ [c]) = nonBlank s.
Proof.
  intros H. unfold nonBlank. destruct (N.eq_dec c LF) as [->|Hne].
  - rewrite split_snoc_sep, map_app, filter_app. simpl. apply app_nil_r.
  - destruct (split_snoc_other LF c s Hne) as (init & last & -> & ->).
    rewrite !map_app, !filter_app. simpl.
    rewrite (NormalizeFacts.trim_app_ws last [c]); [reflexivity|].
    simpl. now rewrite H.
Qed.

Lemma nonBlank_app_ws (s w : str) :
  forallb isWhiteSpace w = true -> nonBlank (s ++ w) = nonBlank s.
Proof.
  revert s. induction w as [|c w IH]; intros s H; [now rewrite app_nil_r|].
  simpl in H. apply andb_true_iff in H. destruct H as [Hc Hw].
  change (s ++ c :: w) with (s ++ [c] ++ w). rewrite app_assoc, IH by exact Hw.
  now apply nonBlank_snoc_ws.
Qed.

(** Trimming a text loses none of its non-blank lines. *)
Lemma nonBlank_trim (s : str) : nonBlank (trim s) = nonBlank s.
Proof.
  destruct (NormalizeFacts.trim_split s) as (a & b & E & Ha & Hb).
  rewrite E at 2. rewrite app_assoc, (nonBlank_app_ws _ b Hb).
  clear E Hb. induction a as [|c a IH]; [reflexivity|].
  simpl in Ha. apply andb_true_iff in Ha. destruct Ha as [Hc Ha].
  simpl. rewrite (nonBlank_ws_cons c _ Hc). now apply IH.
Qed.

Lemma nonBlank_join (ls : list str) :
  (forall x, In x ls -> ~ In LF x) ->
  nonBlank (join [LF] ls) = filter truthy (map trim ls).
Proof.
  intros H. unfold nonBlank. destruct ls as [|x ls]; [reflexivity|].
  rewrite StrFacts.split_join; [reflexivity|discriminate|exact H].
Qed.

(** The texts of the stream that [parseScenes] reads. *)
Lemma flatten_texts (pages : list Page) :
  map text (flatten pages) = flat_map (fun page => nonBlank (rawText page)) pages.
Proof.
  unfold flatten. induction pages as [|page pages IH]; [reflexivity|].
  simpl. rewrite map_app, IH, map_map. simpl. now rewrite map_id.
Qed.

Lemma flat_map_mapi_from (A B C : Type) (f : nat -> A -> B) (g : B -> list C)
      (h : A -> list C) (i : nat) (l : list A) :
  (forall j x, g (f j x) = h x) ->
  flat_map g (mapi_from f i l) = flat_map h l.
Proof.
  intros H. revert i. induction l as [|x l IH]; intros i; [reflexivity|].
  simpl. now rewrite H, IH.
Qed.

Lemma flat_map_filter_blank (l : list str) :
  flat_map nonBlank (filter (fun t => truthy (trim t)) l) = flat_map nonBlank l.
Proof.
  induction l as [|x l IH]; [reflexivity|]. simpl.
  destruct (truthy (trim x)) eqn:E; simpl; rewrite IH; [reflexivity|].
  rewrite <- (nonBlank_trim x). destruct (trim x); [reflexivity|discriminate E].
Qed.

(** ** Slices *)

Lemma firstn_plus (A : Type) (x y : nat) (l : list A) :
  firstn (x + y) l = firstn x l ++ firstn y (skipn x l).
Proof.
  revert l. induction x as [|x IH]; intros l; [reflexivity|].
  destruct l as [|a l]; [now rewrite !firstn_nil|]. simpl. now rewrite IH.
Qed.

Lemma slice_adjacent (A : Type) (l : list A) (b m e : nat) :
  b <= m -> m <= e -> slice l b m ++ slice l m e = slice l b e.
Proof.
  intros Hb He. unfold slice.
  replace (e - b) with ((m - b) + (e - m)) by lia.
  rewrite firstn_plus, skipn_skipn. now replace (m - b + b) with m by lia.
Qed.

Lemma slices_cover (A : Type) (l : list A) (L a k : nat) :
  flat_map (fun i => slice l (i * L) (i * L + L)) (List.seq a k)
  = slice l (a * L) ((a + k) * L).
Proof.
  revert a. induction k as [|k IH]; intros a.
  - simpl. unfold slice. now rewrite Nat.add_0_r, Nat.sub_diag.
  - simpl. rewrite IH. replace (a * L + L) with (S a * L) by lia.
    replace ((a + S k) * L) with ((S a + k) * L) by lia.
    apply slice_adjacent; nia.
Qed.

Lemma ceilDiv_covers (n N : nat) : 1 <= N -> n <= N * ceilDiv n N.
Proof.
  intros H. unfold ceilDiv.
  pose proof (Nat.div_mod_eq (n + N - 1) N) as E.
  pose proof (Nat.mod_upper_bound (n + N - 1) N) as U. lia.
Qed.

Lemma in_slice (A : Type) (l : list A) (b e : nat) (x : A) : In x (slice l b e) -> In x l.
Proof.
  unfold slice. intros H.
  assert (Hs : In x (skipn b l)).
  { rewrite <- (firstn_skipn (e - b) (skipn b l)). apply in_or_app. now left. }
  rewrite <- (firstn_skipn b l). apply in_or_app. now right.
Qed.

Lemma filter_map_flat_map (A B : Type) (p : B -> bool) (f : A -> B) (C : Type)
      (g : C -> list A) (l : list C) :
  flat_map (fun c => filter p (map f (g c))) l = filter p (map f (flat_map g l)).
Proof.
  induction l as [|c l IH]; [reflexivity|].
  simpl. now rewrite map_app, filter_app, IH.
Qed.

Lemma estimated_texts (textIn : str) (totalPages : nat) :
  1 <= totalPages ->
  map text (flatten (estimatedPages textIn totalPages)) = nonBlank textIn.
Proof.
  intros HN. rewrite flatten_texts. unfold estimatedPages. cbv zeta.
  rewrite flat_map_concat_map, map_map, <- flat_map_concat_map. cbn [rawText].
  set (lines := split LF textIn). set (L := ceilDiv (length lines) totalPages).
  rewrite (flat_map_ext
             (fun i => nonBlank (trim (join [LF] (slice lines (i * L) (i * L + L)))))
             (fun i => filter truthy (map trim (slice lines (i * L) (i * L + L))))).
  - rewrite (filter_map_flat_map _ _ truthy trim _
                                 (fun i => slice lines (i * L) (i * L + L))).
    rewrite slices_cover. unfold slice. simpl. rewrite Nat.sub_0_r.
    rewrite firstn_all2; [reflexivity|].
    pose proof (ceilDiv_covers (length lines) totalPages HN). fold L in H. lia.
  - intros i. rewrite nonBlank_trim. apply nonBlank_join.
    intros x Hx. apply in_slice in Hx. now apply StrFacts.split_pieces in Hx.
Qed.

Lemma formFeed_texts (textIn : str) :
  map text
      (flatten (mapi (fun index content =>
                        mkPage (index + 1) (trim content) (analyzePageLines (trim content)))
                     (formFeedPages textIn)))
  = flat_map nonBlank (split FF textIn).
Proof.
  rewrite flatten_texts. unfold mapi.
  rewrite (flat_map_mapi_from _ _ _ _ (fun page => nonBlank (rawText page)) nonBlank).
  - apply flat_map_filter_blank.
  - intros j x. simpl. apply nonBlank_trim.
Qed.

End PageLines.

(** X4.  No non-blank line is lost or moved when the hybrid parser cuts
    the text into pages.  With the form-feed page breaks, the line stream
    of the pages is the sequence of the non-blank lines, trimmed, of the
    form-feed chunks in order.  With the estimated page breaks and a page
    count of at least 1, it is the sequence of the non-blank lines,
    trimmed, of the text.  With a page count of 0 there are no pages at
    all, whatever the text is. *)
Theorem pages_keep_lines (text : JS.str) (totalPages : nat) :
  (fst (Hybrid.extractPages text totalPages) = Hybrid.FormFeedBreaks ->
   map Hybrid.text (Hybrid.flatten (snd (Hybrid.extractPages text totalPages)))
   = flat_map (fun chunk => filter JS.truthy (map JS.trim (JS.split JS.LF chunk)))
              (JS.split JS.FF text))
  /\ (fst (Hybrid.extractPages text totalPages) = Hybrid.EstimatedBreaks ->
      1 <= totalPages ->
      map Hybrid.text (Hybrid.flatten (snd (Hybrid.extractPages text totalPages)))
      = filter JS.truthy (map JS.trim (JS.split JS.LF text)))
  /\ Hybrid.extractPages text 0 = (Hybrid.EstimatedBreaks, []).
Proof.
  split; [|split].
  - unfold Hybrid.extractPages. destruct (Hybrid.useFormFeed _ _); [|discriminate].
    intros _. apply PageLines.formFeed_texts.
  - unfold Hybrid.extractPages. destruct (Hybrid.useFormFeed _ _); [discriminate|].
    intros _ HN. now apply PageLines.estimated_texts.
  - unfold Hybrid.extractPages, Hybrid.useFormFeed.
    destruct (length (Hybrid.formFeedPages text)) as [|[|c]]; reflexivity.
Qed.

Lemma pages_keep_lines_witness :
  map Hybrid.text
      (Hybrid.flatten
         (snd (Hybrid.extractPages (JS.js " a " ++ [JS.LF; JS.LF] ++ JS.js "b") 3)))
  = [JS.js "a"; JS.js "b"].
Proof.
  apply (proj1 (proj2 (pages_keep_lines (JS.js " a " ++ [JS.LF; JS.LF] ++ JS.js "b") 3))).
  - vm_compute. reflexivity.
  - lia.
Defined.

(* ===================================================================== *)
(** * Props *)
(* ===================================================================== *)

Module PropFacts.
Import JS.

Lemma pushNew_iff (a : list str) (x y : str) :
  In y (Hybrid.pushNew a x) <-> In y a \/ y = x.
Proof.
  unfold Hybrid.pushNew. destruct (arr_includes a x) eqn:E.
  - apply RosterFacts.arr_includes_spec in E. split; [tauto|]. intros [H| ->]; assumption.
  - rewrite in_app_iff. simpl. intuition congruence.
Qed.

(** A [forEach] that adds to a set what passes a test. *)
Lemma fold_pushNew (A : Type) (c : A -> bool) (v : A -> str) (l : list A) (acc : list str) :
  (forall p,
      In p (fold_left (fun acc x => if c x then Hybrid.pushNew acc (v x) else acc) l acc)
      <-> In p acc \/ exists x, In x l /\ c x = true /\ v x = p)
  /\ (NoDup acc ->
      NoDup (fold_left (fun acc x => if c x then Hybrid.pushNew acc (v x) else acc) l acc)).
Proof.
  revert acc. induction l as [|x l IH]; intros acc; simpl.
  - split; [|tauto]. intros p. split; [tauto|]. intros [H|(x & [] & _)]. exact H.
  - destruct (IH (if c x then Hybrid.pushNew acc (v x) else acc)) as [I1 I2]. split.
    + intros p. rewrite I1. destruct (c x) eqn:E.
      * rewrite pushNew_iff. split.
        -- intros [[H| ->]|(y & Hy & Hc & Hv)]; eauto 6.
        -- intros [H|(y & [<-|Hy] & Hc & Hv)]; eauto 6.
      * split.
        -- intros [H|(y & Hy & Hc & Hv)]; eauto 6.
        -- intros [H|(y & [<-|Hy] & Hc & Hv)]; [tauto|congruence|eauto 6].
    + intros H. apply I2. destruct (c x); [now apply HybridScenes.pushNew_nodup|exact H].
Qed.

Lemma fold_outer (A : Type) (G : list str -> A -> list str) (Q : A -> str -> Prop)
      (l : list A) (acc : list str) :
  (forall acc x p, In p (G acc x) <-> In p acc \/ Q x p) ->
  (forall acc x, NoDup acc -> NoDup (G acc x)) ->
  (forall p, In p (fold_left G l acc) <-> In p acc \/ exists x, In x l /\ Q x p)
  /\ (NoDup acc -> NoDup (fold_left G l acc)).
Proof.
  intros HG Hnd. revert acc. induction l as [|x l IH]; intros acc; simpl.
  - split; [|tauto]. intros p. split; [tauto|]. intros [H|(x & [] & _)]. exact H.
  - destruct (IH (G acc x)) as [I1 I2]. split.
    + intros p. rewrite I1, HG. split.
      * intros [[H|H]|(y & Hy & Hq)]; eauto.
      * intros [H|(y & [<-|Hy] & Hq)]; eauto.
    + intros H. apply I2. now apply Hnd.
Qed.

(** The names that [extractProps] can return. *)
Definition propNames : list str := map (fun prop => Hybrid.capitalize (js prop)) Hybrid.propKeywords.

Lemma propNames_bound (l : list str) :
  NoDup l -> (forall p, In p l -> In p propNames) -> length l <= 30.
Proof.
  intros Hnd Hin. change 30 with (length propNames).
  apply NoDup_incl_length; [exact Hnd|exact Hin].
Qed.

End PropFacts.

(** X5.  [extractProps] returns each prop once: the result has no
    duplicates and at most 30 elements, and a name is in it if and only if
    it is a keyword of the list, with its first letter in upper case, that
    some line contains.  For the hybrid parser a line contains a keyword
    when its lower-cased text matches the keyword between word boundaries;
    for the PDF parser, when its lower-cased text includes the keyword. *)
Theorem extractProps_spec (lines : list JS.str) :
  (NoDup (Hybrid.extractProps lines)
   /\ length (Hybrid.extractProps lines) <= 30
   /\ forall p,
       In p (Hybrid.extractProps lines)
       <-> exists line prop,
           In line lines /\ In prop Hybrid.propKeywords
           /\ Regex.test (Regex.seq [Regex.WordB; Regex.litI prop; Regex.WordB])
                         (JS.toLowerCase line) = true
           /\ p = Hybrid.capitalize (JS.js prop))
  /\ (NoDup (Pdf.extractProps lines)
      /\ length (Pdf.extractProps lines) <= 30
      /\ forall p,
          In p (Pdf.extractProps lines)
          <-> exists line prop,
              In line lines /\ In prop Hybrid.propKeywords
              /\ JS.includes (JS.toLowerCase line) (JS.js prop) = true
              /\ p = Hybrid.capitalize (JS.js prop)).
Proof.
  assert (Hgen : forall T : string -> JS.str -> bool,
             let E := fold_left
                        (fun props line =>
                           fold_left
                             (fun props prop =>
                                if T prop (JS.toLowerCase line)
                                then Hybrid.pushNew props (Hybrid.capitalize (JS.js prop))
                                else props)
                             Hybrid.propKeywords props)
                        lines [] in
             NoDup E /\ length E <= 30
             /\ forall p, In p E <-> exists line prop,
                    In line lines /\ In prop Hybrid.propKeywords
                    /\ T prop (JS.toLowerCase line) = true
                    /\ p = Hybrid.capitalize (JS.js prop)).
  { intros T E.
    destruct (PropFacts.fold_outer _
                (fun props line =>
                   fold_left
                     (fun props prop =>
                        if T prop (JS.toLowerCase line)
                        then Hybrid.pushNew props (Hybrid.capitalize (JS.js prop))
                        else props)
                     Hybrid.propKeywords props)
                (fun line p => exists prop, In prop Hybrid.propKeywords
                                            /\ T prop (JS.toLowerCase line) = true
                                            /\ Hybrid.capitalize (JS.js prop) = p)
                lines []) as [Hin Hnd].
    - intros acc line p.
      apply (proj1 (PropFacts.fold_pushNew _
                      (fun prop => T prop (JS.toLowerCase line))
                      (fun prop => Hybrid.capitalize (JS.js prop))
                      Hybrid.propKeywords acc)).
    - intros acc line.
      apply (proj2 (PropFacts.fold_pushNew _
                      (fun prop => T prop (JS.toLowerCase line))
                      (fun prop => Hybrid.capitalize (JS.js prop))
                      Hybrid.propKeywords acc)).
    - assert (Hiff : forall p, In p E <-> exists line prop,
                         In line lines /\ In prop Hybrid.propKeywords
                         /\ T prop (JS.toLowerCase line) = true
                         /\ p = Hybrid.capitalize (JS.js prop)).
      { intros p. unfold E. rewrite Hin. split.
        - intros [[]|(line & Hl & prop & Hp & Ht & <-)]. eauto 6.
        - intros (line & prop & Hl & Hp & Ht & ->). right. eauto 6. }
      split; [apply Hnd; constructor|]. split; [|exact Hiff].
      apply PropFacts.propNames_bound; [apply Hnd; constructor|].
      intros p Hp. apply Hiff in Hp. destruct Hp as (line & prop & _ & Hprop & _ & ->).
      unfold PropFacts.propNames.
      now apply (in_map (fun prop => Hybrid.capitalize (JS.js prop))). }
  split.
  - exact (Hgen (fun prop lowerLine =>
                   Regex.test (Regex.seq [Regex.WordB; Regex.litI prop; Regex.WordB])
                              lowerLine)).
  - exact (Hgen (fun prop lowerLine => JS.includes lowerLine (JS.js prop))).
Qed.

(* ===================================================================== *)
(** * The text that [cleanScriptText] returns *)
(* ===================================================================== *)

Module CleanFacts.
Import JS Regex ReplaceFacts NormalizeFacts.

(** ** The PDF parser: one more step, for form feeds *)

Definition pdfClean (s : str) : Prop := clean s /\ noneOf (N.eqb FF) s = true.

Lemma pdf_clean (text : str) : pdfClean (Pdf.cleanScriptText text).
Proof.
  unfold Pdf.cleanScriptText. cbv zeta.
  set (t1 := replaceAll (litS [CR; LF]) [LF] text).
  set (t2 := replaceAll (litS [CR]) [LF] t1).
  set (t3 := replaceAll (litS [TAB]) (js "    ") t2).
  set (t4 := replaceAll (litS [FF]) [LF] t3).
  set (t5 := replaceAll (Cat (plus Pat.ws) (Cls (chr LF))) [LF] t4).
  assert (H2 : noneOf (N.eqb CR) t2 = true) by (now apply lit_kills_char).
  assert (H3 : noneOf (N.eqb CR) t3 = true)
    by (apply lit_keeps_noneOf; [discriminate|reflexivity|exact H2]).
  assert (H3' : noneOf (N.eqb TAB) t3 = true) by (now apply lit_kills_char).
  assert (H4 : noneOf (N.eqb CR) t4 = true)
    by (apply lit_keeps_noneOf; [discriminate|reflexivity|exact H3]).
  assert (H4' : noneOf (N.eqb TAB) t4 = true)
    by (apply lit_keeps_noneOf; [discriminate|reflexivity|exact H3']).
  assert (H4f : noneOf (N.eqb FF) t4 = true) by (now apply lit_kills_char).
  assert (H5 : noneOf (N.eqb CR) t5 = true) by (now apply wsnl_keeps_noneOf).
  assert (H5' : noneOf (N.eqb TAB) t5 = true) by (now apply wsnl_keeps_noneOf).
  assert (H5f : noneOf (N.eqb FF) t5 = true) by (now apply wsnl_keeps_noneOf).
  assert (H5'' : hasPair isWhiteSpace isLF t5 = false)
    by (apply (wsnl_kills t4 t5); apply wsnl_scan).
  split; [repeat split|].
  - apply trim_noneOf. apply replaceEach_keeps_noneOf; [reflexivity|exact H5].
  - apply trim_noneOf. apply replaceEach_keeps_noneOf; [reflexivity|exact H5'].
  - apply trim_noPair. apply replaceEach_keeps_noPair; [reflexivity|exact H5''].
  - apply noMojibake_trim. apply mojibake_kills.
  - apply trim_idem.
  - apply trim_noneOf. apply replaceEach_keeps_noneOf; [reflexivity|exact H5f].
Qed.

Lemma pdf_clean_fixed (s : str) : pdfClean s -> Pdf.cleanScriptText s = s.
Proof.
  intros [(H1 & H2 & H3 & H4 & H5) Hf]. unfold Pdf.cleanScriptText. cbv zeta.
  rewrite (lit_same_noneOf (N.eqb CR) [CR; LF] [LF] s) by (discriminate || assumption || reflexivity).
  rewrite (lit_same_noneOf (N.eqb CR) [CR] [LF] s) by (discriminate || assumption || reflexivity).
  rewrite (lit_same_noneOf (N.eqb TAB) [TAB] (js "    ") s)
    by (discriminate || assumption || reflexivity).
  rewrite (lit_same_noneOf (N.eqb FF) [FF] [LF] s)
    by (discriminate || assumption || reflexivity).
  change (Cat (plus Pat.ws) (Cls (chr LF))) with wsnl. rewrite (wsnl_same s H3).
  rewrite (replaceEach_same Pat.mojibake s) by (reflexivity || assumption).
  exact H5.
Qed.

(** ** The lines of a cleaned text *)

Lemma dropWhile_snoc (p : char -> bool) (a : str) (h : char) :
  p h = false -> dropWhile p (a ++ [h]) = dropWhile p a ++ [h].
Proof.
  intros H. induction a as [|c a IH]; simpl; [now rewrite H|].
  destruct (p c); [exact IH|reflexivity].
Qed.

Lemma trim_head (s : str) : headIs isWhiteSpace (trim s) = false.
Proof.
  unfold trim, trimEnd, trimStart.
  pose proof (dropWhile_head isWhiteSpace s) as Hh.
  destruct (dropWhile isWhiteSpace s) as [|h d]; [reflexivity|].
  simpl in Hh. simpl rev. rewrite (dropWhile_snoc isWhiteSpace (rev d) h Hh).
  rewrite rev_app_distr. simpl. exact Hh.
Qed.

Lemma trim_last (s : str) : headIs isWhiteSpace (rev (trim s)) = false.
Proof.
  unfold trim, trimEnd. rewrite rev_involutive. apply dropWhile_head.
Qed.

Lemma hasPair_mid (P Q : char -> bool) (x y : str) (a b : char) :
  P a = true -> Q b = true -> hasPair P Q (x ++ a :: b :: y) = true.
Proof.
  intros Ha Hb. induction x as [|c x IH].
  - simpl. now rewrite Ha, Hb.
  - change ((c :: x) ++ a :: b :: y) with (c :: (x ++ a :: b :: y)).
    rewrite hasPair_cons, IH. apply orb_true_r.
Qed.

(** Where a piece of [split] lies in the string. *)
Lemma split_piece_at (sep : char) (s : str) (i : nat) (line : str) :
  nth_error (split sep s) i = Some line ->
  exists pre post,
    s = pre ++ line ++ post
    /\ match i with O => pre = [] | S _ => exists p, pre = p ++ [sep] end
    /\ (post = [] \/ exists q, post = sep :: q).
Proof.
  revert i line. induction s as [|c t IH]; intros i line H.
  - destruct i as [|[|i]]; try discriminate H. inversion H; subst.
    exists [], []. auto.
  - simpl in H. destruct (c =? sep)%N eqn:E.
    + apply N.eqb_eq in E. subst c. destruct i as [|k].
      * inversion H; subst. exists [], (sep :: t). split; [reflexivity|]. eauto.
      * simpl in H. destruct (IH k line H) as (pre & post & -> & Hpre & Hpost).
        exists (sep :: pre), post. split; [reflexivity|]. split; [|exact Hpost].
        destruct k as [|k]; [subst pre; now exists []|].
        destruct Hpre as (p & ->). now exists (sep :: p).
    + destruct (split sep t) as [|p ps] eqn:Es; [now apply StrFacts.split_not_nil in Es|].
      destruct i as [|k].
      * inversion H; subst. destruct (IH 0 p eq_refl) as (pre & post & Ht & -> & Hpost).
        exists [], post. simpl in *. rewrite Ht. auto.
      * simpl in H. destruct (IH (S k) line H) as (pre & post & -> & (q & ->) & Hpost).
        exists (c :: q ++ [sep]), post. split; [reflexivity|]. split; [|exact Hpost].
        now exists (c :: q).
Qed.

(** A trimmed text without white space before a line feed has no blank
    line and no line that ends with white space. *)
Lemma clean_lines (s : str) :
  hasPair isWhiteSpace isLF s = false -> trim s = s ->
  s = [] \/ forall line, In line (split LF s) -> line <> [] /\ trimEnd line = line.
Proof.
  intros Hp Ht.
  assert (Hhead : headIs isWhiteSpace s = false) by (rewrite <- Ht; apply trim_head).
  assert (Hlast : headIs isWhiteSpace (rev s) = false) by (rewrite <- Ht; apply trim_last).
  destruct s as [|c0 t0] eqn:Es; [now left|]. right. rewrite <- Es in *.
  intros line Hin. apply In_nth_error in Hin. destruct Hin as (i & Hi).
  destruct (split_piece_at LF s i line Hi) as (pre & post & E & Hpre & Hpost).
  assert (Hend : headIs isWhiteSpace (rev line) = false).
  { destruct (rev line) as [|w r] eqn:Er; [reflexivity|].
    apply (f_equal (@rev _)) in Er. rewrite rev_involutive in Er. simpl in Er.
    simpl. destruct (isWhiteSpace w) eqn:W; [|reflexivity]. exfalso.
    destruct Hpost as [->|(q & ->)].
    - rewrite E, Er, app_nil_r, !rev_app_distr in Hlast. simpl in Hlast. congruence.
    - assert (Eq : pre ++ (rev r ++ [w]) ++ LF :: q = (pre ++ rev r) ++ w :: LF :: q)
        by (rewrite <- !app_assoc; reflexivity).
      rewrite E, Er, Eq in Hp.
      rewrite (hasPair_mid isWhiteSpace isLF (pre ++ rev r) q w LF W eq_refl) in Hp.
      discriminate Hp. }
  split.
  - intros ->. destruct Hpost as [->|(q & ->)].
    + destruct i as [|k].
      * subst pre. rewrite E in Es. discriminate Es.
      * destruct Hpre as (p & ->). rewrite E in Hlast. simpl in Hlast.
        rewrite app_nil_r, rev_app_distr in Hlast. simpl in Hlast. discriminate Hlast.
    + destruct i as [|k].
      * subst pre. rewrite E in Hhead. simpl in Hhead. discriminate Hhead.
      * destruct Hpre as (p & ->).
        assert (Eq : (p ++ [LF]) ++ [] ++ LF :: q = p ++ LF :: LF :: q)
          by (rewrite <- !app_assoc; reflexivity).
        rewrite E, Eq in Hp.
        rewrite (hasPair_mid isWhiteSpace isLF p q LF LF eq_refl eq_refl) in Hp.
        discriminate Hp.
  - unfold trimEnd. rewrite (dropWhile_fix isWhiteSpace (rev line) Hend).
    apply rev_involutive.
Qed.

(** A text as [cleanScriptText] leaves it. *)
Definition tidy (c : str) : Prop :=
  (forall u, In u c -> u <> CR /\ u <> TAB)
  /\ trim c = c
  /\ (c = [] \/ forall line, In line (split LF c) -> line <> [] /\ trimEnd line = line).

Lemma clean_tidy (c : str) : clean c -> tidy c.
Proof.
  intros (H1 & H2 & H3 & _ & H5). split; [|split; [exact H5|]].
  - intros u Hu. split; intros ->.
    + pose proof (proj1 (noneOf_spec _ _) H1 CR Hu) as E. discriminate E.
    + pose proof (proj1 (noneOf_spec _ _) H2 TAB Hu) as E. discriminate E.
  - now apply clean_lines.
Qed.

End CleanFacts.

(** X6.  Text normalization of the PDF parser is idempotent, as that of its
    two siblings is: [cleanScriptText] applied to its own result changes
    nothing.  Every form feed has become a line feed on the way. *)
Theorem pdf_cleanScriptText_idempotent (x : JS.str) :
  Pdf.cleanScriptText (Pdf.cleanScriptText x) = Pdf.cleanScriptText x
  /\ forall c, In c (Pdf.cleanScriptText x) -> c <> JS.FF.
Proof.
  pose proof (CleanFacts.pdf_clean x) as H. split.
  - now apply CleanFacts.pdf_clean_fixed.
  - destruct H as [_ Hf]. intros c Hc ->.
    pose proof (proj1 (NormalizeFacts.noneOf_spec _ _) Hf JS.FF Hc) as E.
    discriminate E.
Qed.

(** X7.  What [cleanScriptText] returns, in the hybrid parser and in the
    PDF parser: a text without carriage returns and tabs, trimmed, and
    either empty or made of lines none of which is empty or ends with
    white space.  Blank lines and trailing white space do not survive. *)
Theorem cleanScriptText_lines (x : JS.str) :
  CleanFacts.tidy (Hybrid.cleanScriptText x) /\ CleanFacts.tidy (Pdf.cleanScriptText x).
Proof.
  split.
  - apply CleanFacts.clean_tidy, NormalizeFacts.hybrid_clean.
  - apply CleanFacts.clean_tidy. exact (proj1 (CleanFacts.pdf_clean x)).
Qed.

From Stdlib Require Import Sorted.

(* ===================================================================== *)
(** * The scenes of the PDF parser *)
(* ===================================================================== *)

Module PdfScenes.
Import JS Pdf.

(** The line at an index opens a scene: it is not blank, it is no page
    marker and it is a scene heading. *)
Definition opensAt (lines : list str) (i : nat) : bool :=
  let line := trim (nth i lines []) in
  truthy line && negb (isPageNumber line || isPageFooter line) && isSceneHeading line.

(** [Math.min(Math.ceil((i + 1) / linesPerPage), totalPages)] *)
Definition pageAt (lines : list str) (totalPages i : nat) : nat :=
  Nat.min (ceilDiv (i + 1) (ceilDiv (length lines) totalPages)) totalPages.

Definition headOf (s : Scene) : str * nat := (originalHeading s, page s).
Definition lineAt (lines : list str) (totalPages i : nat) : str * nat :=
  (trim (nth i lines []), pageAt lines totalPages i).

Definition headsOf (st : PState) : list (str * nat) :=
  map headOf (scenes st)
  ++ match currentScene st with Some s => [headOf s] | None => [] end.

Lemma pdf_headsOf_pushSealed (st : PState) : map headOf (pushSealed st) = headsOf st.
Proof.
  unfold pushSealed, headsOf. destruct (currentScene st) as [s|].
  - rewrite map_app. reflexivity.
  - now rewrite app_nil_r.
Qed.

Lemma filter_seq_skip (f : nat -> bool) (i j : nat) :
  i <= j -> (forall k, i <= k < j -> f k = false) ->
  filter f (List.seq 0 j) = filter f (List.seq 0 i).
Proof.
  intros Hij. induction Hij as [|j Hij IH]; intros H; [reflexivity|].
  rewrite seq_S, filter_app, IH by (intros k Hk; apply H; lia).
  simpl. rewrite (H j) by lia. apply app_nil_r.
Qed.

Lemma pdf_collect_passed (lines : list str) :
  forall k x y, k < length lines -> collectTurn lines k x = Loop.Next y ->
                opensAt lines k = false.
Proof.
  intros k [dl sl] y _ Hturn. unfold collectTurn in Hturn. unfold opensAt. cbv zeta.
  destruct (trim (nth k lines [])) as [|c t]; [reflexivity|].
  cbn [truthy negb andb] in *.
  destruct (stopsDialogue lines k (c :: t)) eqn:Es; [discriminate Hturn|].
  unfold stopsDialogue in Es.
  repeat (apply orb_false_iff in Es; destruct Es as [Es ?]).
  match goal with H : isSceneHeading _ = false |- _ => rewrite H end.
  apply andb_false_r.
Qed.

Lemma pdf_turn_heads (fuel : nat) (lines : list str) (totalPages i i' : nat) (st st' : PState) :
  headsOf st = map (lineAt lines totalPages) (filter (opensAt lines) (List.seq 0 i)) ->
  parseTurn fuel lines totalPages (ceilDiv (length lines) totalPages) i st = Some (st', i') ->
  headsOf st'
  = map (lineAt lines totalPages) (filter (opensAt lines) (List.seq 0 (S i'))).
Proof.
  intros Hinv. unfold parseTurn. cbv zeta.
  assert (Hsame : opensAt lines i = false ->
                  map (lineAt lines totalPages) (filter (opensAt lines) (List.seq 0 (S i)))
                  = map (lineAt lines totalPages) (filter (opensAt lines) (List.seq 0 i))).
  { intros Ho. rewrite seq_S, filter_app. simpl. rewrite Ho. now rewrite app_nil_r. }
  unfold opensAt in Hsame at 1. cbv zeta in Hsame.
  destruct (truthy (trim (nth i lines []))) eqn:Ht; cbn [negb].
  2:{ intros H; inversion H; subst. rewrite Hsame; [exact Hinv|reflexivity]. }
  destruct (isPageNumber _ || isPageFooter _) eqn:Hm.
  { intros H; inversion H; subst. rewrite Hsame; [exact Hinv|reflexivity]. }
  destruct (isSceneHeading (trim (nth i lines []))) eqn:Hh.
  { intros H; inversion H; subst; clear H.
    rewrite seq_S, filter_app, map_app. simpl.
    unfold opensAt at 2. cbv zeta. rewrite Ht, Hm, Hh. simpl.
    rewrite <- Hinv. unfold headsOf at 1. simpl. now rewrite pdf_headsOf_pushSealed. }
  destruct (currentScene st) as [scene|] eqn:Hcur.
  2:{ intros H; inversion H; subst. rewrite Hsame; [exact Hinv|reflexivity]. }
  destruct (isCharacterName _ _ _).
  - destruct (collectDialogue _ _ _ _) as [[j [dl sl2]]|] eqn:Hc; [|discriminate].
    intros H; inversion H; subst; clear H. unfold collectDialogue in Hc.
    pose proof (LoopIndex.while_ge _ _ _ _ _ _ _ _ Hc) as Hge.
    replace (S (j - 1)) with j by lia.
    rewrite (filter_seq_skip (opensAt lines) i j); [|lia|].
    + rewrite <- Hinv. unfold headsOf. simpl. rewrite Hcur. reflexivity.
    + intros k Hk. destruct (Nat.eq_dec k i) as [->|Hne].
      * unfold opensAt. cbv zeta. rewrite Hh. apply andb_false_r.
      * destruct (Nat.lt_ge_cases k (length lines)) as [Hlt|Hge'].
        -- apply (LoopIndex.while_passed _ _ _ (fun k => opensAt lines k = false)
                    _ _ _ _ _ (pdf_collect_passed lines) Hc k). lia.
        -- unfold opensAt. rewrite nth_overflow by exact Hge'. reflexivity.
  - intros H; inversion H; subst; clear H. rewrite Hsame; [|reflexivity].
    rewrite <- Hinv. unfold headsOf. simpl. rewrite Hcur. reflexivity.
Qed.

Lemma parse_heads (lines : list str) (totalPages : nat) (scenes : list Scene) :
  parseScenes lines totalPages = Some scenes ->
  map headOf scenes
  = map (lineAt lines totalPages) (filter (opensAt lines) (List.seq 0 (length lines))).
Proof.
  unfold parseScenes, parseScenesWith. cbv zeta.
  destruct (Loop.for_ _ _ _ _ _) as [st|] eqn:E; [|discriminate].
  intros H; inversion H; subst; clear H.
  destruct (LoopIndex.for_invariant _ (length lines)
              (parseTurn (S (length lines)) lines totalPages
                         (ceilDiv (length lines) totalPages))
              (fun i st => headsOf st
                           = map (lineAt lines totalPages)
                                 (filter (opensAt lines) (List.seq 0 i)))
              (S (length lines)) 0 initial st) as (i' & Hi' & Hp); [| |exact E|].
  - intros j x y j' _ Hx Hb. eapply pdf_turn_heads; eauto.
  - reflexivity.
  - rewrite map_map.
    rewrite (filter_seq_skip (opensAt lines) (length lines) i') in Hp; [|exact Hi'|].
    + rewrite <- Hp, <- pdf_headsOf_pushSealed. reflexivity.
    + intros k Hk. unfold opensAt. rewrite nth_overflow by lia. reflexivity.
Qed.

(** ** Page numbers *)

Lemma ceilDiv_mono (a b L : nat) : a <= b -> ceilDiv a L <= ceilDiv b L.
Proof. intros H. unfold ceilDiv. apply Nat.Div0.div_le_mono. lia. Qed.

Lemma pageAt_mono (lines : list str) (totalPages a b : nat) :
  a <= b -> pageAt lines totalPages a <= pageAt lines totalPages b.
Proof.
  intros H. unfold pageAt. apply Nat.min_le_compat_r. apply ceilDiv_mono. lia.
Qed.

Lemma pageAt_bounds (lines : list str) (totalPages i : nat) :
  1 <= totalPages -> i < length lines -> 1 <= pageAt lines totalPages i <= totalPages.
Proof.
  intros HN Hi. unfold pageAt. split; [|apply Nat.le_min_r].
  apply Nat.min_glb; [|exact HN].
  assert (HL : 1 <= ceilDiv (length lines) totalPages).
  { pose proof (PageLines.ceilDiv_covers (length lines) totalPages HN). nia. }
  unfold ceilDiv at 1. apply Nat.div_le_lower_bound; lia.
Qed.

Lemma seq_sorted (a n : nat) : StronglySorted lt (List.seq a n).
Proof.
  revert a. induction n as [|n IH]; intros a; [constructor|].
  simpl. constructor; [apply IH|]. apply Forall_forall. intros x Hx.
  apply in_seq in Hx. lia.
Qed.

Lemma filter_sorted (A : Type) (R : A -> A -> Prop) (f : A -> bool) (l : list A) :
  StronglySorted R l -> StronglySorted R (filter f l).
Proof.
  induction 1 as [|a l Hl IH Ha]; [constructor|]. simpl.
  destruct (f a); [|exact IH]. constructor; [exact IH|].
  apply Forall_forall. intros x Hx. apply filter_In in Hx.
  rewrite Forall_forall in Ha. now apply Ha.
Qed.

Lemma map_sorted (g : nat -> nat) (l : list nat) :
  (forall a b, a <= b -> g a <= g b) ->
  StronglySorted lt l -> StronglySorted le (map g l).
Proof.
  intros Hg. induction 1 as [|a l Hl IH Ha]; [constructor|]. simpl.
  constructor; [exact IH|]. apply Forall_forall. intros y Hy.
  apply in_map_iff in Hy. destruct Hy as (x & <- & Hx).
  rewrite Forall_forall in Ha. apply Hg. specialize (Ha x Hx). lia.
Qed.

End PdfScenes.

(** X8.  The scenes that the PDF parser returns are the scene headings of
    its lines, one for one and in order: scene [k] has for heading the
    trimmed text of the [k]-th line that is not blank, is no page marker and
    is a scene heading, and for page the number computed from the index of
    that line, [min(ceil((i + 1) / linesPerPage), totalPages)].  The pages
    of the scenes never decrease, and with a page count of at least 1 they
    lie between 1 and the page count. *)
Theorem pdf_scenes_are_headings (lines : list JS.str) (totalPages : nat) :
  exists scenes,
    Pdf.parseScenes lines totalPages = Some scenes
    /\ map (fun s => (Pdf.originalHeading s, Pdf.page s)) scenes
       = map (fun i => (JS.trim (nth i lines []), PdfScenes.pageAt lines totalPages i))
             (filter (PdfScenes.opensAt lines) (List.seq 0 (length lines)))
    /\ StronglySorted le (map Pdf.page scenes)
    /\ (1 <= totalPages -> forall s, In s scenes -> 1 <= Pdf.page s <= totalPages).
Proof.
  destruct (PdfLoop.pdf_parseScenes_total lines totalPages) as [scenes E].
  exists scenes. split; [exact E|].
  pose proof (PdfScenes.parse_heads lines totalPages scenes E) as H.
  split; [exact H|].
  assert (Hp : map Pdf.page scenes
               = map (PdfScenes.pageAt lines totalPages)
                     (filter (PdfScenes.opensAt lines) (List.seq 0 (length lines)))).
  { apply (f_equal (map snd)) in H. rewrite !map_map in H. exact H. }
  split.
  - rewrite Hp. apply PdfScenes.map_sorted.
    + intros a b. apply PdfScenes.pageAt_mono.
    + apply PdfScenes.filter_sorted, PdfScenes.seq_sorted.
  - intros HN s Hs. apply (in_map Pdf.page) in Hs. rewrite Hp in Hs.
    apply in_map_iff in Hs. destruct Hs as (i & <- & Hi).
    apply filter_In in Hi. destruct Hi as [Hi _]. apply in_seq in Hi.
    apply PdfScenes.pageAt_bounds; [exact HN|lia].
Qed.

(* ===================================================================== *)
(** * The roster of the PDF parser *)
(* ===================================================================== *)

Module PdfRoster.
Import JS Pdf.

Definition names (m : list Character) : list str := map name m.
Definition sumLines (m : list Character) : nat := list_sum (map lines m).

(** The lines of text counted by the statistics of a scene, and the lines
    of text of its dialogue entries. *)
Definition statsSum (stats : list (str * Stats)) : nat :=
  list_sum (map (fun e => lineCount (snd e)) stats).
Definition textLines (ds : list Dialogue) : nat :=
  list_sum (map (fun d => length (d_lines d)) ds).

Lemma pdf_mapHas_spec (m : list Character) (n : str) :
  mapHas m n = true <-> In n (names m).
Proof.
  unfold mapHas, names. rewrite existsb_exists, in_map_iff. split.
  - intros (c & Hc & E). apply RosterFacts.str_eqb_eq in E. eauto.
  - intros (c & E & Hc). exists c. split; [exact Hc|]. now apply RosterFacts.str_eqb_eq.
Qed.

Lemma pdf_names_mapUpdate (m : list Character) (n : str) (f : Character -> Character) :
  (forall c, name (f c) = name c) -> names (mapUpdate m n f) = names m.
Proof.
  intros Hf. unfold names, mapUpdate. rewrite map_map. apply map_ext.
  intros c. destruct (str_eqb (name c) n); [apply Hf|reflexivity].
Qed.

Lemma pdf_sum_mapUpdate_same (m : list Character) (n : str) (f : Character -> Character) :
  (forall c, lines (f c) = lines c) -> sumLines (mapUpdate m n f) = sumLines m.
Proof.
  intros Hf. unfold sumLines, mapUpdate. rewrite map_map. f_equal. apply map_ext.
  intros c. destruct (str_eqb (name c) n); [apply Hf|reflexivity].
Qed.

Lemma pdf_sum_mapUpdate_absent (m : list Character) (n : str) (f : Character -> Character) :
  ~ In n (names m) -> mapUpdate m n f = m.
Proof.
  induction m as [|c m IH]; [reflexivity|]. simpl. intros H.
  destruct (str_eqb (name c) n) eqn:E.
  - apply RosterFacts.str_eqb_eq in E. tauto.
  - f_equal. apply IH. tauto.
Qed.

Lemma pdf_sum_mapUpdate_add (m : list Character) (n : str) (f : Character -> Character)
      (k : nat) :
  NoDup (names m) -> In n (names m) ->
  (forall c, lines (f c) = lines c + k) ->
  sumLines (mapUpdate m n f) = sumLines m + k.
Proof.
  intros Hnd Hin Hf. induction m as [|c m IH]; [destruct Hin|].
  simpl in Hnd. inversion Hnd as [|? ? Hc Hm]; subst.
  unfold sumLines in *. simpl. destruct (str_eqb (name c) n) eqn:E.
  - apply RosterFacts.str_eqb_eq in E. subst n.
    rewrite (pdf_sum_mapUpdate_absent m (name c) f Hc), Hf. lia.
  - destruct Hin as [Hin|Hin]; [apply RosterFacts.str_eqb_neq in E; tauto|].
    rewrite (IH Hm Hin). lia.
Qed.

Lemma pdf_ensure_names (m : list Character) (n : str) :
  (NoDup (names m) -> NoDup (names (ensure m n)))
  /\ In n (names (ensure m n))
  /\ sumLines (ensure m n) = sumLines m.
Proof.
  unfold ensure. destruct (mapHas m n) eqn:E.
  - apply pdf_mapHas_spec in E. auto.
  - assert (Hn : ~ In n (names m)) by (rewrite <- pdf_mapHas_spec; congruence).
    unfold names, sumLines. rewrite !map_app, list_sum_app. simpl. repeat split.
    + intros H. apply NoDup_app; [exact H|repeat constructor; intros []|].
      intros x Hx [<-|[]]. exact (Hn Hx).
    + apply in_or_app. right. now left.
    + lia.
Qed.

Lemma pdf_addActor_keeps (i : nat) (m : list Character) (n : str) :
  (NoDup (names m) -> NoDup (names (addActor i m n)))
  /\ sumLines (addActor i m n) = sumLines m.
Proof.
  unfold addActor. destruct (pdf_ensure_names m n) as (Hnd & _ & Hsum). split.
  - intros H. rewrite pdf_names_mapUpdate; [now apply Hnd|].
    intros c. now destruct (arr_includes _ _).
  - rewrite pdf_sum_mapUpdate_same; [exact Hsum|].
    intros c. now destruct (arr_includes _ _).
Qed.

Lemma pdf_addStats_adds (m : list Character) (entry : str * Stats) :
  NoDup (names m) ->
  NoDup (names (addStats m entry))
  /\ sumLines (addStats m entry) = sumLines m + lineCount (snd entry).
Proof.
  destruct entry as [n stats]. unfold addStats. intros H.
  destruct (pdf_ensure_names m n) as (Hnd & Hin & Hsum). split.
  - rewrite pdf_names_mapUpdate; [now apply Hnd|reflexivity].
  - rewrite (pdf_sum_mapUpdate_add _ n _ (lineCount stats)); [simpl; lia|now apply Hnd|exact Hin|].
    reflexivity.
Qed.

Lemma pdf_actors_fold (i : nat) (l : list str) (m : list Character) :
  NoDup (names m) ->
  NoDup (names (fold_left (addActor i) l m))
  /\ sumLines (fold_left (addActor i) l m) = sumLines m.
Proof.
  revert m. induction l as [|x l IH]; intros m H; [now split|]. simpl.
  destruct (pdf_addActor_keeps i m x) as [Hnd Hsum].
  destruct (IH (addActor i m x) (Hnd H)) as [I1 I2]. split; [exact I1|congruence].
Qed.

Lemma pdf_stats_fold (l : list (str * Stats)) (m : list Character) :
  NoDup (names m) ->
  NoDup (names (fold_left addStats l m))
  /\ sumLines (fold_left addStats l m) = sumLines m + statsSum l.
Proof.
  revert m. induction l as [|x l IH]; intros m H.
  - split; [exact H|]. unfold statsSum. simpl. lia.
  - simpl. destruct (pdf_addStats_adds m x H) as [Hnd Hsum].
    destruct (IH (addStats m x) Hnd) as [I1 I2]. split; [exact I1|].
    rewrite I2, Hsum. unfold statsSum. simpl. lia.
Qed.

Lemma pdf_scenes_fold (scenes : list Scene) (i : nat) (m : list Character) :
  NoDup (names m) ->
  let m' := snd (fold_left
                   (fun (acc : nat * list Character) scene =>
                      let '(sceneIndex, m) := acc in
                      let m1 := fold_left (addActor sceneIndex) (actors scene) m in
                      let m2 := fold_left addStats (characterStats scene) m1 in
                      (S sceneIndex, m2))
                   scenes (i, m)) in
  NoDup (names m')
  /\ sumLines m' = sumLines m + list_sum (map (fun s => statsSum (characterStats s)) scenes).
Proof.
  revert i m. induction scenes as [|scene scenes IH]; intros i m H; simpl.
  - split; [exact H|lia].
  - destruct (pdf_actors_fold i (actors scene) m H) as [A1 A2].
    destruct (pdf_stats_fold (characterStats scene) _ A1) as [S1 S2].
    destruct (IH (S i) _ S1) as [I1 I2]. split; [exact I1|].
    simpl in I2. rewrite I2, S2, A2. lia.
Qed.

(** ** The statistics of a scene *)

Lemma statsAdd_sum (stats : list (str * Stats)) (n : str) (k : nat) (d : str) :
  statsSum (statsAdd stats n k d) = statsSum stats + k.
Proof.
  unfold statsSum. induction stats as [|[key v] rest IH]; simpl; [lia|].
  destruct (str_eqb key n); simpl; lia.
Qed.

Definition blockOK (d : Dialogue) : Prop :=
  d_lines d <> [] /\ d_text d = join (js " ") (d_lines d).

Definition sceneOK (s : Scene) : Prop :=
  statsSum (characterStats s) = textLines (dialogue s)
  /\ forall d, In d (dialogue s) -> blockOK d.

Definition stateOK (st : PState) : Prop :=
  (forall s, In s (scenes st) -> sceneOK s)
  /\ (forall s, currentScene st = Some s -> sceneOK s).

Lemma pdf_pushSealed_OK (st : PState) :
  stateOK st -> forall s, In s (pushSealed st) -> sceneOK s.
Proof.
  intros [Hs Hc] s. unfold pushSealed.
  destruct (currentScene st) as [scene|]; [|apply Hs].
  intros H. apply in_app_iff in H. destruct H as [H|[<-|[]]]; [now apply Hs|].
  exact (Hc scene eq_refl).
Qed.

Lemma pdf_parseTurn_OK (fuel : nat) (lines : list str) (N lpp i i' : nat) (st st' : PState) :
  stateOK st -> parseTurn fuel lines N lpp i st = Some (st', i') -> stateOK st'.
Proof.
  intros Hst. pose proof Hst as [Hs Hc]. unfold parseTurn. cbv zeta.
  destruct (negb _); [now intros H; inversion H; subst|].
  destruct (isPageNumber _ || isPageFooter _); [now intros H; inversion H; subst|].
  destruct (isSceneHeading _).
  { intros H; inversion H; subst; clear H. split; cbn [scenes currentScene].
    - now apply pdf_pushSealed_OK.
    - intros s E. inversion E; subst. split; [reflexivity|intros d []]. }
  destruct (currentScene st) as [scene|] eqn:Hcur;
    [|intros H; inversion H; subst; split; [exact Hs|now rewrite Hcur]].
  destruct (Hc scene eq_refl) as [Hsum Hblocks].
  destruct (isCharacterName _ _ _).
  - destruct (collectDialogue _ _ _ _) as [[j [dl sl2]]|]; [|discriminate].
    intros H; inversion H; subst; clear H. split; cbn [scenes currentScene]; [exact Hs|].
    intros s E. inversion E; subst; clear E. unfold sceneOK.
    cbn [characterStats dialogue].
    destruct dl as [|l dl]; cbn [length Nat.ltb Nat.leb]; [now split|].
    split.
    + rewrite statsAdd_sum, Hsum. unfold textLines. rewrite map_app, list_sum_app.
      simpl. lia.
    + intros d Hd. apply in_app_iff in Hd. destruct Hd as [Hd|[<-|[]]]; [now apply Hblocks|].
      split; [discriminate|reflexivity].
  - intros H; inversion H; subst; clear H. split; cbn [scenes currentScene]; [exact Hs|].
    intros s E. inversion E; subst; clear E. now split.
Qed.

Lemma pdf_parseScenes_OK (lines : list str) (N : nat) (scenes : list Scene) :
  parseScenes lines N = Some scenes -> forall s, In s scenes -> sceneOK s.
Proof.
  unfold parseScenes, parseScenesWith. cbv zeta.
  destruct (Loop.for_ _ _ _ _ _) as [st|] eqn:E; [|discriminate].
  intros H; inversion H; subst; clear H.
  assert (Hst : stateOK st).
  { eapply LoopFacts.for_preserves with (P := stateOK); [| |exact E].
    - intros j x y j' _ Hx Hb. eapply pdf_parseTurn_OK; eauto.
    - split; [intros s []|discriminate]. }
  intros s Hin. apply in_map_iff in Hin. destruct Hin as (s0 & <- & Hin).
  exact (pdf_pushSealed_OK st Hst s0 Hin).
Qed.

Lemma textLines_app (a b : list Dialogue) : textLines (a ++ b) = textLines a + textLines b.
Proof. unfold textLines. now rewrite map_app, list_sum_app. Qed.

Lemma stats_are_text (scenes : list Scene) :
  (forall s, In s scenes -> sceneOK s) ->
  list_sum (map (fun s => statsSum (characterStats s)) scenes)
  = textLines (flat_map dialogue scenes).
Proof.
  induction scenes as [|s scenes IH]; intros H; [reflexivity|].
  simpl. rewrite textLines_app, IH by (intros x Hx; apply H; now right).
  now rewrite (proj1 (H s (or_introl eq_refl))).
Qed.

Lemma count_le_text (ds : list Dialogue) :
  (forall d, In d ds -> blockOK d) -> length ds <= textLines ds.
Proof.
  induction ds as [|d ds IH]; intros H; [apply Nat.le_refl|].
  unfold textLines in *. simpl.
  destruct (H d (or_introl eq_refl)) as [Hne _].
  assert (1 <= length (d_lines d)) by (destruct (d_lines d); [congruence|simpl; lia]).
  specialize (IH (fun x Hx => H x (or_intror Hx))). lia.
Qed.

Lemma totalDialogue_count (scenes : list Scene) (n : nat) :
  fold_left (fun sum s => sum + length (dialogue s)) scenes n
  = n + length (flat_map dialogue scenes).
Proof.
  revert n. induction scenes as [|s scenes IH]; intros n; simpl; [lia|].
  rewrite IH, length_app. lia.
Qed.

End PdfRoster.

(** X9.  In the PDF parser the [lines] of a character count lines of text:
    for every script the parse returns, the names of the roster are
    distinct, and the sum of [lines] over the roster is the number of lines
    of text of all dialogue entries of all scenes.  Every entry has at
    least one line and its text is its lines joined by spaces, so the sum
    is never below [totalDialogue], the number of entries. *)
Theorem pdf_lines_are_text_lines (scriptText : JS.str) (totalPages : nat) :
  exists scenes characters metadata,
    Pdf.parseScript scriptText totalPages = Some (scenes, characters, metadata)
    /\ NoDup (map Pdf.name characters)
    /\ list_sum (map Pdf.lines characters)
       = list_sum (map (fun d => length (Pdf.d_lines d)) (flat_map Pdf.dialogue scenes))
    /\ Pdf.totalDialogue metadata = length (flat_map Pdf.dialogue scenes)
    /\ Pdf.totalDialogue metadata <= list_sum (map Pdf.lines characters)
    /\ forall s d, In s scenes -> In d (Pdf.dialogue s) ->
         Pdf.d_lines d <> [] /\ Pdf.d_text d = JS.join (JS.js " ") (Pdf.d_lines d).
Proof.
  unfold Pdf.parseScript. cbv zeta.
  set (lines := filter (fun line => JS.truthy (JS.trim line))
                       (JS.split JS.LF (Pdf.cleanScriptText scriptText))).
  destruct (PdfLoop.pdf_parseScenes_total lines totalPages) as [scenes E].
  rewrite E. eexists _, _, _. split; [reflexivity|].
  pose proof (PdfRoster.pdf_parseScenes_OK lines totalPages scenes E) as Hok.
  assert (Hroster : NoDup (PdfRoster.names (Pdf.parseCharacters scenes))
                    /\ PdfRoster.sumLines (Pdf.parseCharacters scenes)
                       = PdfRoster.sumLines []
                         + list_sum (map (fun s => PdfRoster.statsSum (Pdf.characterStats s))
                                         scenes))
    by exact (PdfRoster.pdf_scenes_fold scenes 0 [] (NoDup_nil _)).
  destruct Hroster as [Hnd Hsum].
  assert (Hlines : list_sum (map Pdf.lines (Pdf.parseCharacters scenes))
                   = PdfRoster.textLines (flat_map Pdf.dialogue scenes)).
  { change (PdfRoster.sumLines (Pdf.parseCharacters scenes)
            = PdfRoster.textLines (flat_map Pdf.dialogue scenes)).
    rewrite Hsum. cbn [PdfRoster.sumLines map list_sum Nat.add].
    now apply PdfRoster.stats_are_text. }
  assert (Hcount : Pdf.totalDialogue
                     (Pdf.generateMetadata scenes (Pdf.parseCharacters scenes) totalPages)
                   = length (flat_map Pdf.dialogue scenes)).
  { unfold Pdf.generateMetadata. cbn [Pdf.totalDialogue].
    now rewrite PdfRoster.totalDialogue_count. }
  split; [exact Hnd|]. split; [exact Hlines|]. split; [exact Hcount|]. split.
  - rewrite Hcount, Hlines. apply PdfRoster.count_le_text.
    intros d Hd. apply in_flat_map in Hd. destruct Hd as (s & Hs & Hd).
    exact (proj2 (Hok s Hs) d Hd).
  - intros s d Hs Hd. exact (proj2 (Hok s Hs) d Hd).
Qed.

(* ===================================================================== *)
(** * The scenes and the roster of the document parser *)
(* ===================================================================== *)

Module DocumentFacts.
Import JS Document.

(** ** The roster *)

(** A scene of the document parser, seen as a scene of the hybrid parser. *)
Definition view (s : Scene) : Hybrid.Scene :=
  Hybrid.mkScene (sceneNumber s) (s_pageNumber s) (heading s) (location s) (intExt s)
                 (timeOfDay s) (dialogue s) (actions s) (actors s)
                 (Hybrid.NameArray (actors s)) (text s) (summary s) (Some (props s)).

Lemma doc_fold_view (scenes : list Scene) (i : nat) (m : list Hybrid.CharAcc) :
  fold_left
    (fun (acc : nat * list Hybrid.CharAcc) scene =>
       let '(sceneIndex, m) := acc in
       let m1 := fold_left (Hybrid.addActor sceneIndex) (actors scene) m in
       let m2 := fold_left Hybrid.addDialogue (dialogue scene) m1 in
       (S sceneIndex, m2))
    scenes (i, m)
  = fold_left
      (fun (acc : nat * list Hybrid.CharAcc) scene =>
         let '(sceneIndex, m) := acc in
         let m1 := fold_left (Hybrid.addActor sceneIndex) (Hybrid.actors scene) m in
         let m2 := fold_left Hybrid.addDialogue (Hybrid.dialogue scene) m1 in
         (S sceneIndex, m2))
      (map view scenes) (i, m).
Proof.
  revert i m. induction scenes as [|s scenes IH]; intros i m; [reflexivity|].
  simpl. apply IH.
Qed.

Lemma doc_roster_view (scenes : list Scene) :
  extractCharacters scenes = Hybrid.extractCharacters (map view scenes).
Proof.
  unfold extractCharacters, Hybrid.extractCharacters, foldScenes, Hybrid.foldScenes.
  now rewrite doc_fold_view.
Qed.

Definition docActs (s : Scene) : Prop :=
  forall d, In d (dialogue s) -> In (Hybrid.d_character d) (actors s).

Definition docStateActs (st : AState) : Prop :=
  (forall s, In s (scenes st) -> docActs s)
  /\ (forall s, currentScene st = Some s -> docActs s).

Lemma doc_pushSealed_acts (st : AState) :
  docStateActs st -> forall s, In s (pushSealed st) -> docActs s.
Proof.
  intros [Hs Hc] s. unfold pushSealed.
  destruct (currentScene st) as [scene|]; [|apply Hs].
  intros H. apply in_app_iff in H. destruct H as [H|[<-|[]]]; [now apply Hs|].
  exact (Hc scene eq_refl).
Qed.

Lemma doc_lineTurn_acts (fuel : nat) (page : TextPage) (lines : list str)
      (k : nat) (line : str) (st st' : AState) :
  docStateActs st -> lineTurn fuel page lines k line st = Some st' -> docStateActs st'.
Proof.
  intros Hst. pose proof Hst as [Hs Hc]. unfold lineTurn. cbv zeta.
  destruct (negb _ || _ || _); [now intros H; inversion H; subst|].
  destruct (isSceneHeading _).
  { intros H; inversion H; subst; clear H. split; cbn [scenes currentScene].
    - now apply doc_pushSealed_acts.
    - intros s E. inversion E; subst. intros d []. }
  destruct (currentScene st) as [scene|] eqn:Hcur;
    [|intros H; inversion H; subst; split; [exact Hs|now rewrite Hcur]].
  pose proof (Hc scene eq_refl) as Hact.
  destruct (isCharacterName _ _ _).
  - destruct (Loop.while _ _ _ _ _) as [[j dt]|]; [|discriminate].
    intros H; inversion H; subst; clear H. split; cbn [scenes currentScene]; [exact Hs|].
    intros s E. inversion E; subst; clear E. unfold docActs. cbn [dialogue actors].
    destruct (truthy (trim dt)); intros d Hd.
    + apply in_app_iff in Hd. destruct Hd as [Hd|[<-|[]]].
      * apply RosterFacts.pushNew_keeps. now apply Hact.
      * apply RosterFacts.pushNew_in.
    + apply RosterFacts.pushNew_keeps. now apply Hact.
  - intros H; inversion H; subst; clear H. split; cbn [scenes currentScene]; [exact Hs|].
    intros s E. inversion E; subst; clear E. exact Hact.
Qed.

Lemma doc_analyze_acts (textPages : list TextPage) (scenes : list Scene) :
  analyzeScenes textPages = Some scenes -> forall s, In s scenes -> docActs s.
Proof.
  unfold analyzeScenes, analyzeScenesWith.
  destruct (forEachFrom _ _ _ _) as [st|] eqn:E; [|discriminate].
  intros H; inversion H; subst; clear H.
  apply doc_pushSealed_acts.
  eapply SceneFacts.forEachFrom_preserves with (P := docStateActs); [| |exact E].
  - intros k page s s' _ Hs. unfold pageTurn. intros Hp.
    eapply SceneFacts.forEachFrom_preserves with (P := docStateActs); [| |exact Hp];
      [|assumption].
    intros k' line t t' _ Ht. now apply doc_lineTurn_acts.
  - split; [intros s []|discriminate].
Qed.

Lemma doc_analyze_returns (textPages : list TextPage) :
  exists scenes, analyzeScenes textPages = Some scenes.
Proof.
  destruct (SceneFacts.doc_analyze_total textPages) as (st & Hst & _).
  unfold analyzeScenes, analyzeScenesWith. rewrite Hst. eauto.
Qed.

Lemma doc_total_dialogue (scenes : list Scene) (n : nat) :
  fold_left (fun sum s => sum + length (dialogue s)) scenes n
  = n + length (flat_map dialogue scenes).
Proof.
  revert n. induction scenes as [|s scenes IH]; intros n; simpl; [lia|].
  rewrite IH, length_app. lia.
Qed.

End DocumentFacts.

(* ===================================================================== *)
(** * The roster groups the scenes by character *)
(* ===================================================================== *)

Module RosterShape.
Import JS Hybrid RosterFacts.

(** The indices, counted from [i], of the scenes that have [n] among their
    actors. *)
Fixpoint idxFrom (i : nat) (scenes : list Scene) (n : str) : list nat :=
  match scenes with
  | [] => []
  | s :: rest => (if arr_includes (actors s) n then [i] else []) ++ idxFrom (S i) rest n
  end.

(** The scenes from the first one that has [n] among its actors. *)
Fixpoint since (n : str) (scenes : list Scene) : list Scene :=
  match scenes with
  | [] => []
  | s :: rest => if arr_includes (actors s) n then s :: rest else since n rest
  end.

(** The texts of the dialogue entries of [n], in order. *)
Definition textsIn (n : str) (ds : list Dialogue) : list str :=
  map d_text (filter (fun d => str_eqb (d_character d) n) ds).

Definition textsOf (n : str) (scenes : list Scene) : list str :=
  textsIn n (flat_map dialogue scenes).

Definition known (pre : list Scene) (n : str) : Prop :=
  exists s, In s pre /\ In n (actors s).

Lemma idxFrom_app (i : nat) (a b : list Scene) (n : str) :
  idxFrom i (a ++ b) n = idxFrom i a n ++ idxFrom (i + length a) b n.
Proof.
  revert i. induction a as [|s a IH]; intros i; simpl.
  - now rewrite Nat.add_0_r.
  - rewrite IH, <- app_assoc. replace (S i + length a) with (i + S (length a)) by lia.
    reflexivity.
Qed.

Lemma idxFrom_bounds (i : nat) (ss : list Scene) (n : str) (j : nat) :
  In j (idxFrom i ss n) -> i <= j < i + length ss.
Proof.
  revert i. induction ss as [|s ss IH]; intros i; simpl; [tauto|].
  intros H. apply in_app_iff in H. destruct H as [H|H].
  - destruct (arr_includes _ _); [|destruct H]. destruct H as [<-|[]]. lia.
  - apply IH in H. lia.
Qed.

Lemma idxFrom_length (i : nat) (ss : list Scene) (n : str) :
  length (idxFrom i ss n) <= length ss.
Proof.
  revert i. induction ss as [|s ss IH]; intros i; simpl; [lia|].
  rewrite length_app. specialize (IH (S i)). destruct (arr_includes _ _); simpl; lia.
Qed.

Lemma idxFrom_known (i : nat) (ss : list Scene) (n : str) :
  known ss n -> 1 <= length (idxFrom i ss n).
Proof.
  revert i. induction ss as [|s ss IH]; intros i (x & Hx & Hn); [destruct Hx|].
  simpl. rewrite length_app. destruct Hx as [->|Hx].
  - apply arr_includes_spec in Hn. rewrite Hn. simpl. lia.
  - assert (K : known ss n) by (exists x; tauto). specialize (IH (S i) K). lia.
Qed.

Lemma idxFrom_unknown (i : nat) (ss : list Scene) (n : str) :
  ~ known ss n -> idxFrom i ss n = [].
Proof.
  revert i. induction ss as [|s ss IH]; intros i H; [reflexivity|]. simpl.
  destruct (arr_includes (actors s) n) eqn:E.
  - exfalso. apply H. exists s. split; [now left|now apply arr_includes_spec].
  - simpl. apply IH. intros (x & Hx & Hn). apply H. exists x. split; [now right|exact Hn].
Qed.

Lemma since_unknown (ss : list Scene) (n : str) : ~ known ss n -> since n ss = [].
Proof.
  induction ss as [|s ss IH]; intros H; [reflexivity|]. simpl.
  destruct (arr_includes (actors s) n) eqn:E.
  - exfalso. apply H. exists s. split; [now left|now apply arr_includes_spec].
  - apply IH. intros (x & Hx & Hn). apply H. exists x. split; [now right|exact Hn].
Qed.

Lemma since_snoc (pre : list Scene) (s : Scene) (n : str) :
  known pre n \/ In n (actors s) -> since n (pre ++ [s]) = since n pre ++ [s].
Proof.
  induction pre as [|x pre IH]; intros H; simpl.
  - destruct H as [(y & [] & _)|H]. apply arr_includes_spec in H. now rewrite H.
  - destruct (arr_includes (actors x) n) eqn:E; [reflexivity|].
    apply IH. destruct H as [(y & [->|Hy] & Hn)|H]; [| |now right].
    + apply arr_includes_spec in Hn. congruence.
    + left. now exists y.
Qed.

Lemma known_snoc (pre : list Scene) (s : Scene) (n : str) :
  known (pre ++ [s]) n <-> known pre n \/ In n (actors s).
Proof.
  split.
  - intros (x & Hx & Hn). apply in_app_iff in Hx. destruct Hx as [Hx|[<-|[]]].
    + left. now exists x.
    + now right.
  - intros [(x & Hx & Hn)|H].
    + exists x. split; [apply in_or_app; now left|exact Hn].
    + exists s. split; [apply in_or_app; right; now left|exact H].
Qed.

Lemma textsIn_app (n : str) (a b : list Dialogue) :
  textsIn n (a ++ b) = textsIn n a ++ textsIn n b.
Proof. unfold textsIn. now rewrite filter_app, map_app. Qed.

Lemma textsOf_snoc (n : str) (pre : list Scene) (s : Scene) :
  textsOf n (pre ++ [s]) = textsOf n pre ++ textsIn n (dialogue s).
Proof.
  unfold textsOf. rewrite flat_map_app, textsIn_app. simpl. now rewrite app_nil_r.
Qed.

(** While every speaker is an actor of its scene, nobody speaks before the
    first scene that has them. *)
Lemma textsOf_since (n : str) (ss : list Scene) :
  (forall s, In s ss -> speakersAct s) -> textsOf n (since n ss) = textsOf n ss.
Proof.
  induction ss as [|s ss IH]; intros H; [reflexivity|]. simpl.
  destruct (arr_includes (actors s) n) eqn:E; [reflexivity|].
  rewrite IH by (intros x Hx; apply H; now right).
  unfold textsOf. simpl. rewrite textsIn_app.
  assert (Z : textsIn n (dialogue s) = []); [|now rewrite Z].
  unfold textsIn.
  assert (F : forall ds, (forall d, In d ds -> d_character d <> n) ->
                         filter (fun d => str_eqb (d_character d) n) ds = []).
  { intros ds. induction ds as [|d ds IHd]; intros Hd; [reflexivity|]. simpl.
    rewrite (proj2 (str_eqb_neq _ _) (Hd d (or_introl eq_refl))).
    apply IHd. intros d' Hd'. apply Hd. now right. }
  rewrite F; [reflexivity|].
  intros d Hd <-. specialize (H s (or_introl eq_refl) d Hd).
  apply arr_includes_spec in H. congruence.
Qed.

Lemma mapUpdate_entries (m : list CharAcc) (n : str) (f : CharAcc -> CharAcc) (c' : CharAcc) :
  In c' (mapUpdate m n f) ->
  (In c' m /\ a_name c' <> n) \/ (exists c, In c m /\ a_name c = n /\ c' = f c).
Proof.
  unfold mapUpdate. intros H. apply in_map_iff in H. destruct H as (c & E & Hc).
  destruct (str_eqb (a_name c) n) eqn:En.
  - right. exists c. apply str_eqb_eq in En. auto.
  - left. subst c'. apply str_eqb_neq in En. auto.
Qed.

Lemma includes_snoc (a : list str) (x y : str) :
  arr_includes (a ++ [x]) y = arr_includes a y || str_eqb y x.
Proof. unfold arr_includes. rewrite existsb_app. simpl. now rewrite orb_false_r. Qed.

Section Scene.
Variable pre : list Scene.

(** An entry of the map while the actors of the scene after [pre] are
    added; [da] are the actors added so far. *)
Definition entryA (da : list str) (c : CharAcc) : Prop :=
  a_scenes c = idxFrom 0 pre (a_name c)
               ++ (if arr_includes da (a_name c) then [length pre] else [])
  /\ a_lines c = length (a_dialogue c)
  /\ a_dialogue c = textsOf (a_name c) (since (a_name c) pre).

(** An entry of the map while the dialogue of that scene is added; [dd]
    are the entries added so far. *)
Definition entryD (acts : list str) (dd : list Dialogue) (c : CharAcc) : Prop :=
  a_scenes c = idxFrom 0 pre (a_name c)
               ++ (if arr_includes acts (a_name c) then [length pre] else [])
  /\ a_lines c = length (a_dialogue c)
  /\ a_dialogue c = textsOf (a_name c) (since (a_name c) pre) ++ textsIn (a_name c) dd.

Definition invA (da : list str) (m : list CharAcc) : Prop :=
  NoDup (names m)
  /\ names m = fold_left pushNew (flat_map actors pre ++ da) []
  /\ (forall n, In n (names m) <-> known pre n \/ In n da)
  /\ (forall c, In c m -> entryA da c).

Definition invD (acts : list str) (dd : list Dialogue) (m : list CharAcc) : Prop :=
  NoDup (names m)
  /\ names m = fold_left pushNew (flat_map actors pre ++ acts) []
  /\ (forall n, In n (names m) <-> known pre n \/ In n acts)
  /\ (forall c, In c m -> entryD acts dd c).

Lemma entryA_other (da : list str) (n : str) (c : CharAcc) :
  entryA da c -> a_name c <> n -> entryA (da ++ [n]) c.
Proof.
  intros (H1 & H2 & H3) Hn. split; [|split; assumption].
  rewrite includes_snoc, (proj2 (str_eqb_neq _ _) Hn), orb_false_r. exact H1.
Qed.

Lemma entryA_same (da : list str) (c : CharAcc) :
  entryA da c ->
  entryA (da ++ [a_name c])
         (if existsb (Nat.eqb (length pre)) (a_scenes c) then c
          else mkCharAcc (a_name c) (a_lines c) (a_scenes c ++ [length pre]) (a_dialogue c)).
Proof.
  intros (H1 & H2 & H3).
  destruct (arr_includes da (a_name c)) eqn:E.
  - assert (X : existsb (Nat.eqb (length pre)) (a_scenes c) = true).
    { apply existsb_exists. exists (length pre). split; [|apply Nat.eqb_refl].
      rewrite H1. apply in_or_app. right. now left. }
    rewrite X. split; [|split; assumption].
    now rewrite includes_snoc, E.
  - assert (X : existsb (Nat.eqb (length pre)) (a_scenes c) = false).
    { destruct (existsb _ _) eqn:X; [|reflexivity]. apply existsb_exists in X.
      destruct X as (j & Hj & Ej). apply Nat.eqb_eq in Ej. subst j.
      rewrite H1, app_nil_r in Hj. apply idxFrom_bounds in Hj. lia. }
    rewrite X. split; [|split; assumption]. cbn [a_scenes a_name].
    rewrite includes_snoc, str_eqb_refl, orb_true_r, H1, app_nil_r. reflexivity.
Qed.

Lemma entryA_new (da : list str) (n : str) :
  ~ known pre n -> ~ In n da -> entryA da (mkCharAcc n 0 [] []).
Proof.
  intros Hk Hd. unfold entryA. cbn [a_scenes a_name a_lines a_dialogue].
  rewrite (idxFrom_unknown 0 pre n Hk), (since_unknown pre n Hk).
  destruct (arr_includes da n) eqn:E; [apply arr_includes_spec in E; tauto|].
  repeat split.
Qed.

Lemma pushNew_names (m : list CharAcc) (n : str) :
  (if mapHas m n then names m else names m ++ [n]) = pushNew (names m) n.
Proof.
  unfold pushNew. destruct (mapHas m n) eqn:E.
  - apply mapHas_spec, arr_includes_spec in E. now rewrite E.
  - destruct (arr_includes (names m) n) eqn:F; [|reflexivity].
    apply arr_includes_spec, mapHas_spec in F. congruence.
Qed.

Lemma fold_pushNew_snoc (l : list str) (n : str) (a : list str) :
  fold_left pushNew (l ++ [n]) a = pushNew (fold_left pushNew l a) n.
Proof. now rewrite fold_left_app. Qed.

Lemma addActor_invA (da : list str) (m : list CharAcc) (n : str) :
  invA da m -> invA (da ++ [n]) (addActor (length pre) m n).
Proof.
  intros (Hnd & Hord & Hnames & Hent). split; [now apply addActor_nodup|].
  split; [|split].
  - rewrite addActor_names, pushNew_names, Hord, app_assoc. now rewrite fold_pushNew_snoc.
  - intros x. rewrite addActor_names. destruct (mapHas m n) eqn:E.
    + rewrite Hnames, in_app_iff. simpl. split; [tauto|].
      intros [H|[H|[<-|[]]]]; [tauto|tauto|]. apply Hnames. now apply mapHas_spec.
    + rewrite !in_app_iff, Hnames. simpl. tauto.
  - intros c' Hc'. unfold addActor in Hc'. apply mapUpdate_entries in Hc'.
    assert (Hall : forall c, In c (if mapHas m n then m else m ++ [mkCharAcc n 0 [] []]) ->
                             entryA da c).
    { intros c Hc. destruct (mapHas m n) eqn:E; [now apply Hent|].
      apply in_app_iff in Hc. destruct Hc as [Hc|[<-|[]]]; [now apply Hent|].
      assert (Hn : ~ In n (names m)).
      { intros Hn. apply mapHas_spec in Hn. congruence. }
      rewrite Hnames in Hn. apply entryA_new; tauto. }
    destruct Hc' as [[Hc Hn]|(c & Hc & Hn & ->)].
    + apply entryA_other; [now apply Hall|exact Hn].
    + subst n. apply entryA_same. now apply Hall.
Qed.

Lemma actors_invA (l da : list str) (m : list CharAcc) :
  invA da m -> invA (da ++ l) (fold_left (addActor (length pre)) l m).
Proof.
  revert da m. induction l as [|n l IH]; intros da m H; simpl.
  - now rewrite app_nil_r.
  - replace (da ++ n :: l) with ((da ++ [n]) ++ l) by (rewrite <- app_assoc; reflexivity).
    apply IH. now apply addActor_invA.
Qed.

Lemma entryD_other (acts : list str) (dd : list Dialogue) (d : Dialogue) (c : CharAcc) :
  entryD acts dd c -> a_name c <> d_character d -> entryD acts (dd ++ [d]) c.
Proof.
  intros (H1 & H2 & H3) Hn. split; [exact H1|]. split; [exact H2|].
  rewrite textsIn_app. unfold textsIn at 2. simpl.
  assert (E : str_eqb (d_character d) (a_name c) = false).
  { apply str_eqb_neq. congruence. }
  rewrite E. simpl. now rewrite app_nil_r.
Qed.

Lemma entryD_same (acts : list str) (dd : list Dialogue) (d : Dialogue) (c : CharAcc) :
  entryD acts dd c -> a_name c = d_character d ->
  entryD acts (dd ++ [d])
         (mkCharAcc (a_name c) (a_lines c + 1) (a_scenes c) (a_dialogue c ++ [d_text d])).
Proof.
  intros (H1 & H2 & H3) Hn. unfold entryD. cbn [a_scenes a_name a_lines a_dialogue].
  split; [exact H1|]. split; [rewrite length_app, H2; reflexivity|].
  rewrite textsIn_app. unfold textsIn at 2. simpl.
  rewrite <- Hn, str_eqb_refl. simpl. now rewrite H3, <- app_assoc.
Qed.

Lemma addDialogue_invD (acts : list str) (dd : list Dialogue) (m : list CharAcc)
      (d : Dialogue) :
  invD acts dd m -> invD acts (dd ++ [d]) (addDialogue m d).
Proof.
  intros (Hnd & Hord & Hnames & Hent). rewrite <- (addDialogue_names m d) in Hnd, Hord.
  split; [exact Hnd|]. split; [exact Hord|]. split.
  - intros x. rewrite addDialogue_names. apply Hnames.
  - intros c' Hc'. unfold addDialogue in Hc'. destruct (mapHas m (d_character d)) eqn:E.
    + apply mapUpdate_entries in Hc'. destruct Hc' as [[Hc Hn]|(c & Hc & Hn & ->)].
      * apply entryD_other; [now apply Hent|exact Hn].
      * apply entryD_same; [now apply Hent|exact Hn].
    + apply entryD_other; [now apply Hent|].
      intros Hn. assert (X : In (d_character d) (names m)).
      { rewrite <- Hn. unfold names. now apply in_map. }
      apply mapHas_spec in X. congruence.
Qed.

Lemma dialogue_invD (acts : list str) (l dd : list Dialogue) (m : list CharAcc) :
  invD acts dd m -> invD acts (dd ++ l) (fold_left addDialogue l m).
Proof.
  revert dd m. induction l as [|d l IH]; intros dd m H; simpl.
  - now rewrite app_nil_r.
  - replace (dd ++ d :: l) with ((dd ++ [d]) ++ l) by (rewrite <- app_assoc; reflexivity).
    apply IH. now apply addDialogue_invD.
Qed.

End Scene.

(** The map after the scenes [pre]. *)
Definition inv (pre : list Scene) (m : list CharAcc) : Prop :=
  NoDup (names m)
  /\ names m = fold_left pushNew (flat_map actors pre) []
  /\ (forall n, In n (names m) <-> known pre n)
  /\ (forall c, In c m ->
        a_scenes c = idxFrom 0 pre (a_name c)
        /\ a_lines c = length (a_dialogue c)
        /\ a_dialogue c = textsOf (a_name c) (since (a_name c) pre)).

Lemma scene_inv (pre : list Scene) (s : Scene) (m : list CharAcc) :
  inv pre m ->
  inv (pre ++ [s])
      (fold_left addDialogue (dialogue s) (fold_left (addActor (length pre)) (actors s) m)).
Proof.
  intros (Hnd & Hord & Hnames & Hent).
  assert (A : invA pre [] m).
  { split; [exact Hnd|]. split; [now rewrite app_nil_r|]. split.
    - intros n. rewrite Hnames. simpl. tauto.
    - intros c Hc. destruct (Hent c Hc) as (H1 & H2 & H3).
      split; [|split; assumption]. simpl. now rewrite app_nil_r. }
  apply (actors_invA pre (actors s)) in A. simpl in A.
  assert (D : invD pre (actors s) [] (fold_left (addActor (length pre)) (actors s) m)).
  { destruct A as (A1 & A2 & A3 & A4). split; [exact A1|]. split; [exact A2|].
    split; [exact A3|]. intros c Hc. destruct (A4 c Hc) as (H1 & H2 & H3).
    split; [exact H1|]. split; [exact H2|]. unfold textsIn. simpl. now rewrite app_nil_r. }
  apply (dialogue_invD pre (actors s) (dialogue s)) in D. simpl in D.
  destruct D as (D1 & D2 & D3 & D4). split; [exact D1|]. split; [|split].
  - rewrite D2, flat_map_app. simpl. now rewrite app_nil_r.
  - intros n. rewrite D3. symmetry. apply known_snoc.
  - intros c Hc. destruct (D4 c Hc) as (H1 & H2 & H3).
    assert (K : known pre (a_name c) \/ In (a_name c) (actors s)).
    { apply D3. unfold names. now apply in_map. }
    split; [|split; [exact H2|]].
    + rewrite idxFrom_app. simpl. now rewrite app_nil_r.
    + rewrite (since_snoc pre s (a_name c) K).
      rewrite textsOf_snoc. exact H3.
Qed.

Lemma scenes_inv (rest pre : list Scene) (m : list CharAcc) :
  inv pre m ->
  inv (pre ++ rest)
      (snd (fold_left
              (fun (acc : nat * list CharAcc) scene =>
                 let '(sceneIndex, m) := acc in
                 let m1 := fold_left (addActor sceneIndex) (actors scene) m in
                 let m2 := fold_left addDialogue (dialogue scene) m1 in
                 (S sceneIndex, m2))
              rest (length pre, m))).
Proof.
  revert pre m. induction rest as [|s rest IH]; intros pre m H; simpl.
  - now rewrite app_nil_r.
  - replace (pre ++ s :: rest) with ((pre ++ [s]) ++ rest) by (rewrite <- app_assoc; reflexivity).
    replace (S (length pre)) with (length (pre ++ [s])) by (rewrite length_app; simpl; lia).
    apply IH. now apply scene_inv.
Qed.

Lemma foldScenes_inv (scenes : list Scene) : inv scenes (foldScenes scenes).
Proof.
  apply (scenes_inv scenes [] []). split; [constructor|]. split; [reflexivity|]. split.
  - intros n. split; [intros []|intros (s & [] & _)].
  - intros c [].
Qed.

End RosterShape.

(** X10.  [extractCharacters] groups the scenes by character, for every
    list of scenes.  The names of the roster are the actors of the scenes,
    each once, in the order of their first appearance.  For every character
    of the roster, [sceneIds] are the indices, as strings, of the scenes
    that have the name among their actors, [scenes] is their number, at
    least 1 and at most the number of scenes; [dialogue] holds the texts of
    the character's dialogue entries, in order, from the first scene that
    has the name as an actor, and [lines] is the length of [dialogue].
    When every speaker of every scene is an actor of the scene, [dialogue]
    holds the texts of all the character's dialogue entries. *)
Theorem roster_groups_scenes (scenes : list Hybrid.Scene) :
  map Hybrid.name (Hybrid.extractCharacters scenes)
  = fold_left Hybrid.pushNew (flat_map Hybrid.actors scenes) []
  /\ NoDup (map Hybrid.name (Hybrid.extractCharacters scenes))
  /\ (forall n, In n (map Hybrid.name (Hybrid.extractCharacters scenes))
                <-> exists s, In s scenes /\ In n (Hybrid.actors s))
  /\ (forall c, In c (Hybrid.extractCharacters scenes) ->
        Hybrid.sceneIds c
        = map JS.ofNat (RosterShape.idxFrom 0 scenes (Hybrid.name c))
        /\ Hybrid.c_scenes c = length (Hybrid.sceneIds c)
        /\ 1 <= Hybrid.c_scenes c <= length scenes
        /\ Hybrid.c_dialogue c
           = RosterShape.textsOf (Hybrid.name c) (RosterShape.since (Hybrid.name c) scenes)
        /\ Hybrid.lines c = length (Hybrid.c_dialogue c)
        /\ ((forall s, In s scenes -> RosterFacts.speakersAct s) ->
            Hybrid.c_dialogue c = RosterShape.textsOf (Hybrid.name c) scenes)).
Proof.
  destruct (RosterShape.foldScenes_inv scenes) as (Hnd & Hord & Hnames & Hent).
  rewrite RosterFacts.roster_names.
  split; [exact Hord|]. split; [exact Hnd|]. split; [exact Hnames|].
  intros c Hc. unfold Hybrid.extractCharacters in Hc. apply in_map_iff in Hc.
  destruct Hc as (a & <- & Ha). destruct (Hent a Ha) as (H1 & H2 & H3).
  cbn [Hybrid.sceneIds Hybrid.c_scenes Hybrid.c_dialogue Hybrid.lines Hybrid.name].
  assert (K : RosterShape.known scenes (Hybrid.a_name a)).
  { apply Hnames. unfold RosterFacts.names. now apply in_map. }
  split; [now rewrite H1|]. split; [now rewrite length_map|].
  split; [|split; [exact H3|split; [exact H2|]]].
  - rewrite H1. split; [now apply RosterShape.idxFrom_known|].
    apply RosterShape.idxFrom_length.
  - intros Hact. rewrite H3. now apply RosterShape.textsOf_since.
Qed.

Module DocRoster.
Import JS Document.

Lemma doc_texts_view (n : str) (scenes : list Scene) :
  RosterShape.textsOf n (map DocumentFacts.view scenes)
  = map Hybrid.d_text
        (filter (fun d => str_eqb (Hybrid.d_character d) n) (flat_map dialogue scenes)).
Proof.
  unfold RosterShape.textsOf, RosterShape.textsIn. do 2 f_equal.
  induction scenes as [|s scenes IH]; simpl; [reflexivity|]. now rewrite IH.
Qed.

Lemma doc_blocks_view (scenes : list Scene) :
  RosterFacts.blocksOf (fun _ => true) (map DocumentFacts.view scenes)
  = length (flat_map dialogue scenes).
Proof.
  induction scenes as [|s scenes IH]; simpl; [reflexivity|].
  rewrite IH, length_app. unfold RosterFacts.blocksFor.
  rewrite (forallb_filter_id (fun _ : Hybrid.Dialogue => true));
    [reflexivity|apply forallb_forall; reflexivity].
Qed.

Lemma rosterLines_sum (roster : list Hybrid.Character) :
  RosterFacts.rosterLines (fun _ => true) roster = list_sum (map Hybrid.lines roster).
Proof. induction roster as [|c r IH]; simpl; [reflexivity|]. now rewrite <- IH. Qed.

End DocRoster.

(** X11.  The document parser keeps every dialogue entry in the roster.
    For every list of text pages [analyzeScenes] returns; in the returned
    scenes every speaker is an actor of its scene; the roster of
    [extractCharacters] has one entry per name; the entry of a character
    holds the texts of all the dialogue entries of that name, in order, and
    [lines] is their number; and the [lines] of the roster add up to
    [totalDialogue] of [generateMetadata], the number of dialogue entries of
    the scenes. *)
Theorem doc_roster_keeps_dialogue (textPages : list Document.TextPage) :
  exists scenes,
    Document.analyzeScenes textPages = Some scenes
    /\ (forall s d, In s scenes -> In d (Document.dialogue s) ->
          In (Hybrid.d_character d) (Document.actors s))
    /\ NoDup (map Hybrid.name (Document.extractCharacters scenes))
    /\ (forall c, In c (Document.extractCharacters scenes) ->
          Hybrid.c_dialogue c
          = map Hybrid.d_text
                (filter (fun d => JS.str_eqb (Hybrid.d_character d) (Hybrid.name c))
                        (flat_map Document.dialogue scenes))
          /\ Hybrid.lines c = length (Hybrid.c_dialogue c))
    /\ list_sum (map Hybrid.lines (Document.extractCharacters scenes))
       = Document.totalDialogue
           (Document.generateMetadata textPages scenes (Document.extractCharacters scenes))
    /\ Document.totalDialogue
         (Document.generateMetadata textPages scenes (Document.extractCharacters scenes))
       = length (flat_map Document.dialogue scenes).
Proof.
  destruct (DocumentFacts.doc_analyze_returns textPages) as (scenes & Hs).
  exists scenes. split; [exact Hs|].
  pose proof (DocumentFacts.doc_analyze_acts textPages scenes Hs) as Hact.
  assert (Hview : forall s, In s (map DocumentFacts.view scenes) -> RosterFacts.speakersAct s).
  { intros s H. apply in_map_iff in H. destruct H as (x & <- & Hx). exact (Hact x Hx). }
  split; [intros s d Hsin Hd; exact (Hact s Hsin d Hd)|].
  rewrite DocumentFacts.doc_roster_view.
  destruct (RosterShape.foldScenes_inv (map DocumentFacts.view scenes))
    as (Hnd & _ & _ & Hent).
  split; [now rewrite RosterFacts.roster_names|]. split; [|split].
  - intros c Hc. unfold Hybrid.extractCharacters in Hc. apply in_map_iff in Hc.
    destruct Hc as (a & <- & Ha). destruct (Hent a Ha) as (_ & H2 & H3).
    cbn [Hybrid.c_dialogue Hybrid.lines Hybrid.name]. split; [|exact H2].
    now rewrite H3, RosterShape.textsOf_since, DocRoster.doc_texts_view.
  - rewrite <- DocRoster.rosterLines_sum, RosterFacts.rosterLines_extract.
    destruct (RosterFacts.foldScenes_spec (fun _ => true) _ Hview) as [_ ->].
    rewrite DocRoster.doc_blocks_view. unfold Document.generateMetadata.
    cbn [Document.totalDialogue]. now rewrite DocumentFacts.doc_total_dialogue.
  - unfold Document.generateMetadata. cbn [Document.totalDialogue].
    now rewrite DocumentFacts.doc_total_dialogue.
Qed.

(* ===================================================================== *)
(** * The scenes of the document parser, line by line *)
(* ===================================================================== *)

Module DocScenes.
Import JS Document.

(** The lines that the callback of [analyzeScenes] returns on at once. *)
Definition skipped (line : str) : bool :=
  negb (truthy (trim line)) || isPageNumber (trim line) || isPageFooter (trim line).

Definition docOpens (line : str) : bool :=
  negb (skipped line) && isSceneHeading (trim line).

(** The lines of the pages, in order, each with the number of its page. *)
Definition docLines (textPages : list TextPage) : list (str * nat) :=
  flat_map (fun page => map (fun l => (l, pageNumber page)) (split LF (rawText page)))
           textPages.

(** The lines before the first heading, and the lines of each heading:
    the trimmed heading, then the lines up to the next heading. *)
Fixpoint cut (ls : list str) : list str * list (list str) :=
  match ls with
  | [] => ([], [])
  | l :: r =>
      let (pre, segs) := cut r in
      if isSceneHeading (trim l) then ([], (trim l :: pre) :: segs) else (l :: pre, segs)
  end.

Definition segments (textPages : list TextPage) : list (list str) :=
  snd (cut (filter (fun l => negb (skipped l)) (map fst (docLines textPages)))).

(** What became of a line of a scene. *)
Definition accounted (s : Scene) (t : str) : Prop :=
  In t (actions s) \/ isTransition t = true \/ isParenthetical t = true
  \/ In (cleanCharacterName t) (actors s).

Definition body (s : Scene) (seg : list str) : Prop :=
  exists rest,
    seg = heading s :: rest
    /\ (forall l, In l rest -> accounted s (trim l))
    /\ (forall a, In a (actions s) -> exists l, In l rest /\ a = trim l).

Definition sceneSeg (s : Scene) (seg : list str) : Prop :=
  text s = Some (join [LF] seg) /\ body s seg.

Definition docFields (s : Scene) : Prop :=
  isSceneHeading (heading s) = true
  /\ parseSceneHeading (heading s)
     = Hybrid.mkHeading (intExt s) (location s) (timeOfDay s)
  /\ NoDup (actors s) /\ NoDup (props s).

Definition sealedOK (s : Scene) : Prop :=
  docFields s /\ exists t, summary s = Some t /\ t <> [].

Definition hp (s : Scene) : str * nat := (heading s, s_pageNumber s).

(** The scene loop, reduced to the lines: the line lists of the scenes
    pushed, the lines of the current scene, the headings seen. *)
Record Abs : Type := mkAbs {
  closed : list (list str);
  opened : option (list str);
  heads : list (str * nat)
}.

Definition optList (A : Type) (o : option A) : list A :=
  match o with Some x => [x] | None => [] end.

Definition absStep (a : Abs) (lp : str * nat) : Abs :=
  if skipped (fst lp) then a else
  if isSceneHeading (trim (fst lp)) then
    mkAbs (closed a ++ optList _ (opened a)) (Some [trim (fst lp)])
          (heads a ++ [(trim (fst lp), snd lp)])
  else
    match opened a with
    | None => a
    | Some ls => mkAbs (closed a) (Some (ls ++ [fst lp])) (heads a)
    end.

Lemma abs_heads (ls : list (str * nat)) (a : Abs) :
  heads (fold_left absStep ls a)
  = heads a ++ map (fun lp => (trim (fst lp), snd lp))
                   (filter (fun lp => docOpens (fst lp)) ls).
Proof.
  revert a. induction ls as [|lp ls IH]; intros a; [now rewrite app_nil_r|].
  cbn [fold_left filter]. rewrite IH. unfold absStep, docOpens.
  destruct (skipped (fst lp)); [reflexivity|]. cbn [negb andb].
  destruct (isSceneHeading (trim (fst lp))).
  - cbn [heads map]. now rewrite <- app_assoc.
  - now destruct (opened a).
Qed.

Lemma abs_cut (ls : list (str * nat)) (a : Abs) :
  closed (fold_left absStep ls a) ++ optList _ (opened (fold_left absStep ls a))
  = closed a
    ++ match opened a with
       | Some c =>
           (c ++ fst (cut (filter (fun l => negb (skipped l)) (map fst ls))))
             :: snd (cut (filter (fun l => negb (skipped l)) (map fst ls)))
       | None => snd (cut (filter (fun l => negb (skipped l)) (map fst ls)))
       end.
Proof.
  revert a. induction ls as [|lp ls IH]; intros a.
  - cbn [fold_left map filter cut fst snd]. destruct (opened a); [|reflexivity].
    now rewrite app_nil_r.
  - cbn [fold_left map filter]. rewrite IH. unfold absStep.
    destruct (skipped (fst lp)); [reflexivity|]. cbn [negb cut].
    destruct (cut (filter (fun l => negb (skipped l)) (map fst ls))) as [pre segs].
    destruct (isSceneHeading (trim (fst lp))).
    + cbn [closed opened fst snd]. rewrite <- app_assoc.
      destruct (opened a); cbn [optList app]; [now rewrite app_nil_r|reflexivity].
    + destruct (opened a) eqn:Eo; cbn [closed opened fst snd]; [|now rewrite Eo].
      now rewrite <- app_assoc.
Qed.

Lemma fold_flat_map (A B C : Type) (g : C -> B -> C) (h : A -> list B) (l : list A) (c : C) :
  fold_left (fun c x => fold_left g (h x) c) l c = fold_left g (flat_map h l) c.
Proof.
  revert c. induction l as [|x l IH]; intros c; [reflexivity|].
  cbn [fold_left flat_map]. now rewrite fold_left_app, IH.
Qed.

Lemma fold_over_map (A B C : Type) (g : C -> B -> C) (h : A -> B) (l : list A) (c : C) :
  fold_left g (map h l) c = fold_left (fun c x => g c (h x)) l c.
Proof. revert c. induction l as [|x l IH]; intros c; [reflexivity|]. apply IH. Qed.

Lemma forEachFrom_simulates (A St B : Type) (R : St -> B -> Prop)
      (f : nat -> A -> St -> option St) (g : B -> A -> B)
      (l : list A) (i : nat) (st st' : St) (b : B) :
  (forall k x s s' b, In x l -> R s b -> f k x s = Some s' -> R s' (g b x)) ->
  R st b -> forEachFrom f i l st = Some st' -> R st' (fold_left g l b).
Proof.
  revert i st b. induction l as [|x l IH]; intros i st b Hf Hst H; simpl in H.
  - now inversion H; subst.
  - destruct (f i x st) as [s1|] eqn:E; [|discriminate H].
    cbn [fold_left]. eapply IH; [| |exact H].
    + intros k y s s' b' Hy. apply Hf. now right.
    + eapply Hf; eauto. now left.
Qed.

Lemma doc_summary_not_nil (scene : Scene) : generateSceneSummary scene <> [].
Proof.
  unfold generateSceneSummary. cbv zeta.
  destruct (trim _) as [|c t]; simpl; discriminate.
Qed.

Lemma fold_pushNew_nodup (l acc : list str) :
  NoDup acc -> NoDup (fold_left Hybrid.pushNew l acc).
Proof.
  revert acc. induction l as [|x l IH]; intros acc H; [exact H|].
  cbn [fold_left]. apply IH. now apply HybridScenes.pushNew_nodup.
Qed.

(** The state of the loop against the lines read so far. *)
Definition sim (st : AState) (a : Abs) : Prop :=
  Forall2 sceneSeg (scenes st) (closed a)
  /\ (forall s, In s (scenes st) -> sealedOK s)
  /\ match currentScene st, opened a with
     | Some c, Some ls => sceneLines st = ls /\ body c ls /\ docFields c
     | None, None => True
     | _, _ => False
     end
  /\ heads a = map hp (scenes st) ++ map hp (optList _ (currentScene st)).

Lemma seal_sim (c : Scene) (ls : list str) :
  body c ls -> docFields c ->
  sceneSeg (seal c ls) ls /\ sealedOK (seal c ls) /\ hp (seal c ls) = hp c.
Proof.
  intros Hb Hf. unfold seal, sceneSeg, sealedOK, docFields, body, accounted, hp in *.
  cbv zeta. cbn [heading intExt location timeOfDay actors props actions text summary
                 s_pageNumber].
  split; [split; [reflexivity|exact Hb]|]. split; [|reflexivity].
  split; [exact Hf|]. eexists. split; [reflexivity|apply doc_summary_not_nil].
Qed.

Lemma pushSealed_sim (st : AState) (a : Abs) :
  sim st a ->
  Forall2 sceneSeg (pushSealed st) (closed a ++ optList _ (opened a))
  /\ (forall s, In s (pushSealed st) -> sealedOK s)
  /\ heads a = map hp (pushSealed st).
Proof.
  intros (H1 & H2 & H3 & H4). unfold pushSealed.
  destruct (currentScene st) as [c|], (opened a) as [ls|];
    [|destruct H3|destruct H3|].
  - destruct H3 as (E & Hb & Hf). rewrite E.
    destruct (seal_sim c ls Hb Hf) as (S1 & S2 & S3). split; [|split].
    + apply Forall2_app; [exact H1|]. constructor; [exact S1|constructor].
    + intros s Hs. apply in_app_iff in Hs. destruct Hs as [Hs|[<-|[]]]; [now apply H2|exact S2].
    + rewrite H4, map_app. cbn [optList map]. now rewrite S3.
  - cbn [optList map] in *. rewrite app_nil_r in *. auto.
Qed.

Lemma heading_eta (h : Hybrid.Heading) :
  Hybrid.mkHeading (Hybrid.h_intExt h) (Hybrid.h_location h) (Hybrid.h_time h) = h.
Proof. now destruct h. Qed.

Lemma lineTurn_sim (fuel : nat) (page : TextPage) (lines : list str) (k : nat)
      (line : str) (st st' : AState) (a : Abs) :
  sim st a -> lineTurn fuel page lines k line st = Some st' ->
  sim st' (absStep a (line, pageNumber page)).
Proof.
  intros Hsim. pose proof Hsim as (H1 & H2 & H3 & H4). unfold lineTurn, absStep, skipped.
  cbv zeta. cbn [fst snd].
  destruct (negb _ || _ || _); [now intros H; inversion H; subst|].
  destruct (isSceneHeading (trim line)) eqn:Hh.
  { intros H; inversion H; subst; clear H.
    destruct (pushSealed_sim st a Hsim) as (P1 & P2 & P3).
    split; [exact P1|]. split; [exact P2|]. cbn [scenes currentScene sceneLines opened heads].
    split.
    - split; [reflexivity|]. split.
      + exists []. cbn [heading actions]. split; [reflexivity|]. split; intros x [].
      + unfold docFields. cbn [heading intExt location timeOfDay actors props].
        split; [exact Hh|]. split; [now rewrite heading_eta|]. split; constructor.
    - rewrite P3. reflexivity. }
  destruct (currentScene st) as [c|] eqn:Hcur.
  2:{ intros H; inversion H; subst; clear H. destruct (opened a); [destruct H3|].
      exact Hsim. }
  destruct (opened a) as [ls|]; [|destruct H3]. destruct H3 as (E & Hb & Hf).
  assert (Hgoal : forall actors1 dialogue1 (cue : bool),
             (cue = true -> In (cleanCharacterName (trim line)) actors1) ->
             (forall x, In x (actors c) -> In x actors1) -> NoDup actors1 ->
             sim (mkAState (scenes st)
                    (Some (mkScene (sceneNumber c) (s_pageNumber c) (heading c) (location c)
                             (intExt c) (timeOfDay c) dialogue1
                             (if negb cue && negb (isTransition (trim line))
                                 && negb (isParenthetical (trim line))
                              then actions c ++ [trim line] else actions c)
                             actors1
                             (fold_left Hybrid.pushNew (extractPropsFromLine (trim line))
                                        (props c))
                             (text c) (summary c)))
                    (sceneLines st ++ [line]) (nextNumber st))
                 (mkAbs (closed a) (Some (ls ++ [line])) (heads a))).
  { intros actors1 dialogue1 cue Hcue Hkeep Hnd.
    split; [exact H1|]. split; [exact H2|].
    cbn [scenes currentScene sceneLines opened heads closed]. split.
    - split; [now rewrite E|]. split.
      + destruct Hb as (rest & -> & Hacc & Hact). exists (rest ++ [line]).
        cbn [heading actions actors]. split; [reflexivity|].
        unfold accounted. cbn [actions actors]. split.
        * intros l Hl. apply in_app_iff in Hl. destruct Hl as [Hl|[<-|[]]].
          -- destruct (Hacc l Hl) as [A|[A|[A|A]]]; [left|tauto|tauto|right; right; right; auto].
             destruct (negb cue && _ && _); [apply in_or_app; now left|exact A].
          -- destruct cue; [right; right; right; now apply Hcue|]. cbn [negb andb].
             destruct (isTransition (trim line)); [tauto|].
             destruct (isParenthetical (trim line)); [tauto|]. cbn [negb andb].
             left. apply in_or_app. right. now left.
        * intros x Hx.
          assert (Hx' : In x (actions c) \/ x = trim line).
          { destruct (negb cue && _ && _); [|now left].
            apply in_app_iff in Hx. destruct Hx as [Hx|[<-|[]]]; auto. }
          destruct Hx' as [Hx'| ->].
          -- destruct (Hact x Hx') as (l & Hl & ->). exists l. split; [|reflexivity].
             apply in_or_app. now left.
          -- exists line. split; [apply in_or_app; right; now left|reflexivity].
      + destruct Hf as (F1 & F2 & F3 & F4). unfold docFields.
        cbn [heading intExt location timeOfDay actors props].
        split; [exact F1|]. split; [exact F2|]. split; [exact Hnd|].
        now apply fold_pushNew_nodup.
    - rewrite H4. reflexivity. }
  destruct (isCharacterName _ _ _).
  - destruct (Loop.while _ _ _ _ _) as [[j dt]|]; [|discriminate].
    intros H; inversion H; subst; clear H.
    apply (Hgoal _ _ true).
    + intros _. apply RosterFacts.pushNew_in.
    + intros x Hx. now apply RosterFacts.pushNew_keeps.
    + apply HybridScenes.pushNew_nodup. apply Hf.
  - intros H; inversion H; subst; clear H.
    apply (Hgoal _ _ false); [discriminate|auto|apply Hf].
Qed.

Lemma doc_analyze_sim (textPages : list TextPage) (scenes : list Scene) :
  analyzeScenes textPages = Some scenes ->
  Forall2 sceneSeg scenes (segments textPages)
  /\ (forall s, In s scenes -> sealedOK s)
  /\ map hp scenes
     = map (fun lp => (trim (fst lp), snd lp))
           (filter (fun lp => docOpens (fst lp)) (docLines textPages)).
Proof.
  unfold analyzeScenes, analyzeScenesWith.
  destruct (forEachFrom _ _ _ _) as [st|] eqn:E; [|discriminate].
  intros H; inversion H; subst; clear H.
  assert (S0 : sim initial (mkAbs [] None [])).
  { split; [constructor|]. split; [intros s []|]. split; [exact I|reflexivity]. }
  pose proof (forEachFrom_simulates _ _ _ sim
                (fun (_ : nat) page => pageTurn (S (maxLines textPages)) page)
                (fun a page => fold_left absStep
                                 (map (fun l => (l, pageNumber page)) (split LF (rawText page)))
                                 a)
                textPages 0 initial st (mkAbs [] None [])) as Hsim.
  rewrite fold_flat_map in Hsim.
  assert (Hfin : sim st (fold_left absStep (docLines textPages) (mkAbs [] None []))).
  { apply Hsim; [|exact S0|exact E].
    intros k page s s' b _ Hs Hp. unfold pageTurn in Hp.
    rewrite fold_over_map.
    apply (forEachFrom_simulates _ _ _ sim
             (lineTurn (S (maxLines textPages)) page (split LF (rawText page)))
             (fun a l => absStep a (l, pageNumber page))
             (split LF (rawText page)) 0 s s' b); [|exact Hs|exact Hp].
    intros k' line t t' b' _ Ht Hl. now apply (lineTurn_sim _ _ _ _ _ _ _ _ Ht Hl). }
  destruct (pushSealed_sim _ _ Hfin) as (P1 & P2 & P3).
  rewrite abs_cut in P1. rewrite abs_heads in P3. cbn [closed opened heads app] in P1, P3.
  split; [exact P1|]. split; [exact P2|]. symmetry. exact P3.
Qed.

End DocScenes.

(** X12.  The scenes returned by the document parser are the heading lines
    of the pages, one for one and in order: the [heading] and [pageNumber]
    of the scenes are the trimmed line and the page number of the lines, over
    all pages, that are not blank, not a page number, not a page footer, and
    that [isSceneHeading] accepts.  In every returned scene, [location],
    [intExt] and [timeOfDay] are what [parseSceneHeading] returns for the
    heading, [actors] and [props] hold no name twice, and [summary] is set
    and not empty. *)
Theorem doc_scenes_are_headings (textPages : list Document.TextPage) :
  exists scenes,
    Document.analyzeScenes textPages = Some scenes
    /\ map (fun s => (Document.heading s, Document.s_pageNumber s)) scenes
       = map (fun lp => (JS.trim (fst lp), snd lp))
             (filter (fun lp => DocScenes.docOpens (fst lp)) (DocScenes.docLines textPages))
    /\ (forall s, In s scenes ->
          Document.isSceneHeading (Document.heading s) = true
          /\ Document.parseSceneHeading (Document.heading s)
             = Hybrid.mkHeading (Document.intExt s) (Document.location s)
                                (Document.timeOfDay s)
          /\ NoDup (Document.actors s) /\ NoDup (Document.props s)
          /\ exists t, Document.summary s = Some t /\ t <> []).
Proof.
  destruct (DocumentFacts.doc_analyze_returns textPages) as (scenes & Hs).
  exists scenes. split; [exact Hs|].
  destruct (DocScenes.doc_analyze_sim textPages scenes Hs) as (_ & H2 & H3).
  split; [exact H3|].
  intros s Hin. destruct (H2 s Hin) as ((F1 & F2 & F3 & F4) & Hsum).
  repeat split; assumption.
Qed.

(** X13.  The document parser drops no line of a scene.  The i-th
    returned scene belongs to the i-th heading of the line stream (the lines
    of all pages without the blank lines, page numbers and page footers):
    its [text] is the trimmed heading and the lines up to the next heading,
    as they are, joined by line feeds; the lines of the script before the
    first heading are in no scene.  Every line of a scene after its heading,
    once trimmed, is one of the scene's [actions], or a transition, or a
    parenthetical, or a cue whose cleaned name is one of the scene's
    [actors]; and every action of the scene is one of these lines,
    trimmed. *)
Theorem doc_scene_text_segments (textPages : list Document.TextPage) :
  exists scenes,
    Document.analyzeScenes textPages = Some scenes
    /\ Forall2
         (fun s seg =>
            Document.text s = Some (JS.join [JS.LF] seg)
            /\ exists rest,
                seg = Document.heading s :: rest
                /\ (forall l, In l rest ->
                      In (JS.trim l) (Document.actions s)
                      \/ Document.isTransition (JS.trim l) = true
                      \/ Document.isParenthetical (JS.trim l) = true
                      \/ In (Document.cleanCharacterName (JS.trim l)) (Document.actors s))
                /\ (forall a, In a (Document.actions s) ->
                      exists l, In l rest /\ a = JS.trim l))
         scenes (DocScenes.segments textPages).
Proof.
  destruct (DocumentFacts.doc_analyze_returns textPages) as (scenes & Hs).
  exists scenes. split; [exact Hs|].
  destruct (DocScenes.doc_analyze_sim textPages scenes Hs) as (H1 & _ & _).
  exact H1.
Qed.

(* ===================================================================== *)
(** * The lines of a page, as the editor shows them *)
(* ===================================================================== *)

Module PageView.
Import JS Hybrid.

(** The lines that [analyzePageLines] keeps. *)
Definition shown (l : str) : bool :=
  truthy l && negb (isPageNumber l) && negb (isPageFooter l).

Definition isHeadingType (t : LineType) : bool :=
  match t with scene_heading => true | _ => false end.

Lemma cue_looks_like (line : str) (allLines : list str) (i : nat) :
  isCharacterName line allLines i = true -> looksLikeCharacterName line = true.
Proof.
  unfold isCharacterName, looksLikeCharacterName. cbv zeta.
  destruct (negb (truthy (trim line))); [discriminate|].
  destruct ((length (trim line) <? 2) || (50 <? length (trim line))); [discriminate|].
  destruct (isPageNumber (trim line) || isPageFooter (trim line)); [discriminate|].
  destruct (isSceneHeading (trim line) || isTransition (trim line)); [discriminate|].
  destruct (truthy (trim (Regex.replaceAll Pat.parens [] (trim line))));
    cbn [negb orb]; [|discriminate].
  destruct (length (trim (Regex.replaceAll Pat.parens [] (trim line))) <? 2); [discriminate|].
  destruct (Regex.test (Regex.Cls Pat.upper) (trim (Regex.replaceAll Pat.parens [] (trim line))));
    cbn [negb]; [|discriminate].
  destruct (Regex.test characterPattern (trim (Regex.replaceAll Pat.parens [] (trim line))));
    cbn [negb]; [|discriminate].
  destruct (includes (trim (Regex.replaceAll Pat.parens [] (trim line))) (js ".")
            && negb (Regex.test initials (trim (Regex.replaceAll Pat.parens [] (trim line)))));
    [discriminate|].
  reflexivity.
Qed.

(** What [isCharacterName] asks of the next line. *)
Lemma cue_next_line (line : str) (allLines : list str) (i : nat) :
  isCharacterName line allLines i = true ->
  exists next,
    nth_error allLines (i + 1) = Some next
    /\ truthy (trim next) = true
    /\ looksLikeCharacterName (trim next) = false
    /\ isSceneHeading (trim next) = false.
Proof.
  unfold isCharacterName. cbv zeta.
  repeat match goal with
         | |- (if ?b then false else _) = true -> _ => destruct b; [discriminate|]
         end.
  destruct (nth_error allLines (i + 1)) as [next|]; [|discriminate].
  destruct (truthy (trim next)) eqn:E1; cbn [negb]; [|discriminate].
  destruct (looksLikeCharacterName (trim next)) eqn:E2; [discriminate|].
  destruct (isSceneHeading (trim next)) eqn:E3; [discriminate|].
  intros _. exists next. auto.
Qed.

Lemma mapi_from_nth (A B : Type) (f : nat -> A -> B) (l : list A) (i k : nat) :
  nth_error (mapi_from f i l) k = option_map (f (i + k)) (nth_error l k).
Proof.
  revert i k. induction l as [|x l IH]; intros i [|k]; simpl; try reflexivity.
  - now rewrite Nat.add_0_r.
  - rewrite IH. now replace (S i + k) with (i + S k) by lia.
Qed.

Lemma mapi_from_index (f : nat -> str -> LineType) (l : list str) (i : nat) :
  map fl_index (mapi_from (fun index line => mkFormattedLine index (f index line) line) i l)
  = List.seq i (length l).
Proof. revert i. induction l as [|x l IH]; intros i; simpl; [reflexivity|]. now rewrite IH. Qed.

Lemma mapi_from_text (f : nat -> str -> LineType) (l : list str) (i : nat) :
  map fl_text (mapi_from (fun index line => mkFormattedLine index (f index line) line) i l)
  = l.
Proof. revert i. induction l as [|x l IH]; intros i; simpl; [reflexivity|]. now rewrite IH. Qed.

Lemma mapi_from_headings (ls : list str) (l : list str) (i : nat) :
  map fl_text
      (filter (fun f => isHeadingType (fl_type f))
              (mapi_from (fun index line => mkFormattedLine index (detectLineType line ls index) line)
                         i l))
  = filter isSceneHeading l.
Proof.
  revert i. induction l as [|x l IH]; intros i; [reflexivity|].
  cbn [mapi_from filter fl_type]. unfold detectLineType at 1.
  destruct (isSceneHeading x).
  - cbn [isHeadingType map fl_text]. now rewrite IH.
  - rewrite <- (IH (S i)).
    destruct (isTransition x); [reflexivity|]. destruct (isParenthetical x); [reflexivity|].
    now destruct (isCharacterName x ls i).
Qed.

Lemma shown_trimmed (pageText : str) (l : str) :
  In l (filter shown (map trim (split LF pageText))) -> trim l = l.
Proof.
  intros H. apply filter_In in H. destruct H as [H _]. apply in_map_iff in H.
  destruct H as (x & <- & _). apply NormalizeFacts.trim_idem.
Qed.

(** ** The page view against the scenes *)

Lemma filter_twice (A : Type) (p q : A -> bool) (l : list A) :
  filter p (filter q l) = filter (fun x => q x && p x) l.
Proof.
  induction l as [|x l IH]; [reflexivity|]. simpl.
  destruct (q x); simpl; [destruct (p x)|]; now rewrite IH.
Qed.

Lemma filter_mapped (A B : Type) (p : B -> bool) (f : A -> B) (l : list A) :
  filter p (map f l) = map f (filter (fun x => p (f x)) l).
Proof.
  induction l as [|x l IH]; [reflexivity|]. simpl. destruct (p (f x)); simpl; now rewrite IH.
Qed.

Lemma page_headings (page : Page) :
  map HybridScenes.lineOf
      (filter HybridScenes.opens
              (map (fun line => mkLineObj line (pageNumber page))
                   (filter truthy (map trim (split LF (rawText page))))))
  = map (fun f => (fl_text f, pageNumber page))
        (filter (fun f => isHeadingType (fl_type f)) (analyzePageLines (rawText page))).
Proof.
  rewrite <- (map_map fl_text (fun t => (t, pageNumber page))).
  unfold analyzePageLines, mapi. cbv zeta. rewrite mapi_from_headings.
  rewrite filter_mapped, map_map. unfold HybridScenes.lineOf, HybridScenes.opens.
  cbn [text lo_pageNumber]. rewrite !filter_twice. f_equal. apply filter_ext.
  intros l. destruct (truthy l); [|reflexivity]. cbn [andb].
  now destruct (isPageNumber l), (isPageFooter l).
Qed.

Lemma parse_headings (pages : list Page) (scenes : list Scene) :
  parseScenes pages = Some scenes ->
  map HybridScenes.headOf scenes
  = map HybridScenes.lineOf (filter HybridScenes.opens (flatten pages)).
Proof.
  unfold parseScenes, parseScenesWith.
  destruct (parseLoop _ _ _ _) as [st|] eqn:Hst; [|discriminate].
  intros H; inversion H; subst; clear H.
  pose proof (HybridScenes.loop_heads _ _ _ (HybridScenes.flatten_trimmed pages) Hst) as H.
  rewrite <- HybridScenes.headsOf_pushSealed in H. rewrite map_map. exact H.
Qed.

Lemma flatten_headings (pages : list Page) :
  (forall p, In p pages -> formatted p = analyzePageLines (rawText p)) ->
  map HybridScenes.lineOf (filter HybridScenes.opens (flatten pages))
  = flat_map (fun p => map (fun f => (fl_text f, pageNumber p))
                           (filter (fun f => isHeadingType (fl_type f)) (formatted p)))
             pages.
Proof.
  unfold flatten. induction pages as [|p pages IH]; intros H; [reflexivity|].
  cbn [flat_map]. rewrite filter_app, map_app, IH by (intros q Hq; apply H; now right).
  f_equal. rewrite (H p (or_introl eq_refl)). apply page_headings.
Qed.

Lemma mapi_from_in (A B : Type) (f : nat -> A -> B) (l : list A) (i : nat) (y : B) :
  In y (mapi_from f i l) -> exists j x, y = f j x.
Proof.
  revert i. induction l as [|x l IH]; intros i; simpl; [tauto|].
  intros [<-|H]; [eauto|]. exact (IH _ H).
Qed.

Lemma extractPages_formatted (textIn : str) (totalPages : nat) (p : Page) :
  In p (snd (extractPages textIn totalPages)) -> formatted p = analyzePageLines (rawText p).
Proof.
  unfold extractPages. cbv zeta. destruct (useFormFeed _ _); cbn [snd].
  - unfold mapi. intros H. apply mapi_from_in in H. destruct H as (j & x & ->). reflexivity.
  - unfold estimatedPages. cbv zeta. intros H. apply in_map_iff in H.
    destruct H as (i & <- & _). reflexivity.
Qed.

End PageView.

(** X14.  The page view of the hybrid parser.  [analyzePageLines] shows
    the trimmed lines of the page that are not blank, not a page number and
    not a page footer, in order, numbered from 0.  A line is typed
    [scene_heading] exactly when [isSceneHeading] accepts it.  A line typed
    [character] is never the last line shown, and the line after it is typed
    neither [character] nor [scene_heading]. *)
Theorem page_view_lines (pageText : JS.str) :
  map Hybrid.fl_text (Hybrid.analyzePageLines pageText)
  = filter PageView.shown (map JS.trim (JS.split JS.LF pageText))
  /\ map Hybrid.fl_index (Hybrid.analyzePageLines pageText)
     = List.seq 0 (length (Hybrid.analyzePageLines pageText))
  /\ (forall f, In f (Hybrid.analyzePageLines pageText) ->
        (Hybrid.fl_type f = Hybrid.scene_heading
         <-> Hybrid.isSceneHeading (Hybrid.fl_text f) = true))
  /\ (forall i f, nth_error (Hybrid.analyzePageLines pageText) i = Some f ->
        Hybrid.fl_type f = Hybrid.character ->
        exists g, nth_error (Hybrid.analyzePageLines pageText) (S i) = Some g
                  /\ Hybrid.fl_type g <> Hybrid.character
                  /\ Hybrid.fl_type g <> Hybrid.scene_heading).
Proof.
  unfold Hybrid.analyzePageLines, Hybrid.mapi. cbv zeta.
  change (fun l : JS.str => JS.truthy l && negb (Hybrid.isPageNumber l)
                            && negb (Hybrid.isPageFooter l)) with PageView.shown.
  set (lines := filter PageView.shown (map JS.trim (JS.split JS.LF pageText))).
  assert (Htrim : forall l, In l lines -> JS.trim l = l).
  { intros l. apply PageView.shown_trimmed. }
  split; [apply PageView.mapi_from_text|]. split.
  { rewrite PageView.mapi_from_index. f_equal. rewrite <- (length_map Hybrid.fl_index).
    now rewrite PageView.mapi_from_index, length_seq. }
  split.
  - intros f Hf. apply PageView.mapi_from_in in Hf. destruct Hf as (j & x & ->).
    cbn [Hybrid.fl_type Hybrid.fl_text]. unfold Hybrid.detectLineType.
    destruct (Hybrid.isSceneHeading x); [tauto|]. split; [|discriminate].
    destruct (Hybrid.isTransition x); [discriminate|].
    destruct (Hybrid.isParenthetical x); [discriminate|].
    destruct (Hybrid.isCharacterName x lines j); discriminate.
  - intros i f Hi Hty. rewrite PageView.mapi_from_nth in Hi. cbn [Nat.add] in Hi.
    destruct (nth_error lines i) as [x|] eqn:Hx; [|discriminate].
    cbn [option_map] in Hi. inversion Hi; subst f; clear Hi. cbn [Hybrid.fl_type] in Hty.
    assert (Hcue : Hybrid.isCharacterName x lines i = true).
    { unfold Hybrid.detectLineType in Hty.
      destruct (Hybrid.isSceneHeading x); [discriminate|].
      destruct (Hybrid.isTransition x); [discriminate|].
      destruct (Hybrid.isParenthetical x); [discriminate|].
      destruct (Hybrid.isCharacterName x lines i); [reflexivity|discriminate]. }
    destruct (PageView.cue_next_line x lines i Hcue) as (next & Hn & _ & Hlook & Hhead).
    replace (i + 1) with (S i) in Hn by lia.
    rewrite (Htrim next (nth_error_In _ _ Hn)) in Hlook, Hhead.
    rewrite PageView.mapi_from_nth, Hn. cbn [option_map Nat.add].
    eexists. split; [reflexivity|]. cbn [Hybrid.fl_type]. unfold Hybrid.detectLineType.
    rewrite Hhead.
    destruct (Hybrid.isTransition next); [split; discriminate|].
    destruct (Hybrid.isParenthetical next); [split; discriminate|].
    destruct (Hybrid.isCharacterName next lines (S i)) eqn:Hc; [|split; discriminate].
    apply PageView.cue_looks_like in Hc. congruence.
Qed.

(** X15.  The page view and the scenes agree.  For every text and page
    count, the scenes that [parseScenes] returns for the pages of
    [extractPages] are the lines that the page views of these pages type
    [scene_heading], one for one and in order, with the same text and the
    same page number. *)
Theorem page_view_shows_scenes (text : JS.str) (totalPages : nat) :
  exists scenes,
    Hybrid.parseScenes (snd (Hybrid.extractPages text totalPages)) = Some scenes
    /\ map (fun s => (Hybrid.heading s, Hybrid.s_pageNumber s)) scenes
       = flat_map
           (fun p => map (fun f => (Hybrid.fl_text f, Hybrid.pageNumber p))
                         (filter (fun f => PageView.isHeadingType (Hybrid.fl_type f))
                                 (Hybrid.formatted p)))
           (snd (Hybrid.extractPages text totalPages)).
Proof.
  destruct (HybridLoop.parseScenes_total (snd (Hybrid.extractPages text totalPages)))
    as (scenes & Hs).
  exists scenes. split; [exact Hs|].
  rewrite <- PageView.flatten_headings by apply PageView.extractPages_formatted.
  exact (PageView.parse_headings _ _ Hs).
Qed.

(* ===================================================================== *)
(** * The numbers of a parse *)
(* ===================================================================== *)

Module ParseFacts.
Import JS Hybrid.

Lemma mapi_from_pageNumber (f : str -> str) (g : str -> list FormattedLine)
      (l : list str) (i : nat) :
  map pageNumber (mapi_from (fun index content => mkPage (index + 1) (f content) (g content)) i l)
  = List.seq (i + 1) (length l).
Proof.
  revert i. induction l as [|x l IH]; intros i; [reflexivity|].
  cbn [mapi_from map pageNumber length List.seq]. now rewrite IH.
Qed.

Lemma extractPages_numbers (textIn : str) (totalPages : nat) :
  map pageNumber (snd (extractPages textIn totalPages))
  = List.seq 1 (length (snd (extractPages textIn totalPages))).
Proof.
  unfold extractPages. cbv zeta. destruct (useFormFeed _ _); cbn [snd].
  - unfold mapi. rewrite mapi_from_pageNumber.
    rewrite <- (length_map pageNumber), mapi_from_pageNumber, length_seq. reflexivity.
  - unfold estimatedPages. cbv zeta. rewrite map_map, length_map, length_seq.
    cbn [pageNumber]. rewrite <- seq_shift. apply map_ext. intros i. lia.
Qed.

Lemma extractPages_count (textIn : str) (totalPages : nat) :
  match fst (extractPages textIn totalPages) with
  | EstimatedBreaks => length (snd (extractPages textIn totalPages)) = totalPages
  | FormFeedBreaks =>
      2 <= length (snd (extractPages textIn totalPages))
      /\ 2 * length (snd (extractPages textIn totalPages)) <= 3 * totalPages
  end.
Proof.
  unfold extractPages. cbv zeta. destruct (useFormFeed _ _) eqn:E; cbn [fst snd].
  - unfold useFormFeed in E. apply andb_true_iff in E. destruct E as [E1 E2].
    apply Nat.ltb_lt in E1. apply Nat.leb_le in E2.
    assert (L : length (mapi (fun index content =>
                                mkPage (index + 1) (trim content) (analyzePageLines (trim content)))
                             (formFeedPages textIn))
                = length (formFeedPages textIn)).
    { unfold mapi. rewrite <- (length_map pageNumber), mapi_from_pageNumber. apply length_seq. }
    rewrite L. lia.
  - unfold estimatedPages. cbv zeta. now rewrite length_map, length_seq.
Qed.

Lemma flatten_sorted (pages : list Page) :
  StronglySorted lt (map pageNumber pages) ->
  StronglySorted (fun a b => lo_pageNumber a <= lo_pageNumber b) (flatten pages).
Proof.
  unfold flatten. induction pages as [|p pages IH]; intros H; [constructor|].
  cbn [map] in H. inversion H as [|? ? Hs Hall]; subst. cbn [flat_map].
  specialize (IH Hs).
  induction (filter truthy (map trim (split LF (rawText p)))) as [|l ls IHl];
    [exact IH|].
  cbn [map app]. constructor; [exact IHl|]. apply Forall_forall. intros x Hx.
  cbn [lo_pageNumber]. apply in_app_iff in Hx. destruct Hx as [Hx|Hx].
  - apply in_map_iff in Hx. destruct Hx as (y & <- & _). cbn [lo_pageNumber]. lia.
  - apply in_flat_map in Hx. destruct Hx as (q & Hq & Hx). apply in_map_iff in Hx.
    destruct Hx as (y & <- & _). cbn [lo_pageNumber]. rewrite Forall_forall in Hall.
    specialize (Hall (pageNumber q) (in_map pageNumber _ _ Hq)). lia.
Qed.

Lemma sorted_by (A : Type) (g : A -> nat) (l : list A) :
  StronglySorted (fun a b => g a <= g b) l -> StronglySorted le (map g l).
Proof.
  induction 1 as [|a l Hl IH Ha]; [constructor|]. cbn [map]. constructor; [exact IH|].
  apply Forall_forall. intros y Hy. apply in_map_iff in Hy. destruct Hy as (x & <- & Hx).
  rewrite Forall_forall in Ha. now apply Ha.
Qed.

Lemma flatten_pages (pages : list Page) (lo : LineObj) :
  In lo (flatten pages) -> In (lo_pageNumber lo) (map pageNumber pages).
Proof.
  unfold flatten. intros H. apply in_flat_map in H. destruct H as (q & Hq & H).
  apply in_map_iff in H. destruct H as (y & <- & _). cbn [lo_pageNumber].
  now apply in_map.
Qed.

Lemma scene_pages (pages : list Page) (scenes : list Scene) :
  parseScenes pages = Some scenes ->
  map s_pageNumber scenes
  = map lo_pageNumber (filter HybridScenes.opens (flatten pages)).
Proof.
  intros H. apply PageView.parse_headings in H. apply (f_equal (map snd)) in H.
  rewrite !map_map in H. exact H.
Qed.

Lemma pushNew_length (a : list str) (x : str) : length (pushNew a x) <= S (length a).
Proof.
  unfold pushNew. destruct (arr_includes a x); [lia|]. rewrite length_app. simpl. lia.
Qed.

Lemma unique_length (a : list str) : length (unique a) <= length a.
Proof.
  unfold unique.
  assert (H : forall l acc, length (fold_left pushNew l acc) <= length acc + length l).
  { induction l as [|x l IH]; intros acc; cbn [fold_left length]; [lia|].
    specialize (IH (pushNew acc x)). pose proof (pushNew_length acc x). lia. }
  specialize (H (filter truthy a) []). pose proof (filter_length_le truthy a).
  cbn [length] in H. lia.
Qed.

End ParseFacts.

(** X16.  The numbers of a parse of the hybrid parser agree, for every
    text and page count.  The pages are numbered 1, 2, ... and
    [metadata.totalPages] is their number: the declared page count when the
    page breaks are estimated, and between 2 and one and a half times the
    declared count when form feeds are used.  Every scene is on one of these
    pages, and the page numbers of the scenes never decrease.
    [metadata.scenes] is the number of scenes, and neither
    [metadata.locations] nor [metadata.timePeriods] exceeds it. *)
Theorem parse_numbers_agree (text : JS.str) (totalPages : nat) :
  exists breaks r,
    Hybrid.parseText text totalPages = Some (breaks, r)
    /\ map Hybrid.pageNumber (Hybrid.r_pages r)
       = List.seq 1 (Hybrid.totalPages (Hybrid.r_metadata r))
    /\ match breaks with
       | Hybrid.EstimatedBreaks => Hybrid.totalPages (Hybrid.r_metadata r) = totalPages
       | Hybrid.FormFeedBreaks =>
           2 <= Hybrid.totalPages (Hybrid.r_metadata r)
           /\ 2 * Hybrid.totalPages (Hybrid.r_metadata r) <= 3 * totalPages
       end
    /\ (forall s, In s (Hybrid.r_scenes r) ->
          1 <= Hybrid.s_pageNumber s <= Hybrid.totalPages (Hybrid.r_metadata r))
    /\ StronglySorted le (map Hybrid.s_pageNumber (Hybrid.r_scenes r))
    /\ Hybrid.m_scenes (Hybrid.r_metadata r) = length (Hybrid.r_scenes r)
    /\ Hybrid.locations (Hybrid.r_metadata r) <= Hybrid.m_scenes (Hybrid.r_metadata r)
    /\ Hybrid.timePeriods (Hybrid.r_metadata r) <= Hybrid.m_scenes (Hybrid.r_metadata r).
Proof.
  unfold Hybrid.parseText. cbv zeta.
  pose proof (ParseFacts.extractPages_numbers (Hybrid.cleanScriptText text) totalPages) as Hnum.
  pose proof (ParseFacts.extractPages_count (Hybrid.cleanScriptText text) totalPages) as Hcnt.
  destruct (Hybrid.extractPages (Hybrid.cleanScriptText text) totalPages) as [breaks pages].
  cbn [fst snd] in Hnum, Hcnt.
  destruct (HybridLoop.parseScenes_total pages) as (scenes & Hs). rewrite Hs.
  exists breaks. eexists. split; [reflexivity|].
  unfold Hybrid.generateMetadata. cbv zeta.
  cbn [Hybrid.r_pages Hybrid.r_scenes Hybrid.r_metadata Hybrid.totalPages Hybrid.m_scenes
       Hybrid.locations Hybrid.timePeriods].
  pose proof (ParseFacts.scene_pages pages scenes Hs) as Hpg.
  split; [exact Hnum|]. split; [exact Hcnt|]. split; [|split; [|split; [reflexivity|split]]].
  - intros s Hin. apply (in_map Hybrid.s_pageNumber) in Hin. rewrite Hpg in Hin.
    apply in_map_iff in Hin. destruct Hin as (lo & <- & Hlo). apply filter_In in Hlo.
    destruct Hlo as [Hlo _]. apply ParseFacts.flatten_pages in Hlo.
    rewrite Hnum in Hlo. apply in_seq in Hlo. lia.
  - rewrite Hpg. apply ParseFacts.sorted_by. apply PdfScenes.filter_sorted.
    apply ParseFacts.flatten_sorted. rewrite Hnum. apply PdfScenes.seq_sorted.
  - pose proof (ParseFacts.unique_length (map Hybrid.location scenes)) as H.
    now rewrite length_map in H.
  - pose proof (ParseFacts.unique_length (map Hybrid.timeOfDay scenes)) as H.
    now rewrite length_map in H.
Qed.

(* ===================================================================== *)
(** * The rows and the statistics of the service *)
(* ===================================================================== *)

Module ServiceFacts.
Import JS Service.

Lemma eta_pages (pages : list Document.TextPage) :
  map (fun p => Document.mkTextPage (Document.pageNumber p) (Document.rawText p)
                                    (Document.lineCount p))
      pages
  = pages.
Proof. induction pages as [|[n t c] pages IH]; simpl; [reflexivity|]. now rewrite IH. Qed.

Lemma doc_analyze_numbered (pages : list Document.TextPage) (scenes : list Document.Scene) :
  Document.analyzeScenes pages = Some scenes ->
  SceneFacts.numbered Document.sceneNumber scenes.
Proof.
  destruct (SceneFacts.doc_analyze_total pages) as (st & Hst & Hinv & _).
  unfold Document.analyzeScenes, Document.analyzeScenesWith. rewrite Hst.
  intros H; inversion H; subst. exact Hinv.
Qed.

Lemma orNat_zero (a : nat) : orNat a 0 = a.
Proof. unfold orNat. destruct a; reflexivity. Qed.

Lemma orNat_same (a : nat) : orNat a a = a.
Proof. unfold orNat. now destruct (Nat.eqb a 0). Qed.

Lemma orStr_filled (a b : str) : b <> [] -> orStr a b <> [].
Proof. unfold orStr. destruct a; simpl; [auto|discriminate]. Qed.

Lemma orStr_left (a b : str) : a <> [] -> orStr a b = a.
Proof. unfold orStr. destruct a; simpl; [tauto|reflexivity]. Qed.

Lemma join_filled (sep h : str) (rest : list str) : h <> [] -> join sep (h :: rest) <> [].
Proof. destruct h; [tauto|]. destruct rest; simpl; discriminate. Qed.

Lemma heading_filled (h : str) : Document.isSceneHeading h = true -> h <> [].
Proof. intros H E. subst h. vm_compute in H. discriminate H. Qed.

Lemma guarded (A B : Type) (f : list A -> list B) (l : list A) :
  f [] = [] -> (if 0 <? length l then f l else []) = f l.
Proof. intros H. destruct l; [now rewrite H|reflexivity]. Qed.

Lemma rows_order (l : list Document.Scene) (i : nat) :
  map r_order (Hybrid.mapi_from sceneRow i l) = List.seq i (length l).
Proof. revert i. induction l as [|x l IH]; intros i; simpl; [reflexivity|]. now rewrite IH. Qed.

Lemma rows_length (l : list Document.Scene) (i : nat) :
  length (Hybrid.mapi_from sceneRow i l) = length l.
Proof. rewrite <- (length_map r_order), rows_order. apply length_seq. Qed.

Lemma rows_number (l : list Document.Scene) (i : nat) :
  (forall k s, nth_error l k = Some s -> Document.sceneNumber s = i + k + 1) ->
  map r_sceneNumber (Hybrid.mapi_from sceneRow i l) = List.seq (i + 1) (length l).
Proof.
  revert i. induction l as [|x l IH]; intros i H; [reflexivity|].
  cbn [Hybrid.mapi_from map length List.seq r_sceneNumber sceneRow]. f_equal.
  - rewrite (H 0 x eq_refl), Nat.add_0_r. apply orNat_same.
  - apply (IH (S i)). intros k s Hk. rewrite (H (S k) s Hk). lia.
Qed.

Lemma rows_heads (l : list Document.Scene) (i : nat) :
  (forall s, In s l -> Document.heading s <> []) ->
  map (fun r => (r_heading r, r_page r)) (Hybrid.mapi_from sceneRow i l)
  = map (fun hp => (fst hp, orNat (snd hp) 1)) (map DocScenes.hp l).
Proof.
  revert i. induction l as [|x l IH]; intros i H; [reflexivity|].
  cbn [Hybrid.mapi_from map r_heading r_page sceneRow DocScenes.hp fst snd].
  rewrite orStr_left by (apply H; now left). f_equal. apply IH.
  intros s Hs. apply H. now right.
Qed.

Lemma rows_in (l : list Document.Scene) (i : nat) (r : SceneRow) :
  In r (Hybrid.mapi_from sceneRow i l) -> exists j s, In s l /\ r = sceneRow j s.
Proof.
  revert i. induction l as [|x l IH]; intros i; simpl; [tauto|].
  intros [<-|H]; [eauto|]. destruct (IH _ H) as (j & s & Hs & E). eauto.
Qed.

Lemma fold_pushNew_in (l acc : list str) (p : str) :
  In p (fold_left Hybrid.pushNew l acc) <-> In p acc \/ In p l.
Proof.
  revert acc. induction l as [|x l IH]; intros acc; cbn [fold_left].
  - simpl. tauto.
  - rewrite IH, PropFacts.pushNew_iff. simpl. intuition congruence.
Qed.

Lemma filterBoolean_in (a : list (option str)) (v : str) :
  In v (filterBoolean a) <-> v <> [] /\ In (Some v) a.
Proof.
  unfold filterBoolean. rewrite in_flat_map. split.
  - intros ([x|] & Hx & Hv); [|destruct Hv].
    destruct x as [|c t]; simpl in Hv; [destruct Hv|]. destruct Hv as [<-|[]].
    split; [discriminate|exact Hx].
  - intros [Hv Hin]. exists (Some v). split; [exact Hin|].
    destruct v; [tauto|]. simpl. now left.
Qed.

Lemma count_le (A : Type) (p : A -> bool) (l : list A) : length (filter p l) <= length l.
Proof. apply filter_length_le. Qed.

Lemma count_disjoint (A : Type) (p q : A -> bool) (l : list A) :
  (forall x, p x = true -> q x = false) ->
  length (filter p l) + length (filter q l) <= length l.
Proof.
  intros H. induction l as [|x l IH]; simpl; [lia|].
  destruct (p x) eqn:E; [rewrite (H x E)|destruct (q x)]; simpl; lia.
Qed.

Lemma sum_lines (characters : list StoredCharacter) (n : nat) :
  fold_left (fun sum c => sum + st_lines c) characters n
  = n + list_sum (map st_lines characters).
Proof.
  revert n. induction characters as [|c l IH]; intros n; simpl; [lia|]. rewrite IH. lia.
Qed.

Lemma Forall2_in_left (A B : Type) (R : A -> B -> Prop) (l : list A) (l' : list B) (x : A) :
  Forall2 R l l' -> In x l -> exists y, In y l' /\ R x y.
Proof.
  induction 1 as [|a b l l' Hab Hl IH]; intros Hx; [destruct Hx|].
  destruct Hx as [<-|Hx]; [exists b; split; [now left|exact Hab]|].
  destruct (IH Hx) as (y & Hy & Hr). exists y. split; [now right|exact Hr].
Qed.

Lemma doc_lines_sum (pages : list Document.TextPage) (scenes : list Document.Scene) :
  Document.analyzeScenes pages = Some scenes ->
  NoDup (map Hybrid.name (Document.extractCharacters scenes))
  /\ list_sum (map Hybrid.lines (Document.extractCharacters scenes))
     = Document.totalDialogue
         (Document.generateMetadata pages scenes (Document.extractCharacters scenes)).
Proof.
  intros Hs. pose proof (DocumentFacts.doc_analyze_acts pages scenes Hs) as Hact.
  assert (Hview : forall s, In s (map DocumentFacts.view scenes) -> RosterFacts.speakersAct s).
  { intros s H. apply in_map_iff in H. destruct H as (x & <- & Hx). exact (Hact x Hx). }
  rewrite DocumentFacts.doc_roster_view.
  destruct (RosterFacts.foldScenes_spec (fun _ => true) _ Hview) as [Hnd Hsum].
  split; [now rewrite RosterFacts.roster_names|].
  rewrite <- DocRoster.rosterLines_sum, RosterFacts.rosterLines_extract, Hsum.
  rewrite DocRoster.doc_blocks_view. unfold Document.generateMetadata.
  cbn [Document.totalDialogue]. now rewrite DocumentFacts.doc_total_dialogue.
Qed.

End ServiceFacts.

(** X17.  What [reanalyzeScript] writes.  Without pages it fails with the
    error [No pages to analyze].  With pages it returns, and reports the
    number of scene rows and of character rows that it writes.  The scene
    rows have [order] 0, 1, 2, ... and [sceneNumber] 1, 2, 3, ...; their
    headings are the heading lines of the pages, trimmed, in order, and
    [page] is the page number of the line, or 1 where that number is 0.  No
    row has an empty [heading], [location], [intExt], [timeOfDay], [summary]
    or [sceneText].  The character rows have different names and their
    [lines] add up to [totalDialogue] of the metadata, whose [totalPages],
    [scenes] and [characters] are the numbers of pages read and of rows
    written. *)
Theorem reanalyze_rows (pages : list Document.TextPage) :
  match pages with
  | [] =>
      Service.reanalyzeScript pages
      = Some (Service.BadRequestError (JS.js "No pages to analyze"))
  | _ :: _ =>
      exists sceneRows characterRows metadata,
        Service.reanalyzeScript pages
        = Some (Service.Reanalyzed sceneRows characterRows metadata
                                   (length sceneRows) (length characterRows))
        /\ map Service.r_order sceneRows = List.seq 0 (length sceneRows)
        /\ map Service.r_sceneNumber sceneRows = List.seq 1 (length sceneRows)
        /\ map (fun r => (Service.r_heading r, Service.r_page r)) sceneRows
           = map (fun lp => (JS.trim (fst lp), Service.orNat (snd lp) 1))
                 (filter (fun lp => DocScenes.docOpens (fst lp)) (DocScenes.docLines pages))
        /\ (forall r, In r sceneRows ->
              Service.r_heading r <> [] /\ Service.r_location r <> []
              /\ Service.r_intExt r <> [] /\ Service.r_timeOfDay r <> []
              /\ Service.r_summary r <> [] /\ Service.r_sceneText r <> [])
        /\ NoDup (map Service.c_name characterRows)
        /\ list_sum (map Service.c_lines characterRows) = Document.totalDialogue metadata
        /\ Document.totalPages metadata = length pages
        /\ Document.m_scenes metadata = length sceneRows
        /\ Document.m_characters metadata = length characterRows
  end.
Proof.
  destruct pages as [|page0 rest]; [reflexivity|].
  set (pages := page0 :: rest).
  unfold Service.reanalyzeScript. cbv zeta.
  change (Nat.eqb (length pages) 0) with false. cbv iota.
  rewrite ServiceFacts.eta_pages.
  destruct (DocumentFacts.doc_analyze_returns pages) as (scenes & Hs). rewrite Hs.
  rewrite (ServiceFacts.guarded _ _ (Hybrid.mapi Service.sceneRow) scenes eq_refl).
  rewrite (ServiceFacts.guarded _ _ (map Service.characterRow) _ eq_refl).
  destruct (DocScenes.doc_analyze_sim pages scenes Hs) as (Hseg & Hok & Hheads).
  pose proof (ServiceFacts.doc_analyze_numbered pages scenes Hs) as Hnum.
  destruct (ServiceFacts.doc_lines_sum pages scenes Hs) as (Hnd & Hsum).
  assert (Hhead : forall s, In s scenes -> Document.heading s <> []).
  { intros s Hin. apply ServiceFacts.heading_filled. apply (Hok s Hin). }
  assert (Hlen : length (Hybrid.mapi Service.sceneRow scenes) = length scenes).
  { apply ServiceFacts.rows_length. }
  assert (Hclen : length (map Service.characterRow (Document.extractCharacters scenes))
                  = length (Document.extractCharacters scenes)).
  { apply length_map. }
  eexists _, _, _. rewrite Hlen, Hclen. split; [reflexivity|].
  split; [apply ServiceFacts.rows_order|].
  split; [apply (ServiceFacts.rows_number scenes 0); intros k s Hk; apply (Hnum k s Hk)|].
  split.
  { unfold Hybrid.mapi. rewrite (ServiceFacts.rows_heads scenes 0 Hhead), Hheads.
    rewrite map_map. reflexivity. }
  split.
  { intros r Hr. apply ServiceFacts.rows_in in Hr. destruct Hr as (j & s & Hin & ->).
    unfold Service.sceneRow.
    cbn [Service.r_heading Service.r_location Service.r_intExt Service.r_timeOfDay
         Service.r_summary Service.r_sceneText].
    split; [rewrite ServiceFacts.orStr_left; now apply Hhead|].
    split; [apply ServiceFacts.orStr_filled; discriminate|].
    split; [apply ServiceFacts.orStr_filled; discriminate|].
    split; [apply ServiceFacts.orStr_filled; discriminate|].
    destruct (Hok s Hin) as (_ & t & Ht & Hne). rewrite Ht. cbn [Service.orUndef].
    split; [now rewrite ServiceFacts.orStr_left|].
    destruct (ServiceFacts.Forall2_in_left _ _ _ _ _ s Hseg Hin)
      as (seg & _ & Htext & rest' & -> & _).
    rewrite Htext. cbn [Service.orUndef].
    assert (J : JS.join [JS.LF] (Document.heading s :: rest') <> []).
    { apply ServiceFacts.join_filled. now apply Hhead. }
    now rewrite ServiceFacts.orStr_left. }
  split.
  { rewrite map_map. cbn [Service.c_name Service.characterRow]. exact Hnd. }
  split.
  { rewrite map_map. cbn [Service.c_lines Service.characterRow].
    rewrite (map_ext _ Hybrid.lines) by (intros c; apply ServiceFacts.orNat_zero).
    exact Hsum. }
  unfold Document.generateMetadata.
  cbn [Document.totalPages Document.m_scenes Document.m_characters]. auto.
Qed.

(** X18.  The statistics of a script agree with each other, for all rows
    of scenes and of characters.  Interior and exterior scenes together, day
    scenes, and night scenes are each at most [totalScenes].  The estimated
    budget is 50000, plus 5000 for each scene, 10000 for each character,
    3000 for each exterior scene and 2000 for each night scene of the same
    statistics, so it lies between 50000 + 5000 s + 10000 c and
    50000 + 10000 s + 10000 c.  [estimatedDays] is a third of the scenes,
    rounded up.  [totalDialogue] is the sum of the characters' lines.
    [locations] holds each non-empty location of a scene once, and [props]
    each prop of a scene once. *)
Theorem stats_agree (scenes : list Service.StoredScene)
        (characters : list Service.StoredCharacter) :
  Service.totalScenes (Service.getScriptStats scenes characters) = length scenes
  /\ Service.intScenes (Service.getScriptStats scenes characters)
     + Service.extScenes (Service.getScriptStats scenes characters)
     <= Service.totalScenes (Service.getScriptStats scenes characters)
  /\ Service.dayScenes (Service.getScriptStats scenes characters)
     <= Service.totalScenes (Service.getScriptStats scenes characters)
  /\ Service.nightScenes (Service.getScriptStats scenes characters)
     <= Service.totalScenes (Service.getScriptStats scenes characters)
  /\ (Service.estimatedBudget (Service.getScriptStats scenes characters)
      = 50000
        + 5000 * N.of_nat (Service.totalScenes (Service.getScriptStats scenes characters))
        + 10000 * N.of_nat (Service.totalCharacters (Service.getScriptStats scenes characters))
        + 3000 * N.of_nat (Service.extScenes (Service.getScriptStats scenes characters))
        + 2000 * N.of_nat (Service.nightScenes (Service.getScriptStats scenes characters)))%N
  /\ (50000 + 5000 * N.of_nat (length scenes) + 10000 * N.of_nat (length characters)
      <= Service.calculateBudget scenes characters
      <= 50000 + 10000 * N.of_nat (length scenes) + 10000 * N.of_nat (length characters))%N
  /\ (length scenes
      <= 3 * Service.estimatedDays (Service.getScriptStats scenes characters)
      <= length scenes + 2)
  /\ Service.totalDialogue (Service.getScriptStats scenes characters)
     = list_sum (map Service.st_lines characters)
  /\ NoDup (Service.locations (Service.getScriptStats scenes characters))
  /\ (forall l, In l (Service.locations (Service.getScriptStats scenes characters))
                <-> l <> [] /\ exists s, In s scenes /\ Service.st_location s = Some l)
  /\ NoDup (Service.props (Service.getScriptStats scenes characters))
  /\ (forall p, In p (Service.props (Service.getScriptStats scenes characters))
                <-> exists s, In s scenes /\ In p (Service.st_props s)).
Proof.
  unfold Service.getScriptStats. cbv zeta.
  cbn [Service.totalScenes Service.intScenes Service.extScenes Service.dayScenes
       Service.nightScenes Service.totalCharacters Service.totalDialogue
       Service.estimatedBudget Service.estimatedDays Service.locations Service.props].
  pose proof (ServiceFacts.count_le _ (fun s => Service.strictEq (Service.st_intExt s)
                                                                  (JS.js "EXT")) scenes) as Hext.
  pose proof (ServiceFacts.count_le _ (fun s => Service.optIncludes (Service.st_timeOfDay s)
                                                                     (JS.js "NIGHT")) scenes)
    as Hnight.
  split; [reflexivity|]. split.
  { apply ServiceFacts.count_disjoint. intros x Hx. unfold Service.strictEq in *.
    destruct (Service.st_intExt x) as [v|]; [|reflexivity].
    apply RosterFacts.str_eqb_eq in Hx. subst v. reflexivity. }
  split; [apply ServiceFacts.count_le|]. split; [exact Hnight|].
  split; [unfold Service.calculateBudget; cbv zeta; lia|].
  split; [unfold Service.calculateBudget; cbv zeta; lia|].
  split.
  { unfold JS.ceilDiv. replace (length scenes + 3 - 1) with (length scenes + 2) by lia.
    pose proof (Nat.div_mod_eq (length scenes + 2) 3) as D.
    pose proof (Nat.mod_upper_bound (length scenes + 2) 3) as M. lia. }
  split; [now rewrite ServiceFacts.sum_lines|].
  split; [apply DocScenes.fold_pushNew_nodup; constructor|]. split.
  { intros l. rewrite ServiceFacts.fold_pushNew_in, ServiceFacts.filterBoolean_in.
    rewrite in_map_iff. simpl. split.
    - intros [[]|(Hl & s & E & Hs)]. split; [exact Hl|]. eauto.
    - intros (Hl & s & Hs & E). right. split; [exact Hl|]. eauto. }
  split; [apply DocScenes.fold_pushNew_nodup; constructor|].
  intros p. rewrite ServiceFacts.fold_pushNew_in, in_flat_map. simpl. tauto.
Qed.

(* ===================================================================== *)
(** * What the hybrid parser files a line under *)
(* ===================================================================== *)

Module HybridKinds.
Import JS Hybrid.












End HybridKinds.


(* ===================================================================== *)
(** * The scenes of the PDF parser, field by field *)
(* ===================================================================== *)

Module PdfFields.
Import JS Pdf.

(** A line of the script, trimmed. *)
Definition ofScript (lines : list str) (l : str) : Prop :=
  exists x, In x lines /\ l = trim x.

Definition pdfActionOK (lines : list str) (a : str) : Prop :=
  ofScript lines a
  /\ isSceneHeading a = false /\ isTransition a = false
  /\ isPageNumber a = false /\ isPageFooter a = false
  /\ looksLikeCharacterName a = false.

Definition pdfActorOK (lines : list str) (n : str) : Prop :=
  exists l, ofScript lines l /\ n = cleanCharacterName l
            /\ looksLikeCharacterName l = true.

Definition pdfSpokenOK (lines : list str) (l : str) : Prop :=
  ofScript lines l
  /\ isSceneHeading l = false /\ isTransition l = false
  /\ isPageNumber l = false /\ isPageFooter l = false
  /\ isParenthetical l = false /\ isLikelyActionLine l = false.

Definition headOK (scene : Scene) : Prop :=
  isSceneHeading (originalHeading scene) = true
  /\ parseSceneHeading (originalHeading scene)
     = Hybrid.mkHeading (intExt scene) (location scene) (time scene).

Definition pdfCastOK (scene : Scene) : Prop :=
  charactersInScene scene = Hybrid.NameSet (actors scene)
  /\ NoDup (actors scene)
  /\ (forall d, In d (dialogue scene) -> In (d_character d) (actors scene))
  /\ (forall k, In k (map fst (characterStats scene)) -> In k (actors scene)).

Definition pdfKindsOK (lines : list str) (scene : Scene) : Prop :=
  (forall a, In a (action scene) -> pdfActionOK lines a)
  /\ (forall n, In n (actors scene) -> pdfActorOK lines n)
  /\ (forall d l, In d (dialogue scene) -> In l (d_lines d) -> pdfSpokenOK lines l).

Definition openShape (lines : list str) (scene : Scene) (sl : list str) : Prop :=
  (exists rest, sl = originalHeading scene :: rest)
  /\ headOK scene /\ pdfCastOK scene /\ pdfKindsOK lines scene.

Definition closedShape (lines : list str) (scene : Scene) : Prop :=
  headOK scene
  /\ (exists rest, sceneText scene = join [LF] (originalHeading scene :: rest)
                   /\ props scene = extractProps (originalHeading scene :: rest))
  /\ summary scene <> []
  /\ pdfCastOK scene /\ pdfKindsOK lines scene.

Definition pdfShape (lines : list str) (st : PState) : Prop :=
  (forall s, In s (scenes st) -> closedShape lines s)
  /\ (forall s, currentScene st = Some s -> openShape lines s (currentSceneLines st)).

Lemma pdf_summary_not_nil (scene : Scene) : generateSceneSummary scene <> [].
Proof.
  unfold generateSceneSummary. cbv zeta.
  destruct (trim _) as [|c t]; simpl; discriminate.
Qed.

Lemma pdf_seal_shape (lines : list str) (scene : Scene) (sl : list str) :
  openShape lines scene sl -> closedShape lines (seal scene sl).
Proof.
  intros ((rest & ->) & Hh & Hc & Hk).
  unfold closedShape, headOK, pdfCastOK, pdfKindsOK, seal in *. cbv zeta.
  cbn [originalHeading intExt location time sceneText props summary charactersInScene
       actors dialogue characterStats action].
  split; [exact Hh|]. split; [exists rest; split; reflexivity|].
  split; [apply pdf_summary_not_nil|]. split; assumption.
Qed.

Lemma pdf_pushSealed_shape (lines : list str) (st : PState) :
  pdfShape lines st -> forall s, In s (pushSealed st) -> closedShape lines s.
Proof.
  intros (Hs & Hc) s. unfold pushSealed.
  destruct (currentScene st) as [scene|]; [|apply Hs].
  intros H. apply in_app_iff in H. destruct H as [H|[<-|[]]]; [now apply Hs|].
  apply pdf_seal_shape. exact (Hc scene eq_refl).
Qed.

Lemma pdf_cue_looks_like (line : str) (allLines : list str) (i : nat) :
  trim line = line ->
  isCharacterName line allLines i = true -> looksLikeCharacterName line = true.
Proof.
  intros Ht. unfold isCharacterName, looksLikeCharacterName. cbv zeta. rewrite !Ht.
  destruct (isPageFooter line || isPageNumber line); [discriminate|].
  destruct (isSceneHeading line || isTransition line); [discriminate|].
  destruct ((length line <? 2) || (50 <? length line)); [discriminate|].
  destruct (truthy (trim (Regex.replaceAll Pat.parens [] line)));
    cbn [negb orb]; [|discriminate].
  destruct (length (trim (Regex.replaceAll Pat.parens [] line)) <? 2); [discriminate|].
  destruct (Regex.test (Regex.Cls Pat.upper) (trim (Regex.replaceAll Pat.parens [] line)));
    cbn [negb]; [|discriminate].
  destruct (existsb _ scriptEnders); [discriminate|].
  destruct (Regex.test characterPattern (trim (Regex.replaceAll Pat.parens [] line)));
    cbn [negb]; [|discriminate].
  destruct (includes (trim (Regex.replaceAll Pat.parens [] line)) (js ".")
            && negb (Regex.test Hybrid.initials (trim (Regex.replaceAll Pat.parens [] line))));
    [discriminate|].
  reflexivity.
Qed.

Lemma nth_ofScript (lines : list str) (j : nat) :
  j < length lines -> ofScript lines (trim (nth j lines [])).
Proof. intros H. exists (nth j lines []). split; [now apply nth_In|reflexivity]. Qed.

Lemma pdf_collectTurn_shape (lines : list str) (j : nat) (a : list str * list str) :
  j < length lines ->
  ((forall l, In l (fst a) -> pdfSpokenOK lines l) /\ exists h rest, snd a = h :: rest) ->
  match collectTurn lines j a with
  | Loop.Break b =>
      (forall l, In l (fst b) -> pdfSpokenOK lines l)
      /\ exists rest, snd b = hd [] (snd a) :: rest
  | Loop.Next b =>
      (forall l, In l (fst b) -> pdfSpokenOK lines l)
      /\ exists rest, snd b = hd [] (snd a) :: rest
  end.
Proof.
  intros Hj (Ha & h & rest & Hsl). unfold collectTurn. destruct a as [dl sl].
  cbn [fst snd] in *. subst sl. cbv zeta. cbn [hd].
  destruct (negb (truthy _));
    [cbn [fst snd app]; split; [exact Ha|eexists; reflexivity]|].
  destruct (stopsDialogue lines j _) eqn:Hstop;
    [cbn [fst snd app]; split; [exact Ha|eexists; reflexivity]|].
  unfold stopsDialogue in Hstop.
  repeat (apply orb_false_iff in Hstop; destruct Hstop as [Hstop ?]).
  destruct (isParenthetical _) eqn:Hpar;
    [cbn [fst snd app]; split; [exact Ha|eexists; reflexivity]|].
  destruct (isLikelyActionLine _) eqn:Hact;
    [cbn [fst snd app]; split; [exact Ha|eexists; reflexivity]|].
  cbn [fst snd app]. split; [|eexists; reflexivity].
  intros l Hl. apply in_app_iff in Hl. destruct Hl as [Hl|[<-|[]]]; [now apply Ha|].
  split; [now apply nth_ofScript|]. repeat split; assumption.
Qed.

Lemma pdf_collectDialogue_shape (fuel : nat) (lines : list str) (j j' : nat)
      (h : str) (rest dl sl' : list str) :
  collectDialogue fuel lines j (h :: rest) = Some (j', (dl, sl')) ->
  (forall l, In l dl -> pdfSpokenOK lines l) /\ exists rest', sl' = h :: rest'.
Proof.
  intros H. unfold collectDialogue in H.
  assert (P : (fun a : list str * list str =>
                 (forall l, In l (fst a) -> pdfSpokenOK lines l)
                 /\ exists rest', snd a = h :: rest') (dl, sl')).
  { eapply LoopFacts.while_preserves
      with (P := fun a : list str * list str =>
                   (forall l, In l (fst a) -> pdfSpokenOK lines l)
                   /\ exists rest', snd a = h :: rest');
      [| |exact H].
    - intros i x Hi (Hx & r & Hr).
      pose proof (pdf_collectTurn_shape lines i x Hi
                    (conj Hx (ex_intro _ h (ex_intro _ r Hr)))) as T.
      rewrite Hr in T. cbn [hd] in T. exact T.
    - split; [intros l []|exists rest; reflexivity]. }
  exact P.
Qed.

Lemma statsAdd_keys (stats : list (str * Stats)) (name : str) (n : nat) (d : str) (k : str) :
  In k (map fst (statsAdd stats name n d)) -> In k (map fst stats) \/ k = name.
Proof.
  induction stats as [|[k0 v] rest IH]; simpl.
  - intros [<-|[]]. now right.
  - destruct (str_eqb k0 name); simpl; [tauto|]. intros [<-|H]; [tauto|].
    destruct (IH H); tauto.
Qed.

Lemma pdf_parseTurn_shape (fuel : nat) (lines : list str) (N lpp i i' : nat)
      (st st' : PState) :
  i < length lines -> pdfShape lines st ->
  parseTurn fuel lines N lpp i st = Some (st', i') -> pdfShape lines st'.
Proof.
  intros Hi Hst. pose proof Hst as (Hs & Hc). unfold parseTurn. cbv zeta.
  pose proof (nth_ofScript lines i Hi) as Hof.
  pose proof (NormalizeFacts.trim_idem (nth i lines [])) as Htrim.
  set (line := trim (nth i lines [])) in *.
  destruct (negb (truthy line)); [now intros H; inversion H; subst|].
  destruct (isPageNumber line || isPageFooter line) eqn:Hmark;
    [now intros H; inversion H; subst|].
  apply orb_false_iff in Hmark. destruct Hmark as [Hpn Hpf].
  destruct (isSceneHeading line) eqn:Hh.
  { intros H; inversion H; subst; clear H. split; cbn [scenes currentScene currentSceneLines].
    - now apply pdf_pushSealed_shape.
    - intros s E. inversion E; subst; clear E.
      unfold openShape, openScene, headOK, pdfCastOK, pdfKindsOK. cbv zeta.
      cbn [originalHeading intExt location time charactersInScene actors dialogue
           characterStats action map].
      split; [exists []; reflexivity|].
      split; [split; [exact Hh|now rewrite DocScenes.heading_eta]|].
      split; [split; [reflexivity|split; [constructor|split; intros x []]]|].
      split; [intros x []|split; [intros x []|intros d l []]]. }
  destruct (currentScene st) as [scene|] eqn:Hcur;
    [|intros H; inversion H; subst; split; [exact Hs|now rewrite Hcur]].
  destruct (Hc scene eq_refl) as ((rest & Hsl) & Hhead & (C1 & C2 & C3 & C4) & (K1 & K2 & K3)).
  destruct (isCharacterName line lines i) eqn:Hcue.
  - rewrite Hsl. cbn [app].
    destruct (collectDialogue _ _ _ _) as [[j [dl sl2]]|] eqn:Hcol; [|discriminate].
    intros H; inversion H; subst; clear H.
    destruct (pdf_collectDialogue_shape _ _ _ _ _ _ _ _ Hcol) as (Hdl & rest2 & ->).
    split; cbn [scenes currentScene currentSceneLines]; [exact Hs|].
    intros s E. inversion E; subst; clear E.
    unfold openShape, headOK, pdfCastOK, pdfKindsOK.
    cbn [originalHeading intExt location time charactersInScene actors dialogue
         characterStats action].
    split; [exists rest2; reflexivity|]. split; [exact Hhead|]. split; [|split; [exact K1|split]].
    + rewrite C1. cbn [Hybrid.namesAdd]. split; [reflexivity|].
      split; [now apply HybridScenes.pushNew_nodup|]. split.
      * intros d Hd. destruct (0 <? length dl).
        -- apply in_app_iff in Hd. destruct Hd as [Hd|[<-|[]]].
           ++ apply RosterFacts.pushNew_keeps. now apply C3.
           ++ apply RosterFacts.pushNew_in.
        -- apply RosterFacts.pushNew_keeps. now apply C3.
      * intros k Hk. destruct (0 <? length dl).
        -- apply statsAdd_keys in Hk. destruct Hk as [Hk| ->].
           ++ apply RosterFacts.pushNew_keeps. now apply C4.
           ++ apply RosterFacts.pushNew_in.
        -- apply RosterFacts.pushNew_keeps. now apply C4.
    + intros n Hn. apply PropFacts.pushNew_iff in Hn. destruct Hn as [Hn| ->]; [now apply K2|].
      exists line. split; [exact Hof|]. split; [reflexivity|].
      exact (pdf_cue_looks_like line lines i Htrim Hcue).
    + intros d l Hd Hl. destruct (0 <? length dl); [|exact (K3 d l Hd Hl)].
      apply in_app_iff in Hd. destruct Hd as [Hd|[<-|[]]]; [exact (K3 d l Hd Hl)|].
      cbn [d_lines] in Hl. now apply Hdl.
  - intros H; inversion H; subst; clear H.
    split; cbn [scenes currentScene currentSceneLines]; [exact Hs|].
    intros s E. inversion E; subst; clear E.
    unfold openShape, headOK, pdfCastOK, pdfKindsOK.
    cbn [originalHeading intExt location time charactersInScene actors dialogue
         characterStats action].
    split; [exists (rest ++ [line]); now rewrite Hsl|]. split; [exact Hhead|].
    split; [exact (conj C1 (conj C2 (conj C3 C4)))|]. split; [|split; assumption].
    rewrite Hpn, Hpf. cbn [negb andb]. rewrite andb_true_r.
    destruct (isTransition line) eqn:Ht; cbn [negb andb]; [exact K1|].
    destruct (looksLikeCharacterName line) eqn:Hl; cbn [negb]; [exact K1|].
    intros a Ha. apply in_app_iff in Ha. destruct Ha as [Ha|[<-|[]]]; [now apply K1|].
    split; [exact Hof|]. repeat split; assumption.
Qed.

Lemma pdf_parseScenes_shape (lines : list str) (N : nat) (scenes : list Scene) :
  parseScenes lines N = Some scenes ->
  forall s, In s scenes ->
    exists s0, s = arrayNames s0 /\ closedShape lines s0.
Proof.
  unfold parseScenes, parseScenesWith. cbv zeta.
  destruct (Loop.for_ _ _ _ _ _) as [st|] eqn:E; [|discriminate].
  intros H; inversion H; subst; clear H.
  assert (Hst : pdfShape lines st).
  { eapply LoopFacts.for_preserves with (P := pdfShape lines); [| |exact E].
    - intros j x y j' Hj Hx Hb. eapply pdf_parseTurn_shape; eauto.
    - split; [intros s []|discriminate]. }
  intros s Hin. apply in_map_iff in Hin. destruct Hin as (s0 & <- & Hin).
  exists s0. split; [reflexivity|]. exact (pdf_pushSealed_shape lines st Hst s0 Hin).
Qed.

End PdfFields.

(** X20.  Every scene that the PDF parser returns is complete and agrees
    with its heading and its cast, for every list of lines and page count:
    [originalHeading] is a scene heading, [intExt], [location] and [time]
    are what [parseSceneHeading] reads from it, [sceneText] is the heading
    followed by further lines, joined by line feeds, [props] is
    [extractProps] of those same lines, and [summary] is not empty.
    [charactersInScene] is an array equal to [actors], which holds no name
    twice; every speaker of a dialogue entry and every key of
    [characterStats] is one of the actors. *)
Theorem pdf_scene_fields (lines : list JS.str) (totalPages : nat) :
  exists scenes,
    Pdf.parseScenes lines totalPages = Some scenes
    /\ forall s, In s scenes ->
         Pdf.isSceneHeading (Pdf.originalHeading s) = true
         /\ Pdf.parseSceneHeading (Pdf.originalHeading s)
            = Hybrid.mkHeading (Pdf.intExt s) (Pdf.location s) (Pdf.time s)
         /\ (exists rest,
                Pdf.sceneText s = JS.join [JS.LF] (Pdf.originalHeading s :: rest)
                /\ Pdf.props s = Pdf.extractProps (Pdf.originalHeading s :: rest))
         /\ Pdf.summary s <> []
         /\ Pdf.charactersInScene s = Hybrid.NameArray (Pdf.actors s)
         /\ NoDup (Pdf.actors s)
         /\ (forall d, In d (Pdf.dialogue s) -> In (Pdf.d_character d) (Pdf.actors s))
         /\ (forall k, In k (map fst (Pdf.characterStats s)) -> In k (Pdf.actors s)).
Proof.
  destruct (PdfLoop.pdf_parseScenes_total lines totalPages) as (scenes & Hs).
  exists scenes. split; [exact Hs|]. intros s Hin.
  destruct (PdfFields.pdf_parseScenes_shape lines totalPages scenes Hs s Hin)
    as (s0 & -> & (H1 & H2) & H3 & H4 & (C1 & C2 & C3 & C4) & _).
  unfold Pdf.arrayNames.
  cbn [Pdf.originalHeading Pdf.intExt Pdf.location Pdf.time Pdf.sceneText Pdf.props
       Pdf.summary Pdf.charactersInScene Pdf.actors Pdf.dialogue Pdf.characterStats].
  rewrite C1. cbn [Hybrid.namesToArray]. repeat split; assumption.
Qed.

(** X21.  What the PDF parser files a line under, for every list of lines,
    every page count and every returned scene.  An action is a trimmed line
    of the script that is no scene heading, no transition, no page number,
    no page footer, and does not look like a character name.  An actor is
    the cleaned name of a trimmed line of the script that looks like a
    character name.  Every line of a dialogue entry is a trimmed line of the
    script that is no scene heading, no transition, no page number, no page
    footer, no parenthetical and no likely action line. *)
Theorem pdf_lines_classified (lines : list JS.str) (totalPages : nat) :
  exists scenes,
    Pdf.parseScenes lines totalPages = Some scenes
    /\ forall s, In s scenes ->
         (forall a, In a (Pdf.action s) ->
            (exists x, In x lines /\ a = JS.trim x)
            /\ Pdf.isSceneHeading a = false /\ Pdf.isTransition a = false
            /\ Pdf.isPageNumber a = false /\ Pdf.isPageFooter a = false
            /\ Pdf.looksLikeCharacterName a = false)
         /\ (forall n, In n (Pdf.actors s) ->
               exists l, (exists x, In x lines /\ l = JS.trim x)
                         /\ n = Pdf.cleanCharacterName l
                         /\ Pdf.looksLikeCharacterName l = true)
         /\ (forall d l, In d (Pdf.dialogue s) -> In l (Pdf.d_lines d) ->
               (exists x, In x lines /\ l = JS.trim x)
               /\ Pdf.isSceneHeading l = false /\ Pdf.isTransition l = false
               /\ Pdf.isPageNumber l = false /\ Pdf.isPageFooter l = false
               /\ Pdf.isParenthetical l = false /\ Pdf.isLikelyActionLine l = false).
Proof.
  destruct (PdfLoop.pdf_parseScenes_total lines totalPages) as (scenes & Hs).
  exists scenes. split; [exact Hs|]. intros s Hin.
  destruct (PdfFields.pdf_parseScenes_shape lines totalPages scenes Hs s Hin)
    as (s0 & -> & _ & _ & _ & _ & K).
  exact K.
Qed.

(* ===================================================================== *)
(** * What a capture group holds *)
(* ===================================================================== *)

(** The strings a pattern can match, anchors aside, and the soundness of
    the matcher for them: whatever a successful match hands to its
    continuation has consumed a string of the pattern, and every capture
    recorded on the way holds a string of its group. *)
Module Captures.
Import JS Regex.

Fixpoint lang (r : regex) (w : str) : Prop :=
  match r with
  | Eps | Bos | Eos | WordB => w = []
  | Cls p => exists c, w = [c] /\ p c = true
  | Rep _ p lo hi =>
      Forall (fun c => p c = true) w /\ lo <= length w
      /\ match hi with Some h => length w <= h | None => True end
  | Cat a b => exists u v, w = u ++ v /\ lang a u /\ lang b v
  | Alt a b => lang a w \/ lang b w
  | Grp _ a => lang a w
  end.

(** The groups that every match of the pattern sets. *)
Fixpoint binds (r : regex) (n : nat) : bool :=
  match r with
  | Cat a b => binds a n || binds b n
  | Alt a b => binds a n && binds b n
  | Grp m a => (n =? m) || binds a n
  | _ => false
  end.

Lemma orElse_cases (R : Type) (a b : option R) (r : R) :
  orElse a b = Some r -> a = Some r \/ b = Some r.
Proof. destruct a; simpl; auto. Qed.

Lemma rep_inv (R : Type) (g : bool) (p : char -> bool) (s : str) :
  forall lo hi pos prev cs (k : cont R) res,
    rep g p lo hi pos prev s cs k = Some res ->
    exists w s' prev',
      s = w ++ s' /\ Forall (fun c => p c = true) w /\ lo <= length w
      /\ match hi with Some h => length w <= h | None => True end
      /\ k (pos + length w) prev' s' cs = Some res.
Proof.
  induction s as [|c t IH]; intros lo hi pos prev cs k res H.
  - cbn [rep] in H.
    assert (Hstop : match lo with O => k pos prev [] cs | S _ => None end = Some res).
    { destruct g; apply orElse_cases in H; destruct H as [H|H];
        try discriminate H; exact H. }
    destruct lo; [|discriminate]. exists [], [], prev. rewrite Nat.add_0_r.
    repeat split; [constructor|apply Nat.le_refl|destruct hi; [apply Nat.le_0_l|exact I]
                   |exact Hstop].
  - cbn [rep] in H.
    assert (Hcases : match lo with O => k pos prev (c :: t) cs | S _ => None end = Some res
                     \/ (if p c && hiAllows hi
                         then rep g p (pred lo) (option_map pred hi) (S pos) (Some c) t cs k
                         else None) = Some res).
    { destruct g; apply orElse_cases in H; tauto. }
    destruct Hcases as [Hstop|Hmore].
    + destruct lo; [|discriminate]. exists [], (c :: t), prev. rewrite Nat.add_0_r.
      repeat split; [constructor|apply Nat.le_refl|destruct hi; [apply Nat.le_0_l|exact I]
                     |exact Hstop].
    + destruct (p c) eqn:Hp; [|discriminate]. destruct (hiAllows hi) eqn:Hh; [|discriminate].
      cbn [andb] in Hmore.
      destruct (IH _ _ _ _ _ _ _ Hmore) as (w & s' & prev' & -> & Hw & Hlo & Hhi & Hk).
      exists (c :: w), s', prev'. cbn [length app].
      rewrite Nat.add_succ_r. split; [reflexivity|]. split; [now constructor|].
      split; [lia|]. split; [|exact Hk].
      destruct hi as [[|h]|]; cbn [option_map pred hiAllows] in *;
        [discriminate|lia|exact I].
Qed.

Section Subject.
Variable subject : str.
Variable Q : nat -> str -> Prop.

(** Every group of the pattern holds what [Q] says. *)
Fixpoint groupsOK (r : regex) : Prop :=
  match r with
  | Grp n a => (forall w, lang a w -> Q n w) /\ groupsOK a
  | Cat a b | Alt a b => groupsOK a /\ groupsOK b
  | _ => True
  end.

Definition capsQ (cs : caps) : Prop :=
  forall n b e, In (n, (b, e)) cs -> Q n (slice subject b e).

(** The matcher stands at offset [pos], with [s] left to read. *)
Definition at_ (pos : nat) (s : str) : Prop :=
  exists pre, subject = pre ++ s /\ length pre = pos.

Lemma at_app (pos : nat) (w s : str) : at_ pos (w ++ s) -> at_ (pos + length w) s.
Proof.
  intros (pre & E & L). exists (pre ++ w). split; [now rewrite <- app_assoc|].
  rewrite length_app. lia.
Qed.

Lemma at_slice (pos : nat) (w s : str) :
  at_ pos (w ++ s) -> slice subject pos (pos + length w) = w.
Proof.
  intros (pre & E & L). unfold slice. rewrite E. subst pos.
  replace (length pre + length w - length pre) with (length w) by lia.
  rewrite skipn_app, skipn_all, Nat.sub_diag. cbn [skipn app].
  rewrite firstn_app, firstn_all, Nat.sub_diag. cbn [firstn]. apply app_nil_r.
Qed.

Lemma run_inv (R : Type) (r : regex) :
  groupsOK r ->
  forall pos prev s cs (k : cont R) res,
    at_ pos s -> capsQ cs ->
    run r pos prev s cs k = Some res ->
    exists w s' prev' cs',
      s = w ++ s' /\ lang r w /\ capsQ cs'
      /\ (forall n, binds r n = true \/ capture n cs <> None -> capture n cs' <> None)
      /\ k (pos + length w) prev' s' cs' = Some res.
Proof.
  induction r as [|p|g p lo hi|a IHa b IHb|a IHa b IHb|m a IHa| | |];
    intros Hg pos prev s cs k res Hat Hcs H; cbn [run] in H.
  - exists [], s, prev, cs. rewrite Nat.add_0_r. cbn [lang binds].
    repeat split; try assumption. intros n [F|F]; [discriminate|exact F].
  - destruct s as [|c t]; [discriminate|]. destruct (p c) eqn:Hp; [|discriminate].
    exists [c], t, (Some c), cs. rewrite Nat.add_1_r. cbn [lang binds].
    split; [reflexivity|]. split; [eauto|]. split; [exact Hcs|]. split; [|exact H].
    intros n [F|F]; [discriminate|exact F].
  - destruct (rep_inv _ _ _ _ _ _ _ _ _ _ _ H) as (w & s' & prev' & E & Hw & Hlo & Hhi & Hk).
    exists w, s', prev', cs. cbn [lang binds]. split; [exact E|]. split; [auto|].
    split; [exact Hcs|]. split; [|exact Hk]. intros n [F|F]; [discriminate|exact F].
  - destruct Hg as [Ga Gb].
    destruct (IHa Ga _ _ _ _ _ _ Hat Hcs H) as (u & s1 & prev1 & cs1 & -> & Lu & C1 & B1 & H1).
    apply at_app in Hat.
    destruct (IHb Gb _ _ _ _ _ _ Hat C1 H1) as (v & s2 & prev2 & cs2 & -> & Lv & C2 & B2 & H2).
    exists (u ++ v), s2, prev2, cs2. rewrite length_app, Nat.add_assoc, <- app_assoc.
    cbn [lang binds]. split; [reflexivity|]. split; [eauto|]. split; [exact C2|].
    split; [|exact H2]. intros n Hn. apply B2. rewrite orb_true_iff in Hn.
    destruct Hn as [[Hn|Hn]|Hn]; [right; apply B1; now left|now left|right; apply B1; now right].
  - destruct Hg as [Ga Gb]. apply orElse_cases in H. destruct H as [H|H].
    + destruct (IHa Ga _ _ _ _ _ _ Hat Hcs H) as (w & s' & prev' & cs' & E & L & C & B & Hk).
      exists w, s', prev', cs'. cbn [lang binds]. split; [exact E|]. split; [now left|].
      split; [exact C|]. split; [|exact Hk]. intros n Hn. apply B.
      rewrite andb_true_iff in Hn. tauto.
    + destruct (IHb Gb _ _ _ _ _ _ Hat Hcs H) as (w & s' & prev' & cs' & E & L & C & B & Hk).
      exists w, s', prev', cs'. cbn [lang binds]. split; [exact E|]. split; [now right|].
      split; [exact C|]. split; [|exact Hk]. intros n Hn. apply B.
      rewrite andb_true_iff in Hn. tauto.
  - destruct Hg as [Gm Ga].
    destruct (IHa Ga _ _ _ _ _ _ Hat Hcs H) as (w & s' & prev' & cs' & -> & L & C & B & Hk).
    exists w, s', prev', ((m, (pos, pos + length w)) :: cs'). cbn [lang binds].
    split; [reflexivity|]. split; [exact L|]. split; [|split; [|exact Hk]].
    + intros n b e [E|Hin]; [|now apply C]. inversion E; subst; clear E.
      rewrite (at_slice _ _ _ Hat). now apply Gm.
    + intros n Hn. cbn [capture]. destruct (n =? m) eqn:En; [discriminate|].
      apply B. cbn [orb] in Hn. exact Hn.
  - destruct pos; [|discriminate]. exists [], s, prev, cs. cbn [lang binds length].
    repeat split; try assumption. intros n [F|F]; [discriminate|exact F].
  - destruct s; [|discriminate]. exists [], [], prev, cs. rewrite Nat.add_0_r.
    cbn [lang binds]. repeat split; try assumption. intros n [F|F]; [discriminate|exact F].
  - destruct (xorb _ _); [|discriminate]. exists [], s, prev, cs. rewrite Nat.add_0_r.
    cbn [lang binds]. repeat split; try assumption. intros n [F|F]; [discriminate|exact F].
Qed.

Lemma execFrom_caps (r : regex) (s : str) :
  groupsOK r ->
  forall pos prev b e cs,
    at_ pos s -> execFrom r pos prev s = Some (b, e, cs) ->
    capsQ cs /\ forall n, binds r n = true -> capture n cs <> None.
Proof.
  intros Hg. induction s as [|c t IH]; intros pos prev b e cs Hat H; cbn [execFrom] in H.
  - destruct (matchAt r pos prev []) as [[e' cs']|] eqn:M; [|discriminate].
    inversion H; subst; clear H. unfold matchAt in M.
    destruct (run_inv _ r Hg _ _ _ _ _ _ Hat (fun n b e (F : In _ []) => match F with end) M)
      as (w & s' & prev' & cs1 & _ & _ & C & B & Hk).
    inversion Hk; subst. split; [exact C|]. intros n Hn. apply B. now left.
  - destruct (matchAt r pos prev (c :: t)) as [[e' cs']|] eqn:M.
    + inversion H; subst; clear H. unfold matchAt in M.
      destruct (run_inv _ r Hg _ _ _ _ _ _ Hat (fun n b e (F : In _ []) => match F with end) M)
        as (w & s' & prev' & cs1 & _ & _ & C & B & Hk).
      inversion Hk; subst. split; [exact C|]. intros n Hn. apply B. now left.
    + apply (IH (S pos) (Some c) b e cs); [|exact H].
      replace (S pos) with (pos + length [c]) by (simpl; lia).
      apply at_app. exact Hat.
Qed.

End Subject.

(** What [s.match(r)[n]] holds after a match, for a group that every match
    sets. *)
Lemma group_holds (Q : nat -> str -> Prop) (r : regex) (s : str) (b e : nat) (cs : caps)
      (n : nat) :
  groupsOK Q r -> binds r n = true -> exec r s = Some (b, e, cs) ->
  Q n (group s cs n).
Proof.
  intros Hg Hb H. unfold exec in H.
  destruct (execFrom_caps s Q r s Hg 0 None b e cs) as [C B];
    [exists []; split; reflexivity|exact H|].
  specialize (B n Hb). unfold group.
  destruct (capture n cs) as [[x y]|] eqn:E; [|congruence].
  apply C. clear - E. induction cs as [|[m be] cs IH]; [discriminate|].
  cbn [capture] in E. destruct (n =? m) eqn:En.
  - apply Nat.eqb_eq in En. inversion E; subst. now left.
  - right. now apply IH.
Qed.

(** ** The strings of the literals *)

Lemma lang_lits (f : char -> char -> bool) (l : str) (w : str) :
  lang (seq (map (fun c => Cls (f c)) l)) w -> Forall2 (fun c x => f c x = true) l w.
Proof.
  revert w. induction l as [|c l IH]; intros w H.
  - cbn in H. subst w. constructor.
  - destruct l as [|d l].
    + cbn in H. destruct H as (x & -> & Hx). repeat constructor. exact Hx.
    + change (seq (map (fun c => Cls (f c)) (c :: d :: l)))
        with (Cat (Cls (f c)) (seq (map (fun c => Cls (f c)) (d :: l)))) in H.
      cbn [lang] in H. destruct H as (u & v & -> & (x & -> & Hx) & Hv).
      cbn [app]. constructor; [exact Hx|]. now apply IH.
Qed.

Lemma lang_alt (rs : list regex) (w : str) :
  lang (alt rs) w -> exists r, In r rs /\ lang r w.
Proof.
  induction rs as [|r rs IH]; intros H.
  - cbn in H. destruct H as (c & _ & F). discriminate F.
  - destruct rs as [|r' rs].
    + exists r. split; [now left|exact H].
    + change (alt (r :: r' :: rs)) with (Alt r (alt (r' :: rs))) in H. cbn [lang] in H.
      destruct H as [H|H]; [exists r; split; [now left|exact H]|].
      destruct (IH H) as (x & Hx & Lx). exists x. split; [now right|exact Lx].
Qed.

(** ** Upper-casing ASCII text *)

(** Below U+0080 the case tables hold the letters [a] to [z] only, and no
    surrogate: [toUpperCase] works unit by unit there. *)
Definition asciiUpper (c : char) : char := if isLowerAZ c then (c - 32)%N else c.

Definition ascii (c : char) : Prop := (c < 128)%N.

Lemma upperPoint_ascii (c : char) : ascii c -> upperPoint c = [asciiUpper c].
Proof.
  intros H.
  assert (K : forallb (fun n => str_eqb (upperPoint (N.of_nat n)) [asciiUpper (N.of_nat n)])
                (List.seq 0 128) = true) by (vm_compute; reflexivity).
  rewrite forallb_forall in K. specialize (K (N.to_nat c)).
  rewrite N2Nat.id in K. apply RosterFacts.str_eqb_eq, K, in_seq. unfold ascii in H. lia.
Qed.

Lemma codePoints_ascii (w : str) : Forall ascii w -> codePoints w = w.
Proof.
  induction 1 as [|c t Hc Ht IH]; [reflexivity|].
  assert (E : isHighSurrogate c = false).
  { unfold isHighSurrogate, in_range. unfold ascii in Hc.
    destruct (55296 <=? c)%N eqn:F; [apply N.leb_le in F; lia|reflexivity]. }
  destruct t as [|d t']; [reflexivity|].
  change (codePoints (c :: d :: t'))
    with (if isHighSurrogate c && isLowSurrogate d
          then (65536 + (c - 55296) * 1024 + (d - 56320))%N :: codePoints t'
          else c :: codePoints (d :: t')).
  now rewrite E, IH.
Qed.

Lemma toUpperCase_ascii (w : str) : Forall ascii w -> toUpperCase w = map asciiUpper w.
Proof.
  intros H. unfold toUpperCase. rewrite (codePoints_ascii w H).
  induction H as [|c t Hc Ht IH]; [reflexivity|].
  cbn [flat_map map]. unfold ofCodePoints in *. rewrite flat_map_app, IH.
  rewrite (upperPoint_ascii c Hc). cbn [flat_map]. rewrite app_nil_r.
  assert (E : codeUnits (asciiUpper c) = [asciiUpper c]).
  { unfold codeUnits. assert (asciiUpper c < 65536)%N.
    { unfold asciiUpper, ascii in *. destruct (isLowerAZ c); lia. }
    destruct (asciiUpper c <? 65536)%N eqn:F; [reflexivity|apply N.ltb_ge in F; lia]. }
  now rewrite E.
Qed.

(** A code unit below [a]: upper-casing leaves it as it is, and the [i]
    flag matches it with itself and with its lower-case letter only. *)
Definition plain (c : char) : bool := (c <? 97)%N.

Lemma chrI_upper (c x : char) :
  plain c = true -> chrI c x = true ->
  ascii x /\ asciiUpper x = c /\ (c <> 46%N -> x <> 46%N).
Proof.
  unfold plain, chrI, canon, asciiUpper, ascii, isLowerAZ, in_range. intros Hc H.
  apply N.ltb_lt in Hc. apply N.eqb_eq in H.
  destruct (97 <=? c)%N eqn:E1; [apply N.leb_le in E1; lia|]. cbn [andb] in H.
  destruct ((97 <=? x)%N && (x <=? 122)%N) eqn:E2.
  - apply andb_true_iff in E2. destruct E2 as [A B]. apply N.leb_le in A, B.
    split; [lia|]. split; [exact H|]. intros _. lia.
  - subst x. split; [lia|]. split; [reflexivity|auto].
Qed.

Lemma litI_upper (s : string) (w : str) :
  forallb plain (js s) = true -> lang (litI s) w ->
  toUpperCase w = js s /\ (~ In 46%N (js s) -> ~ In 46%N w).
Proof.
  unfold litI. intros Hp H. apply lang_lits in H.
  enough (K : Forall ascii w /\ map asciiUpper w = js s
              /\ (~ In 46%N (js s) -> ~ In 46%N w)).
  { destruct K as (A & B & C). split; [|exact C]. now rewrite toUpperCase_ascii. }
  revert Hp.
  induction H as [|c x l w Hcx Hlw IH]; intros Hp;
    [split; [constructor|split; [reflexivity|auto]]|].
  cbn [forallb] in Hp. apply andb_true_iff in Hp. destruct Hp as [Hc Hl].
  destruct (chrI_upper c x Hc Hcx) as (A & U & D). destruct (IH Hl) as (IA & IU & ID).
  split; [now constructor|]. split; [cbn [map]; now rewrite U, IU|].
  intros Hn [E|Hin].
  - apply D; [|exact E]. intros F. apply Hn. left. exact F.
  - apply ID; [|exact Hin]. intros F. apply Hn. now right.
Qed.

Lemma replaceFirst_dot (u v : str) :
  ~ In 46%N u -> v = [] \/ v = [46%N] ->
  replaceFirst (js ".") [] (u ++ v) = u.
Proof.
  intros Hu Hv. induction u as [|x u IH].
  - destruct Hv as [->| ->]; reflexivity.
  - cbn [app replaceFirst]. change (js ".") with [46%N]. cbn [startsWith].
    destruct (46 =? x)%N eqn:E.
    + apply N.eqb_eq in E. exfalso. apply Hu. left. now symmetry.
    + cbn [andb]. f_equal. apply IH. intros F. apply Hu. now right.
Qed.

Lemma lang_opt_dot (v : str) : lang (opt (chr (ch "."))) v -> v = [] \/ v = [46%N].
Proof.
  unfold opt. cbn [lang]. intros (Hf & _ & Hl).
  destruct v as [|x [|y v]]; [now left| |simpl in Hl; lia].
  right. inversion Hf as [|? ? Hx _]; subst. unfold chr in Hx. apply N.eqb_eq in Hx.
  now subst x.
Qed.

(** [g.replace('.', '').toUpperCase()] of what [(s\.?)] has matched under
    the [i] flag. *)
Lemma prefix_value (s : string) (w : str) :
  forallb plain (js s) = true -> ~ In 46%N (js s) ->
  lang (Cat (litI s) (opt (chr (ch ".")))) w ->
  toUpperCase (replaceFirst (js ".") [] w) = js s.
Proof.
  intros Hp Hd H. cbn [lang] in H. destruct H as (u & v & -> & Hu & Hv).
  destruct (litI_upper s u Hp Hu) as [U D].
  rewrite replaceFirst_dot; [exact U|now apply D|].
  now apply lang_opt_dot.
Qed.

End Captures.

Module HeadingValues.
Import JS Regex Pat Captures.

(** What the groups of the heading patterns hold: the prefix in group 1,
    the time of day in group 3. *)
Definition headQ (pre : regex) (n : nat) (w : str) : Prop :=
  match n with
  | 1 => lang pre w
  | 3 => lang times w
  | _ => True
  end.

Fixpoint nogroups (r : regex) : bool :=
  match r with
  | Grp _ _ => false
  | Cat a b | Alt a b => nogroups a && nogroups b
  | _ => true
  end.

Lemma nogroups_ok (Q : nat -> str -> Prop) (r : regex) : nogroups r = true -> groupsOK Q r.
Proof.
  induction r; cbn [nogroups groupsOK]; intros H; try exact I; try discriminate;
    apply andb_true_iff in H; destruct H; split; auto.
Qed.

Lemma parseDash_groups (pre : regex) :
  nogroups pre = true -> groupsOK (headQ pre) (parseDash pre).
Proof.
  intros H. unfold parseDash. cbn [seq groupsOK].
  repeat split; try (apply nogroups_ok; first [exact H|reflexivity]); auto.
Qed.

Lemma parseDot_groups (pre : regex) :
  nogroups pre = true -> groupsOK (headQ pre) (parseDot pre).
Proof.
  intros H. unfold parseDot. cbn [seq groupsOK].
  repeat split; try (apply nogroups_ok; first [exact H|reflexivity]); auto.
Qed.

Lemma parseRest_groups (pre : regex) :
  nogroups pre = true -> groupsOK (headQ pre) (parseRest pre).
Proof.
  intros H. unfold parseRest. cbn [seq groupsOK].
  repeat split; try (apply nogroups_ok; first [exact H|reflexivity]); auto.
Qed.

Definition prefixes4 : list string := [ "INT"; "EXT"; "INT/EXT"; "I/E" ]%string.
Definition prefixes3 : list string := [ "INT"; "EXT"; "INT/EXT" ]%string.
Definition timeNames : list string :=
  [ "DAY"; "NIGHT"; "LATER"; "MORNING"; "EVENING"; "DAWN"; "DUSK";
    "CONTINUOUS"; "SAME TIME"; "MOMENTS LATER" ]%string.

Lemma notin_dot (l : str) : existsb (N.eqb 46%N) l = false -> ~ In 46%N l.
Proof.
  intros H F. assert (X : existsb (N.eqb 46%N) l = true); [|congruence].
  apply existsb_exists. exists 46%N. split; [exact F|apply N.eqb_refl].
Qed.

Lemma prefixes_value (names : list string) (w : str) :
  forallb (fun s => forallb plain (js s) && negb (existsb (N.eqb 46%N) (js s))) names = true ->
  lang (alt (map (fun s => Cat (litI s) (opt (chr (ch ".")))) names)) w ->
  In (toUpperCase (replaceFirst (js ".") [] w)) (map js names).
Proof.
  intros Hn H. apply lang_alt in H. destruct H as (r & Hr & L).
  apply in_map_iff in Hr. destruct Hr as (s & <- & Hs).
  rewrite forallb_forall in Hn. specialize (Hn s Hs). apply andb_true_iff in Hn.
  destruct Hn as [Hp Hd]. apply negb_true_iff in Hd.
  rewrite (prefix_value s w Hp (notin_dot _ Hd) L). now apply in_map.
Qed.

Lemma times_value (w : str) : lang times w -> In (toUpperCase w) (map js timeNames).
Proof.
  intros H. unfold times in H. apply lang_alt in H. destruct H as (r & Hr & L).
  apply in_map_iff in Hr. destruct Hr as (s & <- & Hs).
  assert (Hp : forallb (fun s => forallb plain (js s)) timeNames = true) by reflexivity.
  rewrite forallb_forall in Hp.
  destruct (litI_upper s w (Hp s Hs) L) as [-> _]. now apply in_map.
Qed.

Lemma prefix4_value (w : str) :
  lang prefix4 w -> In (toUpperCase (replaceFirst (js ".") [] w)) (map js prefixes4).
Proof. apply (prefixes_value prefixes4). reflexivity. Qed.

Lemma prefix3_value (w : str) :
  lang prefix3 w -> In (toUpperCase (replaceFirst (js ".") [] w)) (map js prefixes3).
Proof. apply (prefixes_value prefixes3). reflexivity. Qed.

(** The values of a heading: [intExt] among [names], [time] among the ten
    times of day, [location] without white space around it. *)
Definition valuesIn (names : list string) (h : Hybrid.Heading) : Prop :=
  In (Hybrid.h_intExt h) (map js names)
  /\ In (Hybrid.h_time h) (map js timeNames)
  /\ trim (Hybrid.h_location h) = Hybrid.h_location h.

Lemma matched_values (pre : regex) (names : list string) (r : regex) (timed : bool)
      (heading : str) (b e : nat) (m : caps) :
  (forall w, lang pre w -> In (toUpperCase (replaceFirst (js ".") [] w)) (map js names)) ->
  groupsOK (headQ pre) r -> binds r 1 = true -> (timed = true -> binds r 3 = true) ->
  exec r heading = Some (b, e, m) ->
  valuesIn names
    (Hybrid.mkHeading (toUpperCase (replaceFirst (js ".") [] (group heading m 1)))
                      (trim (group heading m 2))
                      (if timed then toUpperCase (group heading m 3) else js "DAY")).
Proof.
  intros Hpre Hg H1 H3 E. unfold valuesIn.
  cbn [Hybrid.h_intExt Hybrid.h_time Hybrid.h_location].
  split; [|split; [|apply NormalizeFacts.trim_idem]].
  - apply Hpre. exact (group_holds (headQ pre) r heading b e m 1 Hg H1 E).
  - destruct timed.
    + apply times_value. exact (group_holds (headQ pre) r heading b e m 3 Hg (H3 eq_refl) E).
    + cbn. tauto.
Qed.

Lemma default_values (names : list string) :
  In (js "INT") (map js names) ->
  valuesIn names (Hybrid.mkHeading (js "INT") (js "Unknown") (js "DAY")).
Proof.
  intros H. unfold valuesIn. cbn [Hybrid.h_intExt Hybrid.h_time Hybrid.h_location].
  split; [exact H|]. split; [cbn; tauto|reflexivity].
Qed.

Lemma hybrid_heading_values (heading : str) :
  valuesIn prefixes4 (Hybrid.parseSceneHeading heading).
Proof.
  unfold Hybrid.parseSceneHeading. cbv zeta.
  destruct (exec Hybrid.parse1 heading) as [[[b e] m]|] eqn:E1.
  { apply (matched_values prefix4 _ Hybrid.parse1 true heading b e m prefix4_value);
      [apply parseDash_groups| | |exact E1]; reflexivity. }
  destruct (exec Hybrid.parse2 heading) as [[[b e] m]|] eqn:E2.
  { apply (matched_values prefix4 _ Hybrid.parse2 true heading b e m prefix4_value);
      [apply parseDot_groups| | |exact E2]; reflexivity. }
  destruct (exec Hybrid.parse3 heading) as [[[b e] m]|] eqn:E3.
  { apply (matched_values prefix4 _ Hybrid.parse3 false heading b e m prefix4_value);
      [apply parseRest_groups| | |exact E3]; first [reflexivity|discriminate]. }
  apply default_values. cbn. tauto.
Qed.

Lemma doc_heading_values (heading : str) :
  valuesIn prefixes4 (Document.parseSceneHeading heading).
Proof.
  unfold Document.parseSceneHeading. cbv zeta.
  destruct (exec (parseDash prefix4) heading) as [[[b e] m]|] eqn:E1.
  { apply (matched_values prefix4 _ (parseDash prefix4) true heading b e m prefix4_value);
      [apply parseDash_groups| | |exact E1]; reflexivity. }
  apply default_values. cbn. tauto.
Qed.

Lemma pdf_heading_values (heading : str) :
  valuesIn prefixes3 (Pdf.parseSceneHeading heading).
Proof.
  unfold Pdf.parseSceneHeading. cbv zeta.
  destruct (exec (parseDash prefix3) heading) as [[[b e] m]|] eqn:E1.
  { apply (matched_values prefix3 _ (parseDash prefix3) true heading b e m prefix3_value);
      [apply parseDash_groups| | |exact E1]; reflexivity. }
  destruct (exec (parseDot prefix3) heading) as [[[b e] m]|] eqn:E2.
  { apply (matched_values prefix3 _ (parseDot prefix3) true heading b e m prefix3_value);
      [apply parseDot_groups| | |exact E2]; reflexivity. }
  destruct (exec (parseRest prefix3) heading) as [[[b e] m]|] eqn:E3.
  { apply (matched_values prefix3 _ (parseRest prefix3) false heading b e m prefix3_value);
      [apply parseRest_groups| | |exact E3]; first [reflexivity|discriminate]. }
  apply default_values. cbn. tauto.
Qed.

Lemma value_filled (names : list string) (x : str) :
  forallb (fun s => truthy (js s)) names = true -> In x (map js names) -> truthy x = true.
Proof.
  intros H Hx. apply in_map_iff in Hx. destruct Hx as (s & <- & Hs).
  rewrite forallb_forall in H. now apply H.
Qed.

End HeadingValues.

(** X22.  The values of a parsed heading, for every string.  In the hybrid
    parser and in the document parser [parseSceneHeading] returns an
    [intExt] that is one of [INT], [EXT], [INT/EXT] and [I/E]; in the PDF
    parser, one of [INT], [EXT] and [INT/EXT].  In the three parsers the
    time of day is one of the ten times of the pattern, in upper case, and
    the location has no white space at its ends. *)
Theorem scene_heading_values (heading : JS.str) :
  HeadingValues.valuesIn HeadingValues.prefixes4 (Hybrid.parseSceneHeading heading)
  /\ HeadingValues.valuesIn HeadingValues.prefixes4 (Document.parseSceneHeading heading)
  /\ HeadingValues.valuesIn HeadingValues.prefixes3 (Pdf.parseSceneHeading heading).
Proof.
  split; [apply HeadingValues.hybrid_heading_values|].
  split; [apply HeadingValues.doc_heading_values|apply HeadingValues.pdf_heading_values].
Qed.

(* ===================================================================== *)
(** * The pages of the document parser *)
(* ===================================================================== *)

Module DocPages.
Import JS Document.

Lemma doc_mapi_numbers (f : str -> str) (g : str -> nat) (l : list str) (i : nat) :
  map pageNumber
      (Hybrid.mapi_from (fun index pageText => mkTextPage (index + 1) (f pageText) (g pageText))
                        i l)
  = List.seq (i + 1) (length l).
Proof.
  revert i. induction l as [|x l IH]; intros i; [reflexivity|].
  cbn [Hybrid.mapi_from map pageNumber length List.seq]. now rewrite IH.
Qed.

Lemma doc_mapi_length (A B : Type) (f : nat -> A -> B) (l : list A) (i : nat) :
  length (Hybrid.mapi_from f i l) = length l.
Proof. revert i. induction l as [|x l IH]; intros i; simpl; [reflexivity|]. now rewrite IH. Qed.

Lemma doc_pages_numbers (text : str) (totalPages : nat) :
  map pageNumber (snd (extractTextPages text totalPages))
  = List.seq 1 (length (snd (extractTextPages text totalPages))).
Proof.
  unfold extractTextPages. cbv zeta. destruct (useFormFeed _ _); cbn [snd].
  - unfold Hybrid.mapi. rewrite doc_mapi_numbers, doc_mapi_length. reflexivity.
  - unfold estimatedPages. cbv zeta. rewrite map_map, length_map, length_seq.
    cbn [pageNumber]. rewrite <- seq_shift. apply map_ext. intros i. lia.
Qed.

Lemma sum_lengths (A B : Type) (f : A -> list B) (l : list A) :
  list_sum (map (fun x => length (f x)) l) = length (flat_map f l).
Proof.
  induction l as [|x l IH]; [reflexivity|]. simpl.
  now rewrite length_app, IH.
Qed.

Lemma estimated_lineCount (text : str) (totalPages : nat) :
  1 <= totalPages ->
  list_sum (map lineCount (estimatedPages text totalPages)) = length (split LF text).
Proof.
  intros HN. unfold estimatedPages. cbv zeta. rewrite map_map. cbn [lineCount].
  set (lines := split LF text). set (L := ceilDiv (length lines) totalPages).
  rewrite (sum_lengths _ _ (fun i => slice lines (i * L) (i * L + L))).
  rewrite PageLines.slices_cover. unfold slice. cbn [Nat.mul Nat.add skipn].
  rewrite Nat.sub_0_r. apply f_equal. apply firstn_all2.
  pose proof (PageLines.ceilDiv_covers (length lines) totalPages HN). fold L in H. lia.
Qed.

Lemma mapi_from_all (A B : Type) (P : B -> Prop) (f : nat -> A -> B) (l : list A) (i : nat) :
  (forall j x, In x l -> P (f j x)) -> forall y, In y (Hybrid.mapi_from f i l) -> P y.
Proof.
  revert i. induction l as [|x l IH]; intros i H y; simpl; [tauto|].
  intros [<-|Hy]; [apply H; now left|]. apply (IH (S i)); [|exact Hy].
  intros j z Hz. apply H. now right.
Qed.

Lemma formFeed_pages (text : str) (totalPages : nat) :
  useFormFeed (length (split FF text)) totalPages = true ->
  length (snd (extractTextPages text totalPages)) <= length (split FF text)
  /\ 2 * length (snd (extractTextPages text totalPages)) <= 3 * totalPages
  /\ forall p, In p (snd (extractTextPages text totalPages)) -> 1 <= lineCount p.
Proof.
  intros U. unfold extractTextPages. cbv zeta. rewrite U. cbn [snd].
  unfold Hybrid.mapi. rewrite doc_mapi_length.
  pose proof (filter_length_le (fun p => truthy (trim p)) (split FF text)) as Hle.
  unfold useFormFeed in U. apply andb_true_iff in U. destruct U as [_ U].
  apply Nat.leb_le in U. split; [exact Hle|]. split; [lia|].
  apply mapi_from_all. intros j x _. cbn [lineCount].
  destruct (split LF x) eqn:E; [now apply StrFacts.split_not_nil in E|simpl; lia].
Qed.

Lemma docLines_sorted (pages : list TextPage) :
  StronglySorted lt (map pageNumber pages) ->
  StronglySorted (fun a b : str * nat => snd a <= snd b) (DocScenes.docLines pages).
Proof.
  unfold DocScenes.docLines. induction pages as [|p pages IH]; intros H; [constructor|].
  cbn [map] in H. inversion H as [|? ? Hs Hall]; subst. cbn [flat_map].
  specialize (IH Hs).
  induction (split LF (rawText p)) as [|l ls IHl]; [exact IH|].
  cbn [map app]. constructor; [exact IHl|]. apply Forall_forall. intros x Hx.
  cbn [snd]. apply in_app_iff in Hx. destruct Hx as [Hx|Hx].
  - apply in_map_iff in Hx. destruct Hx as (y & <- & _). cbn [snd]. lia.
  - apply in_flat_map in Hx. destruct Hx as (q & Hq & Hx). apply in_map_iff in Hx.
    destruct Hx as (y & <- & _). cbn [snd]. rewrite Forall_forall in Hall.
    specialize (Hall (pageNumber q) (in_map pageNumber _ _ Hq)). lia.
Qed.

Lemma docLines_pages (pages : list TextPage) (lp : str * nat) :
  In lp (DocScenes.docLines pages) -> In (snd lp) (map pageNumber pages).
Proof.
  unfold DocScenes.docLines. intros H. apply in_flat_map in H. destruct H as (q & Hq & H).
  apply in_map_iff in H. destruct H as (y & <- & _). cbn [snd]. now apply in_map.
Qed.

Lemma doc_scene_pages (pages : list TextPage) (scenes : list Scene) :
  analyzeScenes pages = Some scenes ->
  map s_pageNumber scenes
  = map snd (filter (fun lp => DocScenes.docOpens (fst lp)) (DocScenes.docLines pages)).
Proof.
  intros H. destruct (DocScenes.doc_analyze_sim pages scenes H) as (_ & _ & Hh).
  apply (f_equal (map snd)) in Hh. rewrite !map_map in Hh. exact Hh.
Qed.

End DocPages.

(** X23.  The numbers of a parse of the document parser agree, for every
    text and page count.  The text pages are numbered 1, 2, ... and
    [metadata.totalPages] is their number.  With estimated page breaks there
    are as many pages as declared and, when at least one page is declared,
    the [lineCount] of the pages add up to the number of lines of the text:
    no line is lost or counted twice.  With form feeds there are at most as
    many pages as form-feed chunks and at most one and a half times the
    declared count, and every page counts at least one line.  Every scene is
    on one of the pages, and the page numbers of the scenes never
    decrease. *)
Theorem doc_parse_numbers (text : JS.str) (totalPages : nat) :
  exists breaks r,
    Document.parseText text totalPages = Some (breaks, r)
    /\ map Document.pageNumber (Document.r_textPages r)
       = List.seq 1 (Document.totalPages (Document.r_metadata r))
    /\ match breaks with
       | Hybrid.EstimatedBreaks =>
           Document.totalPages (Document.r_metadata r) = totalPages
           /\ (1 <= totalPages ->
               list_sum (map Document.lineCount (Document.r_textPages r))
               = length (JS.split JS.LF text))
       | Hybrid.FormFeedBreaks =>
           Document.totalPages (Document.r_metadata r) <= length (JS.split JS.FF text)
           /\ 2 * Document.totalPages (Document.r_metadata r) <= 3 * totalPages
           /\ (forall p, In p (Document.r_textPages r) -> 1 <= Document.lineCount p)
       end
    /\ (forall s, In s (Document.r_scenes r) ->
          1 <= Document.s_pageNumber s <= Document.totalPages (Document.r_metadata r))
    /\ StronglySorted le (map Document.s_pageNumber (Document.r_scenes r)).
Proof.
  unfold Document.parseText.
  pose proof (DocPages.doc_pages_numbers text totalPages) as Hnum.
  pose proof (DocPages.formFeed_pages text totalPages) as Hff.
  pose proof (DocPages.estimated_lineCount text totalPages) as Hest.
  unfold Document.extractTextPages in *. cbv zeta in *.
  destruct (Document.useFormFeed (length (JS.split JS.FF text)) totalPages) eqn:U;
    cbn [snd] in Hnum, Hff;
    match goal with
    | |- context [Document.analyzeScenes ?pages] =>
        destruct (DocumentFacts.doc_analyze_returns pages) as (scenes & Hs); rewrite Hs;
          pose proof (DocPages.doc_scene_pages pages scenes Hs) as Hpg
    end;
    eexists _, _; (split; [reflexivity|]);
    unfold Document.generateMetadata;
    cbn [Document.r_textPages Document.r_scenes Document.r_metadata Document.totalPages];
    (split; [exact Hnum|]); (split; [|split]).
  - exact (Hff eq_refl).
  - intros s Hin. apply (in_map Document.s_pageNumber) in Hin. rewrite Hpg in Hin.
    apply in_map_iff in Hin. destruct Hin as (lp & <- & Hlp). apply filter_In in Hlp.
    destruct Hlp as [Hlp _]. apply DocPages.docLines_pages in Hlp.
    rewrite Hnum in Hlp. apply in_seq in Hlp. lia.
  - rewrite Hpg. apply (ParseFacts.sorted_by _ snd). apply PdfScenes.filter_sorted.
    apply DocPages.docLines_sorted. rewrite Hnum. apply PdfScenes.seq_sorted.
  - split; [|exact Hest]. unfold Document.estimatedPages. cbv zeta.
    now rewrite length_map, length_seq.
  - intros s Hin. apply (in_map Document.s_pageNumber) in Hin. rewrite Hpg in Hin.
    apply in_map_iff in Hin. destruct Hin as (lp & <- & Hlp). apply filter_In in Hlp.
    destruct Hlp as [Hlp _]. apply DocPages.docLines_pages in Hlp.
    rewrite Hnum in Hlp. apply in_seq in Hlp. lia.
  - rewrite Hpg. apply (ParseFacts.sorted_by _ snd). apply PdfScenes.filter_sorted.
    apply DocPages.docLines_sorted. rewrite Hnum. apply PdfScenes.seq_sorted.
Qed.

(* ===================================================================== *)
(** * The replacements of mis-decoded text that never apply *)
(* ===================================================================== *)

Module MojibakeFacts.
Import JS Regex Pat ReplaceFacts NormalizeFacts.

(** The first three replacements of the list, and the six of [A-tilde]. *)
Definition quotes : list (str * str) :=
  [ ([a_circ; euro; tm], js "'");
    ([a_circ; euro; oe], [34%N]);
    ([a_circ; euro], [34%N]) ].

Definition accents : list (str * str) :=
  [ ([A_tilde; 32%N], [224%N]);
    ([A_tilde; 168%N], [232%N]);
    ([A_tilde; 169%N], [233%N]);
    ([A_tilde; 172%N], [236%N]);
    ([A_tilde; 178%N], [242%N]);
    ([A_tilde; 185%N], [249%N]) ].

(** The list without its fourth, fifth and twelfth replacement. *)
Definition live : list (str * str) := quotes ++ accents.

Lemma dead_steps (s : str) : replaceEach mojibake s = replaceEach live s.
Proof.
  change mojibake
    with (quotes ++ [([a_circ; euro; 34%N], [8212%N]); ([a_circ; euro; 34%N], [8211%N])]
                 ++ accents ++ [([112%N; 105%N; A_tilde; 185%N], [112%N; 105%N; 249%N])]).
  unfold live. rewrite !replaceEach_app.
  set (tA := replaceEach quotes s).
  assert (HA : hasPair (N.eqb a_circ) (N.eqb euro) tA = false).
  { apply (replaceEach_kills a_circ euro 2 [34%N]); reflexivity. }
  assert (E45 : replaceEach [([a_circ; euro; 34%N], [8212%N]); ([a_circ; euro; 34%N], [8211%N])] tA
                = tA).
  { rewrite !replaceEach_cons. cbn [fst snd].
    rewrite (lit_same_noPair (N.eqb a_circ) (N.eqb euro) [a_circ; euro; 34%N] [8212%N] tA)
      by (discriminate || reflexivity || exact HA).
    rewrite (lit_same_noPair (N.eqb a_circ) (N.eqb euro) [a_circ; euro; 34%N] [8211%N] tA)
      by (discriminate || reflexivity || exact HA).
    reflexivity. }
  rewrite E45.
  set (tB := replaceEach accents tA).
  assert (HB : hasPair (N.eqb A_tilde) (N.eqb 185%N) tB = false).
  { apply (replaceEach_kills A_tilde 185%N 5 [249%N]); reflexivity. }
  rewrite replaceEach_cons. cbn [fst snd].
  rewrite (lit_same_noPair (N.eqb A_tilde) (N.eqb 185%N) [112%N; 105%N; A_tilde; 185%N]
                           [112%N; 105%N; 249%N] tB)
    by (discriminate || reflexivity || exact HB).
  reflexivity.
Qed.

(** A string without en dash and without em dash. *)
Definition dashFree (s : str) : Prop := ~ In 8211%N s /\ ~ In 8212%N s.

Lemma noneOf_notIn (d : char) (s : str) : noneOf (N.eqb d) s = true <-> ~ In d s.
Proof.
  rewrite noneOf_spec. split.
  - intros H F. specialize (H d F). rewrite N.eqb_refl in H. discriminate H.
  - intros H c Hc. apply N.eqb_neq. intros E. apply H. now subst c.
Qed.

Lemma each_keeps (d : char) (s : str) :
  forallb (keepsChar (N.eqb d)) live = true ->
  noneOf (N.eqb d) s = true -> noneOf (N.eqb d) (replaceEach mojibake s) = true.
Proof. intros Hl Hs. rewrite dead_steps. now apply replaceEach_keeps_noneOf. Qed.

Lemma cleaning_keeps (d : char) (s : str) :
  forallb (keepsChar (N.eqb d)) live = true ->
  N.eqb d LF = false -> N.eqb d 32%N = false -> N.eqb d TAB = false ->
  noneOf (N.eqb d) s = true ->
  noneOf (N.eqb d) (Hybrid.cleanScriptText s) = true
  /\ noneOf (N.eqb d) (Document.cleanScriptText s) = true
  /\ noneOf (N.eqb d) (Pdf.cleanScriptText s) = true.
Proof.
  intros Hl Hlf Hsp Htab Hs.
  assert (Hby1 : noneOf (N.eqb d) [LF] = true) by (cbn; now rewrite Hlf).
  assert (Hby2 : noneOf (N.eqb d) (js "    ") = true) by (cbn; now rewrite Hsp).
  assert (Hby3 : noneOf (N.eqb d) [TAB] = true) by (cbn; now rewrite Htab).
  split; [|split].
  - unfold Hybrid.cleanScriptText. cbv zeta. apply trim_noneOf. apply each_keeps; [exact Hl|].
    apply wsnl_keeps_noneOf; [exact Hlf|].
    repeat (apply lit_keeps_noneOf; [discriminate|assumption|]). exact Hs.
  - unfold Document.cleanScriptText. cbv zeta. apply each_keeps; [exact Hl|].
    repeat (apply lit_keeps_noneOf; [discriminate|assumption|]). exact Hs.
  - unfold Pdf.cleanScriptText. cbv zeta. apply trim_noneOf. apply each_keeps; [exact Hl|].
    apply wsnl_keeps_noneOf; [exact Hlf|].
    repeat (apply lit_keeps_noneOf; [discriminate|assumption|]). exact Hs.
Qed.

End MojibakeFacts.

(** X24.  Three of the twelve replacements of mis-decoded text never apply.
    The fourth and the fifth (the sequences that stand for an em dash and an
    en dash) and the twelfth come after a replacement that has already
    removed every occurrence of the two code units they start with or hold:
    for every string, the twelve replacements give what the other nine give.
    So [cleanScriptText] never writes a dash: the result of the three
    parsers has no en dash and no em dash unless the text had one. *)
Theorem mojibake_dead_replacements (s : JS.str) :
  Pat.replaceEach Pat.mojibake s = Pat.replaceEach MojibakeFacts.live s
  /\ (MojibakeFacts.dashFree s ->
      MojibakeFacts.dashFree (Hybrid.cleanScriptText s)
      /\ MojibakeFacts.dashFree (Document.cleanScriptText s)
      /\ MojibakeFacts.dashFree (Pdf.cleanScriptText s)).
Proof.
  split; [apply MojibakeFacts.dead_steps|].
  intros [H1 H2]. apply MojibakeFacts.noneOf_notIn in H1, H2.
  destruct (MojibakeFacts.cleaning_keeps 8211%N s eq_refl eq_refl eq_refl eq_refl H1)
    as (A1 & A2 & A3).
  destruct (MojibakeFacts.cleaning_keeps 8212%N s eq_refl eq_refl eq_refl eq_refl H2)
    as (B1 & B2 & B3).
  unfold MojibakeFacts.dashFree. rewrite <- !MojibakeFacts.noneOf_notIn. auto.
Qed.

(* ===================================================================== *)
(** * The result of the PDF parser *)
(* ===================================================================== *)

Module PdfEntry.
Import JS Pdf.

(** The callback of [parsed.scenes.map((scene, index) => ...)] *)
Definition resultScene (index : nat) (scene : Scene) : ResultScene :=
  mkResultScene (index + 1) (page scene) (originalHeading scene)
                (orDefault (location scene) (js "Unknown"))
                (orDefault (intExt scene) (js "INT"))
                (orDefault (time scene) (js "DAY"))
                (Some (orDefault (summary scene) []))
                (orDefault (sceneText scene) [])
                (actors scene) (props scene) (Some (action scene)).

Lemma result_numbers (l : list Scene) (i : nat) :
  map rs_sceneNumber (Hybrid.mapi_from resultScene i l) = List.seq (i + 1) (length l).
Proof.
  revert i. induction l as [|x l IH]; intros i; [reflexivity|].
  cbn [Hybrid.mapi_from map length List.seq rs_sceneNumber resultScene]. now rewrite IH.
Qed.

Lemma orDefault_nil (a : str) : orDefault a [] = a.
Proof. now destruct a. Qed.

Lemma orDefault_left (a b : str) : truthy a = true -> orDefault a b = a.
Proof. unfold orDefault. now intros ->. Qed.

Lemma orDefault_filled (a b : str) : b <> [] -> orDefault a b <> [].
Proof. unfold orDefault. destruct a; simpl; [auto|discriminate]. Qed.

Lemma result_texts (l : list Scene) (i : nat) :
  map (fun s => length (rs_text s)) (Hybrid.mapi_from resultScene i l)
  = map (fun s => length (sceneText s)) l.
Proof.
  revert i. induction l as [|x l IH]; intros i; [reflexivity|].
  cbn [Hybrid.mapi_from map rs_text resultScene]. now rewrite orDefault_nil, IH.
Qed.

Lemma text_length (l : list Scene) (n : nat) :
  fold_left (fun sum s => sum + length (sceneText s)) l n
  = n + list_sum (map (fun s => length (sceneText s)) l).
Proof.
  revert n. induction l as [|x l IH]; intros n; simpl; [lia|]. rewrite IH. lia.
Qed.

Lemma result_in (l : list Scene) (i : nat) (r : ResultScene) :
  In r (Hybrid.mapi_from resultScene i l) -> exists j s, In s l /\ r = resultScene j s.
Proof.
  revert i. induction l as [|x l IH]; intros i; simpl; [tauto|].
  intros [<-|H]; [eauto|]. destruct (IH _ H) as (j & s & Hs & E). eauto.
Qed.

Lemma pdf_heading_filled (h : str) : isSceneHeading h = true -> h <> [].
Proof. intros H E. subst h. vm_compute in H. discriminate H. Qed.

Lemma parseScript_returns (text : str) (total : nat) :
  exists scenes,
    parseScenes (filter (fun line => truthy (trim line)) (split LF (cleanScriptText text)))
                total = Some scenes
    /\ parseScript text total
       = Some (scenes, parseCharacters scenes,
               generateMetadata scenes (parseCharacters scenes) total).
Proof.
  unfold parseScript. cbv zeta.
  destruct (PdfLoop.pdf_parseScenes_total
              (filter (fun line => truthy (trim line)) (split LF (cleanScriptText text)))
              total) as (scenes & Hs).
  exists scenes. split; [exact Hs|]. now rewrite Hs.
Qed.

Lemma scene_page_bounds (lines : list str) (total : nat) (scenes : list Scene) (s : Scene) :
  parseScenes lines total = Some scenes -> 1 <= total -> In s scenes ->
  1 <= page s <= total.
Proof.
  intros E HN Hs. pose proof (PdfScenes.parse_heads lines total scenes E) as H.
  assert (Hp : map page scenes
               = map (PdfScenes.pageAt lines total)
                     (filter (PdfScenes.opensAt lines) (List.seq 0 (length lines)))).
  { apply (f_equal (map snd)) in H. rewrite !map_map in H. exact H. }
  apply (in_map page) in Hs. rewrite Hp in Hs. apply in_map_iff in Hs.
  destruct Hs as (i & <- & Hi). apply filter_In in Hi. destruct Hi as [Hi _].
  apply in_seq in Hi. apply PdfScenes.pageAt_bounds; [exact HN|lia].
Qed.

End PdfEntry.

(** X25.  The result of the PDF parser, from the text and the page count
    read.  [parse] always returns.  For a text of at most 100 code units it
    returns the result of [basicParse], whatever the text holds.  For a
    longer text the scenes are numbered 1, 2, 3, ... in order;
    [metadata.pages] is the page count and [metadata.totalLines] is the
    total length of the scene texts in code units; every scene has a
    heading that [isSceneHeading] accepts, an [intExt] among [INT], [EXT]
    and [INT/EXT], a [timeOfDay] among the ten times of day, a [location],
    a [summary] and a [text] that are not empty, and, when the page count
    is at least 1, a page between 1 and the page count. *)
Theorem pdf_parse_result (text : JS.str) (total : nat) :
  exists r,
    Pdf.parse text total = Some r
    /\ (length text <= 100 -> r = Pdf.basicParse)
    /\ (100 < length text ->
        map Pdf.rs_sceneNumber (Pdf.pr_scenes r) = List.seq 1 (length (Pdf.pr_scenes r))
        /\ Pdf.rm_pages (Pdf.pr_metadata r) = total
        /\ Pdf.rm_totalLines (Pdf.pr_metadata r)
           = list_sum (map (fun s => length (Pdf.rs_text s)) (Pdf.pr_scenes r))
        /\ (forall s, In s (Pdf.pr_scenes r) ->
              Pdf.isSceneHeading (Pdf.rs_heading s) = true
              /\ In (Pdf.rs_intExt s) (map JS.js HeadingValues.prefixes3)
              /\ In (Pdf.rs_timeOfDay s) (map JS.js HeadingValues.timeNames)
              /\ Pdf.rs_location s <> []
              /\ (exists t, Pdf.rs_summary s = Some t /\ t <> [])
              /\ Pdf.rs_text s <> []
              /\ (1 <= total -> 1 <= Pdf.rs_page s <= total))).
Proof.
  unfold Pdf.parse.
  destruct (100 <? length text) eqn:L.
  - apply Nat.ltb_lt in L.
    assert (T : JS.truthy text = true) by (destruct text; [simpl in L; lia|reflexivity]).
    rewrite T. cbn [andb].
    destruct (PdfEntry.parseScript_returns text total) as (scenes & Hs & ->).
    change (fun index scene =>
              Pdf.mkResultScene (index + 1) (Pdf.page scene) (Pdf.originalHeading scene)
                (Pdf.orDefault (Pdf.location scene) (JS.js "Unknown"))
                (Pdf.orDefault (Pdf.intExt scene) (JS.js "INT"))
                (Pdf.orDefault (Pdf.time scene) (JS.js "DAY"))
                (Some (Pdf.orDefault (Pdf.summary scene) []))
                (Pdf.orDefault (Pdf.sceneText scene) [])
                (Pdf.actors scene) (Pdf.props scene) (Some (Pdf.action scene)))
      with PdfEntry.resultScene.
    eexists. split; [reflexivity|]. split; [lia|]. intros _.
    cbn [Pdf.pr_scenes Pdf.pr_metadata Pdf.rm_pages Pdf.rm_totalLines].
    unfold Pdf.generateMetadata. cbn [Pdf.m_pages Pdf.textLength]. unfold Hybrid.mapi.
    split.
    { rewrite PdfEntry.result_numbers.
      rewrite <- (length_map Pdf.rs_sceneNumber), PdfEntry.result_numbers, length_seq.
      reflexivity. }
    split; [reflexivity|]. split; [now rewrite PdfEntry.result_texts, PdfEntry.text_length|].
    intros r Hr. apply PdfEntry.result_in in Hr. destruct Hr as (j & s & Hin & ->).
    destruct (PdfFields.pdf_parseScenes_shape _ _ _ Hs s Hin)
      as (s0 & E0 & (H1 & H2) & (rest & H3 & _) & H4 & _ & _).
    pose proof (PdfEntry.scene_page_bounds _ _ _ s Hs) as Hpage.
    subst s. unfold PdfEntry.resultScene, Pdf.arrayNames in *.
    cbn [Pdf.rs_heading Pdf.rs_intExt Pdf.rs_timeOfDay Pdf.rs_location Pdf.rs_summary
         Pdf.rs_text Pdf.rs_page Pdf.page Pdf.originalHeading Pdf.intExt Pdf.location
         Pdf.time Pdf.summary Pdf.sceneText] in *.
    destruct (HeadingValues.pdf_heading_values (Pdf.originalHeading s0)) as (V1 & V2 & _).
    rewrite H2 in V1, V2. cbn [Hybrid.h_intExt Hybrid.h_time] in V1, V2.
    split; [exact H1|].
    split; [rewrite PdfEntry.orDefault_left;
            [exact V1|exact (HeadingValues.value_filled HeadingValues.prefixes3 _ eq_refl V1)]|].
    split; [rewrite PdfEntry.orDefault_left;
            [exact V2|exact (HeadingValues.value_filled HeadingValues.timeNames _ eq_refl V2)]|].
    split; [apply PdfEntry.orDefault_filled; discriminate|].
    split; [exists (Pdf.summary s0); split; [now rewrite PdfEntry.orDefault_nil|exact H4]|].
    split.
    + rewrite PdfEntry.orDefault_nil, H3. apply ServiceFacts.join_filled.
      now apply PdfEntry.pdf_heading_filled.
    + intros HN. exact (Hpage HN Hin).
  - apply Nat.ltb_ge in L. rewrite andb_false_r. eexists. split; [reflexivity|].
    split; [reflexivity|]. intros F. lia.
Qed.

(* ===================================================================== *)
(** * The normal form of a character name *)
(* ===================================================================== *)

Module CueNames.
Import JS Regex ReplaceFacts NormalizeFacts.

(** ** Parentheses *)

Definition isOpen (c : char) : bool := (c =? ch "(")%N.
Definition isClose (c : char) : bool := (c =? ch ")")%N.
Definition isParen (c : char) : bool := isOpen c || isClose c.

(** No opening parenthesis has a closing one after it. *)
Definition noClosed (s : str) : Prop := forall n, parensLen (skipn n s) = None.

(** The same, read off the parentheses of the string alone. *)
Definition good (s : str) : Prop := hasPair isOpen isClose (filter isParen s) = false.

Lemma closeLen_none (t : str) : closeLen t = None <-> noneOf isClose t = true.
Proof.
  induction t as [|d t IH]; cbn [closeLen noneOf forallb]; [tauto|].
  unfold isClose at 1. destruct (d =? ch ")")%N; cbn [negb andb].
  - split; discriminate.
  - fold (noneOf isClose t). rewrite <- IH. destruct (closeLen t); cbn [option_map].
    + split; discriminate.
    + tauto.
Qed.

Lemma parens_noClosed (s out : str) : Scan parensLen [] s out -> noClosed out.
Proof.
  intros H. induction H as [|c t out Hn H IH|s n out Hn H IH]; intros k.
  - now destruct k.
  - destruct k as [|k]; [|exact (IH k)]. cbn [skipn parensLen].
    cbn [parensLen] in Hn. destruct (c =? ch "(")%N; [|reflexivity].
    destruct (closeLen t) eqn:E; [discriminate Hn|]. apply closeLen_none in E.
    assert (E' : closeLen out = None); [|now rewrite E'].
    apply closeLen_none. apply noneOf_Forall.
    eapply scan_forall; [exact H|now apply noneOf_Forall|constructor].
  - exact (IH k).
Qed.

Lemma filter_noParen (s : str) : noneOf isClose s = true -> noneOf isClose (filter isParen s) = true.
Proof.
  intros H. apply noneOf_spec. intros c Hc. apply filter_In in Hc.
  exact (proj1 (noneOf_spec _ _) H c (proj1 Hc)).
Qed.

Lemma noPair_noQ (P Q : char -> bool) (s : str) : noneOf Q s = true -> hasPair P Q s = false.
Proof.
  induction s as [|a t IH]; [reflexivity|]. intros H. rewrite hasPair_cons.
  cbn [noneOf forallb] in H. apply andb_true_iff in H. destruct H as [_ H].
  fold (noneOf Q t) in H. rewrite (IH H), orb_false_r.
  destruct t as [|b t]; cbn [headIs]; [apply andb_false_r|].
  cbn [noneOf forallb] in H. apply andb_true_iff in H. destruct H as [Hb _].
  apply negb_true_iff in Hb. rewrite Hb. apply andb_false_r.
Qed.

Lemma noClosed_good (s : str) : noClosed s -> good s.
Proof.
  unfold good. induction s as [|c t IH]; intros H; [reflexivity|].
  assert (Ht : noClosed t) by (intros n; exact (H (S n))).
  specialize (IH Ht). cbn [filter]. unfold isParen at 1.
  destruct (isOpen c) eqn:Eo; cbn [orb].
  - specialize (H 0). cbn [skipn parensLen] in H. unfold isOpen in Eo. rewrite Eo in H.
    destruct (closeLen t) eqn:E; [discriminate H|]. apply closeLen_none in E.
    apply noPair_noQ. cbn [noneOf forallb]. unfold isClose at 1.
    apply N.eqb_eq in Eo. subst c. cbn [negb andb].
    now apply filter_noParen.
  - destruct (isClose c) eqn:Ec; [|exact IH].
    rewrite hasPair_cons, Eo, IH. reflexivity.
Qed.

Lemma good_tail (c : char) (t : str) : good (c :: t) -> good t.
Proof.
  unfold good. cbn [filter]. destruct (isParen c); [|auto].
  rewrite hasPair_cons. intros H. now apply orb_false_iff in H.
Qed.

Lemma good_open (t : str) :
  hasPair isOpen isClose (ch "(" :: filter isParen t) = false -> noneOf isClose t = true.
Proof.
  induction t as [|d t IH]; [reflexivity|]. cbn [filter noneOf forallb].
  fold (noneOf isClose t). unfold isParen at 1.
  destruct (isClose d) eqn:Ec.
  - rewrite orb_true_r. rewrite hasPair_cons. cbn [headIs]. rewrite Ec.
    intros H. discriminate H.
  - rewrite orb_false_r. cbn [negb andb]. destruct (isOpen d) eqn:Eo.
    + intros H. rewrite hasPair_cons in H. apply orb_false_iff in H. destruct H as [_ H].
      apply IH. unfold isOpen in Eo. apply N.eqb_eq in Eo. now subst d.
    + exact IH.
Qed.

Lemma good_noClosed (s : str) : good s -> noClosed s.
Proof.
  intros H n. revert s H. induction n as [|n IH]; intros s H.
  - cbn [skipn]. destruct s as [|c t]; [reflexivity|]. cbn [parensLen].
    destruct (c =? ch "(")%N eqn:E; [|reflexivity].
    apply N.eqb_eq in E. subst c. unfold good in H. cbn [filter] in H.
    change (isParen (ch "(")) with true in H. cbv iota in H.
    apply good_open in H. apply closeLen_none in H. now rewrite H.
  - destruct s as [|c t]; [reflexivity|]. cbn [skipn]. apply IH. exact (good_tail c t H).
Qed.

(** A replacement that touches no parenthesis keeps them as they are. *)
Lemma scan_filter (m : str -> option nat) (by_ : str) (f : char -> bool) (s out : str) :
  (forall s n, m s = Some n -> filter f (firstn n s) = []) -> filter f by_ = [] ->
  Scan m by_ s out -> filter f out = filter f s.
Proof.
  intros Hm Hb H. induction H as [|c t out Hn H IH|s n out Hn H IH].
  - reflexivity.
  - cbn [filter]. now rewrite IH.
  - rewrite filter_app, Hb, IH. cbn [app].
    rewrite <- (firstn_skipn n s) at 2. rewrite filter_app, (Hm s n Hn). reflexivity.
Qed.

Lemma filter_ws (f : char -> bool) (w : str) :
  (forall c, isWhiteSpace c = true -> f c = false) -> forallb isWhiteSpace w = true ->
  filter f w = [].
Proof.
  intros Hf. induction w as [|c w IH]; [reflexivity|]. cbn [forallb filter]. intros H.
  apply andb_true_iff in H. destruct H as [Hc Hw]. rewrite (Hf c Hc). now apply IH.
Qed.

Lemma filter_trim (f : char -> bool) (s : str) :
  (forall c, isWhiteSpace c = true -> f c = false) -> filter f (trim s) = filter f s.
Proof.
  intros Hf. destruct (trim_split s) as (a & b & Hs & Wa & Wb).
  rewrite Hs at 2. rewrite !filter_app, (filter_ws f a Hf Wa), (filter_ws f b Hf Wb).
  now rewrite app_nil_r.
Qed.

Lemma ws_not_paren (c : char) : isWhiteSpace c = true -> isParen c = false.
Proof.
  intros H. unfold isParen, isOpen, isClose.
  destruct (c =? ch "(")%N eqn:E1; [apply N.eqb_eq in E1; subst c; discriminate H|].
  destruct (c =? ch ")")%N eqn:E2; [apply N.eqb_eq in E2; subst c; discriminate H|].
  reflexivity.
Qed.

(** ** White space *)

Definition oddSpace (c : char) : bool := isWhiteSpace c && negb (c =? 32)%N.

(** Every white space is a space, and no two of them touch. *)
Definition spaced (s : str) : Prop :=
  noneOf oddSpace s = true /\ hasPair isWhiteSpace isWhiteSpace s = false.

Lemma wsLen_none (c : char) (t : str) : wsLen (c :: t) = None -> isWhiteSpace c = false.
Proof. unfold wsLen. cbn [wsRun]. now destruct (isWhiteSpace c). Qed.

Lemma wsRun_head (s : str) : headIs isWhiteSpace (skipn (wsRun s) s) = false.
Proof.
  induction s as [|c t IH]; [reflexivity|]. cbn [wsRun].
  destruct (isWhiteSpace c) eqn:E; [exact IH|]. cbn [skipn headIs]. exact E.
Qed.

Lemma ws_head (by_ s out : str) :
  Scan wsLen by_ s out -> headIs isWhiteSpace s = false -> headIs isWhiteSpace out = false.
Proof.
  intros H Hs. destruct H as [|c t out Hn H|s n out Hn H]; [reflexivity|exact Hs|].
  exfalso. unfold wsLen in Hn. destruct s as [|c t]; [discriminate Hn|].
  cbn [headIs] in Hs. cbn [wsRun] in Hn. rewrite Hs in Hn. discriminate Hn.
Qed.

Lemma ws_spaced (s out : str) : Scan wsLen (js " ") s out -> spaced out.
Proof.
  intros H. induction H as [|c t out Hn H [I1 I2]|s n out Hn H [I1 I2]].
  - split; reflexivity.
  - apply wsLen_none in Hn. split.
    + cbn [noneOf forallb]. unfold oddSpace at 1. rewrite Hn. exact I1.
    + rewrite hasPair_cons, Hn, I2. reflexivity.
  - change (js " " ++ out) with (32%N :: out). split.
    + cbn [noneOf forallb]. exact I1.
    + rewrite hasPair_cons, I2, orb_false_r.
      assert (E : n = wsRun s).
      { unfold wsLen in Hn. destruct (wsRun s); [discriminate|]. now inversion Hn. }
      subst n. rewrite (ws_head _ _ _ H (wsRun_head s)). apply andb_false_r.
Qed.

Lemma spaced_same (s : str) : spaced s -> Scan wsLen (js " ") s s.
Proof.
  induction s as [|c t IH]; intros [H1 H2]; [constructor|].
  cbn [noneOf forallb] in H1. apply andb_true_iff in H1. destruct H1 as [Hc H1].
  rewrite hasPair_cons in H2. apply orb_false_iff in H2. destruct H2 as [Hh H2].
  specialize (IH (conj H1 H2)).
  destruct (isWhiteSpace c) eqn:E.
  - unfold oddSpace in Hc. rewrite E in Hc. cbn [andb] in Hc.
    apply negb_true_iff, negb_false_iff, N.eqb_eq in Hc. subst c.
    cbn [andb] in Hh.
    apply (@scan_match wsLen (js " ") (32%N :: t) 1 t); [|exact IH].
    unfold wsLen. cbn [wsRun]. change (isWhiteSpace 32%N) with true. cbv iota.
    destruct t as [|d t]; [reflexivity|]. cbn [headIs] in Hh. cbn [wsRun]. now rewrite Hh.
  - apply scan_copy; [|exact IH]. unfold wsLen. cbn [wsRun]. now rewrite E.
Qed.

Lemma spaced_trim (s : str) : spaced s -> spaced (trim s).
Proof. intros [H1 H2]. split; [now apply trim_noneOf|now apply trim_noPair]. Qed.

Lemma spaced_lit (pat by_ s : str) :
  pat <> [] -> by_ <> [] -> noneOf isWhiteSpace by_ = true ->
  spaced s -> spaced (replaceAll (litS pat) by_ s).
Proof.
  intros Hp Hb Hw [H1 H2]. split.
  - apply lit_keeps_noneOf; [exact Hp| |exact H1].
    apply noneOf_spec. intros c Hc. unfold oddSpace.
    now rewrite (proj1 (noneOf_spec _ _) Hw c Hc).
  - now apply lit_keeps_noPair.
Qed.

(** ** A literal *)

(** The pattern occurs nowhere. *)
Definition without (pat s : str) : Prop := forall n, litLen pat (skipn n s) = None.

Lemma scan_prefix (m : str -> option nat) (b : char) (w s out : str) :
  Scan m [b] s out -> ~ In b w -> startsWith out w = true -> startsWith s w = true.
Proof.
  revert s out. induction w as [|x w IH]; intros s out H Hb Hw; [now destruct s|].
  destruct H as [|c t out Hn H|s n out Hn H].
  - discriminate Hw.
  - cbn [startsWith] in Hw |- *. apply andb_true_iff in Hw. destruct Hw as [E Hw].
    rewrite E. cbn [andb]. apply (IH t out H); [|exact Hw]. intros F. apply Hb. now right.
  - exfalso. cbn [app startsWith] in Hw. apply andb_true_iff in Hw. destruct Hw as [E _].
    apply N.eqb_eq in E. apply Hb. left. now symmetry.
Qed.

Lemma lit_without (pat : str) (b : char) (s out : str) :
  pat <> [] -> ~ In b pat -> Scan (litLen pat) [b] s out -> without pat out.
Proof.
  intros Hp Hb H. induction H as [|c t out Hn H IH|s n out Hn H IH]; intros k.
  - destruct k; cbn [skipn]; unfold litLen; destruct pat; [congruence|reflexivity
                                                          |congruence|reflexivity].
  - destruct k as [|k]; [|exact (IH k)]. cbn [skipn].
    destruct (litLen pat (c :: out)) eqn:E0; [|reflexivity]. exfalso.
    unfold litLen in E0. destruct (startsWith (c :: out) pat) eqn:E; [|discriminate E0].
    assert (X : startsWith (c :: t) pat = true).
    { apply (scan_prefix (litLen pat) b pat (c :: t) (c :: out)); [|exact Hb|exact E].
      apply scan_copy; assumption. }
    unfold litLen in Hn. rewrite X in Hn. discriminate Hn.
  - destruct k as [|k]; [|exact (IH k)]. cbn [skipn app]. unfold litLen.
    destruct pat as [|x pat]; [congruence|]. cbn [startsWith].
    destruct (x =? b)%N eqn:E; [|reflexivity].
    apply N.eqb_eq in E. exfalso. apply Hb. now left.
Qed.

Lemma without_same (pat by_ s : str) :
  pat <> [] -> without pat s -> replaceAll (litS pat) by_ s = s.
Proof.
  intros Hp H. apply replaceAll_eq with (m := litLen pat).
  - intros. apply matchAt_litS.
  - now apply litLen_bound.
  - now apply scan_same.
Qed.

Lemma without_trim (pat s : str) :
  pat <> [] -> noneOf isWhiteSpace pat = true -> without pat s -> without pat (trim s).
Proof.
  intros Hp Hw H k. destruct (trim_split s) as (a & b & Hs & Wa & Wb).
  unfold litLen. destruct (startsWith (skipn k (trim s)) pat) eqn:E; [|reflexivity].
  exfalso. specialize (H (length a + k)). unfold litLen in H.
  assert (X : startsWith (skipn (length a + k) s) pat = true); [|rewrite X in H; discriminate H].
  rewrite Hs, (Nat.add_comm (length a) k), <- skipn_skipn.
  rewrite (skipn_app (length a)), skipn_all, Nat.sub_diag. cbn [skipn app].
  destruct (Nat.le_gt_cases k (length (trim s))) as [Hk|Hk].
  - rewrite skipn_app. replace (k - length (trim s)) with 0 by lia. cbn [skipn].
    now apply NameFacts.startsWith_app_keep.
  - rewrite skipn_all2 in E by lia. destruct pat; [congruence|discriminate E].
Qed.

(** ** The cleaned name *)

(** A name in normal form: no parenthesis that closes, single spaces for
    white space, none at the ends. *)
Definition canonical (s : str) : Prop := noClosed s /\ spaced s /\ trim s = s.

Lemma wsRun_firstn (s : str) : forallb isWhiteSpace (firstn (wsRun s) s) = true.
Proof.
  induction s as [|c t IH]; [reflexivity|]. cbn [wsRun].
  destruct (isWhiteSpace c) eqn:E; [|reflexivity]. cbn [firstn forallb]. now rewrite E.
Qed.

Lemma ws_keeps_parens (s : str) :
  filter isParen (replaceAll (plus Pat.ws) (js " ") s) = filter isParen s.
Proof.
  apply (scan_filter wsLen (js " ")); [|reflexivity|apply NameFacts.ws_scan].
  intros x n Hn. unfold wsLen in Hn. destruct (wsRun x) eqn:E; [discriminate Hn|].
  inversion Hn; subst n. rewrite <- E. apply filter_ws; [apply ws_not_paren|].
  apply wsRun_firstn.
Qed.

Lemma lit_keeps_parens (pat by_ s : str) :
  pat <> [] -> filter isParen pat = [] -> filter isParen by_ = [] ->
  filter isParen (replaceAll (litS pat) by_ s) = filter isParen s.
Proof.
  intros Hp Hf Hb. apply (scan_filter (litLen pat) by_); [|exact Hb|now apply lit_scan].
  intros x n Hn. unfold litLen in Hn. destruct (startsWith x pat) eqn:E; [|discriminate Hn].
  inversion Hn; subst n. apply startsWith_app in E. rewrite E.
  rewrite firstn_app, firstn_all, Nat.sub_diag. cbn [firstn]. now rewrite app_nil_r.
Qed.

Lemma parens_same (s : str) : noClosed s -> replaceAll Pat.parens [] s = s.
Proof.
  intros H. apply replaceAll_eq with (m := parensLen).
  - intros. apply matchAt_parens.
  - apply NameFacts.parensLen_bound.
  - now apply scan_same.
Qed.

Lemma ws_same (s : str) : spaced s -> replaceAll (plus Pat.ws) (js " ") s = s.
Proof.
  intros H. apply replaceAll_eq with (m := wsLen).
  - intros. apply matchAt_ws.
  - apply NameFacts.wsLen_bound.
  - now apply spaced_same.
Qed.

Lemma hybrid_name_canonical (line : str) :
  canonical (Hybrid.cleanCharacterName line)
  /\ without NameFacts.apostrophe (Hybrid.cleanCharacterName line).
Proof.
  unfold Hybrid.cleanCharacterName. cbv zeta.
  set (l1 := replaceAll Pat.parens [] line).
  set (l2 := replaceAll (plus Pat.ws) (js " ") l1).
  set (l3 := replaceAll (litS [Pat.a_circ; Pat.euro; Pat.tm]) (js "'") l2).
  assert (G1 : good l1) by (apply noClosed_good, (parens_noClosed line), NameFacts.parens_scan).
  assert (G2 : good l2) by (unfold good, l2; now rewrite ws_keeps_parens).
  assert (G3 : good l3).
  { unfold good, l3. rewrite lit_keeps_parens; [exact G2|discriminate|reflexivity|reflexivity]. }
  assert (S2 : spaced l2) by (apply (ws_spaced l1), NameFacts.ws_scan).
  assert (S3 : spaced l3) by (apply spaced_lit; [discriminate|discriminate|reflexivity|exact S2]).
  assert (W3 : without [Pat.a_circ; Pat.euro; Pat.tm] l3).
  { apply (lit_without _ (ch "'") l2); [discriminate| |apply lit_scan; discriminate].
    cbn. intros [F|[F|[F|[]]]]; discriminate F. }
  split; [split; [|split]|].
  - apply good_noClosed. unfold good. rewrite filter_trim; [exact G3|apply ws_not_paren].
  - now apply spaced_trim.
  - apply trim_idem.
  - apply without_trim; [discriminate|reflexivity|exact W3].
Qed.

Lemma hybrid_name_fixed (s : str) :
  canonical s -> without NameFacts.apostrophe s -> Hybrid.cleanCharacterName s = s.
Proof.
  intros (H1 & H2 & H3) H4. unfold Hybrid.cleanCharacterName. cbv zeta.
  rewrite (parens_same s H1), (ws_same s H2).
  rewrite (without_same _ (js "'") s) by (discriminate || exact H4). exact H3.
Qed.

Lemma pdf_name_canonical (line : str) :
  canonical (Pdf.cleanCharacterName line)
  /\ without NameFacts.apostrophe (Pdf.cleanCharacterName line).
Proof. exact (hybrid_name_canonical line). Qed.

Lemma pdf_name_fixed (s : str) :
  canonical s -> without NameFacts.apostrophe s -> Pdf.cleanCharacterName s = s.
Proof. exact (hybrid_name_fixed s). Qed.

Lemma doc_name_canonical (line : str) : canonical (Document.cleanCharacterName line).
Proof.
  unfold Document.cleanCharacterName.
  set (l1 := replaceAll Pat.parens [] line).
  set (l2 := replaceAll (plus Pat.ws) (js " ") l1).
  assert (G1 : good l1) by (apply noClosed_good, (parens_noClosed line), NameFacts.parens_scan).
  assert (G2 : good l2) by (unfold good, l2; now rewrite ws_keeps_parens).
  assert (S2 : spaced l2) by (apply (ws_spaced l1), NameFacts.ws_scan).
  split; [|split].
  - apply good_noClosed. unfold good. rewrite filter_trim; [exact G2|apply ws_not_paren].
  - now apply spaced_trim.
  - apply trim_idem.
Qed.

Lemma doc_name_fixed (s : str) : canonical s -> Document.cleanCharacterName s = s.
Proof.
  intros (H1 & H2 & H3). unfold Document.cleanCharacterName.
  rewrite (parens_same s H1), (ws_same s H2). exact H3.
Qed.

End CueNames.

(** X26.  A cleaned character name is in normal form, and cleaning it
    again changes nothing.  For every line and each of the three parsers,
    in the result of [cleanCharacterName] no opening parenthesis has a
    closing one after it, every white space is a single space between two
    other code units, and there is none at the ends; [cleanCharacterName]
    of the result is the result. *)
Theorem cleanCharacterName_canonical (line : JS.str) :
  (CueNames.canonical (Hybrid.cleanCharacterName line)
   /\ Hybrid.cleanCharacterName (Hybrid.cleanCharacterName line)
      = Hybrid.cleanCharacterName line)
  /\ (CueNames.canonical (Document.cleanCharacterName line)
      /\ Document.cleanCharacterName (Document.cleanCharacterName line)
         = Document.cleanCharacterName line)
  /\ (CueNames.canonical (Pdf.cleanCharacterName line)
      /\ Pdf.cleanCharacterName (Pdf.cleanCharacterName line)
         = Pdf.cleanCharacterName line).
Proof.
  destruct (CueNames.hybrid_name_canonical line) as [H1 H2].
  destruct (CueNames.pdf_name_canonical line) as [P1 P2].
  pose proof (CueNames.doc_name_canonical line) as D1.
  split; [split; [exact H1|now apply CueNames.hybrid_name_fixed]|].
  split; [split; [exact D1|now apply CueNames.doc_name_fixed]|].
  split; [exact P1|now apply CueNames.pdf_name_fixed].
Qed.
